(** * CPU rasterizer: entity store (fecs.h) and frame slicing (optimized_renderer.cpp)

    A shallow embedding of the archetype entity store of
    [assignment/include/optimized/fecs.h], and of the scan-line partition
    and the depth-tested pixel loops of
    [assignment/src/optimized_renderer.cpp].

    Conventions.
    - [std::uint32_t] and [std::uint64_t] values are [Z] with the wrap-around
      written out ([wrap32], [wrap64]); positions in a [std::vector] are [nat].
    - A function whose C++ body can hit an [assert], an out-of-range access or
      [std::terminate] returns [option]; [None] is that abort.
    - [operator new] and the growth of a [std::vector] succeed for every
      request the library accepts: running out of memory is not modelled.
    - A [float] is an IEEE 754 binary32 number ([SpecFloat] at precision 24
      and maximal exponent 128) and every operation on [float]s rounds to
      nearest, ties to even, one operation at a time: no fused multiply-add
      and no excess precision.  The rasteriser is the one compiled without
      [USE_SIMD]. *)

From Stdlib Require Import ZArith Lia List Bool Sorted.
From Stdlib Require SpecFloat.
From stdpp Require Import base option list gmap.

Open Scope Z_scope.

(** ** Machine integers *)

Definition two32 : Z := 4294967296.
Definition two64 : Z := 18446744073709551616.

Definition wrap32 (x : Z) : Z := x mod two32.
Definition wrap64 (x : Z) : Z := x mod two64.

Definition INVALID_ID     : Z := two32 - 1.
Definition INVALID_TABLE  : Z := two32 - 1.
Definition INVALID_ENTITY : Z := two64 - 1.

#[global] Arguments wrap32 : simpl never.
#[global] Arguments wrap64 : simpl never.

Definition u32 (x : Z) : Prop := 0 <= x < two32.
Definition u64 (x : Z) : Prop := 0 <= x < two64.

(** ** ENTITY_CORE *)

Module entity.

(** [struct entity { storage_id value; }] *)
Abbreviation t := Z.

(** [(static_cast<storage_id>(index) << 32u) | static_cast<storage_id>(generation)] *)
Definition make (index generation : Z) : t :=
  Z.lor (wrap64 (Z.shiftl index 32)) generation.

(** [static_cast<fecs_id>(value >> 32)] *)
Definition index (e : t) : Z := wrap32 (Z.shiftr e 32).

(** [static_cast<fecs_id>(value)] *)
Definition generation (e : t) : Z := wrap32 e.

(** [value != INVALID_ENTITY] *)
Definition valid (e : t) : bool := negb (e =? INVALID_ENTITY).

End entity.

#[global] Arguments entity.make : simpl never.
#[global] Arguments entity.index : simpl never.
#[global] Arguments entity.generation : simpl never.
#[global] Arguments entity.valid : simpl never.

(** ** Scan-line partition: [optimized_renderer_core::compute_slice_ranges] *)

Module slices.

Definition kWorkerCount : Z := 5.
Definition kTotalSlices : Z := kWorkerCount + 1.
Definition kRowAlign : Z := 4.

(** [struct worker_range { int y0; int y1; }] *)
Record worker_range := mk_range { y0 : Z; y1 : Z }.

(** [(int)H] for a 32-bit unsigned [H]. *)
Definition to_int (H : Z) : Z :=
  if H <? 2147483648 then H else H - two32.

(** One iteration of the [for (int s = 0; s < total; ++s)] body: from the
    running row [y] to the range of slice [s] and the next [y].  C++ [/] and
    [%] on [int] truncate towards zero: [Z.quot] and [Z.rem]. *)
Definition slice_step (h : Z) (s : Z) (y : Z) : worker_range * Z :=
  let total := kTotalSlices in
  let base := Z.quot h total in
  let rem := Z.rem h total in
  let slice_h := base + (if s <? rem then 1 else 0) in
  let y0 := y in
  let y1 := y + slice_h - 1 in
  let y1 :=
    if s =? total - 1 then h - 1
    else
      let aligned_end :=
        Z.quot (y1 + 1 + (kRowAlign - 1)) kRowAlign * kRowAlign - 1 in
      if aligned_end <? h - 1 then aligned_end else y1 in
  (mk_range y0 y1, y1 + 1).

(** The loop, [s = from, from+1, ...] for [n] iterations; the result is
    the content of [m_ranges] in slice order. *)
Fixpoint slice_loop (h : Z) (n : nat) (s : Z) (y : Z) : list worker_range :=
  match n with
  | O => []
  | S n' =>
      let '(r, y') := slice_step h s y in
      r :: slice_loop h n' (s + 1) y'
  end.

Definition compute_slice_ranges (H : Z) : list worker_range :=
  slice_loop (to_int H) (Z.to_nat kTotalSlices) 0 0.

(** Row [y] belongs to range [r]; the workers and [draw_world] run a range
    only when [y0 <= y1]. *)
Definition in_range (r : worker_range) (y : Z) : bool :=
  (y0 r <=? y) && (y <=? y1 r).

(** How many of the ranges hold row [y]. *)
Definition cover_count (rs : list worker_range) (y : Z) : nat :=
  length (filter (fun r => in_range r y = true) rs).

(** Some range that is run ([y0 <= y1]) reaches row [H] or beyond. *)
Definition overruns (H : Z) : bool :=
  existsb (fun r => (y0 r <=? y1 r) && (H <=? y1 r)) (compute_slice_ranges H).

(** The partition property at height [H]: every row of
    [0, H-1] lies in exactly one range and no other row lies in any. *)
Definition exact_partition (H : Z) (rs : list worker_range) : Prop :=
  ∀ y, cover_count rs y = if (0 <=? y) && (y <? H) then 1%nat else 0%nat.

End slices.

(** ** Pixels of a slice: the integer part of [draw_world_slice] *)

Module raster.

(** The test and the clamps [draw_world_slice(y0, y1)] applies to the
    bounding box of a triangle, [minx..maxx] by [miny..maxy] after
    [floor] and [ceil], for a frame of width [W]; [None] is [continue]. *)
Definition clip_box (W y0 y1 minx maxx miny maxy : Z) : option (Z * Z * Z * Z) :=
  let iW := slices.to_int W in
  if (maxx <? 0) || (maxy <? y0) || (iW <=? minx) || (y1 <? miny) then None
  else
    let minx := if minx <? 0 then 0 else minx in
    let maxx := if iW <=? maxx then iW - 1 else maxx in
    let miny := if miny <? y0 then y0 else miny in
    let maxy := if y1 <? maxy then y1 else maxy in
    if (maxx <? minx) || (maxy <? miny) then None
    else Some (minx, maxx, miny, maxy).

(** [(std::size_t)y * (std::size_t)pitch_pixels + (std::size_t)minx], the
    start of the pointers [cptr] and [zptr] of row [y]. *)
Definition row_start (pitch_pixels minx y : Z) : Z :=
  wrap64 (wrap64 (wrap64 y * wrap64 pitch_pixels) + wrap64 minx).

(** The element [cptr] points at in column [x], after [x - minx]
    increments. *)
Definition pixel_index (pitch_pixels minx y x : Z) : Z :=
  row_start pitch_pixels minx y + (x - minx).

(** The pixels the loops over a clipped box may write. *)
Definition writes (pitch_pixels : Z) (box : Z * Z * Z * Z) (i : Z) : Prop :=
  let '(minx, maxx, miny, maxy) := box in
  ∃ x y, minx ≤ x ≤ maxx ∧ miny ≤ y ≤ maxy ∧ i = pixel_index pitch_pixels minx y x.

End raster.

Module entity_manager.

(** [class entity_manager]: the private members. *)
Record t := mk {
  generations_ : list Z;   (* std::vector<fecs_id> *)
  fragment_    : list Z;   (* std::vector<fecs_id>, used as a stack (back = last) *)
  alive_count_ : Z         (* std::uint32_t *)
}.

Definition empty : t := mk [] [] 0.

(** [alive]: the handle is not the all-ones pattern, its index is inside
    [generations_] and the stored generation is the handle's. *)
Definition alive (m : t) (e : entity.t) : bool :=
  if negb (entity.valid e) then false
  else
    match generations_ m !! Z.to_nat (entity.index e) with
    | Some g => g =? entity.generation e
    | None => false
    end.

(** [create_entity]: pop a recycled index from [fragment_] or append a fresh
    slot of generation 0; [generations_[index]] outside the vector is the
    abort case. *)
Definition create_entity (m : t) : option (t * entity.t) :=
  let '(index, gens, frag) :=
    match last (fragment_ m) with
    | Some i => (i, generations_ m, removelast (fragment_ m))
    | None => (wrap32 (Z.of_nat (length (generations_ m))),
               generations_ m ++ [0], fragment_ m)
    end in
  gen ← gens !! Z.to_nat index;
  Some (mk gens frag (wrap32 (alive_count_ m + 1)), entity.make index gen).

(** [destroy_entity] *)
Definition destroy_entity (m : t) (e : entity.t) : t :=
  if negb (alive m e) then m
  else
    let index := entity.index e in
    mk (alter (fun g => wrap32 (g + 1)) (Z.to_nat index) (generations_ m))
       (fragment_ m ++ [index])
       (wrap32 (alive_count_ m - 1)).

Definition capacity (m : t) : nat := length (generations_ m).

End entity_manager.

(** ** COMPONENT_CORE *)

(** The object representation of a component, and one element slot of a
    column buffer: [None] is raw storage that holds no live object
    (fresh from [operator new], or after the registered [dtor] ran). *)
Abbreviation value := Z.
Abbreviation cell := (option value).

(** A C++ component type [T] as the templates see it: [typeid(T)],
    [sizeof(T)], [alignof(T)] and the value [T()] constructs. *)
Record ctype := mk_ctype {
  ty_index   : nat;
  ty_size    : Z;
  ty_align   : Z;
  ty_default : value
}.

(** [struct component_info].  The three function pointers are the same
    lambdas for every [T]: [dtor] ends the object of a cell, [move_ctor]
    constructs the destination from the source's value, and [default_ctor]
    constructs [T()], recorded here as the value it builds. *)
Record component_info := mk_info {
  info_id        : Z;
  info_type      : nat;
  info_size      : Z;
  info_alignment : Z;
  info_default   : value
}.

Module component_registry.

Record t := mk {
  type_ids_   : gmap nat Z;               (* unordered_map<type_index, component_id> *)
  type_infos_ : list component_info
}.

Definition empty : t := mk ∅ [].

(** [add<T>()]: the existing id of a registered type, else the next id. *)
Definition add (r : t) (T : ctype) : t * Z :=
  match type_ids_ r !! ty_index T with
  | Some id => (r, id)
  | None =>
      let id := wrap32 (Z.of_nat (length (type_infos_ r))) in
      let info := mk_info id (ty_index T) (wrap32 (ty_size T))
                          (wrap32 (ty_align T)) (ty_default T) in
      (mk (<[ty_index T := id]> (type_ids_ r)) (type_infos_ r ++ [info]), id)
  end.

(** [get_id<T>()]: asserts that the type is registered. *)
Definition get_id (r : t) (T : ctype) : option Z :=
  type_ids_ r !! ty_index T.

(** [get_info(id)]: [type_infos_.at(id)]. *)
Definition get_info (r : t) (id : Z) : option component_info :=
  type_infos_ r !! Z.to_nat id.

Definition count (r : t) : nat := length (type_infos_ r).

End component_registry.

(** ** ARCHETYPE_SIGNATURE *)

Module archetype_key.

(** [std::ranges::sort] on component ids: the sorted permutation. *)
Fixpoint insert_sorted (x : Z) (l : list Z) : list Z :=
  match l with
  | [] => [x]
  | y :: l' => if x <=? y then x :: l else y :: insert_sorted x l'
  end.

Definition sort (l : list Z) : list Z := foldr insert_sorted [] l.

(** [erase(std::ranges::unique(ids).begin(), ids.end())]: drop every
    element equal to its predecessor. *)
Fixpoint unique (l : list Z) : list Z :=
  match l with
  | [] => []
  | x :: l' =>
      match l' with
      | [] => [x]
      | y :: _ => if x =? y then unique l' else x :: unique l'
      end
  end.

Definition canonicalise (ids : list Z) : list Z := unique (sort ids).

(** [make_archetype_key] and the [archetype_key] constructors. *)
Definition make_archetype_key (ids : list Z) : list Z := canonicalise ids.

(** [std::ranges::lower_bound(ids, cid) - ids.begin()]: the position of the
    first element that is not less than [cid] ([length ids] for [end()]). *)
Fixpoint lower_bound (ids : list Z) (cid : Z) : nat :=
  match ids with
  | [] => O
  | x :: ids' => if x <? cid then S (lower_bound ids' cid) else O
  end.

(** [contains]: [std::ranges::binary_search], that is the lower bound is
    not [end()] and [cid] is not less than the element there. *)
Definition contains (ids : list Z) (cid : Z) : bool :=
  match ids !! lower_bound ids cid with
  | Some x => negb (cid <? x)
  | None => false
  end.

End archetype_key.

(** ** TABLE_STORAGE_SOA *)

Module column.

Record t := mk {
  info     : component_info;
  data     : list cell;     (* the buffer behind [std::byte* data] *)
  size     : nat;
  capacity : nat
}.

(** [explicit column(const component_info& ci)] *)
Definition new (ci : component_info) : t := mk ci [] 0 0.

(** [grow_to]: a new buffer of [new_capacity] slots; the first [size]
    objects are move-constructed into it and destroyed in the old buffer,
    which is freed. *)
Definition grow_to (c : t) (new_capacity : nat) : t :=
  mk (info c)
     (take (size c) (data c) ++ replicate (new_capacity - size c) None)
     (size c) new_capacity.

Definition reserve (c : t) (new_capacity : nat) : t :=
  if (new_capacity <=? capacity c)%nat then c else grow_to c new_capacity.

(** [stride()]: [info.size], a [std::uint32_t], as a [std::size_t]. *)
Definition stride (c : t) : Z := wrap32 (info_size (info c)).

(** [reserve(new_capacity)] for a capacity the caller of [world::reserve]
    names, any [std::size_t].  [grow_to] asks [operator new] for
    [new_capacity * stride()] bytes, a product in [std::size_t]: when it
    wrapped, the new buffer has room for the whole elements that fit in
    the bytes asked for only.  The first [size] objects are moved into it
    (a move past its end is the abort) and [capacity] becomes
    [new_capacity], whatever the buffer holds. *)
Definition reserve_sized (c : t) (new_capacity : Z) : option t :=
  if new_capacity <=? Z.of_nat (capacity c) then Some c
  else
    let bytes := wrap64 (new_capacity * stride c) in
    let slots := Z.to_nat (if bytes =? new_capacity * stride c then new_capacity
                           else bytes / stride c) in
    if (size c <=? slots)%nat
    then Some (mk (info c)
                  (take (size c) (data c) ++ replicate (slots - size c) None)
                  (size c) (Z.to_nat new_capacity))
    else None.

(** [push_defaults] *)
Definition push_defaults (c : t) : t :=
  let c1 :=
    if (size c =? capacity c)%nat
    then grow_to c (if (capacity c =? 0)%nat then 8 else capacity c * 2)%nat
    else c in
  mk (info c1)
     (<[size c1 := Some (info_default (info c1))]> (data c1))
     (S (size c1)) (capacity c1).

(** [remove_swap]: [dtor(dst)], then [move_ctor(dst, src)] when the row is
    not the last, then [dtor(src)]. *)
Definition remove_swap (c : t) (row : nat) : option t :=
  if (row <? size c)%nat then
    let last_index := (size c - 1)%nat in
    let d1 := <[row := None]> (data c) in
    let d2 := if (row =? last_index)%nat then d1
              else <[row := default None (d1 !! last_index)]> d1 in
    let d3 := <[last_index := None]> d2 in
    Some (mk (info c) d3 (size c - 1)%nat (capacity c))
  else None.

(** [remove_swap_nodestroy]: [memcpy] of the last slot over [row]. *)
Definition remove_swap_nodestroy (c : t) (row : nat) : option t :=
  if (row <? size c)%nat then
    let last_index := (size c - 1)%nat in
    let d1 := if (row =? last_index)%nat then data c
              else <[row := default None (data c !! last_index)]> (data c) in
    Some (mk (info c) d1 (size c - 1)%nat (capacity c))
  else None.

(** The slot [ptr_at_unsafe(row)] points at; outside the buffer there is
    nothing to read or write. *)
Definition read (c : t) (row : nat) : option cell := data c !! row.

Definition write (c : t) (row : nat) (x : cell) : option t :=
  if (row <? length (data c))%nat
  then Some (mk (info c) (<[row := x]> (data c)) (size c) (capacity c))
  else None.

End column.

(** ** WORLD_STORAGE *)

(** [next_pow2_u32] *)
Definition next_pow2_u32 (v : Z) : Z :=
  if v <=? 1 then 1
  else
    let v := wrap32 (v - 1) in
    let v := Z.lor v (Z.shiftr v 1) in
    let v := Z.lor v (Z.shiftr v 2) in
    let v := Z.lor v (Z.shiftr v 4) in
    let v := Z.lor v (Z.shiftr v 8) in
    let v := Z.lor v (Z.shiftr v 16) in
    wrap32 (v + 1).

(** Left fold of a fallible step: the loops whose body can abort. *)
Fixpoint fold_opt {A B} (f : A → B → option A) (a : A) (l : list B) : option A :=
  match l with
  | [] => Some a
  | x :: l' => a' ← f a x; fold_opt f a' l'
  end.

Module table.

Record t := mk {
  id           : Z;
  key          : list Z;               (* archetype_key::component_ids *)
  entities     : list entity.t;
  columns      : list column.t;
  lookup_keys_ : list Z;
  lookup_vals_ : list Z;
  lookup_mask_ : Z
}.

Definition size (tb : t) : nat := length (entities tb).
Definition has (tb : t) (cid : Z) : bool := archetype_key.contains (key tb) cid.
Definition column_count (tb : t) : nat := length (columns tb).

Definition with_rows (tb : t) (es : list entity.t) (cs : list column.t) : t :=
  mk (id tb) (key tb) es cs (lookup_keys_ tb) (lookup_vals_ tb) (lookup_mask_ tb).

(** [column_index]: the lower bound in the key; asserts it is not [end()]. *)
Definition column_index (tb : t) (cid : Z) : option nat :=
  let i := archetype_key.lower_bound (key tb) cid in
  if (i <? length (key tb))%nat then Some i else None.

(** [get_column(cid)] *)
Definition get_column (tb : t) (cid : Z) : option column.t :=
  i ← column_index tb cid; columns tb !! i.

(** [entities[row] = entities[last_index]; entities.pop_back()], shared by
    the two row removals; the entity moved into [row], or [INVALID_ENTITY]. *)
Definition swap_pop (es : list entity.t) (row : nat) : list entity.t * entity.t :=
  let last_index := (length es - 1)%nat in
  if (row =? last_index)%nat then (removelast es, INVALID_ENTITY)
  else
    let swapped := default INVALID_ENTITY (es !! last_index) in
    (removelast (<[row := swapped]> es), swapped).

(** [remove_row_swap_nodestroy] *)
Definition remove_row_swap_nodestroy (tb : t) (row : nat) : option (t * entity.t) :=
  if (row <? size tb)%nat then
    let '(es, swapped) := swap_pop (entities tb) row in
    cs ← mapM (fun c => column.remove_swap_nodestroy c row) (columns tb);
    Some (with_rows tb es cs, swapped)
  else None.

(** [remove_row_swap] *)
Definition remove_row_swap (tb : t) (row : nat) : option (t * entity.t) :=
  if (row <? size tb)%nat then
    let '(es, swapped) := swap_pop (entities tb) row in
    cs ← mapM (fun c => column.remove_swap c row) (columns tb);
    Some (with_rows tb es cs, swapped)
  else None.

(** [add_row] *)
Definition add_row (tb : t) (e : entity.t) : t * nat :=
  (with_rows tb (entities tb ++ [e]) (column.push_defaults <$> columns tb),
   length (entities tb)).

(** The body of the column loop of [add_row_uninitialized]. *)
Definition grow_uninitialized (c : column.t) : column.t :=
  let c1 :=
    if (column.size c =? column.capacity c)%nat
    then column.reserve c
           (if (column.capacity c =? 0)%nat then 8 else column.capacity c * 2)%nat
    else c in
  column.mk (column.info c1) (column.data c1)
            (S (column.size c1)) (column.capacity c1).

(** [add_row_uninitialized] *)
Definition add_row_uninitialized (tb : t) (e : entity.t) : t * nat :=
  (with_rows tb (entities tb ++ [e]) (grow_uninitialized <$> columns tb),
   length (entities tb)).

(** [entities.max_size()] for the 8-byte [entity] and a 64-bit
    [std::ptrdiff_t]: [PTRDIFF_MAX / sizeof(entity)]. *)
Definition max_size : Z := 1152921504606846975.

(** [reserve(val)]: [entities.reserve(val)] throws [std::length_error]
    when [val] exceeds [max_size()], which ends the program in this
    [noexcept] function, and changes no element otherwise; then every
    column reserves. *)
Definition reserve (tb : t) (val : Z) : option t :=
  if max_size <? val then None
  else
    cs ← mapM (fun c => column.reserve_sized c val) (columns tb);
    Some (with_rows tb (entities tb) cs).

(** The slot [get_column(cid).ptr_at_unsafe(row)]. *)
Definition read_cell (tb : t) (cid : Z) (row : nat) : option cell :=
  c ← get_column tb cid; column.read c row.

Definition write_cell (tb : t) (cid : Z) (row : nat) (x : cell) : option t :=
  i ← column_index tb cid;
  c ← columns tb !! i;
  c' ← column.write c row x;
  Some (with_rows tb (entities tb) (<[i := c']> (columns tb))).

(** [default_construct_at], [destroy_at], [copy_construct_at<T>]. *)
Definition default_construct_at (tb : t) (row : nat) (cid : Z) : option t :=
  c ← get_column tb cid;
  write_cell tb cid row (Some (info_default (column.info c))).

Definition destroy_at (tb : t) (row : nat) (cid : Z) : option t :=
  write_cell tb cid row None.

Definition copy_construct_at (tb : t) (row : nat) (cid : Z) (src : value) : option t :=
  write_cell tb cid row (Some src).

(** [hash_cid] *)
Definition hash_cid (cid : Z) : Z :=
  let x := cid in
  let x := Z.lxor x (Z.shiftr x 16) in
  let x := wrap32 (x * 2146121005) in      (* 0x7feb352d *)
  let x := Z.lxor x (Z.shiftr x 15) in
  let x := wrap32 (x * 2221713035) in      (* 0x846ca68b *)
  Z.lxor x (Z.shiftr x 16).

(** [while (lookup_keys_[slot] != INVALID_ID) slot = (slot + 1u) & mask]:
    the first free slot from [slot] on; no result when [fuel] probes found
    none (the loop of the source would not end). *)
Fixpoint probe_free (fuel : nat) (keys : list Z) (mask slot : Z) : option Z :=
  match fuel with
  | O => None
  | S fuel' =>
      k ← keys !! Z.to_nat slot;
      if k =? INVALID_ID then Some slot
      else probe_free fuel' keys mask (Z.land (wrap32 (slot + 1)) mask)
  end.

(** [build_lookup]: the three lookup members. *)
Definition build_lookup (key : list Z) : option (list Z * list Z * Z) :=
  let n := wrap32 (Z.of_nat (length key)) in
  if n =? 0 then Some ([], [], 0)
  else
    let cap := next_pow2_u32 (wrap32 (n * 2)) in
    let keys0 := replicate (Z.to_nat cap) INVALID_ID in
    let vals0 := replicate (Z.to_nat cap) 0 in
    let mask := wrap32 (cap - 1) in
    '(keys, vals) ←
      fold_opt (fun '(keys, vals) i =>
                  cid ← key !! i;
                  slot ← probe_free (Z.to_nat cap) keys mask
                                    (Z.land (hash_cid cid) mask);
                  Some (<[Z.to_nat slot := cid]> keys,
                        <[Z.to_nat slot := Z.of_nat i]> vals))
               (keys0, vals0) (seq 0 (Z.to_nat n));
    Some (keys, vals, mask).

(** [finalize_schema] *)
Definition finalize_schema (tb : t) : option t :=
  '(keys, vals, mask) ← build_lookup (key tb);
  Some (mk (id tb) (key tb) (entities tb) (columns tb) keys vals mask).

(** The probing loop of [column_index_fast_impl]. *)
Fixpoint probe_find (fuel : nat) (tb : t) (cid slot : Z) : option Z :=
  match fuel with
  | O => None
  | S fuel' =>
      k ← lookup_keys_ tb !! Z.to_nat slot;
      if k =? cid then lookup_vals_ tb !! Z.to_nat slot
      else if k =? INVALID_ID then None       (* assert(false) *)
      else probe_find fuel' tb cid (Z.land (wrap32 (slot + 1)) (lookup_mask_ tb))
  end.

(** [column_index_fast] *)
Definition column_index_fast (tb : t) (cid : Z) : option Z :=
  if lookup_mask_ tb =? 0 then
    let i := archetype_key.lower_bound (key tb) cid in
    x ← key tb !! i;
    if x =? cid then Some (wrap32 (Z.of_nat i)) else None
  else
    probe_find (S (length (lookup_keys_ tb))) tb cid
               (Z.land (hash_cid cid) (lookup_mask_ tb)).

End table.

Module world_storage.

Record t := mk {
  schema_version_ : Z;                  (* std::uint64_t *)
  key_tables_     : gmap (list Z) Z;    (* unordered_map<archetype_key, table_id> *)
  tables_         : list table.t
}.

(** [get_table(id)]: [tables_.at(id)]. *)
Definition get_table (st : t) (id : Z) : option table.t :=
  tables_ st !! Z.to_nat id.

Definition table_count (st : t) : nat := length (tables_ st).

(** [create_table]: one empty column per component of the key, looked up
    with [registry_.get_info]; [emplace] keeps an entry that is there. *)
Definition create_table (reg : component_registry.t) (st : t) (key : list Z)
  : option (t * Z) :=
  let id := wrap32 (Z.of_nat (length (tables_ st))) in
  cols ← mapM (fun cid => column.new <$> component_registry.get_info reg cid) key;
  tb ← table.finalize_schema (table.mk id key [] cols [] [] 0);
  let kt := match key_tables_ st !! key with
            | Some _ => key_tables_ st
            | None => <[key := id]> (key_tables_ st)
            end in
  Some (mk (wrap64 (schema_version_ st + 1)) kt (tables_ st ++ [tb]), id).

(** [get_or_create_table(const archetype_key&)] *)
Definition get_or_create_table (reg : component_registry.t) (st : t) (key : list Z)
  : option (t * Z) :=
  match key_tables_ st !! key with
  | Some id => Some (st, id)
  | None => create_table reg st key
  end.

(** [find_table] *)
Definition find_table (st : t) (key : list Z) : Z :=
  default INVALID_TABLE (key_tables_ st !! key).

(** The constructor: an empty store in which the table of the empty
    archetype is created. *)
Definition new (reg : component_registry.t) : option t :=
  fst <$> get_or_create_table reg (mk 0 ∅ [])
                              (archetype_key.make_archetype_key []).

Definition with_tables (st : t) (ts : list table.t) : t :=
  mk (schema_version_ st) (key_tables_ st) ts.

End world_storage.

(** [struct location] *)
Record location := mk_loc { tid : Z; row : Z }.

Definition location_default : location := mk_loc INVALID_TABLE 0.

Definition location_valid (l : location) : bool := negb (tid l =? INVALID_TABLE).

(** A component pointer handed out by the store: the table, the column
    position in the table and the row of the slot it points at. *)
Record pointer := mk_ptr { ptr_table : Z; ptr_column : nat; ptr_row : nat }.

Module world.

Record t := mk {
  entities_    : entity_manager.t;
  registry_    : component_registry.t;
  storage_     : world_storage.t;
  empty_table_ : Z;
  locations_   : list location;
  version_     : Z                      (* std::uint64_t *)
}.

(** [world()] *)
Definition new : option t :=
  st ← world_storage.new component_registry.empty;
  '(st, tid) ← world_storage.get_or_create_table component_registry.empty st
                 (archetype_key.make_archetype_key []);
  Some (mk entity_manager.empty component_registry.empty st tid [] 0).

Definition version (w : t) : Z := version_ w.

Definition bump_version (w : t) : t :=
  mk (entities_ w) (registry_ w) (storage_ w) (empty_table_ w) (locations_ w)
     (wrap64 (version_ w + 1)).

Definition with_entities (w : t) (m : entity_manager.t) : t :=
  mk m (registry_ w) (storage_ w) (empty_table_ w) (locations_ w) (version_ w).

Definition with_storage (w : t) (st : world_storage.t) : t :=
  mk (entities_ w) (registry_ w) st (empty_table_ w) (locations_ w) (version_ w).

Definition with_tables (w : t) (ts : list table.t) : t :=
  with_storage w (world_storage.with_tables (storage_ w) ts).

Definition with_locations (w : t) (ls : list location) : t :=
  mk (entities_ w) (registry_ w) (storage_ w) (empty_table_ w) ls (version_ w).

Definition tables (w : t) : list table.t := world_storage.tables_ (storage_ w).

(** [locations_[index] = l] through [operator[]]: nothing to write outside
    the vector. *)
Definition set_location (w : t) (index : Z) (l : location) : option t :=
  if (Z.to_nat index <? length (locations_ w))%nat
  then Some (with_locations w (<[Z.to_nat index := l]> (locations_ w)))
  else None.

(** [storage_.get_table(id) = tb], writing a table back in place. *)
Definition set_table (w : t) (id : Z) (tb : table.t) : t :=
  with_tables w (<[Z.to_nat id := tb]> (tables w)).

(** [register_component<T>()] *)
Definition register_component (w : t) (T : ctype) : t * Z :=
  let '(r, id) := component_registry.add (registry_ w) T in
  (mk (entities_ w) r (storage_ w) (empty_table_ w) (locations_ w) (version_ w), id).

(** [alive] *)
Definition alive (w : t) (e : entity.t) : bool :=
  entity_manager.alive (entities_ w) e.

(** [ensure_location_capacity]: [resize] fills with default locations. *)
Definition ensure_location_capacity (w : t) (index : Z) : t :=
  if (length (locations_ w) <=? Z.to_nat index)%nat
  then with_locations w
         (locations_ w ++
          replicate (Z.to_nat index + 1 - length (locations_ w)) location_default)
  else w.

(** [create_entity] *)
Definition create_entity (w : t) : option (t * entity.t) :=
  '(m, e) ← entity_manager.create_entity (entities_ w);
  let w := with_entities w m in
  let w := ensure_location_capacity w (entity.index e) in
  tb ← world_storage.get_table (storage_ w) (empty_table_ w);
  let '(tb, row) := table.add_row tb e in
  let w := set_table w (empty_table_ w) tb in
  w ← set_location w (entity.index e)
        (mk_loc (empty_table_ w) (wrap32 (Z.of_nat row)));
  Some (bump_version w, e).

(** [remove_row_dense_and_fixup] *)
Definition remove_row_dense_and_fixup (w : t) (e : entity.t) : option t :=
  loc ← locations_ w !! Z.to_nat (entity.index e);
  if negb (location_valid loc) then None      (* assert(loc.valid()) *)
  else
    tb ← world_storage.get_table (storage_ w) (tid loc);
    '(tb, swapped) ← table.remove_row_swap tb (Z.to_nat (row loc));
    let w := set_table w (tid loc) tb in
    w ← (if entity.valid swapped
         then set_location w (entity.index swapped) (mk_loc (tid loc) (row loc))
         else Some w);
    w ← set_location w (entity.index e) (mk_loc INVALID_TABLE 0);
    Some (bump_version w).

(** [destroy_entity] *)
Definition destroy_entity (w : t) (e : entity.t) : option t :=
  if negb (entity_manager.alive (entities_ w) e) then Some w
  else
    loc ← locations_ w !! Z.to_nat (entity.index e);
    w ← (if location_valid loc then remove_row_dense_and_fixup w e else Some w);
    let w := with_entities w (entity_manager.destroy_entity (entities_ w) e) in
    Some (bump_version w).

(** [get_location] *)
Definition get_location (w : t) (e : entity.t) : location :=
  if negb (entity_manager.alive (entities_ w) e) then location_default
  else default location_default (locations_ w !! Z.to_nat (entity.index e)).

(** [get_component<T>(e)], read through: the value of the component the
    returned reference names. *)
Definition get_component (w : t) (T : ctype) (e : entity.t) : option value :=
  if negb (alive w e) then None                (* assert(alive(e)) *)
  else
    cid ← component_registry.get_id (registry_ w) T;
    loc ← locations_ w !! Z.to_nat (entity.index e);
    if negb (location_valid loc) then None     (* assert(loc.valid()) *)
    else
      tb ← world_storage.get_table (storage_ w) (tid loc);
      if negb (table.has tb cid) then None     (* assert(t.has(cid)) *)
      else
        c ← table.read_cell tb cid (Z.to_nat (row loc));
        c.

(** [try_get_component<T>(e)]: [Some None] is [nullptr]. *)
Definition try_get_component (w : t) (T : ctype) (e : entity.t)
  : option (option pointer) :=
  if negb (alive w e) then Some None
  else
    cid ← component_registry.get_id (registry_ w) T;
    match locations_ w !! Z.to_nat (entity.index e) with
    | None => Some None
    | Some loc =>
        if negb (location_valid loc) then Some None
        else
          tb ← world_storage.get_table (storage_ w) (tid loc);
          if table.has tb cid then
            i ← table.column_index tb cid;
            Some (Some (mk_ptr (tid loc) i (Z.to_nat (row loc))))
          else Some None
    end.

(** [intersect_sorted_ids]: the ids the callback is called with, in order. *)
Fixpoint intersect_sorted_ids (a : list Z) : list Z → list Z :=
  fix aux (b : list Z) : list Z :=
    match a, b with
    | x :: a', y :: b' =>
        if x =? y then x :: intersect_sorted_ids a' b'
        else if x <? y then intersect_sorted_ids a' b
        else aux b'
    | _, _ => []
    end.

(** [get_table_for_signature] *)
Definition get_table_for_signature (w : t) (ids : list Z) : option (t * Z) :=
  let k := archetype_key.canonicalise ids in
  '(st, tid) ← world_storage.get_or_create_table (registry_ w) (storage_ w) k;
  Some (with_storage w st, tid).

(** The callback of [migrate_entity_to_table]: move-construct the
    component [cid] of the old row into the new row, then destroy the
    source. *)
Definition move_component (old_tid new_tid : Z) (old_row new_row : nat)
           (w : t) (cid : Z) : option t :=
  old_table ← world_storage.get_table (storage_ w) old_tid;
  src ← table.read_cell old_table cid old_row;
  new_table ← world_storage.get_table (storage_ w) new_tid;
  new_table ← table.write_cell new_table cid new_row src;
  let w := set_table w new_tid new_table in
  old_table ← world_storage.get_table (storage_ w) old_tid;
  old_table ← table.write_cell old_table cid old_row None;
  Some (set_table w old_tid old_table).

(** The body of the second loop of [migrate_entity_to_table]: destroy the
    components the new archetype does not have. *)
Definition drop_component (old_tid new_tid : Z) (old_row : nat)
           (w : t) (cid : Z) : option t :=
  old_table ← world_storage.get_table (storage_ w) old_tid;
  new_table ← world_storage.get_table (storage_ w) new_tid;
  if table.has new_table cid then Some w
  else
    old_table ← table.write_cell old_table cid old_row None;
    Some (set_table w old_tid old_table).

(** [migrate_entity_to_table] *)
Definition migrate_entity_to_table (w : t) (e : entity.t) (new_tid : Z)
  : option (t * Z) :=
  loc ← locations_ w !! Z.to_nat (entity.index e);
  if negb (location_valid loc) then None       (* assert(loc.valid()) *)
  else
    let old_tid := tid loc in
    let old_row := row loc in
    old_table ← world_storage.get_table (storage_ w) old_tid;
    new_table ← world_storage.get_table (storage_ w) new_tid;
    let '(new_table', r) := table.add_row_uninitialized new_table e in
    let new_row := wrap32 (Z.of_nat r) in
    let w := set_table w new_tid new_table' in
    w ← fold_opt (move_component old_tid new_tid (Z.to_nat old_row) (Z.to_nat new_row))
                 w (intersect_sorted_ids (table.key old_table) (table.key new_table));
    w ← fold_opt (drop_component old_tid new_tid (Z.to_nat old_row))
                 w (table.key old_table);
    old_table ← world_storage.get_table (storage_ w) old_tid;
    '(old_table, swapped) ← table.remove_row_swap_nodestroy old_table (Z.to_nat old_row);
    let w := set_table w old_tid old_table in
    w ← (if entity.valid swapped
         then set_location w (entity.index swapped) (mk_loc old_tid old_row)
         else Some w);
    w ← set_location w (entity.index e) (mk_loc new_tid new_row);
    Some (bump_version w, new_row).

(** [add_component<T>(e, opt_value)]: [v = None] is the [nullptr] of the
    overload without a value. *)
Definition add_component (w : t) (T : ctype) (e : entity.t) (opt_value : option value)
  : option t :=
  if negb (alive w e) then Some w
  else
    cid ← component_registry.get_id (registry_ w) T;
    loc ← locations_ w !! Z.to_nat (entity.index e);
    if negb (location_valid loc) then None     (* assert(loc.valid()) *)
    else
      old_table ← world_storage.get_table (storage_ w) (tid loc);
      if table.has old_table cid then Some w
      else
        let ids := table.key old_table ++ [cid] in
        '(w, new_tid) ← get_table_for_signature w ids;
        '(w, new_row) ← migrate_entity_to_table w e new_tid;
        new_table ← world_storage.get_table (storage_ w) new_tid;
        new_table ←
          match opt_value with
          | Some v => table.copy_construct_at new_table (Z.to_nat new_row) cid v
          | None => table.default_construct_at new_table (Z.to_nat new_row) cid
          end;
        Some (bump_version (set_table w new_tid new_table)).

(** [remove_component<T>(e)] *)
Definition remove_component (w : t) (T : ctype) (e : entity.t) : option t :=
  if negb (alive w e) then Some w
  else
    cid ← component_registry.get_id (registry_ w) T;
    loc ← locations_ w !! Z.to_nat (entity.index e);
    if negb (location_valid loc) then None     (* assert(loc.valid()) *)
    else
      old_table ← world_storage.get_table (storage_ w) (tid loc);
      if negb (table.has old_table cid) then Some w
      else
        let ids := delete (archetype_key.lower_bound (table.key old_table) cid)
                          (table.key old_table) in
        '(w, new_tid) ← get_table_for_signature w ids;
        '(w, _) ← migrate_entity_to_table w e new_tid;
        Some (bump_version w).

(** [reserve<Cs...>(count)]; [count] is a [std::size_t]. *)
Definition reserve (w : t) (Cs : list ctype) (count : Z) : option t :=
  ids ← mapM (component_registry.get_id (registry_ w)) Cs;
  '(st, tid) ← world_storage.get_or_create_table (registry_ w) (storage_ w)
                 (archetype_key.make_archetype_key ids);
  let w := with_storage w st in
  tb ← world_storage.get_table (storage_ w) tid;
  tb ← table.reserve tb count;
  Some (bump_version (set_table w tid tb)).

End world.

(** ** RENDER_CACHE *)

Module render_cache.

(** [struct block]: one pointer to the start of a column per required
    component, and the row count. *)
Record block := mk_block { arrays : list pointer; n : nat }.

Record t := mk {
  initialized_    : bool;
  required_       : list Z;
  matching_       : list Z;
  blocks_         : list block;
  cached_version_ : Z
}.

Definition new : t := mk false [] [] [] (two64 - 1).

Definition blocks (rc : t) : list block := blocks_ rc.
Definition version (rc : t) : Z := cached_version_ rc.

(** [contains_all_sorted] *)
Fixpoint contains_all_sorted (haystack needles : list Z) : bool :=
  match haystack, needles with
  | _, [] => true
  | [], _ :: _ => false
  | h :: haystack', x :: needles' =>
      if h =? x then contains_all_sorted haystack' needles'
      else if h <? x then contains_all_sorted haystack' needles
      else false
  end.

(** [init]: the sorted, de-duplicated ids of the component pack [Cs]. *)
Definition init (Cs : list ctype) (w : world.t) (rc : t) : option t :=
  ids ← mapM (component_registry.get_id (world.registry_ w)) Cs;
  Some (mk true
           (archetype_key.unique (archetype_key.sort (required_ rc ++ ids)))
           (matching_ rc) (blocks_ rc) (cached_version_ rc)).

(** [build_matching]: the new [matching_] and the number of tables read. *)
Definition build_matching (w : world.t) (rc : t) : option (list Z * nat) :=
  let tc := world_storage.table_count (world.storage_ w) in
  fold_opt (fun '(acc, scanned) i =>
              let tid := wrap32 (Z.of_nat i) in
              tb ← world_storage.get_table (world.storage_ w) tid;
              if (length (table.key tb) <? length (required_ rc))%nat
              then Some (acc, S scanned)
              else if contains_all_sorted (table.key tb) (required_ rc)
                   then Some (acc ++ [tid], S scanned)
                   else Some (acc, S scanned))
           ([], O) (seq 0 tc).

(** [t.get_array<C>(reg)]: the [data] pointer of the column found by
    [column_index_fast]. *)
Definition get_array (w : world.t) (tid : Z) (tb : table.t) (C : ctype)
  : option pointer :=
  cid ← component_registry.get_id (world.registry_ w) C;
  i ← table.column_index_fast tb cid;
  _ ← table.columns tb !! Z.to_nat i;
  Some (mk_ptr tid (Z.to_nat i) 0).

(** [rebuild_blocks] *)
Definition rebuild_blocks (Cs : list ctype) (w : world.t) (matching : list Z)
  : option (list block) :=
  fold_opt (fun acc tid =>
              tb ← world_storage.get_table (world.storage_ w) tid;
              if (table.size tb =? 0)%nat then Some acc
              else
                ptrs ← mapM (get_array w tid tb) Cs;
                Some (acc ++ [mk_block ptrs (table.size tb)]))
           [] matching.

(** [refresh], with the number of tables it read. *)
Definition refresh_counted (Cs : list ctype) (w : world.t) (rc : t)
  : option (t * nat) :=
  rc ← (if initialized_ rc then Some rc else init Cs w rc);
  let v := world.version w in
  if v =? cached_version_ rc then Some (rc, O)
  else
    '(matching, scanned) ← build_matching w rc;
    blocks ← rebuild_blocks Cs w matching;
    Some (mk (initialized_ rc) (required_ rc) matching blocks v, scanned).

Definition refresh (Cs : list ctype) (w : world.t) (rc : t) : option t :=
  fst <$> refresh_counted Cs w rc.

(** The tables one call of [refresh] reads. *)
Definition rescans (Cs : list ctype) (w : world.t) (rc : t) : option nat :=
  snd <$> refresh_counted Cs w rc.

End render_cache.

(** ** QUERY_EACH *)

Module query.

(** [struct pinned_block] *)
Record pinned_block := mk_pinned { arrays : list pointer; n : nat }.

(** [class _query]; the store [world_] points at is an argument of the
    member functions. *)
Record t := mk {
  required_       : list Z;
  matching_       : list Z;
  cached_version_ : Z
}.

(** [_query(world&)], which is [world::query<Cs...>()]. *)
Definition new (Cs : list ctype) (w : world.t) : option t :=
  ids ← mapM (component_registry.get_id (world.registry_ w)) Cs;
  Some (mk (archetype_key.unique (archetype_key.sort ids)) [] (two64 - 1)).

(** [contains_all_sorted] *)
Fixpoint contains_all_sorted (haystack needles : list Z) : bool :=
  match haystack, needles with
  | _, [] => true
  | [], _ :: _ => false
  | h :: haystack', x :: needles' =>
      if h =? x then contains_all_sorted haystack' needles'
      else if h <? x then contains_all_sorted haystack' needles
      else false
  end.

(** [refresh_if_needed] *)
Definition refresh_if_needed (w : world.t) (q : t) : option t :=
  let v := world.version w in
  if v =? cached_version_ q then Some q
  else
    let tc := world_storage.table_count (world.storage_ w) in
    matching ←
      fold_opt (fun acc i =>
                  let tid := wrap32 (Z.of_nat i) in
                  tb ← world_storage.get_table (world.storage_ w) tid;
                  if (length (table.key tb) <? length (required_ q))%nat
                  then Some acc
                  else if contains_all_sorted (table.key tb) (required_ q)
                       then Some (acc ++ [tid])
                       else Some acc)
               [] (seq 0 tc);
    Some (mk (required_ q) matching v).

(** [match_count] *)
Definition match_count (w : world.t) (q : t) : option (t * nat) :=
  q ← refresh_if_needed w q;
  Some (q, length (matching_ q)).

(** [pin] *)
Definition pin (Cs : list ctype) (w : world.t) (q : t)
  : option (t * list pinned_block) :=
  q ← refresh_if_needed w q;
  out ← fold_opt (fun out tid =>
                    tb ← world_storage.get_table (world.storage_ w) tid;
                    if (table.size tb =? 0)%nat then Some out
                    else
                      ptrs ← mapM (render_cache.get_array w tid tb) Cs;
                      Some (out ++ [mk_pinned ptrs (table.size tb)]))
                 [] (matching_ q);
  Some (q, out).

(** [ptrs[i]] for each pointer of a block. *)
Definition at_row (ptrs : list pointer) (i : nat) : list pointer :=
  (fun p => mk_ptr (ptr_table p) (ptr_column p) (ptr_row p + i)) <$> ptrs.

(** [each(fn)]: [fn] is called with the arrays and the row count of each
    table that has rows; what it does is its effect on a state [S]. *)
Definition each {S} (Cs : list ctype) (w : world.t) (q : t)
           (fn : list pointer → nat → S → S) (s : S) : option (t * S) :=
  q ← refresh_if_needed w q;
  s ← fold_opt (fun s tid =>
                  tb ← world_storage.get_table (world.storage_ w) tid;
                  if (table.size tb =? 0)%nat then Some s
                  else
                    ptrs ← mapM (render_cache.get_array w tid tb) Cs;
                    Some (fn ptrs (table.size tb) s))
               s (matching_ q);
  Some (q, s).

(** [each_entity(fn)]: [fn] is called with the entity and the components
    of each row, in row order. *)
Definition each_entity {S} (Cs : list ctype) (w : world.t) (q : t)
           (fn : entity.t → list pointer → S → S) (s : S) : option (t * S) :=
  q ← refresh_if_needed w q;
  s ← fold_opt (fun s tid =>
                  tb ← world_storage.get_table (world.storage_ w) tid;
                  if (table.size tb =? 0)%nat then Some s
                  else
                    ptrs ← mapM (render_cache.get_array w tid tb) Cs;
                    fold_opt (fun s i =>
                                e ← table.entities tb !! i;
                                Some (fn e (at_row ptrs i) s))
                             s (seq 0 (table.size tb)))
               s (matching_ q);
  Some (q, s).

End query.

(** ** Instances of the renderer *)

(** [spawn_instance]: [MeshRefPN], [Transform] and [Material] are the three
    component types, [r], [tr] and [mat] the objects built from the
    arguments. *)
Definition spawn_instance (w : world.t) (MeshRefPN Transform Material : ctype)
           (r tr mat : value) : option (world.t * entity.t) :=
  '(w, e) ← world.create_entity w;
  w ← world.add_component w MeshRefPN e (Some r);
  w ← world.add_component w Transform e (Some tr);
  w ← world.add_component w Material e (Some mat);
  Some (w, e).

(** ** Binary32 arithmetic *)

Module f32.

Definition prec : Z := 24.
Definition emax : Z := 128.

(** A [float]: a number of [SpecFloat] that is valid at this precision
    ([SpecFloat.valid_binary prec emax]), which the operations keep. *)
Abbreviation t := SpecFloat.spec_float.

Definition add (a b : t) : t := SpecFloat.SFadd prec emax a b.
Definition sub (a b : t) : t := SpecFloat.SFsub prec emax a b.
Definition mul (a b : t) : t := SpecFloat.SFmul prec emax a b.
Definition div (a b : t) : t := SpecFloat.SFdiv prec emax a b.
Definition neg (a : t) : t := SpecFloat.SFopp a.

(** [a < b], [a <= b], [a > b], [a >= b], [a == b], [a != b]: a
    comparison with a NaN is false, except [!=]. *)
Definition lt (a b : t) : bool := SpecFloat.SFltb a b.
Definition le (a b : t) : bool := SpecFloat.SFleb a b.
Definition gt (a b : t) : bool := SpecFloat.SFltb b a.
Definition ge (a b : t) : bool := SpecFloat.SFleb b a.
Definition eq (a b : t) : bool := SpecFloat.SFeqb a b.
Definition ne (a b : t) : bool := negb (SpecFloat.SFeqb a b).

(** [(float)n] for an [int] [n]. *)
Definition of_int (n : Z) : t := SpecFloat.binary_normalize prec emax n 0 false.

(** The literals [0.f], [1.f], [-1.f], [0.5f] and [0.0001f]; the last is
    the binary32 number nearest to [1/10000]. *)
Definition zero : t := SpecFloat.S754_zero false.
Definition one : t := of_int 1.
Definition minus_one : t := of_int (-1).
Definition half : t := div (of_int 1) (of_int 2).
Definition tenth_of_milli : t := div (of_int 1) (of_int 10000).

(** The integer [std::floor(a)] and [std::ceil(a)] are, for a finite [a]. *)
Definition floor (a : t) : option Z :=
  match a with
  | SpecFloat.S754_zero _ => Some 0
  | SpecFloat.S754_finite s m e =>
      let v := if s then Z.neg m else Z.pos m in
      Some (if 0 <=? e then v * 2 ^ e else v / 2 ^ (- e))
  | _ => None
  end.

Definition ceil (a : t) : option Z :=
  match a with
  | SpecFloat.S754_zero _ => Some 0
  | SpecFloat.S754_finite s m e =>
      let v := if s then Z.neg m else Z.pos m in
      Some (if 0 <=? e then v * 2 ^ e else - ((- v) / 2 ^ (- e)))
  | _ => None
  end.

(** [(int)f] for a [float] [f] of integral value [n]: undefined when [n]
    is no [int]. *)
Definition to_int (n : Z) : option Z :=
  if (-2147483648 <=? n) && (n <=? 2147483647) then Some n else None.

(** [std::min({a, b, c})] and [std::max({a, b, c})]: the first smallest
    and the first largest element by [operator<]. *)
Definition min3 (a b c : t) : t :=
  let m := if lt b a then b else a in
  if lt c m then c else m.

Definition max3 (a b c : t) : t :=
  let m := if lt a b then b else a in
  if lt m c then c else m.

End f32.

(** ** The depth path of [draw_world_slice] *)

Module draw.

(** A [vec4] by its four [float]s, [hp[0]] to [hp[3]]. *)
Record vec4 := mk_vec4 { c0 : f32.t; c1 : f32.t; c2 : f32.t; c3 : f32.t }.

(** [struct SVtx]: the members the rasteriser reads; the normal [n] and
    the colour [c] feed the lighting only. *)
Record SVtx := mk_svtx { x : f32.t; y : f32.t; z : f32.t; w : f32.t }.

(** [make_svtx]: the perspective divide, the depth [1.0f - ndcz] and the
    screen position. *)
Definition make_svtx (hp : vec4) (fw fh : f32.t) : SVtx :=
  let ww := if f32.ne (c3 hp) f32.zero then c3 hp else f32.one in
  let ndcx := f32.div (c0 hp) ww in
  let ndcy := f32.div (c1 hp) ww in
  let ndcz := f32.div (c2 hp) ww in
  let oz := f32.sub f32.one ndcz in
  let ox := f32.mul (f32.mul (f32.add ndcx f32.one) f32.half) fw in
  let oy := f32.mul (f32.mul (f32.add ndcy f32.one) f32.half) fh in
  let oy := f32.sub fh oy in
  mk_svtx ox oy oz (c3 hp).

(** [edge_fn] *)
Definition edge_fn (ax ay bx by' px py : f32.t) : f32.t :=
  f32.sub (f32.mul (f32.sub px ax) (f32.sub by' ay))
          (f32.mul (f32.sub py ay) (f32.sub bx ax)).

(** The targets of a frame: the width [m_job.W], [m_job.fw] and
    [m_job.fh], [zbuffer.pitch] and [framebuffer.pitch_pixels]. *)
Record target := mk_target {
  W : Z; fw : f32.t; fh : f32.t; zpitch : Z; pitch_pixels : Z
}.

(** The memory behind [zbuffer.data] and [framebuffer.data]. *)
Record buffers := mk_buffers { zdata : list f32.t; cdata : list Z }.

(** A triangle as the rasteriser receives it: the clip-space positions
    [hp0], [hp1], [hp2] of its vertices and the packed colour [rgba] of
    its lit material, computed by the matrix products and the lighting. *)
Record triangle := mk_triangle { hp0 : vec4; hp1 : vec4; hp2 : vec4; rgba : Z }.

(** A pixel the edge functions accept: [minx] of the clipped box of its
    triangle, its column and row, and the depth [z] of the loop there. *)
Record fragment := mk_fragment { fminx : Z; fx : Z; fy : Z; fz : f32.t }.

(** The increments of the loops and their running values. *)
Record steps := mk_steps {
  e0_a : f32.t; e1_a : f32.t; e2_a : f32.t; dzdx : f32.t;
  e0_b : f32.t; e1_b : f32.t; e2_b : f32.t; dzdy : f32.t
}.

Record cursor := mk_cursor { w0 : f32.t; w1 : f32.t; w2 : f32.t; zc : f32.t }.

(** [w0 += e0_a; w1 += e1_a; w2 += e2_a; z += dzdx] and the same by rows. *)
Definition step_x (k : steps) (c : cursor) : cursor :=
  mk_cursor (f32.add (w0 c) (e0_a k)) (f32.add (w1 c) (e1_a k))
            (f32.add (w2 c) (e2_a k)) (f32.add (zc c) (dzdx k)).

Definition step_y (k : steps) (c : cursor) : cursor :=
  mk_cursor (f32.add (w0 c) (e0_b k)) (f32.add (w1 c) (e1_b k))
            (f32.add (w2 c) (e2_b k)) (f32.add (zc c) (dzdy k)).

(** [w0 >= 0.f && w1 >= 0.f && w2 >= 0.f] *)
Definition inside (c : cursor) : bool :=
  f32.ge (w0 c) f32.zero && f32.ge (w1 c) f32.zero && f32.ge (w2 c) f32.zero.

(** [for (x = minx; x <= maxx; ++x)], [n] pixels from column [px] on;
    [emit] is what is done at a pixel the edge functions accept. *)
Fixpoint span {S} (emit : fragment → S → option S) (k : steps) (minx py : Z)
         (n : nat) (px : Z) (c : cursor) (s : S) : option S :=
  match n with
  | O => Some s
  | S n' =>
      s' ← (if inside c then emit (mk_fragment minx px py (zc c)) s else Some s);
      span emit k minx py n' (px + 1) (step_x k c) s'
  end.

(** [for (y = miny; y <= maxy; ++y)], [n] rows of [width] pixels from row
    [py] on. *)
Fixpoint rows {S} (emit : fragment → S → option S) (k : steps) (minx : Z)
         (width : nat) (n : nat) (py : Z) (c : cursor) (s : S) : option S :=
  match n with
  | O => Some s
  | S n' =>
      s' ← span emit k minx py width minx c s;
      rows emit k minx width n' (py + 1) (step_y k c) s'
  end.

(** The body of the triangle loop of [draw_world_slice(y0, y1)], from the
    tests on the clip-space positions to the pixel loops; [Some s] when
    the triangle is skipped. *)
Definition scan {S} (tg : target) (y0 y1 : Z) (t : triangle)
           (emit : fragment → S → option S) (s : S) : option S :=
  let '(h0, h1, h2) := (hp0 t, hp1 t, hp2 t) in
  if f32.le (c3 h0) f32.tenth_of_milli || f32.le (c3 h1) f32.tenth_of_milli
     || f32.le (c3 h2) f32.tenth_of_milli then Some s
  else if f32.lt (c0 h0) (f32.neg (c3 h0)) && f32.lt (c0 h1) (f32.neg (c3 h1))
          && f32.lt (c0 h2) (f32.neg (c3 h2)) then Some s
  else if f32.gt (c0 h0) (c3 h0) && f32.gt (c0 h1) (c3 h1)
          && f32.gt (c0 h2) (c3 h2) then Some s
  else if f32.lt (c1 h0) (f32.neg (c3 h0)) && f32.lt (c1 h1) (f32.neg (c3 h1))
          && f32.lt (c1 h2) (f32.neg (c3 h2)) then Some s
  else if f32.gt (c1 h0) (c3 h0) && f32.gt (c1 h1) (c3 h1)
          && f32.gt (c1 h2) (c3 h2) then Some s
  else if f32.lt (c2 h0) f32.zero && f32.lt (c2 h1) f32.zero
          && f32.lt (c2 h2) f32.zero then Some s
  else if f32.gt (c2 h0) (c3 h0) && f32.gt (c2 h1) (c3 h1)
          && f32.gt (c2 h2) (c3 h2) then Some s
  else
    let v0 := make_svtx h0 (fw tg) (fh tg) in
    let v1 := make_svtx h1 (fw tg) (fh tg) in
    let v2 := make_svtx h2 (fw tg) (fh tg) in
    let area := edge_fn (x v0) (y v0) (x v1) (y v1) (x v2) (y v2) in
    if f32.eq area f32.zero then Some s
    else
      let sign := if f32.lt area f32.zero then f32.minus_one else f32.one in
      let inv_area := f32.div f32.one (f32.mul area sign) in
      minx ← f32.floor (f32.min3 (x v0) (x v1) (x v2)) ≫= f32.to_int;
      maxx ← f32.ceil (f32.max3 (x v0) (x v1) (x v2)) ≫= f32.to_int;
      miny ← f32.floor (f32.min3 (y v0) (y v1) (y v2)) ≫= f32.to_int;
      maxy ← f32.ceil (f32.max3 (y v0) (y v1) (y v2)) ≫= f32.to_int;
      match raster.clip_box (W tg) y0 y1 minx maxx miny maxy with
      | None => Some s
      | Some (minx, maxx, miny, maxy) =>
          let e0_a := f32.mul (f32.sub (y v2) (y v1)) sign in
          let e0_b := f32.mul (f32.sub (x v1) (x v2)) sign in
          let e0_c := f32.mul (f32.sub (f32.mul (x v2) (y v1))
                                       (f32.mul (y v2) (x v1))) sign in
          let e1_a := f32.mul (f32.sub (y v0) (y v2)) sign in
          let e1_b := f32.mul (f32.sub (x v2) (x v0)) sign in
          let e1_c := f32.mul (f32.sub (f32.mul (x v0) (y v2))
                                       (f32.mul (y v0) (x v2))) sign in
          let e2_a := f32.mul (f32.sub (y v1) (y v0)) sign in
          let e2_b := f32.mul (f32.sub (x v0) (x v1)) sign in
          let e2_c := f32.mul (f32.sub (f32.mul (x v1) (y v0))
                                       (f32.mul (y v1) (x v0))) sign in
          let start_x := f32.add (f32.of_int minx) f32.half in
          let start_y := f32.add (f32.of_int miny) f32.half in
          let w0_row := f32.add (f32.add (f32.mul e0_a start_x) (f32.mul e0_b start_y))
                                e0_c in
          let w1_row := f32.add (f32.add (f32.mul e1_a start_x) (f32.mul e1_b start_y))
                                e1_c in
          let w2_row := f32.add (f32.add (f32.mul e2_a start_x) (f32.mul e2_b start_y))
                                e2_c in
          let dzdx := f32.mul (f32.add (f32.add (f32.mul e0_a (z v0)) (f32.mul e1_a (z v1)))
                                       (f32.mul e2_a (z v2))) inv_area in
          let dzdy := f32.mul (f32.add (f32.add (f32.mul e0_b (z v0)) (f32.mul e1_b (z v1)))
                                       (f32.mul e2_b (z v2))) inv_area in
          let z_row := f32.mul (f32.add (f32.add (f32.mul w0_row (z v0))
                                                 (f32.mul w1_row (z v1)))
                                        (f32.mul w2_row (z v2))) inv_area in
          rows emit (mk_steps e0_a e1_a e2_a dzdx e0_b e1_b e2_b dzdy) minx
               (Z.to_nat (maxx - minx + 1)) (Z.to_nat (maxy - miny + 1)) miny
               (mk_cursor w0_row w1_row w2_row z_row) s
      end.

(** [if (z > *zptr) { *zptr = z; *cptr = rgba; }] at the pixel of a
    fragment; the pointers are [zptr] and [cptr] of its row after
    [x - minx] increments. *)
Definition plot (tg : target) (rgba : Z) (f : fragment) (b : buffers)
  : option buffers :=
  let zi := Z.to_nat (raster.pixel_index (zpitch tg) (fminx f) (fy f) (fx f)) in
  let ci := Z.to_nat (raster.pixel_index (pitch_pixels tg) (fminx f) (fy f) (fx f)) in
  zb ← zdata b !! zi;
  if f32.gt (fz f) zb then
    if (ci <? length (cdata b))%nat
    then Some (mk_buffers (<[zi := fz f]> (zdata b)) (<[ci := rgba]> (cdata b)))
    else None
  else Some b.

(** One triangle drawn into the buffers. *)
Definition draw_triangle (tg : target) (y0 y1 : Z) (b : buffers) (t : triangle)
  : option buffers :=
  scan tg y0 y1 t (plot tg (rgba t)) b.

(** [draw_world_slice(y0, y1)] on the triangles of the blocks, in the
    order of its loops. *)
Definition draw_world_slice (tg : target) (y0 y1 : Z) (ts : list triangle)
           (b : buffers) : option buffers :=
  fold_opt (draw_triangle tg y0 y1) b ts.

(** The pixels of a triangle that pass the edge functions, with their
    depths, in the order of the loops: the same loops, recording. *)
Definition fragments (tg : target) (y0 y1 : Z) (t : triangle) : option (list fragment) :=
  scan tg y0 y1 t (fun f l => Some (l ++ [f])) [].

(** The depth and the colour of pixel [(px, py)] in the buffers. *)
Definition pixel (tg : target) (b : buffers) (px py : Z) : option (f32.t * Z) :=
  zb ← zdata b !! Z.to_nat (py * zpitch tg + px);
  cb ← cdata b !! Z.to_nat (py * pitch_pixels tg + px);
  Some (zb, cb).

End draw.

(** ** Runs of the store *)

(** The handle is a 64-bit value. *)
Definition handle (e : entity.t) : Prop := u64 e.

(** The public operations of [world] that change it, in any use and
    whatever the arguments: [register_component], [create_entity],
    [destroy_entity], [add_component], [remove_component] and [reserve].
    An operation that aborts has no successor.  (The accessors
    [registry()], [storage()] and [entities()] are used for reading, as
    the program does; a value written through a component pointer leaves
    the state one that [add_component] with that value reaches.) *)
Inductive op :=
| op_register (T : ctype)
| op_create
| op_destroy (e : entity.t)
| op_add (T : ctype) (e : entity.t) (opt_value : option value)
| op_remove (T : ctype) (e : entity.t)
| op_reserve (Cs : list ctype) (count : Z).

Definition run_op (w : world.t) (o : op) : option world.t :=
  match o with
  | op_register T => Some (fst (world.register_component w T))
  | op_create => fst <$> world.create_entity w
  | op_destroy e => world.destroy_entity w e
  | op_add T e v => world.add_component w T e v
  | op_remove T e => world.remove_component w T e
  | op_reserve Cs count => world.reserve w Cs count
  end.

Definition run (w : world.t) (os : list op) : option world.t := fold_opt run_op w os.

(** A state some run of public operations reaches from [world()]. *)
Definition reachable_any (w : world.t) : Prop :=
  ∃ w0 os, world.new = Some w0 ∧ run w0 os = Some w.

(** [e] names an entity of the store: its generation is the slot's and the
    slot is in use, that is not waiting on the free list [fragment_]. *)
Definition live (w : world.t) (e : entity.t) : Prop :=
  handle e ∧ world.alive w e = true ∧
  entity.index e ∉ entity_manager.fragment_ (world.entities_ w).

(** The handles a client holds come from [create_entity]: a handle given to
    an operation is stale ([alive] is false) or names an entity. *)
Definition honest (w : world.t) (e : entity.t) : Prop :=
  handle e ∧ (world.alive w e = true → live w e).

(** The sizes the 32-bit ids can number: fewer than [2^32 - 1] entity slots
    and tables, and fewer than [2^30] component types (the lookup of a table
    has [next_pow2_u32(2 n)] slots for a key of [n] components). *)
Definition within_limits (w : world.t) : Prop :=
  Z.of_nat (entity_manager.capacity (world.entities_ w)) < two32 - 1 ∧
  Z.of_nat (world_storage.table_count (world.storage_ w)) < two32 - 1 ∧
  Z.of_nat (component_registry.count (world.registry_ w)) < 1073741824.

(** The arguments of an operation in such a use: a handle is honest, and
    the rows reserved are rows the 32-bit ids can number. *)
Definition op_honest (w : world.t) (o : op) : Prop :=
  match o with
  | op_register _ | op_create => True
  | op_destroy e | op_add _ e _ | op_remove _ e => honest w e
  | op_reserve _ count => 0 ≤ count < two32
  end.

(** The states of a store used through handles it issued, inside the
    limits of its 32-bit ids: the states of an honest run. *)
Inductive reachable : world.t → Prop :=
| reachable_new w : world.new = Some w → reachable w
| reachable_step w o w' :
    reachable w → within_limits w → op_honest w o →
    run_op w o = Some w' → reachable w'.

(** The store [world()] constructs. *)
Definition initial_store : world.t :=
  world.mk entity_manager.empty component_registry.empty
           (world_storage.mk 1 (<[[] := 0]> ∅) [table.mk 0 [] [] [] [] [] 0]) 0 [] 0.

(** The same conditions as tests, to check a given run. *)
Definition handleb (e : entity.t) : bool := (0 <=? e) && (e <? two64).

Definition liveb (w : world.t) (e : entity.t) : bool :=
  handleb e && world.alive w e &&
  negb (existsb (Z.eqb (entity.index e))
                (entity_manager.fragment_ (world.entities_ w))).

Definition honestb (w : world.t) (e : entity.t) : bool :=
  handleb e && (negb (world.alive w e) || liveb w e).

Definition within_limitsb (w : world.t) : bool :=
  (Z.of_nat (entity_manager.capacity (world.entities_ w)) <? two32 - 1) &&
  (Z.of_nat (world_storage.table_count (world.storage_ w)) <? two32 - 1) &&
  (Z.of_nat (component_registry.count (world.registry_ w)) <? 1073741824).

Definition op_honestb (w : world.t) (o : op) : bool :=
  match o with
  | op_register _ | op_create => true
  | op_destroy e | op_add _ e _ | op_remove _ e => honestb w e
  | op_reserve _ count => (0 <=? count) && (count <? two32)
  end.

(** A run that stops at the first operation outside the limits or on a
    handle the store did not issue. *)
Definition run_honest (w : world.t) (os : list op) : option world.t :=
  fold_opt (fun w o => if within_limitsb w && op_honestb w o then run_op w o else None)
           w os.


(** ** Runs of the entity manager *)

Module em.

Import entity_manager.

(** Well-formed managers: 32-bit generations, fewer than [2^32] slots, and
    a free list of distinct slots of the vector. *)
Record inv (m : t) : Prop := mk_inv {
  inv_gens : Forall u32 (generations_ m);
  inv_cap  : Z.of_nat (length (generations_ m)) ≤ two32 - 1;
  inv_nodup : NoDup (fragment_ m);
  inv_frag : Forall (fun x => 0 ≤ x < Z.of_nat (length (generations_ m))) (fragment_ m)
}.

(** [e] names a slot in use. *)
Definition live (m : t) (e : entity.t) : Prop :=
  handle e ∧ alive m e = true ∧ entity.index e ∉ fragment_ m.

Definition honest (m : t) (e : entity.t) : Prop :=
  handle e ∧ (alive m e = true → live m e).

Definition within_limits (m : t) : Prop := Z.of_nat (capacity m) < two32 - 1.

(** The managers a run of honest calls reaches. *)
Inductive reachable : t → Prop :=
| reachable_empty : reachable empty
| reachable_create m m' e :
    reachable m → within_limits m → create_entity m = Some (m', e) → reachable m'
| reachable_destroy m e :
    reachable m → honest m e → reachable (destroy_entity m e).

(** Runs after which slot [i] has not been handed out again. *)
Inductive idle (i : Z) : t → t → Prop :=
| idle_refl m : idle i m m
| idle_create m m' m'' e :
    idle i m m' → within_limits m' → create_entity m' = Some (m'', e) →
    entity.index e ≠ i → idle i m m''
| idle_destroy m m' e :
    idle i m m' → honest m' e → idle i m (destroy_entity m' e).

End em.

(** ** Invariants of the store *)

(** A canonical archetype key: strictly increasing ids. *)
Definition key_ok (k : list Z) : Prop := StronglySorted Z.lt k.

(** The table invariant of the data model: every column has one element
    per entity of the table. *)
Definition sizes_agree (tb : table.t) : Prop :=
  Forall (fun c => column.size c = length (table.entities tb)) (table.columns tb).

(** A column of [n] elements inside its buffer. *)
Record column_ok (n : nat) (c : column.t) : Prop := mk_column_ok {
  col_size   : column.size c = n;
  col_room   : (n ≤ column.capacity c)%nat;
  col_buffer : length (column.data c) = column.capacity c
}.

(** A table of the store: a canonical key of registered components, one
    column per component of the key, every column as long as [entities]. *)
Record table_ok (reg : component_registry.t) (tb : table.t) : Prop := mk_table_ok {
  tb_key        : key_ok (table.key tb);
  tb_registered : Forall (fun cid => 0 ≤ cid < Z.of_nat (component_registry.count reg))
                         (table.key tb);
  tb_columns    : length (table.columns tb) = length (table.key tb);
  tb_cols       : Forall (column_ok (length (table.entities tb))) (table.columns tb)
}.

(** Two columns, two tables, two stores that differ in the contents of
    column slots only. *)
Definition col_shape (c c' : column.t) : Prop :=
  column.info c' = column.info c ∧ column.size c' = column.size c ∧
  column.capacity c' = column.capacity c ∧
  length (column.data c') = length (column.data c).

Definition tb_shape (tb tb' : table.t) : Prop :=
  table.key tb' = table.key tb ∧ table.entities tb' = table.entities tb ∧
  Forall2 col_shape (table.columns tb) (table.columns tb').

Definition cells_only (w w' : world.t) : Prop :=
  world.entities_ w' = world.entities_ w ∧
  world.registry_ w' = world.registry_ w ∧
  world.empty_table_ w' = world.empty_table_ w ∧
  world.locations_ w' = world.locations_ w ∧
  world.version_ w' = world.version_ w ∧
  world_storage.key_tables_ (world.storage_ w') = world_storage.key_tables_ (world.storage_ w) ∧
  Forall2 tb_shape (world.tables w) (world.tables w').

(** The slot of component [cid] in row [r] of table [t] of the store. *)
Definition cell_at (w : world.t) (t : nat) (cid : Z) (r : nat) : option cell :=
  tb ← world.tables w !! t; table.read_cell tb cid r.

(** During a migration: the old table [t_old] of key [ko] and the new table
    [t_new] of key [kn] are tables of the store with the rows [ro] and [rn]. *)
Definition ready (reg : component_registry.t) (ko kn : list Z)
           (t_old t_new ro rn : nat) (w : world.t) : Prop :=
  ∃ ot nt,
    world.tables w !! t_old = Some ot ∧ world.tables w !! t_new = Some nt ∧
    table_ok reg ot ∧ table_ok reg nt ∧
    table.key ot = ko ∧ table.key nt = kn ∧
    (ro < length (table.entities ot))%nat ∧ (rn < length (table.entities nt))%nat.

(** Locations and rows name each other.  [placed i] says that slot [i] is in
    use; [ents] are the [entities] vectors of the tables in table order. *)
Record layout (placed : nat → Prop) (gens : list Z) (locs : list location)
              (ents : list (list entity.t)) : Prop := mk_layout {
  lay_slot : ∀ i, placed i →
    ∃ g tn rn es,
      gens !! i = Some g ∧
      locs !! i = Some (mk_loc (Z.of_nat tn) (Z.of_nat rn)) ∧
      ents !! tn = Some es ∧ es !! rn = Some (entity.make (Z.of_nat i) g);
  lay_row : ∀ tn es rn e, ents !! tn = Some es → es !! rn = Some e →
    ∃ i g,
      e = entity.make (Z.of_nat i) g ∧ placed i ∧ gens !! i = Some g ∧
      locs !! i = Some (mk_loc (Z.of_nat tn) (Z.of_nat rn))
}.

(** Slot [i] of the manager is in use. *)
Definition in_use (m : entity_manager.t) (i : nat) : Prop :=
  (i < length (entity_manager.generations_ m))%nat ∧
  Z.of_nat i ∉ entity_manager.fragment_ m.

(** The invariant of the store. *)
Record world_inv (w : world.t) : Prop := mk_world_inv {
  wi_em : em.inv (world.entities_ w);
  wi_locs : length (world.locations_ w) =
            length (entity_manager.generations_ (world.entities_ w));
  wi_reg_count :
    Z.of_nat (component_registry.count (world.registry_ w)) ≤ 1073741824;
  wi_reg_ids : ∀ ty id,
    component_registry.type_ids_ (world.registry_ w) !! ty = Some id →
    0 ≤ id < Z.of_nat (component_registry.count (world.registry_ w));
  wi_tables_count : Z.of_nat (length (world.tables w)) ≤ two32 - 1;
  wi_tables : Forall (table_ok (world.registry_ w)) (world.tables w);
  wi_keys : ∀ k tid,
    world_storage.key_tables_ (world.storage_ w) !! k = Some tid ↔
    ∃ tn, tid = Z.of_nat tn ∧ (table.key <$> world.tables w) !! tn = Some k;
  wi_empty : ∃ tn, world.empty_table_ w = Z.of_nat tn ∧
                   (tn < length (world.tables w))%nat;
  wi_layout : layout (in_use (world.entities_ w))
                     (entity_manager.generations_ (world.entities_ w))
                     (world.locations_ w)
                     (table.entities <$> world.tables w);
  wi_free : ∀ i, Z.of_nat i ∈ entity_manager.fragment_ (world.entities_ w) →
                 world.locations_ w !! i = Some location_default
}.

(** The location of [e] names a table and a row whose entity is [e]. *)
Definition located (w : world.t) (e : entity.t) : Prop :=
  ∃ tb,
    location_valid (world.get_location w e) = true ∧
    world_storage.get_table (world.storage_ w) (tid (world.get_location w e)) = Some tb ∧
    table.entities tb !! Z.to_nat (row (world.get_location w e)) = Some e.

(** ** Example states *)

Module examples.

(** Three component types. *)
Definition TA : ctype := mk_ctype 1 16 4 100.
Definition TB : ctype := mk_ctype 2 64 64 200.
Definition TC : ctype := mk_ctype 3 8 8 300.

(** The store before [world()] has run, a placeholder for aborted runs. *)
Definition blank : world.t :=
  world.mk entity_manager.empty component_registry.empty
           (world_storage.mk 0 ∅ []) 0 [] 0.

Definition after (os : list op) : world.t :=
  default blank (w ← world.new; run w os).

Definition e0 : entity.t := entity.make 0 0.
Definition e1 : entity.t := entity.make 1 0.
Definition e2 : entity.t := entity.make 2 0.

(** Three registered types and three entities, each with [TA] and [TB]. *)
Definition setup : list op :=
  [op_register TA; op_register TB; op_register TC;
   op_create; op_create; op_create;
   op_add TA e0 (Some 5); op_add TB e0 (Some 7);
   op_add TA e1 (Some 15); op_add TB e1 (Some 17);
   op_add TA e2 (Some 25); op_add TB e2 (Some 27)].

Definition populated : world.t := after setup.

(** The start of the assignment scenes: the component types are
    registered, rows are reserved for their archetype, and the entities
    are spawned after that. *)
Definition scene_setup : list op :=
  [op_register TA; op_register TB; op_register TC;
   op_reserve [TA; TB; TC] 16;
   op_create; op_add TA e0 (Some 5); op_add TB e0 (Some 7); op_add TC e0 (Some 9);
   op_create; op_add TA e1 (Some 15); op_add TB e1 (Some 17)].

Definition scene : world.t := after scene_setup.

(** A frame of 8 by 8 pixels, cleared to colour 0 and to depth 0, the
    far end of the depth range. *)
Definition frame8 : draw.target :=
  draw.mk_target 8 (f32.of_int 8) (f32.of_int 8) 8 8.

Definition cleared8 : draw.buffers :=
  draw.mk_buffers (replicate 64 f32.zero) (replicate 64 0).

(** The clip-space position of the NDC point [(nx / 4, ny / 4, z)],
    with [w = 1]. *)
Definition ndc (nx ny : Z) (z : f32.t) : draw.vec4 :=
  draw.mk_vec4 (f32.div (f32.of_int nx) (f32.of_int 4))
               (f32.div (f32.of_int ny) (f32.of_int 4)) z f32.one.

(** The triangle with the vertices [(-0.5, -0.5, z)], [(0.5, -0.5, z)]
    and [(0, 0.5, z)] in NDC, of colour [c]. *)
Definition facing (z : f32.t) (c : Z) : draw.triangle :=
  draw.mk_triangle (ndc (-2) (-2) z) (ndc 2 (-2) z) (ndc 0 2 z) c.

(** The NDC depth [2^-30]. *)
Definition tiny : f32.t := f32.div f32.one (f32.of_int 1073741824).

(** Table [n] of a store. *)
Definition table_of (w : world.t) (n : nat) : table.t :=
  default (table.mk 0 [] [] [] [] [] 0) (world.tables w !! n).

End examples.

(** ** Auxiliary predicates *)

(** Every table of the store has columns as long as its [entities]. *)
Definition store_sizes_agree (w : world.t) : Prop :=
  Forall sizes_agree (world.tables w).

(** [s] has a bit wherever [x] has one among the next [m] positions. *)
Definition smeared (x m s : Z) : Prop :=
  ∀ n, 0 ≤ n →
    Z.testbit s n = true ↔ ∃ j, 0 ≤ j < m ∧ Z.testbit x (n + j) = true.

(** From [w] to [w'] every table keeps its key and, outside row [ro] of
    table [t_old] and row [rn] of table [t_new], the cells of its rows. *)
Definition rows_kept (t_old ro t_new rn : nat) (w w' : world.t) : Prop :=
  ∀ t tb, world.tables w !! t = Some tb →
    ∃ tb', world.tables w' !! t = Some tb' ∧ table.key tb' = table.key tb ∧
      ∀ c r, c ∈ table.key tb → (t = t_old → r ≠ ro) → (t = t_new → r ≠ rn) →
        table.read_cell tb' c r = table.read_cell tb c r.

(** The ranges [rs] follow one another from row [a] to row [b]: each starts
    where the one before it ended and none ends before the row preceding
    its start. *)
Fixpoint chained (a : Z) (rs : list slices.worker_range) (b : Z) : bool :=
  match rs with
  | [] => a =? b
  | r :: rs' =>
      (slices.y0 r =? a) && (a - 1 <=? slices.y1 r) &&
      chained (slices.y1 r + 1) rs' b
  end.

(** The probe sequence of a table's lookup: [n] steps of
    [slot = (slot + 1) & mask] lead from slot [a] to slot [b], over slots
    whose keys satisfy [P]. *)
Inductive probes (keys : list Z) (mask : Z) (P : Z → Prop) : nat → Z → Z → Prop :=
| probes_here a : probes keys mask P O a a
| probes_step n a b k :
    keys !! Z.to_nat a = Some k → P k →
    probes keys mask P n (Z.land (wrap32 (a + 1)) mask) b →
    probes keys mask P (S n) a b.

(** The lookup after the first [j] components of [key] were entered: a used
    slot holds one of them with its position, a free slot holds 0, and each
    of them is found at the end of its probe sequence. *)
Record lookup_inv (key : list Z) (mask : Z) (cap j : nat) (keys vals : list Z)
  : Prop := mk_lookup_inv {
  li_keys : length keys = cap;
  li_vals : length vals = cap;
  li_slots : ∀ s k, keys !! s = Some k → k ≠ INVALID_ID →
    ∃ i, (i < j)%nat ∧ key !! i = Some k ∧ vals !! s = Some (Z.of_nat i);
  li_free : ∀ s, keys !! s = Some INVALID_ID → vals !! s = Some 0;
  li_found : ∀ i c, (i < j)%nat → key !! i = Some c →
    ∃ n b, (n < cap)%nat ∧
      probes keys mask (fun k => k ≠ c ∧ k ≠ INVALID_ID) n
             (Z.land (table.hash_cid c) mask) b ∧
      keys !! Z.to_nat b = Some c ∧ vals !! Z.to_nat b = Some (Z.of_nat i);
  li_count : (length (filter (fun x => x ≠ INVALID_ID) keys) ≤ j)%nat
}.

(** A registry as [add] builds it: every registered type has the id of an
    entry of [type_infos_] that records the id and the type. *)
Definition registry_ok (r : component_registry.t) : Prop :=
  ∀ ty id,
    component_registry.type_ids_ r !! ty = Some id →
    ∃ info,
      component_registry.get_info r id = Some info ∧
      info_id info = id ∧ info_type info = ty ∧
      0 ≤ id < Z.of_nat (component_registry.count r).

(** The entity an operation is called on. *)
Definition op_entity (o : op) : option entity.t :=
  match o with
  | op_register _ | op_create | op_reserve _ _ => None
  | op_destroy e | op_add _ e _ | op_remove _ e => Some e
  end.

(** The members of a table that no row operation writes: the key and the
    lookup built from it. *)
Definition schema (tb : table.t) : list Z * list Z * list Z * Z :=
  (table.key tb, table.lookup_keys_ tb, table.lookup_vals_ tb, table.lookup_mask_ tb).

(** The hashed lookup of a table finds the column of every component of
    its key. *)
Definition lookup_ok (tb : table.t) : Prop :=
  ∀ cid i, table.key tb !! i = Some cid →
    table.column_index_fast tb cid = Some (Z.of_nat i).

(** From [w] to [w'] the tables of [w] are tables of [w'] with the schema
    they had, the tables added have a lookup that finds their columns, and
    the table of the empty archetype is the same. *)
Definition grows (w w' : world.t) : Prop :=
  world.empty_table_ w' = world.empty_table_ w ∧
  (∀ t tb, world.tables w !! t = Some tb →
     ∃ tb', world.tables w' !! t = Some tb' ∧ schema tb' = schema tb) ∧
  (∀ t tb', world.tables w' !! t = Some tb' →
     (length (world.tables w) ≤ t)%nat → lookup_ok tb').

(** What the tables of the store keep beside [world_inv]: every lookup
    finds the columns of its table, and the table of the empty archetype has
    no component. *)
Record schemas_inv (w : world.t) : Prop := mk_schemas_inv {
  si_lookup : Forall lookup_ok (world.tables w);
  si_empty : ∃ tb, world.tables w !! Z.to_nat (world.empty_table_ w) = Some tb ∧
                   table.key tb = []
}.

(** The table [tid] of the store has a row. *)
Definition has_rows (w : world.t) (tid : Z) : bool :=
  match world_storage.get_table (world.storage_ w) tid with
  | Some tb => negb (table.size tb =? 0)%nat
  | None => false
  end.

(** The targets hold the rows of the slice [y0 .. y1]: a width below
    [2^31], pitches of at least the width and below [2^32], and buffers that
    reach the end of row [y1]. *)
Definition frame_ok (tg : draw.target) (y0 y1 : Z) (b : draw.buffers) : Prop :=
  0 ≤ draw.W tg < 2147483648 ∧
  draw.W tg ≤ draw.zpitch tg < two32 ∧
  draw.W tg ≤ draw.pitch_pixels tg < two32 ∧
  0 ≤ y0 ∧ y1 < 2147483648 ∧
  (y1 + 1) * draw.zpitch tg ≤ Z.of_nat (length (draw.zdata b)) ∧
  (y1 + 1) * draw.pitch_pixels tg ≤ Z.of_nat (length (draw.cdata b)).

(** The order of finite binary32 numbers of one sign: by exponent first,
    then by mantissa. *)
Definition below (m1 : positive) (e1 : Z) (m2 : positive) (e2 : Z) : Prop :=
  e1 < e2 ∨ (e1 = e2 ∧ (m1 < m2)%positive).

(** The column and the row of a fragment. *)
Definition coords (f : draw.fragment) : Z * Z := (draw.fx f, draw.fy f).

(** ** Tactics *)

(** Linear arithmetic with the 32- and 64-bit bounds written out. *)
Ltac bits_lia :=
  unfold handle, u32, u64, INVALID_ID, INVALID_TABLE, INVALID_ENTITY, two32, two64 in *;
  lia.

(** Projections of explicit store records. *)
Ltac world_unfold :=
  try unfold world.bump_version; try unfold world.with_locations;
  try unfold world.set_table; try unfold world.with_tables;
  try unfold world.with_storage; try unfold world.with_entities;
  try unfold world_storage.with_tables; try unfold world.tables.

Ltac world_cbn :=
  world_unfold;
  cbn [mbind option_bind
       world.entities_ world.registry_ world.storage_ world.empty_table_
       world.locations_ world.version_ world.version
       world_storage.tables_ world_storage.key_tables_
       world_storage.schema_version_ fst snd].

(** Case analysis on the first fallible call of a hypothesis
    [x ← m; k = Some r]. *)
Ltac bind_inv H x Hx :=
  match type of H with
  | (mbind _ ?m) = Some _ =>
      destruct m as [x |] eqn:Hx; [cbn [mbind option_bind] in H | discriminate H]
  | (fmap _ ?m) = Some _ =>
      destruct m as [x |] eqn:Hx; [cbn [fmap option_fmap option_map] in H | discriminate H]
  end.

(** * Properties *)

(** ** Entity handles *)

Lemma elem_of_snoc {A} (l : list A) (x : A) : x ∈ l ++ [x].
Proof. apply elem_of_app. right. by apply list_elem_of_singleton. Qed.

Lemma snoc_cases {A} (l : list A) : l = [] ∨ ∃ l' x, l = l' ++ [x].
Proof.
  destruct (last l) as [x |] eqn:Hl.
  - right. apply last_Some in Hl as [l' ->]. eauto.
  - left. by apply last_None.
Qed.

Lemma lookup_removelast {A} (l : list A) (r : nat) :
  (r < length l - 1)%nat → removelast l !! r = l !! r.
Proof.
  intros Hr. destruct (snoc_cases l) as [-> | (l' & x & ->)]; [done |].
  rewrite removelast_last. rewrite length_app in Hr. cbn in Hr.
  symmetry. apply lookup_app_l. lia.
Qed.

Lemma length_removelast_pred {A} (l : list A) :
  length (removelast l) = (length l - 1)%nat.
Proof.
  destruct (snoc_cases l) as [-> | (l' & x & ->)]; [done |].
  rewrite removelast_last, length_app. cbn. lia.
Qed.


Section handles.

Lemma wrap32_small x : u32 x → wrap32 x = x.
Proof. unfold u32, wrap32. intros. by apply Z.mod_small. Qed.

Lemma wrap32_range x : u32 (wrap32 x).
Proof. unfold u32, wrap32, two32. apply Z.mod_pos_bound. lia. Qed.

Lemma wrap32_of_nat (n : nat) : Z.of_nat n < two32 → Z.to_nat (wrap32 (Z.of_nat n)) = n.
Proof. intros. rewrite wrap32_small; [lia | unfold u32; lia]. Qed.

Lemma make_sum i g : u32 i → u32 g → entity.make i g = i * two32 + g.
Proof.
  unfold u32, two32, entity.make, wrap64, two64. intros Hi Hg.
  rewrite Z.shiftl_mul_pow2 by lia.
  change (2 ^ 32) with 4294967296.
  rewrite Z.mod_small by lia.
  assert (Hdisj : Z.land (i * 4294967296) g = 0).
  { apply Z.bits_inj'; intros n Hn. rewrite Z.land_spec, Z.bits_0.
    destruct (Z.lt_ge_cases n 32) as [Hlt | Hge].
    - change 4294967296 with (2 ^ 32).
      by rewrite Z.mul_pow2_bits_low.
    - rewrite (Z.bits_above_log2 g n), andb_false_r; [done | lia |].
      destruct (Z.eq_dec g 0) as [-> | Hne]; [simpl; lia |].
      apply Z.lt_le_trans with 32; [| lia].
      apply Z.log2_lt_pow2; [lia |]. change (2 ^ 32) with 4294967296. lia. }
  rewrite <- Z.lxor_lor by done. symmetry. by apply Z.add_nocarry_lxor.
Qed.

Lemma index_make i g : u32 i → u32 g → entity.index (entity.make i g) = i.
Proof.
  intros Hi Hg. rewrite make_sum by done. unfold entity.index, wrap32, u32, two32 in *.
  rewrite Z.shiftr_div_pow2 by lia. change (2 ^ 32) with 4294967296.
  rewrite Z.div_add_l, (Z.div_small g), Z.add_0_r by lia.
  apply Z.mod_small; lia.
Qed.

Lemma generation_make i g : u32 i → u32 g → entity.generation (entity.make i g) = g.
Proof.
  intros Hi Hg. rewrite make_sum by done. unfold entity.generation, wrap32, u32, two32 in *.
  rewrite Z.add_comm, Z.mod_add by lia. apply Z.mod_small; lia.
Qed.

Lemma make_index_generation e :
  handle e → entity.make (entity.index e) (entity.generation e) = e.
Proof.
  unfold handle, u64, two64. intros He.
  rewrite make_sum by apply wrap32_range.
  unfold entity.index, entity.generation, wrap32, two32.
  rewrite Z.shiftr_div_pow2 by lia. change (2 ^ 32) with 4294967296.
  rewrite (Z.mod_small (e / 4294967296)).
  - pose proof (Z.div_mod e 4294967296). lia.
  - split; [apply Z.div_pos; lia | apply Z.div_lt_upper_bound; lia].
Qed.

Lemma make_handle i g : u32 i → u32 g → handle (entity.make i g).
Proof.
  intros Hi Hg. rewrite make_sum by done.
  unfold handle, u64, u32, two64, two32 in *. lia.
Qed.

Lemma make_invalid i g :
  u32 i → u32 g →
  entity.valid (entity.make i g) = false ↔ i = two32 - 1 ∧ g = two32 - 1.
Proof.
  intros Hi Hg. unfold entity.valid. rewrite make_sum by done.
  unfold INVALID_ENTITY, u32, two64, two32 in *.
  rewrite negb_false_iff, Z.eqb_eq. lia.
Qed.

End handles.

(** C10.  For 32-bit [i] and [g], [entity::make(i, g)] unpacks to [i] and
    [g] again, and the handle is reported [valid()] unless the packed value
    is the all-ones pattern [INVALID_ENTITY], which is the case for
    [i = g = 0xFFFFFFFF] only. *)
Theorem entity_make_roundtrip (i g : Z) :
  u32 i → u32 g →
  entity.index (entity.make i g) = i ∧
  entity.generation (entity.make i g) = g ∧
  (entity.valid (entity.make i g) = true ↔ entity.make i g ≠ INVALID_ENTITY) ∧
  (entity.make i g = INVALID_ENTITY ↔ i = two32 - 1 ∧ g = two32 - 1).
Proof.
  intros Hi Hg. split_and!.
  - by apply index_make.
  - by apply generation_make.
  - unfold entity.valid. rewrite negb_true_iff, Z.eqb_neq. done.
  - rewrite <- (make_invalid i g) by done.
    unfold entity.valid. rewrite negb_false_iff, Z.eqb_eq. done.
Qed.

Lemma entity_make_roundtrip_witness :
  entity.index (entity.make 7 3) = 7 ∧
  entity.generation (entity.make 7 3) = 3 ∧
  (entity.valid (entity.make 7 3) = true ↔ entity.make 7 3 ≠ INVALID_ENTITY) ∧
  (entity.make 7 3 = INVALID_ENTITY ↔ 7 = two32 - 1 ∧ 3 = two32 - 1).
Proof. apply (entity_make_roundtrip 7 3); unfold u32, two32; lia. Defined.

(** ** Scan-line partition *)

(** The heights up to 2000 at which a range runs past the frame. *)
Lemma overrun_heights :
  filter (fun H => slices.overruns H = true) (seqZ 1 2000)
  = seqZ 5 14 ++ seqZ 26 12 ++ seqZ 51 6.
Proof. vm_compute. reflexivity. Qed.

(** C1, at height 7.  [compute_slice_ranges(7)] gives slice 4 the range
    [7, 7]: row 7 lies outside the rows [0, 6] of the frame and is in a
    range that is run ([y0 <= y1]), so the ranges do not partition exactly
    the rows of the frame. *)
Theorem slice_ranges_overrun_height_7 :
  slices.compute_slice_ranges 7 =
    [slices.mk_range 0 3; slices.mk_range 4 4; slices.mk_range 5 5;
     slices.mk_range 6 6; slices.mk_range 7 7; slices.mk_range 8 6] ∧
  slices.cover_count (slices.compute_slice_ranges 7) 7 = 1%nat ∧
  ¬ slices.exact_partition 7 (slices.compute_slice_ranges 7).
Proof.
  split_and!; [reflexivity | reflexivity |].
  intros Hpart. specialize (Hpart 7). vm_compute in Hpart. discriminate.
Qed.

(** ** The entity manager *)

Module em_facts.

Import entity_manager em.

Lemma alive_true m e :
  alive m e = true ↔
  entity.valid e = true ∧
  generations_ m !! Z.to_nat (entity.index e) = Some (entity.generation e).
Proof.
  unfold alive. destruct (entity.valid e); cbn [negb].
  - destruct (generations_ m !! _) as [g |] eqn:Hg.
    + rewrite Z.eqb_eq. split; [intros ->; done | intros [_ [= ->]]; done].
    + split; [done | intros [_ ?]; done].
  - split; [done | intros [? _]; done].
Qed.

Lemma index_range e : u32 (entity.index e).
Proof. apply wrap32_range. Qed.

Lemma generation_range e : u32 (entity.generation e).
Proof. apply wrap32_range. Qed.

(** The two branches of [create_entity]. *)
Lemma create_fresh m :
  fragment_ m = [] → Z.of_nat (length (generations_ m)) < two32 →
  create_entity m =
    Some (mk (generations_ m ++ [0]) [] (wrap32 (alive_count_ m + 1)),
          entity.make (Z.of_nat (length (generations_ m))) 0).
Proof.
  intros Hf Hlen. unfold create_entity. rewrite Hf. simpl.
  rewrite (wrap32_small (Z.of_nat _)) by bits_lia.
  rewrite Nat2Z.id, lookup_app_r, Nat.sub_diag by lia. done.
Qed.

Lemma create_recycle m frag i g :
  fragment_ m = frag ++ [i] → generations_ m !! Z.to_nat i = Some g →
  create_entity m =
    Some (mk (generations_ m) frag (wrap32 (alive_count_ m + 1)), entity.make i g).
Proof.
  intros Hf Hg. unfold create_entity. rewrite Hf, last_snoc, removelast_last.
  by rewrite Hg.
Qed.

Lemma frag_cases (l : list Z) : l = [] ∨ ∃ l' x, l = l' ++ [x].
Proof.
  destruct (last l) as [x |] eqn:Hl.
  - right. apply last_Some in Hl as [l' ->]. eauto.
  - left. by apply last_None.
Qed.

Lemma inv_frag_lookup m x :
  inv m → x ∈ fragment_ m →
  ∃ g, generations_ m !! Z.to_nat x = Some g ∧ u32 g ∧
       0 ≤ x < Z.of_nat (length (generations_ m)).
Proof.
  intros Hinv Hx.
  pose proof (proj1 (Forall_forall _ _) (inv_frag m Hinv) x Hx) as Hr; cbv beta in Hr.
  destruct (lookup_lt_is_Some_2 (generations_ m) (Z.to_nat x)) as [g Hg]; [lia |].
  exists g. split; [done | split; [| done]].
  eapply (proj1 (Forall_forall _ _) (inv_gens m Hinv)).
  by eapply list_elem_of_lookup_2.
Qed.

(** [create_entity] returns under the invariant and the slot limit. *)
Lemma create_spec m :
  inv m → within_limits m →
  ∃ m' i g,
    create_entity m = Some (m', entity.make i g) ∧ u32 i ∧ u32 g ∧
    generations_ m' !! Z.to_nat i = Some g ∧ (i ∉ fragment_ m') ∧
    inv m' ∧
    ((fragment_ m = [] ∧ i = Z.of_nat (length (generations_ m)) ∧ g = 0 ∧
      generations_ m' = generations_ m ++ [0] ∧ fragment_ m' = []) ∨
     (fragment_ m = fragment_ m' ++ [i] ∧ generations_ m' = generations_ m)).
Proof.
  intros Hinv Hlim. unfold within_limits, capacity in Hlim.
  destruct (frag_cases (fragment_ m)) as [Hf | (frag & i & Hf)].
  - exists (mk (generations_ m ++ [0]) [] (wrap32 (alive_count_ m + 1))),
           (Z.of_nat (length (generations_ m))), 0.
    rewrite (create_fresh m Hf) by lia. cbn [generations_ fragment_].
    split; [done |]. split; [bits_lia |]. split; [bits_lia |].
    split; [by rewrite Nat2Z.id, lookup_app_r, Nat.sub_diag by lia |].
    split; [apply not_elem_of_nil |]. split; [| by left].
    destruct Hinv. constructor; cbn [generations_ fragment_].
    + apply Forall_app; split; [done |]. repeat constructor; bits_lia.
    + rewrite length_app. cbn [length]. lia.
    + constructor.
    + constructor.
  - destruct (inv_frag_lookup m i Hinv) as (g & Hg & Hgu & Hi).
    { rewrite Hf. apply elem_of_snoc. }
    exists (mk (generations_ m) frag (wrap32 (alive_count_ m + 1))), i, g.
    rewrite (create_recycle m frag i g Hf Hg). cbn [generations_ fragment_].
    pose proof (inv_nodup m Hinv) as Hnd. rewrite Hf in Hnd.
    apply NoDup_app in Hnd as (Hnd1 & Hnd2 & _).
    split; [done |]. split; [pose proof (inv_cap m Hinv); bits_lia |].
    split; [done |]. split; [done |].
    split; [intros Hin; apply (Hnd2 i Hin); by apply list_elem_of_singleton |].
    split; [| by right].
    destruct Hinv as [? ? ? Hfr]. constructor; cbn [generations_ fragment_]; try done.
    rewrite Hf in Hfr. by apply Forall_app in Hfr as [? _].
Qed.

Lemma destroy_alive m e :
  alive m e = true →
  destroy_entity m e =
    mk (alter (fun g => wrap32 (g + 1)) (Z.to_nat (entity.index e)) (generations_ m))
       (fragment_ m ++ [entity.index e]) (wrap32 (alive_count_ m - 1)).
Proof. intros Ha. unfold destroy_entity. by rewrite Ha. Qed.

Lemma destroy_stale m e : alive m e = false → destroy_entity m e = m.
Proof. intros Ha. unfold destroy_entity. by rewrite Ha. Qed.

Lemma destroy_inv m e : inv m → honest m e → inv (destroy_entity m e).
Proof.
  intros Hinv [_ Hh]. destruct (alive m e) eqn:Ha; [| by rewrite destroy_stale].
  destruct (Hh eq_refl) as (_ & _ & Hnin).
  rewrite destroy_alive by done.
  apply alive_true in Ha as [_ Hg].
  destruct Hinv as [Hgens Hcap Hnd Hfr].
  constructor; cbn [generations_ fragment_].
  - apply Forall_alter; [done |]. intros. apply wrap32_range.
  - by rewrite length_alter.
  - apply NoDup_app. split_and!; [done | | apply NoDup_singleton].
    intros x Hx Hx'. apply list_elem_of_singleton in Hx'. by subst.
  - rewrite length_alter. apply Forall_app. split; [done |].
    repeat constructor.
    + pose proof (index_range e). bits_lia.
    + apply lookup_lt_Some in Hg. pose proof (index_range e). bits_lia.
Qed.

Lemma reachable_inv m : reachable m → inv m.
Proof.
  induction 1 as [| m m' e _ IH Hlim Hc | m e _ IH Hh].
  - constructor; cbn; try constructor. bits_lia.
  - destruct (create_spec m IH Hlim) as (m1 & i & g & Hc' & _ & _ & _ & _ & Hinv & _).
    congruence.
  - by apply destroy_inv.
Qed.

(** After [destroy_entity] the handle is stale. *)
Lemma destroy_not_alive m e :
  alive m e = true → alive (destroy_entity m e) e = false.
Proof.
  intros Ha. rewrite destroy_alive by done.
  apply alive_true in Ha as [Hv Hg].
  apply not_true_is_false. rewrite alive_true. cbn [generations_]. intros [_ Hg'].
  rewrite list_lookup_alter_eq, Hg in Hg'. cbn in Hg'.
  pose proof (generation_range e) as Hr. unfold u32, wrap32, two32 in *.
  injection Hg' as Hg'.
  destruct (Z.eq_dec (entity.generation e) 4294967295) as [Heq | Hne].
  - rewrite Heq in Hg'. vm_compute in Hg'. discriminate.
  - rewrite Z.mod_small in Hg' by lia. lia.
Qed.

(** A free slot keeps its generation while it is not handed out. *)
Lemma idle_keeps i g m m' :
  inv m → i ∈ fragment_ m → generations_ m !! Z.to_nat i = Some g →
  idle i m m' →
  inv m' ∧ i ∈ fragment_ m' ∧ generations_ m' !! Z.to_nat i = Some g.
Proof.
  intros Hinv Hin Hg. induction 1 as [| m m1 m2 e _ IH Hlim Hc Hne | m m1 e _ IH Hh].
  - done.
  - destruct (IH Hinv Hin Hg) as (Hinv1 & Hin1 & Hg1).
    destruct (create_spec m1 Hinv1 Hlim)
      as (m' & j & gj & Hc' & Hj & Hgj & _ & _ & Hinv' & Hcase).
    rewrite Hc in Hc'. injection Hc' as <- ->.
    rewrite index_make in Hne by done.
    split; [done |].
    destruct Hcase as [(Hf & _) | (Hf & Hgens)].
    + rewrite Hf in Hin1. by apply not_elem_of_nil in Hin1.
    + rewrite Hgens. split; [| done].
      rewrite Hf in Hin1. apply elem_of_app in Hin1 as [? | Hin1]; [done |].
      apply list_elem_of_singleton in Hin1. congruence.
  - destruct (IH Hinv Hin Hg) as (Hinv1 & Hin1 & Hg1).
    split; [by apply destroy_inv |].
    destruct (alive m1 e) eqn:Ha; [| by rewrite destroy_stale].
    destruct Hh as [_ Hh]. destruct (Hh Ha) as (_ & _ & Hnin).
    rewrite destroy_alive by done. cbn [generations_ fragment_]. split; [apply elem_of_app; by left |].
    rewrite list_lookup_alter_ne; [done |].
    intros Heq. apply Hnin.
    pose proof (index_range e) as Hr.
    pose proof (inv_frag_lookup m1 i Hinv1 Hin1) as (_ & _ & _ & Hi).
    assert (entity.index e = i) as -> by bits_lia. done.
Qed.

End em_facts.

Section generations.

Import entity_manager.

(** A slot that is created and destroyed again and again runs through
    every generation. *)
Lemma reachable_generation g :
  0 ≤ g < two32 → em.reachable (mk [g] [] 1).
Proof.
  intros [Hg0 Hg]. revert Hg. pattern g. apply natlike_ind; [| | done].
  - intros _. apply (em.reachable_create empty _ (entity.make 0 0)).
    + constructor.
    + unfold em.within_limits. cbn. bits_lia.
    + reflexivity.
  - clear g Hg0. intros g Hg0 IH Hg. specialize (IH ltac:(lia)).
    assert (Ha : alive (mk [g] [] 1) (entity.make 0 g) = true).
    { apply em_facts.alive_true. cbn [generations_].
      rewrite index_make, generation_make by bits_lia. split; [| done].
      apply not_false_iff_true. rewrite make_invalid by bits_lia. bits_lia. }
    assert (Hd : destroy_entity (mk [g] [] 1) (entity.make 0 g)
                 = mk [Z.succ g] [0] 0).
    { rewrite em_facts.destroy_alive by done. cbn [generations_ fragment_ alive_count_].
      rewrite index_make by bits_lia.
      change (Z.to_nat 0) with 0%nat. cbn [alter list_alter].
      rewrite (wrap32_small (g + 1)) by bits_lia.
      change (wrap32 (1 - 1)) with 0. by rewrite Z.add_1_r. }
    apply (em.reachable_create (mk [Z.succ g] [0] 0) _ (entity.make 0 (Z.succ g))).
    + rewrite <- Hd. apply em.reachable_destroy; [done |].
      split; [apply make_handle; bits_lia |]. intros _.
      split; [apply make_handle; bits_lia |]. split; [done |].
      cbn [fragment_]. apply not_elem_of_nil.
    + unfold em.within_limits. cbn. bits_lia.
    + by rewrite (em_facts.create_recycle _ [] 0 (Z.succ g)).
Qed.

End generations.

(** C5, as the code has it.  In a manager reached from the empty one
    through honest calls ([create_entity], and [destroy_entity] of handles
    that are stale or name a slot in use): [create_entity] returns while
    fewer than [2^32 - 1] slots exist; two consecutive [create_entity]
    calls return handles of different slots, [e1.index() != e2.index()],
    so that the handles differ in index or generation;
    [destroy_entity(e)] of an alive [e] leaves [alive(e)] false; and when
    [e] names an entity of generation below [2^32 - 1], the next handle that
    [create_entity] returns for the slot of [e], after any honest calls that
    did not hand the slot out, has the generation of [e] plus one. *)
Theorem entity_identity (m : entity_manager.t) :
  em.reachable m →
  (em.within_limits m → is_Some (entity_manager.create_entity m)) ∧
  (∀ m1 e1 m2 e2,
     em.within_limits m → em.within_limits m1 →
     entity_manager.create_entity m = Some (m1, e1) →
     entity_manager.create_entity m1 = Some (m2, e2) →
     entity.index e1 ≠ entity.index e2) ∧
  (∀ e, entity_manager.alive m e = true →
        entity_manager.alive (entity_manager.destroy_entity m e) e = false) ∧
  (∀ e m' m'' e',
     em.live m e → entity.generation e < two32 - 1 →
     em.idle (entity.index e) (entity_manager.destroy_entity m e) m' →
     em.within_limits m' →
     entity_manager.create_entity m' = Some (m'', e') →
     entity.index e' = entity.index e →
     entity.generation e' = entity.generation e + 1 ∧
     entity.generation e < entity.generation e').
Proof.
  intros Hreach. pose proof (em_facts.reachable_inv m Hreach) as Hinv.
  split; [| split; [| split]].
  - intros Hlim.
    destruct (em_facts.create_spec m Hinv Hlim) as (m' & i & g & -> & _). done.
  - intros m1 e1 m2 e2 Hlim Hlim1 Hc1 Hc2.
    destruct (em_facts.create_spec m Hinv Hlim)
      as (m1' & i1 & g1 & Hc1' & Hi1 & Hg1 & _ & Hnin1 & Hinv1 & Hcase1).
    rewrite Hc1 in Hc1'. injection Hc1' as <- ->.
    destruct (em_facts.create_spec m1 Hinv1 Hlim1)
      as (m2' & i2 & g2 & Hc2' & Hi2 & Hg2 & _ & _ & _ & Hcase2).
    rewrite Hc2 in Hc2'. injection Hc2' as <- ->.
    rewrite !index_make by done. intros ->.
    destruct Hcase2 as [(_ & Hi2' & _ & _) | (Hf2 & _)].
    + destruct Hcase1 as [(_ & Hi1' & _ & Hgens & _) | (Hf1 & Hgens)].
      * rewrite Hgens, length_app in Hi2'. cbn [length] in Hi2'. lia.
      * pose proof (em_facts.inv_frag_lookup m i2 Hinv) as (_ & _ & _ & Hr).
        { rewrite Hf1. apply elem_of_snoc. }
        rewrite Hgens in Hi2'. lia.
    + apply Hnin1. rewrite Hf2. apply elem_of_snoc.
  - intros e. apply em_facts.destroy_not_alive.
  - intros e m' m'' e' (He & Ha & Hnin) Hgen Hidle Hlim' Hc Hidx.
    pose proof Ha as Ha'. apply em_facts.alive_true in Ha' as [_ Hg].
    assert (Hh : em.honest m e) by (split; [done | intros _; by split_and!]).
    pose proof (em_facts.destroy_inv m e Hinv Hh) as Hinvd.
    destruct (em_facts.idle_keeps (entity.index e) (entity.generation e + 1)
                (entity_manager.destroy_entity m e) m' Hinvd) as (Hinv' & Hin' & Hg'); [| | done |].
    { rewrite em_facts.destroy_alive by done. cbn [entity_manager.fragment_]. apply elem_of_snoc. }
    { rewrite em_facts.destroy_alive by done. cbn [entity_manager.generations_].
      rewrite list_lookup_alter_eq, Hg. cbn.
      pose proof (em_facts.generation_range e).
      rewrite wrap32_small by bits_lia. done. }
    destruct (em_facts.create_spec m' Hinv' Hlim')
      as (m2' & i2 & g2 & Hc' & Hi2 & Hg2 & Hl2 & _ & _ & Hcase).
    rewrite Hc in Hc'. injection Hc' as <- ->.
    rewrite index_make in Hidx by done. subst i2.
    rewrite generation_make by done.
    assert (g2 = entity.generation e + 1); [| lia].
    destruct Hcase as [(Hf & _) | (_ & Hgens)].
    + rewrite Hf in Hin'. by apply not_elem_of_nil in Hin'.
    + rewrite Hgens in Hl2. congruence.
Qed.

Lemma entity_identity_witness :
  let m := entity_manager.mk [0] [] 1 in
  let e := entity.make 0 0 in
  is_Some (entity_manager.create_entity m) ∧
  entity.index (entity.make 1 0) ≠ entity.index (entity.make 2 0) ∧
  entity_manager.alive (entity_manager.destroy_entity m e) e = false ∧
  (entity.generation (entity.make 0 1) = entity.generation e + 1 ∧
   entity.generation e < entity.generation (entity.make 0 1)).
Proof.
  intros m e.
  assert (Hreach : em.reachable m)
    by (apply reachable_generation; unfold two32; lia).
  assert (Hlim : ∀ gs fr a, (length gs < 10)%nat →
                            em.within_limits (entity_manager.mk gs fr a)).
  { intros gs fr a Hlen. unfold em.within_limits, entity_manager.capacity.
    cbn [entity_manager.generations_]. unfold two32. lia. }
  destruct (entity_identity m Hreach) as (H1 & H2 & H3 & H4).
  split; [| split; [| split]].
  - apply H1, Hlim. cbn. lia.
  - apply (H2 (entity_manager.mk [0; 0] [] 2) (entity.make 1 0)
              (entity_manager.mk [0; 0; 0] [] 3) (entity.make 2 0));
      [apply Hlim; cbn; lia | apply Hlim; cbn; lia | reflexivity | reflexivity].
  - apply H3. reflexivity.
  - apply (H4 e (entity_manager.destroy_entity m e)
              (entity_manager.mk [1] [] 1) (entity.make 0 1)).
    + split; [apply make_handle; bits_lia |].
      split; [reflexivity | apply not_elem_of_nil].
    + vm_compute. reflexivity.
    + apply em.idle_refl.
    + unfold em.within_limits. vm_compute. reflexivity.
    + reflexivity.
    + reflexivity.
Defined.

(** C5 fails in two places.  Where the 32-bit generation wraps: the
    manager with one slot of generation [2^32 - 1] is reached by honest
    calls, and the handle recycled from that slot has generation 0.  And
    after a forged handle was destroyed: [make(0, 1)] passes [alive] once
    the entity of slot 0 is destroyed; destroying it puts slot 0 on the
    free list a second time, and the next two [create_entity] calls return
    the same handle. *)
Lemma entity_generation_wraps :
  let m := entity_manager.mk [two32 - 1] [] 1 in
  let e := entity.make 0 (two32 - 1) in
  let forged :=
    entity_manager.destroy_entity
      (entity_manager.destroy_entity (entity_manager.mk [0] [] 1) (entity.make 0 0))
      (entity.make 0 1) in
  (em.reachable m ∧ em.live m e ∧
   entity_manager.create_entity (entity_manager.destroy_entity m e)
     = Some (entity_manager.mk [0] [] 1, entity.make 0 0) ∧
   entity.index (entity.make 0 0) = entity.index e ∧
   ¬ (entity.generation e < entity.generation (entity.make 0 0))) ∧
  (entity_manager.create_entity entity_manager.empty
     = Some (entity_manager.mk [0] [] 1, entity.make 0 0) ∧
   entity_manager.alive
     (entity_manager.destroy_entity (entity_manager.mk [0] [] 1) (entity.make 0 0))
     (entity.make 0 1) = true ∧
   ∃ m1 m2,
     entity_manager.create_entity forged = Some (m1, entity.make 0 2) ∧
     entity_manager.create_entity m1 = Some (m2, entity.make 0 2)).
Proof.
  intros m e forged. split; [split; [| split; [| split; [| split]]] |].
  - apply reachable_generation. unfold two32. lia.
  - split; [apply make_handle; bits_lia |].
    split; [reflexivity | apply not_elem_of_nil].
  - reflexivity.
  - reflexivity.
  - vm_compute. discriminate.
  - split; [vm_compute; reflexivity |]. split; [vm_compute; reflexivity |].
    exists (entity_manager.mk [2] [0] 0), (entity_manager.mk [2] [] 1).
    split; vm_compute; reflexivity.
Qed.

(** ** Stale handles *)

(** C6.  For a handle [e] with [alive(e) == false], [destroy_entity],
    [add_component<T>] (with or without a value) and [remove_component<T>]
    return and leave the whole store as it was, version counter included,
    and [try_get_component<T>] returns [nullptr]. *)
Theorem stale_handle_noop (w : world.t) (T : ctype) (e : entity.t) (v : option value) :
  world.alive w e = false →
  world.destroy_entity w e = Some w ∧
  world.add_component w T e v = Some w ∧
  world.remove_component w T e = Some w ∧
  world.try_get_component w T e = Some None.
Proof.
  intros Ha. unfold world.alive in Ha.
  unfold world.destroy_entity, world.add_component, world.remove_component,
    world.try_get_component, world.alive.
  rewrite Ha. done.
Qed.

Lemma stale_handle_noop_witness :
  let w := examples.populated in
  let e := entity.make 7 0 in
  world.destroy_entity w e = Some w ∧
  world.add_component w examples.TC e (Some 1) = Some w ∧
  world.remove_component w examples.TC e = Some w ∧
  world.try_get_component w examples.TC e = Some None.
Proof.
  intros w e. apply (stale_handle_noop w examples.TC e (Some 1)).
  vm_compute. reflexivity.
Defined.

(** ** The render cache *)

Section render_cache_facts.

Import render_cache.

(** What a call of [refresh] that returns leaves behind: an initialised
    cache whose version is the store's. *)
Lemma refresh_counted_post Cs w rc rc1 k :
  refresh_counted Cs w rc = Some (rc1, k) →
  initialized_ rc1 = true ∧ cached_version_ rc1 = world.version w.
Proof.
  unfold refresh_counted. intros H.
  destruct (initialized_ rc) eqn:Hi.
  - cbn in H. destruct (world.version w =? cached_version_ rc) eqn:Hv.
    + injection H as <- _. split; [done |]. symmetry. by apply Z.eqb_eq.
    + destruct (build_matching w rc) as [[matching scanned] |]; [| done].
      cbn in H. destruct (rebuild_blocks Cs w matching); [| done].
      cbn in H. injection H as <- _. done.
  - unfold init in H.
    destruct (mapM _ Cs) as [ids |]; [| done]. cbn in H.
    destruct (world.version w =? cached_version_ rc) eqn:Hv.
    + injection H as <- _. cbn. split; [done |]. symmetry. by apply Z.eqb_eq.
    + match type of H with context [build_matching w ?r] =>
        destruct (build_matching w r) as [[matching scanned] |]; [| done] end.
      cbn in H. destruct (rebuild_blocks Cs w matching); [| done].
      cbn in H. injection H as <- _. done.
Qed.

(** On an initialised cache of the store's version [refresh] returns at
    once. *)
Lemma refresh_counted_cached Cs w rc :
  initialized_ rc = true → cached_version_ rc = world.version w →
  refresh_counted Cs w rc = Some (rc, O).
Proof.
  intros Hi Hv. unfold refresh_counted. rewrite Hi. cbn.
  by rewrite Hv, Z.eqb_refl.
Qed.

End render_cache_facts.

(** C7.  A second [refresh] on the same store state returns the cache the
    first call left, with its version, matching tables and blocks, and reads
    no table. *)
Theorem refresh_idempotent (Cs : list ctype) (w : world.t)
        (rc rc1 : render_cache.t) :
  render_cache.refresh Cs w rc = Some rc1 →
  render_cache.refresh Cs w rc1 = Some rc1 ∧
  render_cache.rescans Cs w rc1 = Some O ∧
  render_cache.version rc1 = world.version w.
Proof.
  unfold render_cache.refresh, render_cache.rescans. intros H.
  destruct (render_cache.refresh_counted Cs w rc) as [[rc' k] |] eqn:Hr; [| done].
  cbn in H. injection H as ->.
  destruct (refresh_counted_post Cs w rc rc1 k Hr) as [Hi Hv].
  rewrite (refresh_counted_cached Cs w rc1 Hi Hv). done.
Qed.

Lemma refresh_idempotent_witness :
  let Cs := [examples.TA; examples.TB] in
  let w := examples.populated in
  let rc1 :=
    render_cache.mk true [0; 1] [2]
      [render_cache.mk_block [mk_ptr 2 0 0; mk_ptr 2 1 0] 3] (world.version w) in
  render_cache.refresh Cs w rc1 = Some rc1 ∧
  render_cache.rescans Cs w rc1 = Some O ∧
  render_cache.version rc1 = world.version w.
Proof.
  intros Cs w rc1. apply (refresh_idempotent Cs w render_cache.new rc1).
  vm_compute. reflexivity.
Defined.

(** ** Archetype keys *)

Module key.

Import archetype_key.

Abbreviation ok := key_ok.

Lemma ok_nil : ok [].
Proof. constructor. Qed.

Lemma ok_cons_inv x k : ok (x :: k) → ok k ∧ ∀ y, y ∈ k → x < y.
Proof.
  intros H. apply StronglySorted_inv in H as [Hk Hall].
  split; [done |]. intros y Hy. by apply (proj1 (Forall_forall _ _) Hall).
Qed.

Lemma ok_NoDup k : ok k → NoDup k.
Proof.
  induction k as [| x k IH]; intros Hk; [constructor |].
  apply ok_cons_inv in Hk as [Hk Hlt]. constructor; [| by apply IH].
  intros Hin. specialize (Hlt x Hin). lia.
Qed.

Lemma lower_bound_le k c : (lower_bound k c ≤ length k)%nat.
Proof.
  induction k as [| x k IH]; cbn; [lia |]. destruct (x <? c); cbn; lia.
Qed.

(** In a canonical key the lower bound of a member is its position. *)
Lemma lower_bound_elem k c : ok k → c ∈ k → k !! lower_bound k c = Some c.
Proof.
  induction k as [| x k IH]; intros Hk Hc; [by apply elem_of_nil in Hc |].
  apply ok_cons_inv in Hk as [Hk Hlt]. cbn.
  apply elem_of_cons in Hc as [-> | Hc].
  - by rewrite Z.ltb_irrefl.
  - specialize (Hlt c Hc). apply Z.ltb_lt in Hlt. rewrite Hlt. cbn. by apply IH.
Qed.

Lemma lower_bound_lookup k c x : ok k → k !! lower_bound k c = Some x → c ≤ x.
Proof.
  induction k as [| y k IH]; intros Hk Hx; [done |].
  apply ok_cons_inv in Hk as [Hk Hlt]. cbn in Hx.
  destruct (y <? c) eqn:Hyc; cbn in Hx.
  - by apply IH.
  - injection Hx as <-. by apply Z.ltb_ge.
Qed.

Lemma contains_elem k c : ok k → contains k c = true ↔ c ∈ k.
Proof.
  intros Hk. unfold contains. split.
  - destruct (k !! lower_bound k c) as [x |] eqn:Hx; [| done].
    intros Hn. apply negb_true_iff, Z.ltb_ge in Hn.
    pose proof (lower_bound_lookup k c x Hk Hx).
    assert (x = c) as -> by lia. by eapply list_elem_of_lookup_2.
  - intros Hc. rewrite (lower_bound_elem k c Hk Hc).
    by rewrite Z.ltb_irrefl.
Qed.

Lemma contains_false k c : ok k → contains k c = false ↔ c ∉ k.
Proof.
  intros Hk. rewrite <- (contains_elem k c Hk). by destruct (contains k c).
Qed.

(** Members of a canonical key have different columns. *)
Lemma lower_bound_inj k c c' :
  ok k → c ∈ k → c' ∈ k → lower_bound k c = lower_bound k c' → c = c'.
Proof.
  intros Hk Hc Hc' Heq.
  pose proof (lower_bound_elem k c Hk Hc) as H1.
  pose proof (lower_bound_elem k c' Hk Hc') as H2.
  rewrite Heq in H1. congruence.
Qed.

Lemma lower_bound_lt k c : ok k → c ∈ k → (lower_bound k c < length k)%nat.
Proof.
  intros Hk Hc. apply lookup_lt_is_Some. rewrite lower_bound_elem by done. eauto.
Qed.

(** Sorting. *)
Lemma elem_of_insert_sorted x y l : y ∈ insert_sorted x l ↔ y = x ∨ y ∈ l.
Proof.
  induction l as [| z l IH]; cbn.
  - rewrite list_elem_of_singleton, elem_of_nil. tauto.
  - destruct (x <=? z); rewrite !elem_of_cons; [tauto |]. rewrite IH. tauto.
Qed.

Lemma elem_of_sort y l : y ∈ sort l ↔ y ∈ l.
Proof.
  induction l as [| x l IH]; cbn; [done |].
  rewrite elem_of_insert_sorted, elem_of_cons, IH. tauto.
Qed.

Lemma insert_sorted_sorted x l :
  StronglySorted Z.le l → StronglySorted Z.le (insert_sorted x l).
Proof.
  induction l as [| z l IH]; intros Hl; cbn.
  - repeat constructor.
  - apply StronglySorted_inv in Hl as [Hl Hall].
    destruct (x <=? z) eqn:Hxz.
    + apply Z.leb_le in Hxz. constructor; [by constructor |].
      constructor; [done |]. eapply Forall_impl; [done |]. cbn. intros. lia.
    + apply Z.leb_gt in Hxz. constructor; [by apply IH |].
      apply Forall_forall. intros y Hy. apply elem_of_insert_sorted in Hy as [-> | Hy].
      * lia.
      * by apply (proj1 (Forall_forall _ _) Hall).
Qed.

Lemma sort_sorted l : StronglySorted Z.le (sort l).
Proof.
  induction l as [| x l IH]; cbn; [constructor | by apply insert_sorted_sorted].
Qed.

Lemma elem_of_unique y l : y ∈ unique l ↔ y ∈ l.
Proof.
  induction l as [| x l IH]; [done |].
  destruct l as [| z l]; [done |].
  change (unique (x :: z :: l)) with (if x =? z then unique (z :: l) else x :: unique (z :: l)).
  destruct (x =? z) eqn:Hxz.
  - apply Z.eqb_eq in Hxz as ->. rewrite IH, !elem_of_cons. tauto.
  - rewrite elem_of_cons, IH, !elem_of_cons. tauto.
Qed.

Lemma unique_sorted l : StronglySorted Z.le l → ok (unique l).
Proof.
  induction l as [| x l IH]; intros Hl; [constructor |].
  apply StronglySorted_inv in Hl as [Hl Hall]. specialize (IH Hl).
  destruct l as [| z l]; [repeat constructor |].
  change (unique (x :: z :: l)) with (if x =? z then unique (z :: l) else x :: unique (z :: l)).
  destruct (x =? z) eqn:Hxz; [done |].
  apply Z.eqb_neq in Hxz. constructor; [done |].
  apply Forall_forall. intros y Hy. apply (proj1 (elem_of_unique _ _)) in Hy.
  pose proof (proj1 (Forall_forall _ _) Hall y Hy) as Hle. cbn in Hle.
  apply elem_of_cons in Hy as [-> | Hy]; [lia |].
  apply StronglySorted_inv in Hl as [_ Hall'].
  pose proof (proj1 (Forall_forall _ _) Hall' y Hy) as Hzy. cbn in Hzy.
  pose proof (proj1 (Forall_forall _ _) Hall z ltac:(left)) as Hxz'. cbn in Hxz'.
  lia.
Qed.

Lemma canonicalise_ok l : ok (canonicalise l).
Proof. apply unique_sorted, sort_sorted. Qed.

Lemma elem_of_canonicalise y l : y ∈ canonicalise l ↔ y ∈ l.
Proof. unfold canonicalise. by rewrite elem_of_unique, elem_of_sort. Qed.

(** Erasing one position of a canonical key. *)
Lemma ok_delete k i : ok k → ok (delete i k).
Proof.
  intros Hk. revert i. induction Hk as [| x k Hk IH Hall]; intros i.
  - destruct i; constructor.
  - destruct i as [| i]; [done |]. cbn. constructor; [apply IH |].
    apply Forall_forall. intros y Hy.
    apply (proj1 (Forall_forall _ _) Hall).
    by eapply list_elem_of_delete_inv.
Qed.

Lemma elem_of_delete_lower_bound k c y :
  ok k → c ∈ k → y ∈ delete (lower_bound k c) k ↔ y ∈ k ∧ y ≠ c.
Proof.
  induction k as [| x k IH]; intros Hk Hc; [by apply elem_of_nil in Hc |].
  pose proof (ok_NoDup _ Hk) as Hnd. apply NoDup_cons in Hnd as [Hx _].
  apply ok_cons_inv in Hk as [Hk Hlt]. cbn.
  apply elem_of_cons in Hc as [-> | Hc].
  - rewrite Z.ltb_irrefl. cbn. rewrite elem_of_cons. split.
    + intros Hy. split; [by right |]. by intros ->.
    + intros [[-> | Hy] Hne]; done.
  - pose proof (Hlt c Hc) as Hxc. apply Z.ltb_lt in Hxc. rewrite Hxc. cbn.
    rewrite !elem_of_cons, IH by done. split.
    + intros [-> | [Hy Hne]]; [| tauto]. split; [by left |]. apply Z.ltb_lt in Hxc. lia.
    + tauto.
Qed.

(** [intersect_sorted_ids] of canonical keys: the common ids, each once. *)
Lemma intersect_unfold x a y b :
  world.intersect_sorted_ids (x :: a) (y :: b) =
    if x =? y then x :: world.intersect_sorted_ids a b
    else if x <? y then world.intersect_sorted_ids a (y :: b)
    else world.intersect_sorted_ids (x :: a) b.
Proof. done. Qed.

Lemma intersect_nil_r a : world.intersect_sorted_ids a [] = [].
Proof. by destruct a. Qed.

Lemma elem_of_intersect a b z :
  ok a → ok b → z ∈ world.intersect_sorted_ids a b ↔ z ∈ a ∧ z ∈ b.
Proof.
  revert b. induction a as [| x a IHa]; intros b Ha Hb.
  - cbn. destruct b; rewrite elem_of_nil; tauto.
  - induction b as [| y b IHb].
    + rewrite (intersect_nil_r (x :: a)), !elem_of_nil. tauto.
    + pose proof (ok_cons_inv _ _ Ha) as [Ha' Hlta].
      pose proof (ok_cons_inv _ _ Hb) as [Hb' Hltb].
      rewrite intersect_unfold.
      destruct (x =? y) eqn:Hxy; [| destruct (x <? y) eqn:Hlt].
      * apply Z.eqb_eq in Hxy as <-.
        rewrite !elem_of_cons, (IHa b Ha' Hb'). split; [tauto |].
        intros [[Hz | Hza] [Hz' | Hzb]]; [tauto | tauto | | tauto].
        subst z. specialize (Hlta _ Hza). lia.
      * apply Z.ltb_lt in Hlt. rewrite (IHa (y :: b) Ha' Hb), !elem_of_cons.
        split; [tauto |]. intros [[Hz | Hza] Hzb]; [| tauto]. subst z.
        destruct Hzb as [Hz | Hzb]; [lia |]. specialize (Hltb _ Hzb). lia.
      * apply Z.eqb_neq in Hxy. apply Z.ltb_ge in Hlt.
        rewrite (IHb Hb'), !elem_of_cons. split; [tauto |].
        intros [Hza [Hz | Hzb]]; [| tauto]. subst z.
        destruct Hza as [Hz | Hza]; [lia |]. specialize (Hlta _ Hza). lia.
Qed.

Lemma intersect_ok a b : ok a → ok b → ok (world.intersect_sorted_ids a b).
Proof.
  revert b. induction a as [| x a IHa]; intros b Ha Hb.
  - destruct b; constructor.
  - induction b as [| y b IHb].
    + rewrite (intersect_nil_r (x :: a)). constructor.
    + pose proof (ok_cons_inv _ _ Ha) as [Ha' Hlta].
      pose proof (ok_cons_inv _ _ Hb) as [Hb' Hltb].
      rewrite intersect_unfold.
      destruct (x =? y); [| destruct (x <? y)].
      * constructor; [by apply IHa |]. apply Forall_forall. intros z Hz.
        apply elem_of_intersect in Hz as [Hz _]; [| done | done]. by apply Hlta.
      * by apply IHa.
      * by apply IHb.
Qed.

End key.

(** ** Columns *)

Module column_facts.

Import column.

Lemma grow_to_ok n c cap :
  column_ok n c → (n ≤ cap)%nat → column_ok n (grow_to c cap).
Proof.
  intros [Hs Hr Hb] Hcap. constructor; cbn; [done | done |].
  rewrite length_app, length_take, length_replicate. lia.
Qed.

Lemma reserve_ok n c cap : column_ok n c → column_ok n (reserve c cap).
Proof.
  intros Hc. unfold reserve. destruct (cap <=? capacity c)%nat eqn:Hle; [done |].
  apply Nat.leb_gt in Hle. apply grow_to_ok; [done |]. destruct Hc. lia.
Qed.

Lemma reserve_capacity c cap : (cap ≤ capacity (reserve c cap))%nat.
Proof.
  unfold reserve. destruct (cap <=? capacity c)%nat eqn:Hle; cbn; [| lia].
  by apply Nat.leb_le.
Qed.

Lemma reserve_size c cap : size (reserve c cap) = size c.
Proof. unfold reserve. by destruct (cap <=? capacity c)%nat. Qed.

(** The elements survive a growth of the buffer. *)
Lemma reserve_data n c cap r :
  column_ok n c → (r < n)%nat → data (reserve c cap) !! r = data c !! r.
Proof.
  intros [Hs Hr Hb] Hlt. unfold reserve.
  destruct (cap <=? capacity c)%nat; [done |]. cbn.
  rewrite lookup_app_l by (rewrite length_take; lia).
  apply lookup_take_lt. lia.
Qed.

Lemma stride_range c : 0 ≤ stride c < two32.
Proof. apply wrap32_range. Qed.

(** A capacity below [2^32] times a 32-bit stride is a [std::size_t]:
    the request is the one [grow_to] of that many slots makes. *)
Lemma reserve_sized_small n c val :
  column_ok n c → 0 ≤ val < two32 →
  reserve_sized c val = Some (reserve c (Z.to_nat val)).
Proof.
  intros [Hs Hr Hb] Hval. unfold reserve_sized, reserve.
  pose proof (stride_range c) as Hst.
  destruct (val <=? Z.of_nat (capacity c)) eqn:Hle.
  - apply Z.leb_le in Hle.
    by rewrite (proj2 (Nat.leb_le (Z.to_nat val) (capacity c))) by lia.
  - apply Z.leb_gt in Hle.
    rewrite (proj2 (Nat.leb_gt (Z.to_nat val) (capacity c))) by lia.
    assert (Hw : wrap64 (val * stride c) = val * stride c).
    { unfold wrap64. apply Z.mod_small. unfold two32, two64 in *. nia. }
    cbn zeta. rewrite Hw, Z.eqb_refl.
    by rewrite (proj2 (Nat.leb_le (size c) (Z.to_nat val))) by lia.
Qed.

(** Whatever the capacity asked for, the elements counted stay the same. *)
Lemma reserve_sized_size c val c' : reserve_sized c val = Some c' → size c' = size c.
Proof.
  unfold reserve_sized. destruct (val <=? _); [by intros [= <-] |].
  cbn zeta. destruct (size c <=? _)%nat; [by intros [= <-] | done].
Qed.

Lemma push_defaults_size c : size (push_defaults c) = S (size c).
Proof. unfold push_defaults. cbn. by destruct (size c =? capacity c)%nat. Qed.

Lemma push_defaults_ok n c : column_ok n c → column_ok (S n) (push_defaults c).
Proof.
  intros Hc. pose proof Hc as [Hs Hr Hb]. unfold push_defaults.
  destruct (size c =? capacity c)%nat eqn:Hfull.
  - apply Nat.eqb_eq in Hfull.
    set (cap := if (capacity c =? 0)%nat then 8%nat else (capacity c * 2)%nat).
    assert (Hcap : (n < cap)%nat).
    { subst cap. destruct (capacity c =? 0)%nat eqn:H0.
      - apply Nat.eqb_eq in H0. lia.
      - apply Nat.eqb_neq in H0. lia. }
    destruct (grow_to_ok n c cap Hc ltac:(lia)) as [Hs' Hr' Hb'].
    constructor; cbn in *; [lia | lia |]. by rewrite length_insert.
  - apply Nat.eqb_neq in Hfull.
    constructor; cbn; [lia | lia |]. by rewrite length_insert.
Qed.

Lemma remove_swap_size c row c' :
  remove_swap c row = Some c' → (row < size c)%nat ∧ size c' = (size c - 1)%nat.
Proof.
  unfold remove_swap. destruct (row <? size c)%nat eqn:Hlt; [| done].
  apply Nat.ltb_lt in Hlt. by intros [= <-].
Qed.

Lemma remove_swap_nodestroy_size c row c' :
  remove_swap_nodestroy c row = Some c' →
  (row < size c)%nat ∧ size c' = (size c - 1)%nat.
Proof.
  unfold remove_swap_nodestroy. destruct (row <? size c)%nat eqn:Hlt; [| done].
  apply Nat.ltb_lt in Hlt. by intros [= <-].
Qed.

Lemma remove_swap_ok n c row :
  column_ok n c → (row < n)%nat →
  ∃ c', remove_swap c row = Some c' ∧ column_ok (n - 1) c'.
Proof.
  intros [Hs Hr Hb] Hlt. unfold remove_swap.
  assert ((row <? size c) = true)%nat as -> by (apply Nat.ltb_lt; lia).
  eexists. split; [done |]. constructor; cbn; [lia | lia |].
  rewrite length_insert. destruct (row =? size c - 1)%nat; by rewrite !length_insert.
Qed.

Lemma remove_swap_nodestroy_ok n c row :
  column_ok n c → (row < n)%nat →
  ∃ c', remove_swap_nodestroy c row = Some c' ∧ column_ok (n - 1) c'.
Proof.
  intros [Hs Hr Hb] Hlt. unfold remove_swap_nodestroy.
  assert ((row <? size c) = true)%nat as -> by (apply Nat.ltb_lt; lia).
  eexists. split; [done |]. constructor; cbn; [lia | lia |].
  destruct (row =? size c - 1)%nat; by rewrite ?length_insert.
Qed.

Lemma write_Some c row x c' :
  write c row x = Some c' →
  (row < length (data c))%nat ∧
  c' = mk (info c) (<[row := x]> (data c)) (size c) (capacity c).
Proof.
  unfold write. destruct (row <? length (data c))%nat eqn:Hlt; [| done].
  apply Nat.ltb_lt in Hlt. by intros [= <-].
Qed.

Lemma write_in_range c row x :
  (row < length (data c))%nat →
  write c row x = Some (mk (info c) (<[row := x]> (data c)) (size c) (capacity c)).
Proof. intros Hlt. unfold write. apply Nat.ltb_lt in Hlt. by rewrite Hlt. Qed.

Lemma write_ok n c row x c' : write c row x = Some c' → column_ok n c → column_ok n c'.
Proof.
  intros Hw [Hs Hr Hb]. apply write_Some in Hw as [_ ->].
  constructor; cbn; [done | done |]. by rewrite length_insert.
Qed.

End column_facts.

(** ** Tables *)

Module table_facts.

Import table.

(** [swap_pop] on a row of the vector. *)
Lemma swap_pop_spec (es : list entity.t) (row : nat) :
  (row < length es)%nat →
  let last_index := (length es - 1)%nat in
  length (swap_pop es row).1 = last_index ∧
  (∀ r, (r < last_index)%nat →
        (swap_pop es row).1 !! r = if decide (r = row) then es !! last_index else es !! r) ∧
  (swap_pop es row).2 =
    if decide (row = last_index) then INVALID_ENTITY
    else default INVALID_ENTITY (es !! last_index).
Proof.
  intros Hlt last_index. unfold swap_pop. fold last_index.
  pose proof (@lookup_removelast entity.t) as Hrl.
  pose proof (@length_removelast_pred entity.t) as Hll.
  destruct (row =? last_index)%nat eqn:Hrow.
  - apply Nat.eqb_eq in Hrow. cbn. split; [apply Hll |]. split.
    + intros r Hr. rewrite Hrl by (fold last_index; lia).
      destruct (decide (r = row)); [lia | done].
    + by rewrite decide_True.
  - apply Nat.eqb_neq in Hrow. cbn. split; [by rewrite Hll, length_insert |]. split.
    + intros r Hr. rewrite Hrl by (rewrite length_insert; fold last_index; lia).
      destruct (decide (r = row)) as [-> | Hne].
      * rewrite list_lookup_insert_eq by lia.
        unfold last_index in *.
        destruct (es !! (length es - 1)%nat) eqn:Hx; [done |].
        apply lookup_ge_None in Hx. lia.
      * by rewrite list_lookup_insert_ne.
    + by rewrite decide_False.
Qed.

Lemma mapM_sizes (f : column.t → option column.t) (g : nat → nat) cs cs' n :
  (∀ c c', f c = Some c' → column.size c' = g (column.size c)) →
  mapM f cs = Some cs' →
  Forall (fun c => column.size c = n) cs →
  Forall (fun c => column.size c = g n) cs'.
Proof.
  intros Hf Hm Hall. apply mapM_Some_1 in Hm.
  induction Hm as [| c c' cs cs' Hc _ IH]; [constructor |].
  apply Forall_cons in Hall as [Hn Hall]. constructor; [| by apply IH].
  rewrite (Hf c c' Hc). by rewrite Hn.
Qed.

(** The row operations keep [entities] and every column at one length. *)
Lemma add_row_sizes tb e : sizes_agree tb → sizes_agree (add_row tb e).1.
Proof.
  unfold sizes_agree, add_row. cbn [fst with_rows entities columns]. intros H.
  rewrite length_app. apply Forall_fmap.
  eapply Forall_impl; [done |]. intros c Hc. unfold compose. cbv beta in Hc.
  rewrite column_facts.push_defaults_size, Hc. cbn [length]. lia.
Qed.

Lemma add_row_uninitialized_sizes tb e :
  sizes_agree tb → sizes_agree (add_row_uninitialized tb e).1.
Proof.
  unfold sizes_agree, add_row_uninitialized. cbn [fst with_rows entities columns]. intros H.
  rewrite length_app. apply Forall_fmap.
  eapply Forall_impl; [done |]. intros c Hc. unfold compose. cbv beta in Hc.
  unfold grow_uninitialized. cbn [column.size length].
  destruct (column.size c =? column.capacity c)%nat;
    rewrite ?column_facts.reserve_size; lia.
Qed.

Lemma remove_row_swap_sizes tb row tb' sw :
  remove_row_swap tb row = Some (tb', sw) → sizes_agree tb → sizes_agree tb'.
Proof.
  unfold sizes_agree, remove_row_swap, size.
  destruct (row <? length (entities tb))%nat eqn:Hlt; [| done].
  apply Nat.ltb_lt in Hlt.
  pose proof (swap_pop_spec (entities tb) row Hlt) as (Hlen & _).
  destruct (swap_pop (entities tb) row) as [es swapped].
  destruct (mapM _ (columns tb)) as [cs |] eqn:Hm; [| done].
  cbn. intros [= <- <-] Hall. cbn in *. rewrite Hlen.
  eapply (mapM_sizes _ (fun n => (n - 1)%nat)); [| done | done].
  intros c c' Hc. by apply column_facts.remove_swap_size in Hc as [_ ->].
Qed.

Lemma remove_row_swap_nodestroy_sizes tb row tb' sw :
  remove_row_swap_nodestroy tb row = Some (tb', sw) → sizes_agree tb → sizes_agree tb'.
Proof.
  unfold sizes_agree, remove_row_swap_nodestroy, size.
  destruct (row <? length (entities tb))%nat eqn:Hlt; [| done].
  apply Nat.ltb_lt in Hlt.
  pose proof (swap_pop_spec (entities tb) row Hlt) as (Hlen & _).
  destruct (swap_pop (entities tb) row) as [es swapped].
  destruct (mapM _ (columns tb)) as [cs |] eqn:Hm; [| done].
  cbn. intros [= <- <-] Hall. cbn in *. rewrite Hlen.
  eapply (mapM_sizes _ (fun n => (n - 1)%nat)); [| done | done].
  intros c c' Hc. by apply column_facts.remove_swap_nodestroy_size in Hc as [_ ->].
Qed.

(** The removals return on a row of a table whose sizes agree. *)
Lemma mapM_total (f : column.t → option column.t) cs n :
  (∀ c, column.size c = n → is_Some (f c)) →
  Forall (fun c => column.size c = n) cs → is_Some (mapM f cs).
Proof.
  intros Hf Hall. induction Hall as [| c cs Hc _ IH]; [by eexists |].
  destruct (Hf c Hc) as [c' Hc']. destruct IH as [cs' Hcs'].
  exists (c' :: cs'). cbn. rewrite Hc'. cbn. by rewrite Hcs'.
Qed.

Lemma remove_row_swap_total tb row :
  sizes_agree tb → (row < size tb)%nat → is_Some (remove_row_swap tb row).
Proof.
  intros Hall Hlt. unfold remove_row_swap.
  apply Nat.ltb_lt in Hlt as Hlt'. rewrite Hlt'.
  destruct (swap_pop (entities tb) row) as [es swapped].
  assert (Hf : ∀ c, column.size c = length (entities tb) →
                    is_Some (column.remove_swap c row)).
  { intros c Hc. unfold column.remove_swap. unfold size in Hlt.
    assert ((row <? column.size c) = true)%nat as -> by (apply Nat.ltb_lt; lia).
    by eexists. }
  destruct (mapM_total _ _ _ Hf Hall) as [cs ->]. by eexists.
Qed.

Lemma remove_row_swap_nodestroy_total tb row :
  sizes_agree tb → (row < size tb)%nat → is_Some (remove_row_swap_nodestroy tb row).
Proof.
  intros Hall Hlt. unfold remove_row_swap_nodestroy.
  apply Nat.ltb_lt in Hlt as Hlt'. rewrite Hlt'.
  destruct (swap_pop (entities tb) row) as [es swapped].
  assert (Hf : ∀ c, column.size c = length (entities tb) →
                    is_Some (column.remove_swap_nodestroy c row)).
  { intros c Hc. unfold column.remove_swap_nodestroy. unfold size in Hlt.
    assert ((row <? column.size c) = true)%nat as -> by (apply Nat.ltb_lt; lia).
    by eexists. }
  destruct (mapM_total _ _ _ Hf Hall) as [cs ->]. by eexists.
Qed.

End table_facts.

(** ** Column sizes in every run *)


Lemma fold_opt_preserves {A B} (P : A → Prop) (f : A → B → option A) l :
  (∀ a x a', f a x = Some a' → P a → P a') →
  ∀ a a', fold_opt f a l = Some a' → P a → P a'.
Proof.
  intros Hf. induction l as [| x l IH]; intros a a' H Ha; cbn in H.
  - by injection H as <-.
  - bind_inv H a1 Ha1. eapply IH; [done |]. by eapply Hf.
Qed.

(** The steps of [world::reserve]. *)
Lemma reserve_steps w Cs count w' :
  world.reserve w Cs count = Some w' →
  ∃ ids w1 tid tb tb',
    mapM (component_registry.get_id (world.registry_ w)) Cs = Some ids ∧
    world.get_table_for_signature w ids = Some (w1, tid) ∧
    world_storage.get_table (world.storage_ w1) tid = Some tb ∧
    table.reserve tb count = Some tb' ∧
    w' = world.bump_version (world.set_table w1 tid tb').
Proof.
  unfold world.reserve, world.get_table_for_signature, archetype_key.make_archetype_key.
  intros H. bind_inv H ids Hids. bind_inv H p Hp. destruct p as [st tid].
  bind_inv H tb Htb. bind_inv H tb' Htb'. injection H as <-.
  exists ids, (world.with_storage w st), tid, tb, tb'. by rewrite Hp.
Qed.

Module sizes.

Local Abbreviation store := store_sizes_agree.

Lemma get_table w id tb :
  store w → world_storage.get_table (world.storage_ w) id = Some tb → sizes_agree tb.
Proof. intros Hs Hg. by eapply (proj1 (Forall_lookup _ _) Hs). Qed.

Lemma set_table_sizes w id tb : store w → sizes_agree tb → store (world.set_table w id tb).
Proof. intros Hs Htb. by apply Forall_insert. Qed.

Lemma set_location w i l w' : world.set_location w i l = Some w' → store w → store w'.
Proof.
  unfold world.set_location. destruct (_ <? _)%nat; [| done]. by intros [= <-].
Qed.

Lemma write_cell_sizes tb cid r x tb' :
  table.write_cell tb cid r x = Some tb' → sizes_agree tb → sizes_agree tb'.
Proof.
  unfold table.write_cell, sizes_agree. intros H Hs.
  bind_inv H i Hi. bind_inv H c Hc. bind_inv H c' Hc'. injection H as <-.
  cbn [table.with_rows table.entities table.columns].
  apply Forall_insert; [done |].
  apply column_facts.write_Some in Hc' as [_ ->]. cbn.
  by apply (proj1 (Forall_lookup _ _) Hs i c).
Qed.

Lemma new_columns reg key cols :
  mapM (fun cid => column.new <$> component_registry.get_info reg cid) key = Some cols →
  Forall (fun c => column.size c = O ∧ column.capacity c = O ∧ column.data c = []) cols ∧
  length cols = length key.
Proof.
  intros H. apply mapM_Some_1 in H. split.
  - induction H as [| cid c key cols Hc _ IH]; constructor; [| done].
    destruct (component_registry.get_info reg cid); [| done]. by injection Hc as <-.
  - symmetry. by eapply Forall2_length.
Qed.

Lemma create_table reg st key st' id :
  world_storage.create_table reg st key = Some (st', id) →
  ∃ tb, world_storage.tables_ st' = world_storage.tables_ st ++ [tb] ∧
        table.entities tb = [] ∧ table.key tb = key ∧
        mapM (fun cid => column.new <$> component_registry.get_info reg cid) key
          = Some (table.columns tb) ∧
        id = wrap32 (Z.of_nat (length (world_storage.tables_ st))) ∧
        world_storage.key_tables_ st' =
          match world_storage.key_tables_ st !! key with
          | Some _ => world_storage.key_tables_ st
          | None => <[key := id]> (world_storage.key_tables_ st)
          end ∧
        is_Some (table.build_lookup key).
Proof.
  unfold world_storage.create_table. intros H.
  bind_inv H cols Hcols. bind_inv H tb Htb. injection H as <- <-.
  unfold table.finalize_schema in Htb. cbn in Htb.
  destruct (table.build_lookup key) as [[[keys vals] mask] |] eqn:Hb; [| done].
  cbn in Htb. injection Htb as <-. eexists. cbn. split_and!; first [done | by eexists].
Qed.

Lemma get_or_create_table w ids w' id :
  world.get_table_for_signature w ids = Some (w', id) → store w → store w'.
Proof.
  unfold world.get_table_for_signature, world_storage.get_or_create_table. intros H Hs.
  bind_inv H r Hr. destruct r as [st tid]. injection H as <- <-.
  destruct (world_storage.key_tables_ _ !! _).
  - by injection Hr as <- <-.
  - apply create_table in Hr as (tb & Ht & He & _ & Hc & _).
    unfold store, world.tables. cbn. rewrite Ht.
    apply Forall_app. split; [done |]. constructor; [| constructor].
    unfold sizes_agree. rewrite He. cbn.
    apply new_columns in Hc as [Hc _].
    eapply Forall_impl; [done |]. cbn. intros c (-> & _). done.
Qed.

Lemma create_entity w w' e : world.create_entity w = Some (w', e) → store w → store w'.
Proof.
  unfold world.create_entity. intros H Hs.
  bind_inv H r Hr. destruct r as [m e1]. cbn zeta in H.
  match type of H with context [world.ensure_location_capacity ?a ?b] =>
    set (w1 := world.ensure_location_capacity a b) in * end.
  assert (Hs1 : store w1).
  { subst w1. unfold world.ensure_location_capacity.
    by destruct (_ <=? _)%nat. }
  bind_inv H tb Htb.
  pose proof (get_table w1 _ tb Hs1 Htb) as Hsz.
  destruct (table.add_row tb e1) as [tb' row] eqn:Hadd.
  bind_inv H w2 Hw2. injection H as <- <-.
  apply (set_location _ _ _ _ Hw2). apply set_table_sizes; [done |].
  change tb' with (tb', row).1. rewrite <- Hadd. by apply table_facts.add_row_sizes.
Qed.

Lemma remove_row_dense_and_fixup w e w' :
  world.remove_row_dense_and_fixup w e = Some w' → store w → store w'.
Proof.
  unfold world.remove_row_dense_and_fixup. intros H Hs.
  bind_inv H loc Hloc. destruct (negb (location_valid loc)); [done |].
  bind_inv H tb Htb. bind_inv H r Hr. destruct r as [tb' sw].
  pose proof (table_facts.remove_row_swap_sizes _ _ _ _ Hr (get_table _ _ _ Hs Htb)) as Hsz.
  pose proof (set_table_sizes w (tid loc) tb' Hs Hsz) as Hs1.
  bind_inv H w2 Hw2. bind_inv H w3 Hw3. injection H as <-.
  apply (set_location _ _ _ _ Hw3).
  destruct (entity.valid sw); [by apply (set_location _ _ _ _ Hw2) | by injection Hw2 as <-].
Qed.

Lemma destroy_entity w e w' : world.destroy_entity w e = Some w' → store w → store w'.
Proof.
  unfold world.destroy_entity. intros H Hs.
  destruct (negb _); [by injection H as <- |].
  bind_inv H loc Hloc. bind_inv H w1 Hw1. injection H as <-.
  destruct (location_valid loc).
  - by apply (remove_row_dense_and_fixup _ _ _ Hw1).
  - by injection Hw1 as <-.
Qed.

Lemma move_component old_tid new_tid old_row new_row w cid w' :
  world.move_component old_tid new_tid old_row new_row w cid = Some w' →
  store w → store w'.
Proof.
  unfold world.move_component. intros H Hs.
  bind_inv H ot Hot. bind_inv H src Hsrc. bind_inv H nt Hnt. bind_inv H nt' Hnt'.
  cbn zeta in H.
  pose proof (set_table_sizes w new_tid nt' Hs
                (write_cell_sizes _ _ _ _ _ Hnt' (get_table _ _ _ Hs Hnt))) as Hs1.
  bind_inv H ot1 Hot1. bind_inv H ot2 Hot2. injection H as <-.
  apply set_table_sizes; [done |].
  by apply (write_cell_sizes _ _ _ _ _ Hot2), (get_table _ _ _ Hs1 Hot1).
Qed.

Lemma drop_component old_tid new_tid old_row w cid w' :
  world.drop_component old_tid new_tid old_row w cid = Some w' →
  store w → store w'.
Proof.
  unfold world.drop_component. intros H Hs.
  bind_inv H ot Hot. bind_inv H nt Hnt.
  destruct (table.has nt cid); [by injection H as <- |].
  bind_inv H ot' Hot'. injection H as <-.
  apply set_table_sizes; [done |].
  by apply (write_cell_sizes _ _ _ _ _ Hot'), (get_table _ _ _ Hs Hot).
Qed.

Lemma migrate_entity_to_table w e new_tid w' r :
  world.migrate_entity_to_table w e new_tid = Some (w', r) → store w → store w'.
Proof.
  unfold world.migrate_entity_to_table. intros H Hs.
  bind_inv H loc Hloc. destruct (negb (location_valid loc)); [done |].
  bind_inv H ot Hot. bind_inv H nt Hnt.
  destruct (table.add_row_uninitialized nt e) as [nt' row] eqn:Hadd.
  cbn zeta in H.
  assert (Hs1 : store (world.set_table w new_tid nt')).
  { apply set_table_sizes; [done |]. change nt' with (nt', row).1. rewrite <- Hadd.
    by apply table_facts.add_row_uninitialized_sizes, (get_table _ _ _ Hs Hnt). }
  bind_inv H w2 Hw2.
  apply (fold_opt_preserves store _ _ (move_component _ _ _ _) _ _ Hw2) in Hs1.
  bind_inv H w3 Hw3.
  apply (fold_opt_preserves store _ _ (drop_component _ _ _) _ _ Hw3) in Hs1.
  bind_inv H ot1 Hot1. bind_inv H p Hp. destruct p as [ot2 sw].
  pose proof (set_table_sizes w3 (tid loc) ot2 Hs1
                (table_facts.remove_row_swap_nodestroy_sizes _ _ _ _ Hp
                   (get_table _ _ _ Hs1 Hot1))) as Hs2.
  bind_inv H w4 Hw4. bind_inv H w5 Hw5. injection H as <- _.
  apply (set_location _ _ _ _ Hw5).
  destruct (entity.valid sw); [by apply (set_location _ _ _ _ Hw4) | by injection Hw4 as <-].
Qed.

Lemma add_component w T e v w' : world.add_component w T e v = Some w' → store w → store w'.
Proof.
  unfold world.add_component. intros H Hs.
  destruct (negb _); [by injection H as <- |].
  bind_inv H cid Hcid. bind_inv H loc Hloc. destruct (negb (location_valid loc)); [done |].
  bind_inv H ot Hot. destruct (table.has ot cid); [by injection H as <- |].
  bind_inv H p Hp. destruct p as [w1 new_tid].
  apply get_or_create_table in Hp; [| done].
  bind_inv H q Hq. destruct q as [w2 new_row].
  apply migrate_entity_to_table in Hq; [| done].
  bind_inv H nt Hnt. bind_inv H nt' Hnt'. injection H as <-.
  apply (set_table_sizes w2); [done |].
  pose proof (get_table _ _ _ Hq Hnt) as Hsz.
  destruct v as [v |].
  - by apply (write_cell_sizes _ _ _ _ _ Hnt').
  - unfold table.default_construct_at in Hnt'. bind_inv Hnt' c Hc.
    by apply (write_cell_sizes _ _ _ _ _ Hnt').
Qed.

Lemma remove_component w T e w' : world.remove_component w T e = Some w' → store w → store w'.
Proof.
  unfold world.remove_component. intros H Hs.
  destruct (negb _); [by injection H as <- |].
  bind_inv H cid Hcid. bind_inv H loc Hloc. destruct (negb (location_valid loc)); [done |].
  bind_inv H ot Hot. destruct (negb (table.has ot cid)); [by injection H as <- |].
  bind_inv H p Hp. destruct p as [w1 new_tid].
  apply get_or_create_table in Hp; [| done].
  bind_inv H q Hq. destruct q as [w2 new_row].
  apply migrate_entity_to_table in Hq; [| done]. by injection H as <-.
Qed.

Lemma table_reserve tb val tb' :
  table.reserve tb val = Some tb' → sizes_agree tb → sizes_agree tb'.
Proof.
  unfold table.reserve, sizes_agree. destruct (_ <? _); [done |]. intros H Hs.
  bind_inv H cs Hcs. injection H as <-.
  cbn [table.with_rows table.entities table.columns].
  apply mapM_Some_1 in Hcs. clear -Hcs Hs.
  induction Hcs as [| c c' cs cs' Hc _ IH]; [constructor |].
  apply Forall_cons in Hs as [Hs1 Hs2]. constructor; [| by apply IH].
  by rewrite (column_facts.reserve_sized_size _ _ _ Hc).
Qed.

Lemma reserve w Cs count w' : world.reserve w Cs count = Some w' → store w → store w'.
Proof.
  intros H Hs.
  destruct (reserve_steps _ _ _ _ H) as (ids & w1 & tid & tb & tb' & _ & Hp & Htb & Hr & ->).
  apply get_or_create_table in Hp; [| done].
  apply (set_table_sizes w1); [done |].
  by apply (table_reserve _ _ _ Hr), (get_table _ _ _ Hp Htb).
Qed.

Lemma step w o w' : run_op w o = Some w' → store w → store w'.
Proof.
  destruct o as [T | | e | T e v | T e | Cs count]; cbn [run_op]; intros H Hs.
  - injection H as <-. unfold world.register_component.
    by destruct (component_registry.add _ _).
  - bind_inv H p Hp. destruct p as [w1 e]. injection H as <-.
    by apply (create_entity _ _ _ Hp).
  - by apply (destroy_entity _ _ _ H).
  - by apply (add_component _ _ _ _ _ H).
  - by apply (remove_component _ _ _ _ H).
  - by apply (reserve _ _ _ _ H).
Qed.

Lemma new w : world.new = Some w → store w.
Proof.
  intros H. vm_compute in H. injection H as <-. repeat constructor.
Qed.

Lemma reach w : reachable_any w → store w.
Proof.
  intros (w0 & os & Hnew & Hrun).
  eapply (fold_opt_preserves store run_op os step); [done | by apply new].
Qed.

End sizes.

(** C4.  In every state a run of public operations reaches
    ([register_component], [create_entity], [destroy_entity],
    [add_component], [remove_component], [reserve], with any arguments),
    every column of every table has as many elements as the table has
    entities; [add_row],
    [add_row_uninitialized], [remove_row_swap] and
    [remove_row_swap_nodestroy] keep it so in all columns at once, and the
    two removals return on every row of the table. *)
Theorem column_sizes_agree (w : world.t) :
  reachable_any w →
  Forall sizes_agree (world.tables w) ∧
  (∀ tb e, sizes_agree tb → sizes_agree (table.add_row tb e).1) ∧
  (∀ tb e, sizes_agree tb → sizes_agree (table.add_row_uninitialized tb e).1) ∧
  (∀ tb row, sizes_agree tb → (row < table.size tb)%nat →
     ∃ tb' sw, table.remove_row_swap tb row = Some (tb', sw) ∧ sizes_agree tb') ∧
  (∀ tb row, sizes_agree tb → (row < table.size tb)%nat →
     ∃ tb' sw, table.remove_row_swap_nodestroy tb row = Some (tb', sw) ∧ sizes_agree tb').
Proof.
  intros Hr. split; [by apply sizes.reach |].
  split; [apply table_facts.add_row_sizes |].
  split; [apply table_facts.add_row_uninitialized_sizes |].
  split; intros tb row Hs Hlt.
  - destruct (table_facts.remove_row_swap_total tb row Hs Hlt) as [[tb' sw] H].
    exists tb', sw. split; [done |]. by eapply table_facts.remove_row_swap_sizes.
  - destruct (table_facts.remove_row_swap_nodestroy_total tb row Hs Hlt) as [[tb' sw] H].
    exists tb', sw. split; [done |]. by eapply table_facts.remove_row_swap_nodestroy_sizes.
Qed.

Lemma column_sizes_agree_witness :
  let w := examples.populated in
  let tb := examples.table_of w 2 in
  Forall sizes_agree (world.tables w) ∧
  sizes_agree (table.add_row tb examples.e0).1 ∧
  sizes_agree (table.add_row_uninitialized tb examples.e0).1 ∧
  (∃ tb' sw, table.remove_row_swap tb 0 = Some (tb', sw) ∧ sizes_agree tb') ∧
  (∃ tb' sw, table.remove_row_swap_nodestroy tb 0 = Some (tb', sw) ∧ sizes_agree tb').
Proof.
  intros w tb.
  assert (Hr : reachable_any w).
  { exists (examples.after []), examples.setup. split; vm_compute; reflexivity. }
  assert (Hs : sizes_agree tb) by (vm_compute; repeat constructor).
  assert (Hlt : (0 < table.size tb)%nat) by (vm_compute; lia).
  destruct (column_sizes_agree w Hr) as (H1 & H2 & H3 & H4 & H5).
  split; [exact H1 |]. split; [exact (H2 tb examples.e0 Hs) |].
  split; [exact (H3 tb examples.e0 Hs) |].
  split; [exact (H4 tb 0%nat Hs Hlt) | exact (H5 tb 0%nat Hs Hlt)].
Defined.

(** ** Locations and rows *)

Module layout_facts.

Lemma make_inj i g j h :
  u32 i → u32 g → u32 j → u32 h →
  entity.make i g = entity.make j h → i = j ∧ g = h.
Proof.
  intros Hi Hg Hj Hh Heq. split.
  - rewrite <- (index_make i g), <- (index_make j h) by done. by rewrite Heq.
  - rewrite <- (generation_make i g), <- (generation_make j h) by done. by rewrite Heq.
Qed.

Lemma loc_inj (tn rn tn' rn' : nat) :
  Some (mk_loc (Z.of_nat tn) (Z.of_nat rn)) = Some (mk_loc (Z.of_nat tn') (Z.of_nat rn')) →
  tn = tn' ∧ rn = rn'.
Proof. intros [= H1 H2]. lia. Qed.

Section bounded.

Context (gens : list Z).
Hypothesis gens_u32 : Forall u32 gens.
Hypothesis gens_cap : Z.of_nat (length gens) ≤ two32 - 1.

Lemma slot_bounds i g :
  gens !! i = Some g → u32 (Z.of_nat i) ∧ u32 g ∧ Z.of_nat i < two32 - 1.
Proof.
  intros Hg. pose proof (lookup_lt_Some _ _ _ Hg).
  split; [bits_lia |]. split; [| lia].
  by apply (proj1 (Forall_lookup _ _) gens_u32 i g).
Qed.

Lemma slot_valid i g :
  gens !! i = Some g →
  entity.valid (entity.make (Z.of_nat i) g) = true ∧
  Z.to_nat (entity.index (entity.make (Z.of_nat i) g)) = i.
Proof.
  intros Hg. destruct (slot_bounds i g Hg) as (Hi & Hgu & Hlt). split.
  - apply not_false_iff_true. rewrite make_invalid by done. lia.
  - rewrite index_make by done. lia.
Qed.

(** A handle occupies one row of one table. *)
Lemma row_slot P locs ents tn es rn i g :
  layout P gens locs ents →
  ents !! tn = Some es → es !! rn = Some (entity.make (Z.of_nat i) g) →
  gens !! i = Some g →
  P i ∧ locs !! i = Some (mk_loc (Z.of_nat tn) (Z.of_nat rn)).
Proof.
  intros Hl Ht Hr Hg.
  destruct (lay_row _ _ _ _ Hl tn es rn _ Ht Hr) as (j & h & Heq & HP & Hh & Hloc).
  destruct (slot_bounds i g Hg) as (? & ? & _).
  destruct (slot_bounds j h Hh) as (? & ? & _).
  apply make_inj in Heq as [Hij _]; [| done..].
  apply Nat2Z.inj in Hij as ->. done.
Qed.

Lemma layout_remove P locs ents i g tn rn es :
  layout P gens locs ents →
  P i → gens !! i = Some g →
  locs !! i = Some (mk_loc (Z.of_nat tn) (Z.of_nat rn)) →
  ents !! tn = Some es → es !! rn = Some (entity.make (Z.of_nat i) g) →
  let sw := (table.swap_pop es rn).2 in
  let locs' :=
    if entity.valid sw
    then <[Z.to_nat (entity.index sw) := mk_loc (Z.of_nat tn) (Z.of_nat rn)]> locs
    else locs in
  layout (fun j => P j ∧ j ≠ i) gens locs' (<[tn := (table.swap_pop es rn).1]> ents).
Proof.
  intros Hl HPi Hgi Hloci Htn Hrn.
  pose proof (lookup_lt_Some _ _ _ Hrn) as Hrlt.
  pose proof (lookup_lt_Some _ _ _ Htn) as Htlt.
  destruct (table_facts.swap_pop_spec es rn Hrlt) as (Hlen & Hrows & Hsw).
  set (last_index := (length es - 1)%nat) in *.
  destruct (table.swap_pop es rn) as [es' sw0]. cbn [fst snd] in *.
  (* the entity of the last row *)
  destruct (lookup_lt_is_Some_2 es last_index ltac:(lia)) as [el Hel].
  destruct (lay_row _ _ _ _ Hl tn es last_index el Htn Hel)
    as (k & gk & -> & HPk & Hgk & Hlock).
  destruct (slot_valid k gk Hgk) as [Hvk Hik].
  (* the new locations *)
  cbv zeta.
  set (sw := sw0) in *.
  set (locs' := if entity.valid sw then _ else locs).
  assert (Hlocs' : ∀ j, j ≠ i →
            locs' !! j = if decide (rn ≠ last_index ∧ j = k)
                         then Some (mk_loc (Z.of_nat tn) (Z.of_nat rn))
                         else locs !! j).
  { intros j Hji. subst locs' sw. rewrite Hsw.
    destruct (decide (rn = last_index)) as [Hrl | Hrl].
    - change (entity.valid INVALID_ENTITY) with false. cbn.
      rewrite decide_False by tauto. done.
    - rewrite Hel. cbn [default from_option id]. rewrite Hvk, Hik.
      destruct (decide (j = k)) as [-> | Hjk].
      + rewrite decide_True by done. apply list_lookup_insert_eq.
        by eapply lookup_lt_Some.
      + rewrite decide_False by tauto. by apply list_lookup_insert_ne. }
  assert (Hki : rn ≠ last_index → k ≠ i).
  { intros Hne ->. rewrite Hloci in Hlock. apply loc_inj in Hlock. lia. }
  constructor.
  - intros j [HPj Hji].
    destruct (lay_slot _ _ _ _ Hl j HPj) as (gj & tj & rj & ej & Hgj & Hlocj & Htj & Hrj).
    rewrite (Hlocs' j Hji).
    destruct (decide (rn ≠ last_index ∧ j = k)) as [[Hne ->] | Hnk].
    + exists gk, tn, rn, es'. split; [done |]. split; [done |].
      split; [by apply list_lookup_insert_eq |].
      rewrite Hrows by lia. by rewrite decide_True.
    + exists gj, tj, rj. destruct (decide (tj = tn)) as [-> | Htne].
      * exists es'. split; [done |]. split; [done |].
        split; [by apply list_lookup_insert_eq |].
        rewrite Htn in Htj. injection Htj as <-.
        assert (rj ≠ rn).
        { intros ->. rewrite Hrn in Hrj. injection Hrj as Heq.
          destruct (slot_bounds i g Hgi) as (? & ? & _).
          destruct (slot_bounds j gj Hgj) as (? & ? & _).
          apply make_inj in Heq as [Heq _]; [lia | done..]. }
        assert (rj ≠ last_index).
        { intros ->. rewrite Hel in Hrj. injection Hrj as Heq.
          destruct (slot_bounds k gk Hgk) as (? & ? & _).
          destruct (slot_bounds j gj Hgj) as (? & ? & _).
          apply make_inj in Heq as [Heq _]; [| done..].
          apply Nat2Z.inj in Heq as ->.
          apply Hnk. split; [| done]. intros ->. rewrite Hrn in Hel.
          injection Hel as Heq.
          destruct (slot_bounds i g Hgi) as (? & ? & _).
          apply make_inj in Heq as [Heq _]; [lia | done..]. }
        pose proof (lookup_lt_Some _ _ _ Hrj).
        rewrite Hrows by lia. by rewrite decide_False.
      * exists ej. split; [done |]. split; [done |].
        split; [by rewrite list_lookup_insert_ne | done].
  - intros t et r e Ht Hr.
    destruct (decide (t = tn)) as [-> | Htne].
    + rewrite list_lookup_insert_eq in Ht by done. injection Ht as <-.
      pose proof (lookup_lt_Some _ _ _ Hr) as Hrl. rewrite Hlen in Hrl.
      rewrite Hrows in Hr by done.
      destruct (decide (r = rn)) as [-> | Hrne].
      * rewrite Hel in Hr. injection Hr as <-.
        exists k, gk. split; [done |]. split; [split; [done | apply Hki; lia] |].
        split; [done |]. rewrite Hlocs' by (apply Hki; lia).
        rewrite decide_True by (split; [lia | done]). done.
      * destruct (lay_row _ _ _ _ Hl tn es r e Htn Hr) as (j & gj & -> & HPj & Hgj & Hlocj).
        assert (j ≠ i).
        { intros ->. rewrite Hloci in Hlocj. apply loc_inj in Hlocj. lia. }
        exists j, gj. split; [done |]. split; [done |]. split; [done |].
        rewrite Hlocs' by done. rewrite decide_False; [done |].
        intros [_ ->]. rewrite Hlock in Hlocj. apply loc_inj in Hlocj. lia.
    + rewrite list_lookup_insert_ne in Ht by done.
      destruct (lay_row _ _ _ _ Hl t et r e Ht Hr) as (j & gj & -> & HPj & Hgj & Hlocj).
      assert (j ≠ i).
      { intros ->. rewrite Hloci in Hlocj. apply loc_inj in Hlocj. lia. }
      exists j, gj. split; [done |]. split; [done |]. split; [done |].
      rewrite Hlocs' by done. rewrite decide_False; [done |].
      intros [_ ->]. rewrite Hlock in Hlocj. apply loc_inj in Hlocj. lia.
Qed.

(** The entity that [swap_pop] reports came from the last row. *)
Lemma swapped_last P locs ents tn rn es :
  layout P gens locs ents → ents !! tn = Some es → (rn < length es - 1)%nat →
  es !! (length es - 1)%nat = Some (table.swap_pop es rn).2 ∧
  (table.swap_pop es rn).1 !! rn = Some (table.swap_pop es rn).2 ∧
  entity.valid (table.swap_pop es rn).2 = true.
Proof.
  intros Hl Htn Hlt.
  destruct (table_facts.swap_pop_spec es rn ltac:(lia)) as (Hlen & Hrows & Hsw).
  destruct (lookup_lt_is_Some_2 es (length es - 1)%nat ltac:(lia)) as [el Hel].
  rewrite Hsw, decide_False, Hel by lia. cbn [default from_option id].
  split; [done |]. split.
  - rewrite Hrows by done. by rewrite decide_True.
  - destruct (lay_row _ _ _ _ Hl tn es _ el Htn Hel) as (k & gk & -> & _ & Hgk & _).
    by apply slot_valid.
Qed.

(** The location that is fixed up after a removal exists. *)
Lemma swapped_in_range P locs ents tn rn es :
  layout P gens locs ents → ents !! tn = Some es → (rn < length es)%nat →
  entity.valid (table.swap_pop es rn).2 = true →
  (Z.to_nat (entity.index (table.swap_pop es rn).2) < length locs)%nat.
Proof.
  intros Hl Htn Hlt Hv.
  destruct (table_facts.swap_pop_spec es rn Hlt) as (_ & _ & Hsw).
  rewrite Hsw in Hv |- *.
  destruct (decide (rn = (length es - 1)%nat)); [done |].
  destruct (lookup_lt_is_Some_2 es (length es - 1)%nat ltac:(lia)) as [el Hel].
  rewrite Hel. cbn [default from_option id].
  destruct (lay_row _ _ _ _ Hl tn es _ el Htn Hel) as (k & gk & -> & _ & Hgk & Hlk).
  rewrite (proj2 (slot_valid k gk Hgk)). by eapply lookup_lt_Some.
Qed.

(** The entity the removal moves names a slot in use. *)
Lemma swapped_placed P locs ents tn rn es :
  layout P gens locs ents → ents !! tn = Some es → (rn < length es)%nat →
  entity.valid (table.swap_pop es rn).2 = true →
  P (Z.to_nat (entity.index (table.swap_pop es rn).2)).
Proof.
  intros Hl Htn Hlt Hv.
  destruct (table_facts.swap_pop_spec es rn Hlt) as (_ & _ & Hsw).
  rewrite Hsw in Hv |- *.
  destruct (decide (rn = (length es - 1)%nat)); [done |].
  destruct (lookup_lt_is_Some_2 es (length es - 1)%nat ltac:(lia)) as [el Hel].
  rewrite Hel. cbn [default from_option id].
  destruct (lay_row _ _ _ _ Hl tn es _ el Htn Hel) as (k & gk & -> & Hp & Hgk & Hlk).
  by rewrite (proj2 (slot_valid k gk Hgk)).
Qed.

(** No table has more rows than the manager has slots. *)
Lemma rows_le_slots P locs ents tn es :
  layout P gens locs ents → ents !! tn = Some es → (length es ≤ length gens)%nat.
Proof.
  intros Hl Htn.
  assert (Hnd : NoDup (Z.to_nat ∘ entity.index <$> es)).
  { apply NoDup_alt. intros r1 r2 x H1 H2.
    apply list_lookup_fmap_Some_1 in H1 as (e1 & -> & H1).
    apply list_lookup_fmap_Some_1 in H2 as (e2 & Hx & H2).
    destruct (lay_row _ _ _ _ Hl tn es r1 e1 Htn H1) as (j1 & g1 & -> & _ & Hg1 & Hl1).
    destruct (lay_row _ _ _ _ Hl tn es r2 e2 Htn H2) as (j2 & g2 & -> & _ & Hg2 & Hl2).
    cbn in Hx. rewrite (proj2 (slot_valid j1 g1 Hg1)), (proj2 (slot_valid j2 g2 Hg2)) in Hx.
    subst j2. rewrite Hl1 in Hl2. apply loc_inj in Hl2. lia. }
  assert (Hin : ∀ x, x ∈ (Z.to_nat ∘ entity.index <$> es) → x ∈ seq 0 (length gens)).
  { intros x Hx. apply list_elem_of_fmap in Hx as (e & -> & He).
    apply list_elem_of_lookup in He as [r Hr].
    destruct (lay_row _ _ _ _ Hl tn es r e Htn Hr) as (j & gj & -> & _ & Hgj & _).
    cbn. rewrite (proj2 (slot_valid j gj Hgj)).
    apply elem_of_seq. apply lookup_lt_Some in Hgj. lia. }
  pose proof (submseteq_length _ _ (NoDup_submseteq _ _ Hnd Hin)) as Hle.
  by rewrite length_fmap, length_seq in Hle.
Qed.

End bounded.

Lemma layout_ext P Q gens locs ents :
  (∀ i, P i ↔ Q i) → layout P gens locs ents → layout Q gens locs ents.
Proof.
  intros HPQ [Hs Hr]. constructor.
  - intros i HQ. by apply Hs, HPQ.
  - intros tn es rn e Ht He. destruct (Hr tn es rn e Ht He) as (i & g & ? & ? & ?).
    exists i, g. split; [done |]. split; [by apply HPQ | done].
Qed.

(** Slots that are not in use may change. *)
Lemma layout_frame P gens locs gens' locs' ents :
  layout P gens locs ents →
  (∀ i, P i → gens' !! i = gens !! i ∧ locs' !! i = locs !! i) →
  layout P gens' locs' ents.
Proof.
  intros [Hs Hr] Hsame. constructor.
  - intros i HP. destruct (Hs i HP) as (g & tn & rn & es & ? & ? & ?).
    destruct (Hsame i HP) as [-> ->]. by exists g, tn, rn, es.
  - intros tn es rn e Ht He. destruct (Hr tn es rn e Ht He) as (i & g & ? & HP & ? & ?).
    destruct (Hsame i HP) as [Hg' Hl']. exists i, g. by rewrite Hg', Hl'.
Qed.

Lemma layout_add P gens locs ents i g tn es :
  layout P gens locs ents →
  ¬ P i → gens !! i = Some g → (i < length locs)%nat → ents !! tn = Some es →
  layout (fun j => P j ∨ j = i) gens
         (<[i := mk_loc (Z.of_nat tn) (Z.of_nat (length es))]> locs)
         (<[tn := es ++ [entity.make (Z.of_nat i) g]]> ents).
Proof.
  intros [Hs Hr] HnP Hg Hi Htn.
  pose proof (lookup_lt_Some _ _ _ Htn) as Htlt.
  constructor.
  - intros j [HPj | ->].
    + assert (j ≠ i) by (by intros ->).
      destruct (Hs j HPj) as (gj & tj & rj & ej & Hgj & Hlj & Htj & Hrj).
      exists gj, tj, rj. rewrite list_lookup_insert_ne by done.
      destruct (decide (tj = tn)) as [-> | Hne].
      * exists (es ++ [entity.make (Z.of_nat i) g]).
        rewrite list_lookup_insert_eq by done.
        rewrite Htn in Htj. injection Htj as <-.
        split; [done |]. split; [done |]. split; [done |]. by apply lookup_app_l_Some.
      * exists ej. by rewrite list_lookup_insert_ne.
    + exists g, tn, (length es), (es ++ [entity.make (Z.of_nat i) g]).
      rewrite !list_lookup_insert_eq by done.
      split; [done |]. split; [done |]. split; [done |].
      by rewrite lookup_app_r, Nat.sub_diag by lia.
  - intros t et r e Ht He.
    destruct (decide (t = tn)) as [-> | Hne].
    + rewrite list_lookup_insert_eq in Ht by done. injection Ht as <-.
      apply lookup_app_Some in He as [He | [Hge He]].
      * destruct (Hr tn es r e Htn He) as (j & gj & ? & HPj & ? & ?).
        exists j, gj. split; [done |]. split; [by left |]. split; [done |].
        rewrite list_lookup_insert_ne; [done |]. by intros ->.
      * assert (r = length es) as ->.
        { apply lookup_lt_Some in He. cbn in He. lia. }
        rewrite Nat.sub_diag in He. injection He as <-.
        exists i, g. split; [done |]. split; [by right |]. split; [done |].
        by apply list_lookup_insert_eq.
    + rewrite list_lookup_insert_ne in Ht by done.
      destruct (Hr t et r e Ht He) as (j & gj & ? & HPj & ? & ?).
      exists j, gj. split; [done |]. split; [by left |]. split; [done |].
      rewrite list_lookup_insert_ne; [done |]. by intros ->.
Qed.

End layout_facts.

(** ** Tables of the store *)

Module shape.

Lemma col_refl c : col_shape c c.
Proof. by repeat split. Qed.

Lemma col_trans c1 c2 c3 : col_shape c1 c2 → col_shape c2 c3 → col_shape c1 c3.
Proof. intros (? & ? & ? & ?) (? & ? & ? & ?). repeat split; congruence. Qed.

Lemma col_ok n c c' : col_shape c c' → column_ok n c → column_ok n c'.
Proof. intros (_ & Hs & Hc & Hd) [? ? ?]. constructor; congruence. Qed.

Lemma tb_refl tb : tb_shape tb tb.
Proof.
  split; [done |]. split; [done |]. apply Forall2_same_length_lookup.
  split; [done |]. intros i c c' H1 H2. rewrite H1 in H2. injection H2 as <-. apply col_refl.
Qed.

Lemma tb_trans t1 t2 t3 : tb_shape t1 t2 → tb_shape t2 t3 → tb_shape t1 t3.
Proof.
  intros (Hk1 & He1 & Hc1) (Hk2 & He2 & Hc2).
  split; [congruence |]. split; [congruence |].
  eapply Forall2_trans; [| done | done]. apply col_trans.
Qed.

Lemma tb_ok reg tb tb' : tb_shape tb tb' → table_ok reg tb → table_ok reg tb'.
Proof.
  intros (Hk & He & Hc) [Hkey Hreg Hlen Hcols].
  constructor; rewrite ?Hk, ?He; try done.
  - apply Forall2_length in Hc. lia.
  - apply Forall_lookup. intros i c' Hc'.
    destruct (Forall2_lookup_r _ _ _ _ _ Hc Hc') as (c & Hci & Hsh).
    eapply col_ok; [done |]. by apply (proj1 (Forall_lookup _ _) Hcols i c).
Qed.

Lemma tables_refl ts : Forall2 tb_shape ts ts.
Proof.
  apply Forall2_same_length_lookup. split; [done |].
  intros i t t' H1 H2. rewrite H1 in H2. injection H2 as <-. apply tb_refl.
Qed.

Lemma tables_insert ts i tb tb' :
  ts !! i = Some tb → tb_shape tb tb' → Forall2 tb_shape ts (<[i := tb']> ts).
Proof.
  intros Hi Hsh. apply Forall2_same_length_lookup. split; [by rewrite length_insert |].
  intros j t t' H1 H2. destruct (decide (i = j)) as [<- | Hne].
  - rewrite list_lookup_insert_eq in H2 by (by eapply lookup_lt_Some).
    rewrite Hi in H1. by injection H1 as <-; injection H2 as <-.
  - rewrite list_lookup_insert_ne in H2 by done.
    rewrite H1 in H2. injection H2 as <-. apply tb_refl.
Qed.

Lemma refl w : cells_only w w.
Proof. repeat split. apply tables_refl. Qed.

Lemma trans w1 w2 w3 : cells_only w1 w2 → cells_only w2 w3 → cells_only w1 w3.
Proof.
  intros (? & ? & ? & ? & ? & ? & Ht1) (? & ? & ? & ? & ? & ? & Ht2).
  repeat split; try congruence.
  eapply Forall2_trans; [| done | done]. apply tb_trans.
Qed.

Lemma set_table w id tb tb' :
  world_storage.get_table (world.storage_ w) id = Some tb → tb_shape tb tb' →
  cells_only w (world.set_table w id tb').
Proof. intros Hg Hsh. repeat split. by apply (tables_insert _ _ tb). Qed.

(** The table at a position of a store of the same shape. *)
Lemma lookup w w' tn tb :
  cells_only w w' → world.tables w !! tn = Some tb →
  ∃ tb', world.tables w' !! tn = Some tb' ∧ tb_shape tb tb'.
Proof.
  intros (_ & _ & _ & _ & _ & _ & H) Ht. by eapply Forall2_lookup_l.
Qed.

Lemma write_cell tb cid r x tb' :
  table.write_cell tb cid r x = Some tb' → tb_shape tb tb'.
Proof.
  unfold table.write_cell. intros H.
  bind_inv H i Hi. bind_inv H c Hc. bind_inv H c' Hc'. injection H as <-.
  split; [done |]. split; [done |]. cbn [table.with_rows table.columns].
  apply Forall2_same_length_lookup. split; [by rewrite length_insert |].
  intros j c1 c2 H1 H2. destruct (decide (i = j)) as [<- | Hne].
  - rewrite list_lookup_insert_eq in H2 by (by eapply lookup_lt_Some).
    injection H2 as <-. rewrite Hc in H1. injection H1 as <-.
    apply column_facts.write_Some in Hc' as [_ ->]. repeat split. cbn.
    by rewrite length_insert.
  - rewrite list_lookup_insert_ne in H2 by done.
    rewrite H1 in H2. injection H2 as <-. apply col_refl.
Qed.

Lemma tables_ok reg ts ts' :
  Forall2 tb_shape ts ts' → Forall (table_ok reg) ts → Forall (table_ok reg) ts'.
Proof.
  intros Hsh Hok. apply Forall_lookup. intros i tb' Hi.
  destruct (Forall2_lookup_r _ _ _ _ _ Hsh Hi) as (tb & Htb & Hs).
  eapply tb_ok; [done |]. by apply (proj1 (Forall_lookup _ _) Hok i tb).
Qed.

Lemma keys ts ts' : Forall2 tb_shape ts ts' → table.key <$> ts' = table.key <$> ts.
Proof.
  intros Hsh. induction Hsh as [| tb tb' ts ts' (Hk & _) _ IH]; [done |].
  cbn. by rewrite Hk, IH.
Qed.

Lemma ents ts ts' :
  Forall2 tb_shape ts ts' → table.entities <$> ts' = table.entities <$> ts.
Proof.
  intros Hsh. induction Hsh as [| tb tb' ts ts' (_ & He & _) _ IH]; [done |].
  cbn. by rewrite He, IH.
Qed.

End shape.

Module cells.

Import table.

(** The column of a component of the key. *)
Lemma column_of reg tb cid :
  table_ok reg tb → cid ∈ key tb →
  ∃ c, column_index tb cid = Some (archetype_key.lower_bound (key tb) cid) ∧
       columns tb !! archetype_key.lower_bound (key tb) cid = Some c ∧
       column_ok (length (entities tb)) c.
Proof.
  intros [Hkey _ Hlen Hcols] Hin.
  pose proof (key.lower_bound_lt _ _ Hkey Hin) as Hlt.
  destruct (lookup_lt_is_Some_2 (columns tb) (archetype_key.lower_bound (key tb) cid))
    as [c Hc]; [lia |].
  exists c. unfold column_index. apply Nat.ltb_lt in Hlt. rewrite Hlt.
  split; [done |]. split; [done |].
  by apply (proj1 (Forall_lookup _ _) Hcols (archetype_key.lower_bound (key tb) cid) c).
Qed.

Lemma read_cell_column reg tb cid r c :
  table_ok reg tb → cid ∈ key tb →
  columns tb !! archetype_key.lower_bound (key tb) cid = Some c →
  read_cell tb cid r = column.data c !! r.
Proof.
  intros Hok Hin Hc. destruct (column_of reg tb cid Hok Hin) as (c0 & Hi & _).
  unfold read_cell, get_column. rewrite Hi. cbn [mbind option_bind].
  rewrite Hc. done.
Qed.

(** Reading a slot of a row of the table returns. *)
Lemma read_total reg tb cid r :
  table_ok reg tb → cid ∈ key tb → (r < length (entities tb))%nat →
  is_Some (read_cell tb cid r).
Proof.
  intros Hok Hin Hr. destruct (column_of reg tb cid Hok Hin) as (c & Hi & Hc & [Hs Hroom Hb]).
  rewrite (read_cell_column reg tb cid r c) by done.
  apply lookup_lt_is_Some. lia.
Qed.

Lemma write_cell_column reg tb cid r x c :
  table_ok reg tb → cid ∈ key tb →
  columns tb !! archetype_key.lower_bound (key tb) cid = Some c →
  (r < length (column.data c))%nat →
  write_cell tb cid r x =
    Some (with_rows tb (entities tb)
            (<[archetype_key.lower_bound (key tb) cid :=
               column.mk (column.info c) (<[r := x]> (column.data c))
                         (column.size c) (column.capacity c)]> (columns tb))).
Proof.
  intros Hok Hin Hc Hr. destruct (column_of reg tb cid Hok Hin) as (c0 & Hi & _).
  unfold write_cell. rewrite Hi. cbn [mbind option_bind]. rewrite Hc.
  cbn [mbind option_bind]. by rewrite column_facts.write_in_range.
Qed.

Lemma write_total reg tb cid r x :
  table_ok reg tb → cid ∈ key tb → (r < length (entities tb))%nat →
  is_Some (write_cell tb cid r x).
Proof.
  intros Hok Hin Hr. destruct (column_of reg tb cid Hok Hin) as (c & Hi & Hc & [Hs Hroom Hb]).
  rewrite (write_cell_column reg tb cid r x c) by (done || lia). by eexists.
Qed.

Lemma write_cell_inv reg tb cid r x tb' :
  table_ok reg tb → cid ∈ key tb → write_cell tb cid r x = Some tb' →
  ∃ c, columns tb !! archetype_key.lower_bound (key tb) cid = Some c ∧
       (r < length (column.data c))%nat ∧
       tb' = with_rows tb (entities tb)
               (<[archetype_key.lower_bound (key tb) cid :=
                  column.mk (column.info c) (<[r := x]> (column.data c))
                            (column.size c) (column.capacity c)]> (columns tb)).
Proof.
  intros Hok Hin Hw. destruct (column_of reg tb cid Hok Hin) as (c & Hi & Hc & _).
  exists c. split; [done |].
  unfold write_cell in Hw. rewrite Hi in Hw. cbn [mbind option_bind] in Hw.
  rewrite Hc in Hw. cbn [mbind option_bind] in Hw.
  bind_inv Hw c' Hc'. injection Hw as <-.
  apply column_facts.write_Some in Hc' as [Hlt ->]. done.
Qed.

(** A slot reads what was written to it, and the other slots of the
    components of the key are as before. *)
Lemma read_write reg tb cid r x tb' cid' r' :
  table_ok reg tb → cid ∈ key tb → cid' ∈ key tb →
  write_cell tb cid r x = Some tb' →
  read_cell tb' cid' r' =
    if decide (cid' = cid ∧ r' = r) then Some x else read_cell tb cid' r'.
Proof.
  intros Hok Hin Hin' Hw.
  pose proof (shape.tb_ok reg _ _ (shape.write_cell _ _ _ _ _ Hw) Hok) as Hok'.
  destruct (write_cell_inv reg tb cid r x tb' Hok Hin Hw) as (c & Hc & Hlt & ->).
  destruct (column_of reg tb cid' Hok Hin') as (c1 & _ & Hc1 & _).
  rewrite (read_cell_column reg tb cid' r' c1) by done.
  destruct (decide (cid' = cid)) as [-> | Hne].
  - erewrite (read_cell_column reg _ cid r'); [| done | done |].
    2:{ cbn [with_rows key columns]. apply list_lookup_insert_eq. by eapply lookup_lt_Some. }
    cbn [column.data]. rewrite Hc in Hc1. injection Hc1 as <-.
    destruct (decide (r' = r)) as [-> | Hr].
    + rewrite decide_True by done. by apply list_lookup_insert_eq.
    + rewrite decide_False by tauto. by apply list_lookup_insert_ne.
  - rewrite decide_False by tauto.
    apply (read_cell_column reg); [done | done |].
    cbn [with_rows key columns]. rewrite list_lookup_insert_ne; [done |].
    intros Heq. apply Hne. symmetry. eapply key.lower_bound_inj; [apply Hok | done..].
Qed.

End cells.

(** ** Rows of a table of the store *)

Module rows.

Import table.

Lemma add_row_ok reg tb e :
  table_ok reg tb → table_ok reg (add_row tb e).1.
Proof.
  intros [Hkey Hreg Hlen Hcols]. unfold add_row. cbn [fst].
  constructor; cbn [with_rows key entities columns]; [done | done | |].
  - by rewrite length_fmap.
  - rewrite length_app, Nat.add_1_r. apply Forall_fmap.
    eapply Forall_impl; [done |]. intros c Hc. by apply column_facts.push_defaults_ok.
Qed.

Lemma grow_uninitialized_ok n c : column_ok n c → column_ok (S n) (grow_uninitialized c).
Proof.
  intros Hc. pose proof Hc as [Hs Hr Hb]. unfold grow_uninitialized.
  destruct (column.size c =? column.capacity c)%nat eqn:Hfull.
  - apply Nat.eqb_eq in Hfull.
    set (cap := if (column.capacity c =? 0)%nat then 8%nat else (column.capacity c * 2)%nat).
    assert (Hcap : (n < cap)%nat).
    { subst cap. destruct (column.capacity c =? 0)%nat eqn:H0.
      - apply Nat.eqb_eq in H0. lia.
      - apply Nat.eqb_neq in H0. lia. }
    pose proof (column_facts.reserve_ok n c cap Hc) as [Hs' Hr' Hb'].
    pose proof (column_facts.reserve_capacity c cap).
    constructor; cbn; [lia | lia | done].
  - apply Nat.eqb_neq in Hfull. constructor; cbn; [lia | lia | done].
Qed.

Lemma add_row_uninitialized_ok reg tb e :
  table_ok reg tb → table_ok reg (add_row_uninitialized tb e).1.
Proof.
  intros [Hkey Hreg Hlen Hcols]. unfold add_row_uninitialized. cbn [fst].
  constructor; cbn [with_rows key entities columns]; [done | done | |].
  - by rewrite length_fmap.
  - rewrite length_app, Nat.add_1_r. apply Forall_fmap.
    eapply Forall_impl; [done |]. intros c Hc. by apply grow_uninitialized_ok.
Qed.

Lemma mapM_remove (f : column.t → nat → option column.t) cols n r :
  (∀ c, column_ok n c → ∃ c', f c r = Some c' ∧ column_ok (n - 1) c') →
  Forall (column_ok n) cols →
  ∃ cs, mapM (fun c => f c r) cols = Some cs ∧
        Forall (column_ok (n - 1)) cs ∧ length cs = length cols.
Proof.
  intros Hf Hall. induction Hall as [| c cols Hc _ IH].
  - exists []. by repeat split.
  - destruct (Hf c Hc) as (c' & Hc' & Hok'). destruct IH as (cs & Hcs & Hoks & Hl).
    exists (c' :: cs). cbn. rewrite Hc'. cbn. rewrite Hcs. cbn.
    split; [done |]. split; [by constructor | by rewrite Hl].
Qed.

Lemma remove_row_swap_ok reg tb r :
  table_ok reg tb → (r < length (entities tb))%nat →
  ∃ tb', remove_row_swap tb r = Some (tb', (swap_pop (entities tb) r).2) ∧
         table_ok reg tb' ∧ key tb' = key tb ∧
         entities tb' = (swap_pop (entities tb) r).1.
Proof.
  intros [Hkey Hreg Hlen Hcols] Hr. unfold remove_row_swap, size.
  apply Nat.ltb_lt in Hr as Hr'. rewrite Hr'.
  destruct (table_facts.swap_pop_spec (entities tb) r Hr) as (Hl & _).
  destruct (swap_pop (entities tb) r) as [es sw]. cbn [fst snd] in *.
  destruct (mapM_remove column.remove_swap (columns tb) _ r
              (fun c Hc => column_facts.remove_swap_ok _ c r Hc Hr) Hcols)
    as (cs & -> & Hoks & Hlcs).
  cbn. eexists. split; [done |]. split; [| done].
  constructor; cbn [with_rows key entities columns]; [done | done | lia |].
  by rewrite Hl.
Qed.

Lemma remove_row_swap_nodestroy_ok reg tb r :
  table_ok reg tb → (r < length (entities tb))%nat →
  ∃ tb', remove_row_swap_nodestroy tb r = Some (tb', (swap_pop (entities tb) r).2) ∧
         table_ok reg tb' ∧ key tb' = key tb ∧
         entities tb' = (swap_pop (entities tb) r).1.
Proof.
  intros [Hkey Hreg Hlen Hcols] Hr. unfold remove_row_swap_nodestroy, size.
  apply Nat.ltb_lt in Hr as Hr'. rewrite Hr'.
  destruct (table_facts.swap_pop_spec (entities tb) r Hr) as (Hl & _).
  destruct (swap_pop (entities tb) r) as [es sw]. cbn [fst snd] in *.
  destruct (mapM_remove column.remove_swap_nodestroy (columns tb) _ r
              (fun c Hc => column_facts.remove_swap_nodestroy_ok _ c r Hc Hr) Hcols)
    as (cs & -> & Hoks & Hlcs).
  cbn. eexists. split; [done |]. split; [| done].
  constructor; cbn [with_rows key entities columns]; [done | done | lia |].
  by rewrite Hl.
Qed.

End rows.

(** ** What the cells of the rows hold after a row is added or removed *)

Module contents.

Import table.

Lemma push_defaults_data n c r :
  column_ok n c → (r < n)%nat →
  column.data (column.push_defaults c) !! r = column.data c !! r.
Proof.
  intros [Hs Hr Hb] Hlt. unfold column.push_defaults.
  destruct (column.size c =? column.capacity c)%nat; cbn.
  - rewrite list_lookup_insert_ne by lia.
    rewrite lookup_app_l by (rewrite length_take; lia).
    apply lookup_take_lt. lia.
  - by rewrite list_lookup_insert_ne by lia.
Qed.

Lemma push_defaults_new n c :
  column_ok n c →
  column.data (column.push_defaults c) !! n
    = Some (Some (info_default (column.info c))).
Proof.
  intros [Hs Hr Hb]. unfold column.push_defaults.
  destruct (column.size c =? column.capacity c)%nat eqn:Hfull; cbn.
  - apply Nat.eqb_eq in Hfull. rewrite Hs.
    apply list_lookup_insert_eq.
    rewrite length_app, length_take, length_replicate.
    destruct (column.capacity c =? 0)%nat eqn:H0;
      [apply Nat.eqb_eq in H0 | apply Nat.eqb_neq in H0]; lia.
  - apply Nat.eqb_neq in Hfull. rewrite Hs. apply list_lookup_insert_eq. lia.
Qed.

Lemma grow_uninitialized_data n c r :
  column_ok n c → (r < n)%nat →
  column.data (grow_uninitialized c) !! r = column.data c !! r.
Proof.
  intros Hc Hlt. unfold grow_uninitialized.
  destruct (column.size c =? column.capacity c)%nat; cbn; [| done].
  by apply (column_facts.reserve_data n).
Qed.

Lemma remove_swap_data n c row c' r :
  column_ok n c → column.remove_swap c row = Some c' → (r < n - 1)%nat →
  column.data c' !! r =
    if decide (r = row) then column.data c !! (n - 1)%nat else column.data c !! r.
Proof.
  intros [Hs Hr Hb] H Hlt. unfold column.remove_swap in H.
  destruct (row <? column.size c)%nat eqn:Hrow; [| done].
  apply Nat.ltb_lt in Hrow. injection H as <-. cbn [column.data]. rewrite Hs.
  rewrite list_lookup_insert_ne by lia.
  destruct (decide (r = row)) as [-> | Hne].
  - assert ((row =? n - 1)%nat = false) as -> by (apply Nat.eqb_neq; lia).
    rewrite list_lookup_insert_eq by (rewrite length_insert; lia).
    rewrite list_lookup_insert_ne by lia.
    destruct (lookup_lt_is_Some_2 (column.data c) (n - 1)%nat ltac:(lia)) as [x Hx].
    by rewrite Hx.
  - destruct (row =? n - 1)%nat.
    + by rewrite list_lookup_insert_ne.
    + by rewrite !list_lookup_insert_ne.
Qed.

Lemma remove_swap_nodestroy_data n c row c' r :
  column_ok n c → column.remove_swap_nodestroy c row = Some c' → (r < n - 1)%nat →
  column.data c' !! r =
    if decide (r = row) then column.data c !! (n - 1)%nat else column.data c !! r.
Proof.
  intros [Hs Hr Hb] H Hlt. unfold column.remove_swap_nodestroy in H.
  destruct (row <? column.size c)%nat eqn:Hrow; [| done].
  apply Nat.ltb_lt in Hrow. injection H as <-. cbn [column.data]. rewrite Hs.
  destruct (decide (r = row)) as [-> | Hne].
  - assert ((row =? n - 1)%nat = false) as -> by (apply Nat.eqb_neq; lia).
    rewrite list_lookup_insert_eq by lia.
    destruct (lookup_lt_is_Some_2 (column.data c) (n - 1)%nat ltac:(lia)) as [x Hx].
    by rewrite Hx.
  - destruct (row =? n - 1)%nat; [done |]. by rewrite list_lookup_insert_ne.
Qed.

(** The cell of a component of the key, in a table with other rows and
    columns. *)
Lemma read_cell_cols reg tb cid r es cs :
  table_ok reg tb → cid ∈ key tb →
  read_cell (with_rows tb es cs) cid r =
    (c ← cs !! archetype_key.lower_bound (key tb) cid; column.data c !! r).
Proof.
  intros Hok Hcid. unfold read_cell, get_column, column_index.
  cbn [with_rows key columns].
  pose proof (key.lower_bound_lt _ _ (tb_key _ _ Hok) Hcid) as Hlt.
  apply Nat.ltb_lt in Hlt. by rewrite Hlt.
Qed.

Lemma read_cell_self reg tb cid r :
  table_ok reg tb → cid ∈ key tb →
  read_cell tb cid r =
    (c ← columns tb !! archetype_key.lower_bound (key tb) cid; column.data c !! r).
Proof.
  intros Hok Hcid. rewrite <- (read_cell_cols reg tb cid r (entities tb) (columns tb))
    by done. by destruct tb.
Qed.

Lemma mapM_lookup {A B} (f : A → option B) l k i x :
  mapM f l = Some k → l !! i = Some x → ∃ y, k !! i = Some y ∧ f x = Some y.
Proof.
  intros H Hx. apply mapM_Some in H.
  destruct (Forall2_lookup_l _ _ _ _ _ H Hx) as (y & Hy & Hf). by exists y.
Qed.

(** The rows that were there keep their cells when a row is added. *)
Lemma add_row_read reg tb e cid r :
  table_ok reg tb → cid ∈ key tb → (r < length (entities tb))%nat →
  read_cell (add_row tb e).1 cid r = read_cell tb cid r.
Proof.
  intros Hok Hcid Hr. unfold add_row. cbn [fst].
  rewrite (read_cell_cols reg), (read_cell_self reg) by done.
  destruct (cells.column_of reg tb cid Hok Hcid) as (c & _ & Hc & Hcok).
  rewrite list_lookup_fmap, Hc. cbn. by apply (push_defaults_data _ c r Hcok).
Qed.

(** The new row of [add_row] holds default-constructed components. *)
Lemma add_row_new reg tb e cid :
  table_ok reg tb → cid ∈ key tb →
  ∃ c, get_column tb cid = Some c ∧
       read_cell (add_row tb e).1 cid (length (entities tb))
         = Some (Some (info_default (column.info c))).
Proof.
  intros Hok Hcid. unfold add_row. cbn [fst].
  destruct (cells.column_of reg tb cid Hok Hcid) as (c & Hi & Hc & Hcok).
  exists c. split; [unfold get_column; by rewrite Hi |].
  rewrite (read_cell_cols reg) by done.
  rewrite list_lookup_fmap, Hc. cbn. by apply push_defaults_new.
Qed.

Lemma add_row_uninitialized_read reg tb e cid r :
  table_ok reg tb → cid ∈ key tb → (r < length (entities tb))%nat →
  read_cell (add_row_uninitialized tb e).1 cid r = read_cell tb cid r.
Proof.
  intros Hok Hcid Hr. unfold add_row_uninitialized. cbn [fst].
  rewrite (read_cell_cols reg), (read_cell_self reg) by done.
  destruct (cells.column_of reg tb cid Hok Hcid) as (c & _ & Hc & Hcok).
  rewrite list_lookup_fmap, Hc. cbn. by apply (grow_uninitialized_data _ c r Hcok).
Qed.

(** After a swap-removal the row removed holds the cells of the former last
    row and the other rows keep theirs. *)
Lemma remove_row_swap_read reg tb row tb' sw cid r :
  table_ok reg tb → remove_row_swap tb row = Some (tb', sw) → cid ∈ key tb →
  (r < length (entities tb) - 1)%nat →
  read_cell tb' cid r =
    if decide (r = row) then read_cell tb cid (length (entities tb) - 1)
    else read_cell tb cid r.
Proof.
  intros Hok H Hcid Hr. unfold remove_row_swap in H.
  destruct (row <? size tb)%nat; [| done].
  destruct (swap_pop (entities tb) row) as [es sw'].
  destruct (mapM _ (columns tb)) as [cs |] eqn:Hcs; [| done].
  cbn in H. injection H as <- <-.
  rewrite (read_cell_cols reg), !(read_cell_self reg) by done.
  destruct (cells.column_of reg tb cid Hok Hcid) as (c & _ & Hc & Hcok).
  destruct (mapM_lookup _ _ _ _ _ Hcs Hc) as (c' & Hc' & Hrem).
  rewrite Hc', Hc. cbn [mbind option_bind].
  rewrite (remove_swap_data _ c row c' r Hcok Hrem Hr). by destruct (decide (r = row)).
Qed.

Lemma remove_row_swap_nodestroy_read reg tb row tb' sw cid r :
  table_ok reg tb → remove_row_swap_nodestroy tb row = Some (tb', sw) → cid ∈ key tb →
  (r < length (entities tb) - 1)%nat →
  read_cell tb' cid r =
    if decide (r = row) then read_cell tb cid (length (entities tb) - 1)
    else read_cell tb cid r.
Proof.
  intros Hok H Hcid Hr. unfold remove_row_swap_nodestroy in H.
  destruct (row <? size tb)%nat; [| done].
  destruct (swap_pop (entities tb) row) as [es sw'].
  destruct (mapM _ (columns tb)) as [cs |] eqn:Hcs; [| done].
  cbn in H. injection H as <- <-.
  rewrite (read_cell_cols reg), !(read_cell_self reg) by done.
  destruct (cells.column_of reg tb cid Hok Hcid) as (c & _ & Hc & Hcok).
  destruct (mapM_lookup _ _ _ _ _ Hcs Hc) as (c' & Hc' & Hrem).
  rewrite Hc', Hc. cbn [mbind option_bind].
  rewrite (remove_swap_nodestroy_data _ c row c' r Hcok Hrem Hr).
  by destruct (decide (r = row)).
Qed.

End contents.

(** ** The invariant of the store *)

Module inv.

Lemma keys_insert (ts : list table.t) tn tb tb' :
  ts !! tn = Some tb → table.key tb' = table.key tb →
  table.key <$> <[tn := tb']> ts = table.key <$> ts.
Proof.
  intros Ht Hk. rewrite list_fmap_insert, Hk. apply list_insert_id.
  by rewrite list_lookup_fmap, Ht.
Qed.

Lemma table_ok_mono reg reg' tb :
  (component_registry.count reg ≤ component_registry.count reg')%nat →
  table_ok reg tb → table_ok reg' tb.
Proof.
  intros Hle [? Hreg ? ?]. constructor; try done.
  eapply Forall_impl; [done |]. cbn. intros. lia.
Qed.

(** A live handle is the handle of a slot in use. *)
Lemma live_slot w e :
  world_inv w → live w e →
  ∃ i g, e = entity.make (Z.of_nat i) g ∧ in_use (world.entities_ w) i ∧
         entity_manager.generations_ (world.entities_ w) !! i = Some g ∧
         Z.to_nat (entity.index e) = i.
Proof.
  intros Hinv (He & Ha & Hnin). apply em_facts.alive_true in Ha as [_ Hg].
  exists (Z.to_nat (entity.index e)), (entity.generation e).
  pose proof (em_facts.index_range e) as Hr.
  rewrite Z2Nat.id by bits_lia. rewrite make_index_generation by done.
  split; [done |]. split; [| done]. split; [by eapply lookup_lt_Some |].
  by rewrite Z2Nat.id by bits_lia.
Qed.

(** The location of a slot in use. *)
Lemma slot_located w i g :
  world_inv w → in_use (world.entities_ w) i →
  entity_manager.generations_ (world.entities_ w) !! i = Some g →
  ∃ tn rn tb,
    world.locations_ w !! i = Some (mk_loc (Z.of_nat tn) (Z.of_nat rn)) ∧
    world.tables w !! tn = Some tb ∧
    table.entities tb !! rn = Some (entity.make (Z.of_nat i) g) ∧
    Z.of_nat tn < two32 - 1 ∧ Z.of_nat rn < two32 - 1.
Proof.
  intros Hinv Hu Hg.
  destruct (lay_slot _ _ _ _ (wi_layout w Hinv) i Hu) as (g' & tn & rn & es & Hg' & Hl & Ht & Hr).
  rewrite Hg in Hg'. injection Hg' as <-.
  apply list_lookup_fmap_Some_1 in Ht as (tb & -> & Ht).
  exists tn, rn, tb. split; [done |]. split; [done |]. split; [done |].
  pose proof (lookup_lt_Some _ _ _ Ht). pose proof (wi_tables_count w Hinv).
  split; [lia |].
  pose proof (layout_facts.rows_le_slots _ (em.inv_gens _ (wi_em w Hinv))
                (em.inv_cap _ (wi_em w Hinv)) _ _ _ tn _ (wi_layout w Hinv)
                ltac:(by rewrite list_lookup_fmap, Ht)) as Hle.
  pose proof (lookup_lt_Some _ _ _ Hr). pose proof (em.inv_cap _ (wi_em w Hinv)). lia.
Qed.

Lemma located_of w e tn rn tb :
  world.alive w e = true →
  world.locations_ w !! Z.to_nat (entity.index e) = Some (mk_loc (Z.of_nat tn) (Z.of_nat rn)) →
  Z.of_nat tn < two32 - 1 →
  world.tables w !! tn = Some tb → table.entities tb !! rn = Some e →
  located w e.
Proof.
  intros Ha Hl Htn Ht Hr. exists tb. unfold world.get_location.
  unfold world.alive in Ha. rewrite Ha, Hl. cbn.
  split; [| split].
  - unfold location_valid. cbn. apply negb_true_iff, Z.eqb_neq. bits_lia.
  - unfold world_storage.get_table. by rewrite Nat2Z.id.
  - by rewrite Nat2Z.id.
Qed.

(** Every entity of the store is found where its location says. *)
Lemma live_located w e : world_inv w → live w e → located w e.
Proof.
  intros Hinv Hlive. pose proof Hlive as (_ & Ha & _).
  destruct (live_slot w e Hinv Hlive) as (i & g & -> & Hu & Hg & Hi).
  destruct (slot_located w i g Hinv Hu Hg) as (tn & rn & tb & Hl & Ht & Hr & Htn & _).
  eapply located_of; [done | by rewrite Hi | done..].
Qed.

End inv.

(** ** [create_entity] and [destroy_entity] keep the invariant *)

Module steps.

Lemma set_location_in_range w i l :
  (Z.to_nat i < length (world.locations_ w))%nat →
  world.set_location w i l =
    Some (world.with_locations w (<[Z.to_nat i := l]> (world.locations_ w))).
Proof. intros H. unfold world.set_location. apply Nat.ltb_lt in H. by rewrite H. Qed.

Lemma create_entity_inv w :
  world_inv w → within_limits w →
  ∃ w' e, world.create_entity w = Some (w', e) ∧ world_inv w' ∧ live w' e ∧
    ∃ m' tn0 tb0,
      entity_manager.create_entity (world.entities_ w) = Some (m', e) ∧
      world.entities_ w' = m' ∧ world.registry_ w' = world.registry_ w ∧
      world.empty_table_ w = Z.of_nat tn0 ∧ world.tables w !! tn0 = Some tb0 ∧
      world.tables w' = <[tn0 := (table.add_row tb0 e).1]> (world.tables w) ∧
      world.locations_ w' !! Z.to_nat (entity.index e)
        = Some (mk_loc (Z.of_nat tn0) (Z.of_nat (length (table.entities tb0)))) ∧
      (∀ j, j ≠ Z.to_nat (entity.index e) → (j < length (world.locations_ w))%nat →
            world.locations_ w' !! j = world.locations_ w !! j) ∧
      world.version_ w' = wrap64 (world.version_ w + 1).
Proof.
  destruct w as [m reg [sv kt ts] et locs ver].
  intros [Hem Hlocs Hrc Hri Htc Hts Hk (tn0 & Het & Htn0) Hlay Hfree] (Hlim & _ & _).
  cbn [world.entities_ world.registry_ world.storage_ world.empty_table_
       world.locations_ world.tables world_storage.tables_
       world_storage.key_tables_] in *. subst et.
  destruct (em_facts.create_spec m Hem Hlim)
    as (m' & i & g & Hc & Hi & Hg & Hgl & Hnin & Hem' & Hcase).
  destruct (lookup_lt_is_Some_2 ts tn0 Htn0) as [tb0 Htb0].
  pose proof (lookup_lt_Some _ _ _ Hgl) as Hilt.
  (* the locations after [ensure_location_capacity] *)
  set (locs1 := if (length locs <=? Z.to_nat i)%nat
                then locs ++ replicate (Z.to_nat i + 1 - length locs) location_default
                else locs).
  assert (Hlen1 : length locs1 = length (entity_manager.generations_ m')).
  { subst locs1. destruct Hcase as [(_ & -> & _ & Hgens & _) | (_ & Hgens)].
    - rewrite Nat2Z.id, Hgens, Hlocs, Nat.leb_refl, !length_app, length_replicate.
      cbn. lia.
    - rewrite Hgens in Hilt |- *.
      assert ((length locs <=? Z.to_nat i) = false)%nat as -> by (apply Nat.leb_gt; lia).
      done. }
  assert (Hold1 : ∀ j, (j < length locs)%nat → locs1 !! j = locs !! j).
  { intros j Hj. subst locs1. destruct (_ <=? _)%nat; [| done]. by apply lookup_app_l. }
  (* the row the entity gets *)
  pose proof (layout_facts.rows_le_slots _ (em.inv_gens _ Hem) (em.inv_cap _ Hem)
                _ _ _ tn0 (table.entities tb0) Hlay
                ltac:(by rewrite list_lookup_fmap, Htb0)) as Hrows.
  unfold em.within_limits, entity_manager.capacity in Hlim.
  set (e := entity.make i g).
  set (tb0' := (table.add_row tb0 e).1).
  set (loc := mk_loc (Z.of_nat tn0) (wrap32 (Z.of_nat (length (table.entities tb0))))).
  exists (world.mk m' reg (world_storage.mk sv kt (<[tn0 := tb0']> ts)) (Z.of_nat tn0)
                   (<[Z.to_nat i := loc]> locs1) (wrap64 (ver + 1))), e.
  split.
  { assert (Hens : world.ensure_location_capacity
                     (world.mk m' reg (world_storage.mk sv kt ts) (Z.of_nat tn0) locs ver) i
                   = world.mk m' reg (world_storage.mk sv kt ts) (Z.of_nat tn0) locs1 ver).
    { unfold world.ensure_location_capacity. cbn [world.locations_]. subst locs1.
      by destruct (_ <=? _)%nat. }
    unfold world.create_entity. cbn [world.entities_]. rewrite Hc.
    cbn [mbind option_bind]. rewrite !(index_make i g Hi Hg).
    unfold world.with_entities.
    cbn [world.locations_ world.entities_ world.registry_ world.storage_
         world.empty_table_ world.version_].
    rewrite Hens. unfold world_storage.get_table.
    cbn [world.storage_ world.empty_table_ world_storage.tables_].
    rewrite Nat2Z.id, Htb0. cbn [mbind option_bind].
    unfold table.add_row at 1.
    rewrite set_location_in_range by (world_cbn; lia).
    world_cbn. by rewrite Nat2Z.id. }
  assert (Hrow : wrap32 (Z.of_nat (length (table.entities tb0)))
                 = Z.of_nat (length (table.entities tb0))).
  { apply wrap32_small. bits_lia. }
  assert (Hnew : in_use m' (Z.to_nat i)).
  { split; [done |]. by rewrite Z2Nat.id by bits_lia. }
  assert (Huse : ∀ j, in_use m' j ↔ in_use m j ∨ j = Z.to_nat i).
  { intros j. unfold in_use.
    destruct Hcase as [(Hf & -> & _ & Hgens & Hf') | (Hf & Hgens)].
    - rewrite Hgens, Hf, Hf', length_app, Nat2Z.id. cbn [length].
      split.
      + intros [Hj _]. destruct (decide (j = length (entity_manager.generations_ m)));
          [by right | left; split; [lia | apply not_elem_of_nil]].
      + intros [[Hj _] | ->]; (split; [lia | apply not_elem_of_nil]).
    - rewrite Hgens, Hf, elem_of_app, list_elem_of_singleton. split.
      + intros [Hj Hn]. destruct (decide (j = Z.to_nat i)); [by right | left].
        split; [done |]. intros [? | ?]; [done | lia].
      + intros [[Hj Hn] | ->]; [split; [done | tauto] |].
        split; [by rewrite <- Hgens | by rewrite Z2Nat.id by bits_lia]. }
  split; [| split].
  - constructor;
      cbn [world.entities_ world.registry_ world.storage_ world.empty_table_
           world.locations_ world.tables world_storage.tables_
           world_storage.key_tables_]; try done.
    + by rewrite length_insert.
    + by rewrite length_insert.
    + apply Forall_insert; [done |]. apply rows.add_row_ok.
      by apply (proj1 (Forall_lookup _ _) Hts tn0 tb0).
    + intros k tid'. by rewrite (inv.keys_insert ts tn0 tb0 tb0').
    + exists tn0. by rewrite length_insert.
    + rewrite list_fmap_insert. subst tb0' loc. unfold table.add_row.
      cbn [fst table.with_rows table.entities]. rewrite Hrow.
      eapply layout_facts.layout_ext; [intros j; symmetry; apply Huse |].
      replace e with (entity.make (Z.of_nat (Z.to_nat i)) g)
        by (by rewrite Z2Nat.id by bits_lia).
      apply layout_facts.layout_add.
      * eapply layout_facts.layout_frame; [done |]. intros j [Hj _]. split.
        -- destruct Hcase as [(_ & _ & _ & -> & _) | (_ & ->)]; [| done].
           by apply lookup_app_l.
        -- apply Hold1. lia.
      * intros [Hj Hn]. rewrite Z2Nat.id in Hn by bits_lia.
        destruct Hcase as [(_ & -> & _) | (Hf & _)].
        -- rewrite Nat2Z.id in Hj. lia.
        -- apply Hn. rewrite Hf. apply elem_of_snoc.
      * done.
      * lia.
      * by rewrite list_lookup_fmap, Htb0.
    + intros j Hj. destruct Hcase as [(_ & _ & _ & _ & Hf') | (Hf & _)].
      * rewrite Hf' in Hj. by apply elem_of_nil in Hj.
      * assert (Hjf : Z.of_nat j ∈ entity_manager.fragment_ m)
          by (rewrite Hf; apply elem_of_app; by left).
        pose proof (em.inv_nodup _ Hem) as Hnd. rewrite Hf in Hnd.
        apply NoDup_app in Hnd as (_ & Hnd & _). specialize (Hnd _ Hj).
        rewrite list_lookup_insert_ne.
        -- rewrite Hold1; [by apply Hfree |]. eapply lookup_lt_Some. by apply Hfree.
        -- intros <-. apply Hnd. rewrite Z2Nat.id by bits_lia.
           by apply list_elem_of_singleton.
  - split; [by apply make_handle |]. split.
    + apply em_facts.alive_true. cbn [world.entities_]. subst e.
      rewrite index_make, generation_make by done. split; [| done].
      apply not_false_iff_true. rewrite make_invalid by done.
      pose proof (em.inv_cap _ Hem'). lia.
    + cbn [world.entities_]. subst e. by rewrite index_make.
  - exists m', tn0, tb0.
    cbn [world.entities_ world.registry_ world.storage_ world.empty_table_
         world.locations_ world.tables world_storage.tables_ world.version_].
    replace (entity.index e) with i by (subst e; by rewrite index_make).
    split_and!; try done.
    + rewrite list_lookup_insert_eq by lia. subst loc. by rewrite Hrow.
    + intros j Hj Hjl. rewrite list_lookup_insert_ne by done. by apply Hold1.
Qed.

Lemma fixup_location w sw l :
  (entity.valid sw = true →
   (Z.to_nat (entity.index sw) < length (world.locations_ w))%nat) →
  (if entity.valid sw then world.set_location w (entity.index sw) l else Some w)
  = Some (world.with_locations w
            (if entity.valid sw
             then <[Z.to_nat (entity.index sw) := l]> (world.locations_ w)
             else world.locations_ w)).
Proof.
  intros H. destruct (entity.valid sw).
  - by rewrite set_location_in_range by auto.
  - by destruct w.
Qed.

Lemma in_use_destroy m e i g :
  e = entity.make (Z.of_nat i) g → entity_manager.alive m e = true →
  Z.to_nat (entity.index e) = i → u32 (Z.of_nat i) →
  ∀ j, in_use (entity_manager.destroy_entity m e) j ↔ in_use m j ∧ j ≠ i.
Proof.
  intros -> Ha Hi Hu j. rewrite em_facts.destroy_alive by done. unfold in_use.
  cbn [entity_manager.generations_ entity_manager.fragment_].
  rewrite length_alter, elem_of_app, list_elem_of_singleton.
  assert (entity.index (entity.make (Z.of_nat i) g) = Z.of_nat i) as ->.
  { pose proof (em_facts.index_range (entity.make (Z.of_nat i) g)). bits_lia. }
  split.
  - intros [Hj Hn]. split; [split; [done | tauto] |]. intros ->. tauto.
  - intros [[Hj Hn] Hne]. split; [done |]. intros [? | ?]; [done | lia].
Qed.

Lemma destroy_entity_inv w e :
  world_inv w → live w e →
  ∃ w' tn rn tb tb',
    world.destroy_entity w e = Some w' ∧ world_inv w' ∧
    world.locations_ w !! Z.to_nat (entity.index e)
      = Some (mk_loc (Z.of_nat tn) (Z.of_nat rn)) ∧
    world.tables w !! tn = Some tb ∧ table.entities tb !! rn = Some e ∧
    world.tables w' = <[tn := tb']> (world.tables w) ∧
    table.entities tb' = (table.swap_pop (table.entities tb) rn).1 ∧
    world.entities_ w' = entity_manager.destroy_entity (world.entities_ w) e ∧
    table.remove_row_swap tb rn = Some (tb', (table.swap_pop (table.entities tb) rn).2) ∧
    world.locations_ w' =
      <[Z.to_nat (entity.index e) := mk_loc INVALID_TABLE 0]>
        (if entity.valid (table.swap_pop (table.entities tb) rn).2
         then <[Z.to_nat (entity.index (table.swap_pop (table.entities tb) rn).2) :=
                  mk_loc (Z.of_nat tn) (Z.of_nat rn)]> (world.locations_ w)
         else world.locations_ w) ∧
    world.registry_ w' = world.registry_ w ∧
    world.version_ w' = wrap64 (wrap64 (world.version_ w + 1) + 1) ∧
    table_ok (world.registry_ w) tb'.
Proof.
  intros Hinv Hlive. pose proof Hlive as (He & Ha & Hnin).
  destruct (inv.live_slot w e Hinv Hlive) as (i & g & Hmk & Hu & Hg & Hi).
  destruct (inv.slot_located w i g Hinv Hu Hg) as (tn & rn & tb & Hl & Ht & Hr & Htn & Hrn).
  rewrite <- Hmk in Hr.
  destruct w as [m reg [sv kt ts] et locs ver].
  destruct Hinv as [Hem Hlocs Hrc Hri Htc Hts Hk Hempty Hlay Hfree].
  unfold world.alive in Ha.
  cbn [world.entities_ world.registry_ world.storage_ world.empty_table_
       world.locations_ world.tables world_storage.tables_
       world_storage.key_tables_] in *.
  pose proof (lookup_lt_Some _ _ _ Hr) as Hrlt.
  pose proof (proj1 (Forall_lookup _ _) Hts tn tb Ht) as Htb.
  destruct (rows.remove_row_swap_ok reg tb rn Htb Hrlt) as (tb' & Hrem & Htb' & Hkey' & Hents').
  set (sw := (table.swap_pop (table.entities tb) rn).2) in *.
  assert (Hents : (table.entities <$> ts) !! tn = Some (table.entities tb))
    by (by rewrite list_lookup_fmap, Ht).
  pose proof (layout_facts.swapped_in_range _ (em.inv_gens _ Hem) (em.inv_cap _ Hem)
                _ _ _ tn rn _ Hlay Hents Hrlt) as Hswr. fold sw in Hswr.
  set (locs' := if entity.valid sw
                then <[Z.to_nat (entity.index sw) := mk_loc (Z.of_nat tn) (Z.of_nat rn)]> locs
                else locs).
  assert (Hlen' : length locs' = length locs).
  { subst locs'. destruct (entity.valid sw); by rewrite ?length_insert. }
  pose proof (lookup_lt_Some _ _ _ Hl) as Hilt.
  exists (world.mk (entity_manager.destroy_entity m e) reg
                   (world_storage.mk sv kt (<[tn := tb']> ts)) et
                   (<[i := mk_loc INVALID_TABLE 0]> locs')
                   (wrap64 (wrap64 (ver + 1) + 1))), tn, rn, tb, tb'.
  split.
  { unfold world.destroy_entity. cbn [world.entities_ world.locations_].
    rewrite Ha, Hi, Hl. cbn [negb mbind option_bind].
    assert (Hvalid : location_valid (mk_loc (Z.of_nat tn) (Z.of_nat rn)) = true).
    { unfold location_valid. cbn. apply negb_true_iff, Z.eqb_neq. bits_lia. }
    rewrite Hvalid. unfold world.remove_row_dense_and_fixup.
    cbn [world.locations_]. rewrite Hi, Hl. cbn [mbind option_bind].
    rewrite Hvalid. cbn [negb tid row]. unfold world_storage.get_table.
    cbn [world.storage_ world_storage.tables_]. rewrite !Nat2Z.id, Ht.
    cbn [mbind option_bind]. rewrite Hrem. cbn [mbind option_bind].
    rewrite fixup_location by (world_cbn; exact Hswr).
    world_cbn. fold locs'.
    rewrite set_location_in_range by (world_cbn; lia).
    world_cbn. by rewrite Hi, Nat2Z.id. }
  split; [| rewrite Hi; split_and!; done].
  assert (Hiu : u32 (Z.of_nat i)).
  { pose proof (em.inv_cap _ Hem). destruct Hu. bits_lia. }
  constructor;
    cbn [world.entities_ world.registry_ world.storage_ world.empty_table_
         world.locations_ world.tables world_storage.tables_
         world_storage.key_tables_]; try done.
  - apply em_facts.destroy_inv; [done |]. split; [done |]. intros _. by split_and!.
  - rewrite length_insert, Hlen', Hlocs, em_facts.destroy_alive by done.
    cbn. by rewrite length_alter.
  - by rewrite length_insert.
  - apply Forall_insert; done.
  - intros k tid'. by rewrite (inv.keys_insert ts tn tb tb').
  - destruct Hempty as (tn0 & ? & ?). exists tn0. by rewrite length_insert.
  - rewrite list_fmap_insert, Hents'.
    eapply layout_facts.layout_ext;
      [intros j; symmetry; by apply (in_use_destroy m e i g) |].
    eapply layout_facts.layout_frame.
    + apply (layout_facts.layout_remove _ (em.inv_gens _ Hem) (em.inv_cap _ Hem)
               (in_use m) locs _ i g tn rn (table.entities tb)); try done.
      by rewrite <- Hmk.
    + intros j [_ Hne]. rewrite em_facts.destroy_alive by done.
      cbn [entity_manager.generations_]. rewrite Hi.
      split; [by apply list_lookup_alter_ne | by apply list_lookup_insert_ne].
  - intros j Hj. rewrite em_facts.destroy_alive in Hj by done.
    cbn [entity_manager.fragment_] in Hj.
    destruct (decide (j = i)) as [-> | Hne].
    { rewrite list_lookup_insert_eq by lia. done. }
    rewrite list_lookup_insert_ne by done.
    apply elem_of_app in Hj as [Hj | Hj].
    2:{ apply list_elem_of_singleton in Hj. rewrite <- Hi in Hne.
        pose proof (em_facts.index_range e). bits_lia. }
    subst locs'. destruct (entity.valid sw) eqn:Hv; [| by apply Hfree].
    rewrite list_lookup_insert_ne; [by apply Hfree |].
    intros <-.
    pose proof (layout_facts.swapped_placed _ (em.inv_gens _ Hem) (em.inv_cap _ Hem)
                  _ _ _ tn rn _ Hlay Hents Hrlt Hv) as [_ Hin].
    by apply Hin.
Qed.

End steps.

(** ** The column lookup of a table is built *)

Module lookup_facts.


Lemma smeared_start x : smeared x 1 x.
Proof.
  intros n Hn. split.
  - intros H. exists 0. by rewrite Z.add_0_r.
  - intros (j & Hj & H). by replace (n + j) with n in H by lia.
Qed.

Lemma smeared_step x m s :
  0 < m → smeared x m s → smeared x (2 * m) (Z.lor s (Z.shiftr s m)).
Proof.
  intros Hm Hs n Hn. rewrite Z.lor_spec, Z.shiftr_spec, orb_true_iff by done.
  rewrite (Hs n Hn), (Hs (n + m)) by lia. split.
  - intros [(j & Hj & H) | (j & Hj & H)].
    + exists j. split; [lia | done].
    + exists (m + j). split; [lia |]. by rewrite Z.add_assoc.
  - intros (j & Hj & H). destruct (Z.lt_ge_cases j m).
    + left. exists j. split; [lia | done].
    + right. exists (j - m). split; [lia |].
      by replace (n + m + (j - m)) with (n + j) by lia.
Qed.

(** [next_pow2_u32] on the sizes that occur. *)
Lemma next_pow2_spec v :
  2 ≤ v ≤ 2147483648 →
  ∃ k, 1 ≤ k ≤ 31 ∧ next_pow2_u32 v = 2 ^ k ∧ v ≤ 2 ^ k.
Proof.
  intros Hv. unfold next_pow2_u32.
  assert ((v <=? 1) = false) as -> by (apply Z.leb_gt; lia).
  rewrite (wrap32_small (v - 1)) by bits_lia.
  set (x := v - 1).
  set (s1 := Z.lor x (Z.shiftr x 1)).
  set (s2 := Z.lor s1 (Z.shiftr s1 2)).
  set (s3 := Z.lor s2 (Z.shiftr s2 4)).
  set (s4 := Z.lor s3 (Z.shiftr s3 8)).
  set (s5 := Z.lor s4 (Z.shiftr s4 16)).
  assert (H5 : smeared x 32 s5).
  { pose proof (smeared_step x 1 x ltac:(lia) (smeared_start x)) as H1.
    pose proof (smeared_step x 2 _ ltac:(lia) H1) as H2.
    pose proof (smeared_step x 4 _ ltac:(lia) H2) as H3.
    pose proof (smeared_step x 8 _ ltac:(lia) H3) as H4.
    exact (smeared_step x 16 _ ltac:(lia) H4). }
  assert (Hx : 0 < x < 2147483648) by (subst x; lia).
  pose proof (Z.log2_nonneg x) as Hp0.
  assert (Hp : Z.log2 x < 31).
  { apply Z.log2_lt_pow2; [lia |]. change (2 ^ 31) with 2147483648. lia. }
  assert (Hs5 : s5 = Z.ones (Z.log2 x + 1)).
  { apply Z.bits_inj'. intros n Hn.
    destruct (Z.lt_ge_cases n (Z.log2 x + 1)) as [Hlt | Hge].
    - rewrite Z.ones_spec_low by lia. apply H5; [done |].
      exists (Z.log2 x - n). split; [lia |].
      replace (n + (Z.log2 x - n)) with (Z.log2 x) by lia.
      apply Z.bit_log2. lia.
    - rewrite Z.ones_spec_high by lia. apply not_true_is_false.
      intros Hb. apply H5 in Hb as (j & Hj & Hb); [| done].
      rewrite Z.bits_above_log2 in Hb by lia. done. }
  exists (Z.log2 x + 1). split; [lia |].
  rewrite Hs5, Z.ones_equiv.
  replace (Z.pred (2 ^ (Z.log2 x + 1)) + 1) with (2 ^ (Z.log2 x + 1)) by lia.
  assert (Hpow : 2 ^ (Z.log2 x + 1) ≤ 2 ^ 31) by (apply Z.pow_le_mono_r; lia).
  change (2 ^ 31) with 2147483648 in Hpow.
  pose proof (Z.pow_pos_nonneg 2 (Z.log2 x + 1) ltac:(lia) ltac:(lia)).
  split; [apply wrap32_small; bits_lia |].
  pose proof (Z.log2_spec x ltac:(lia)) as [_ Hup].
  rewrite <- Z.add_1_r in Hup. subst x. lia.
Qed.

Section probing.

Context (k : Z) (Hk : 1 ≤ k ≤ 31).
Local Abbreviation cap := (2 ^ k).
Local Abbreviation mask := (wrap32 (2 ^ k - 1)).

Lemma cap_range : 2 ≤ cap ≤ 2147483648.
Proof.
  split.
  - change 2 with (2 ^ 1) at 1. apply Z.pow_le_mono_r; lia.
  - change 2147483648 with (2 ^ 31). apply Z.pow_le_mono_r; lia.
Qed.

Lemma mask_ones : mask = Z.ones k.
Proof.
  pose proof cap_range. rewrite wrap32_small by bits_lia.
  rewrite Z.ones_equiv. lia.
Qed.

Lemma land_mask x : Z.land x mask = x mod cap.
Proof. rewrite mask_ones. apply Z.land_ones. lia. Qed.

Lemma land_mask_range x : 0 ≤ Z.land x mask < cap.
Proof.
  rewrite land_mask. apply Z.mod_pos_bound. pose proof cap_range. lia.
Qed.

(** Linear probing reaches a free slot when there is one. *)
Lemma probe_free_total (keys : list Z) (f : nat) :
  Z.of_nat (length keys) = cap → keys !! f = Some INVALID_ID →
  ∀ (d : nat) (fuel : nat) (slot : Z),
    0 ≤ slot < cap → (Z.of_nat f - slot) mod cap = Z.of_nat d → (d < fuel)%nat →
    ∃ s, table.probe_free fuel keys mask slot = Some s ∧
         0 ≤ s < cap ∧ keys !! Z.to_nat s = Some INVALID_ID.
Proof.
  intros Hlen Hf. pose proof cap_range as Hcap.
  pose proof (lookup_lt_Some _ _ _ Hf) as Hflt.
  induction d as [| d IH]; intros fuel slot Hslot Hd Hfuel.
  - destruct fuel as [| fuel]; [lia |]. cbn [table.probe_free].
    assert (slot = Z.of_nat f) as ->.
    { assert (Hm : (Z.of_nat f - slot) mod cap = 0) by lia.
      apply Z.mod_divide in Hm; [| lia]. destruct Hm as [q Hq].
      assert (q = 0) by nia. lia. }
    rewrite Nat2Z.id, Hf. cbn [mbind option_bind]. rewrite Z.eqb_refl.
    exists (Z.of_nat f). by rewrite Nat2Z.id.
  - destruct fuel as [| fuel]; [lia |]. cbn [table.probe_free].
    destruct (lookup_lt_is_Some_2 keys (Z.to_nat slot) ltac:(lia)) as [k0 Hk0].
    rewrite Hk0. cbn [mbind option_bind].
    destruct (k0 =? INVALID_ID) eqn:Heq.
    + apply Z.eqb_eq in Heq as ->. by exists slot.
    + apply IH; [apply land_mask_range | | lia].
      rewrite land_mask, (wrap32_small (slot + 1)) by bits_lia.
      rewrite Zminus_mod_idemp_r.
      replace (Z.of_nat f - (slot + 1)) with ((Z.of_nat f - slot) - 1) by lia.
      rewrite <- Zminus_mod_idemp_l, Hd.
      pose proof (Z.mod_pos_bound (Z.of_nat f - slot) cap ltac:(lia)).
      rewrite Z.mod_small; lia.
Qed.

End probing.

Lemma exists_free (keys : list Z) :
  (length (filter (fun x => x ≠ INVALID_ID) keys) < length keys)%nat →
  ∃ f, keys !! f = Some INVALID_ID.
Proof.
  induction keys as [| x keys IH]; cbn [length]; [lia |].
  rewrite filter_cons. destruct (decide (x ≠ INVALID_ID)) as [Hne | Heq].
  - cbn [length]. intros H. destruct IH as [f Hf]; [lia |]. by exists (S f).
  - intros _. exists O. cbn. f_equal. by destruct (decide (x = INVALID_ID)).
Qed.

Lemma filter_insert_le (keys : list Z) s c :
  (length (filter (fun x => x ≠ INVALID_ID) (<[s := c]> keys))
   ≤ S (length (filter (fun x => x ≠ INVALID_ID) keys)))%nat.
Proof.
  revert s. induction keys as [| x keys IH]; intros s.
  - change (<[s := c]> (@nil Z)) with (@nil Z). cbn [length]. lia.
  - destruct s as [| s].
    + change (<[O := c]> (x :: keys)) with (c :: keys). rewrite !filter_cons.
      destruct (decide (c ≠ INVALID_ID)), (decide (x ≠ INVALID_ID)); cbn [length]; lia.
    + change (<[S s := c]> (x :: keys)) with (x :: <[s := c]> keys).
      rewrite !filter_cons. specialize (IH s).
      destruct (decide (x ≠ INVALID_ID)); cbn [length]; lia.
Qed.

(** [build_lookup] returns for every key of at most [2^30] components. *)
Lemma build_lookup_total (key : list Z) :
  Z.of_nat (length key) ≤ 1073741824 → is_Some (table.build_lookup key).
Proof.
  intros Hlen. unfold table.build_lookup.
  rewrite (wrap32_small (Z.of_nat (length key))) by bits_lia.
  destruct (Z.of_nat (length key) =? 0) eqn:Hn0; [by eexists |].
  apply Z.eqb_neq in Hn0.
  rewrite (wrap32_small (Z.of_nat (length key) * 2)) by bits_lia.
  destruct (next_pow2_spec (Z.of_nat (length key) * 2) ltac:(lia))
    as (k & Hk & Hcap & Hge).
  rewrite Hcap. rewrite Nat2Z.id.
  pose proof (cap_range k Hk) as Hrange.
  set (cap := 2 ^ k) in *. set (mask := wrap32 (cap - 1)).
  set (step := fun '(keys, vals) i =>
                 cid ← key !! i;
                 slot ← table.probe_free (Z.to_nat cap) keys mask
                          (Z.land (table.hash_cid cid) mask);
                 Some (<[Z.to_nat slot := cid]> keys,
                       <[Z.to_nat slot := Z.of_nat i]> vals)).
  assert (Hfold : ∀ n j keys vals,
             (j + n ≤ length key)%nat → Z.of_nat (length keys) = cap →
             (length (filter (fun x => x ≠ INVALID_ID) keys) ≤ j)%nat →
             is_Some (fold_opt step (keys, vals) (seq j n))).
  { induction n as [| n IH]; intros j keys vals Hj Hl Hocc; [by eexists |].
    cbn [seq fold_opt].
    change (step (keys, vals) j) with
      (cid ← key !! j;
       slot ← table.probe_free (Z.to_nat cap) keys mask
                (Z.land (table.hash_cid cid) mask);
       Some (<[Z.to_nat slot := cid]> keys, <[Z.to_nat slot := Z.of_nat j]> vals)).
    destruct (lookup_lt_is_Some_2 key j ltac:(lia)) as [cid Hcid].
    rewrite Hcid. cbn [mbind option_bind].
    destruct (exists_free keys ltac:(lia)) as [f Hf].
    pose proof (land_mask_range k Hk (table.hash_cid cid)) as Hslot.
    change (wrap32 (2 ^ k - 1)) with mask in Hslot. change (2 ^ k) with cap in Hslot.
    set (slot0 := Z.land (table.hash_cid cid) mask) in *.
    pose proof (Z.mod_pos_bound (Z.of_nat f - slot0) cap ltac:(lia)) as Hd.
    assert (Hdz : (Z.of_nat f - slot0) mod cap
                  = Z.of_nat (Z.to_nat ((Z.of_nat f - slot0) mod cap))) by lia.
    assert (Hfuel : (Z.to_nat ((Z.of_nat f - slot0) mod cap) < Z.to_nat cap)%nat) by lia.
    destruct (probe_free_total k Hk keys f Hl Hf _ (Z.to_nat cap) slot0 Hslot Hdz Hfuel)
      as (s & Hs & Hsr & _).
    change (wrap32 (2 ^ k - 1)) with mask in Hs. rewrite Hs. cbn [mbind option_bind].
    apply IH; [lia | by rewrite length_insert |].
    pose proof (filter_insert_le keys (Z.to_nat s) cid). lia. }
  destruct (Hfold (length key) O (replicate (Z.to_nat cap) INVALID_ID)
              (replicate (Z.to_nat cap) 0)) as [[keys vals] Hr].
  - lia.
  - rewrite length_replicate. lia.
  - assert (Hnone : ∀ m, filter (fun x => x ≠ INVALID_ID) (replicate m INVALID_ID) = []).
    { induction m as [| m IHm]; [done |]. cbn [replicate]. rewrite filter_cons.
      by destruct (decide (INVALID_ID ≠ INVALID_ID)). }
    by rewrite Hnone.
  - fold step. rewrite Hr. by eexists.
Qed.

End lookup_facts.

(** ** The table of an archetype *)

Module signature.

(** A canonical key of ids below [hi] has at most [hi] ids. *)
Lemma sorted_length_le (k : list Z) lo hi :
  key_ok k → Forall (fun x => lo ≤ x < hi) k → lo ≤ hi →
  Z.of_nat (length k) ≤ hi - lo.
Proof.
  revert lo. induction k as [| x k IH]; intros lo Hk Hall Hle; [cbn; lia |].
  apply key.ok_cons_inv in Hk as [Hk Hlt].
  apply Forall_cons in Hall as [Hx Hall].
  assert (Hall' : Forall (fun y => lo + 1 ≤ y < hi) k).
  { apply Forall_forall. intros y Hy.
    pose proof (proj1 (Forall_forall _ _) Hall y Hy) as Hr. cbn in Hr.
    specialize (Hlt y Hy). lia. }
  specialize (IH (lo + 1) Hk Hall' ltac:(lia)). cbn [length]. lia.
Qed.

Lemma layout_app_empty P gens locs ents :
  layout P gens locs ents → layout P gens locs (ents ++ [[]]).
Proof.
  intros [Hs Hr]. constructor.
  - intros i HP. destruct (Hs i HP) as (g & tn & rn & es & ? & ? & Ht & ?).
    exists g, tn, rn, es. split_and!; try done. by apply lookup_app_l_Some.
  - intros tn es rn e Ht He. apply lookup_app_Some in Ht as [Ht | [_ Ht]].
    + by apply (Hr tn es rn e).
    + apply list_lookup_singleton_Some in Ht as [_ <-]. done.
Qed.

Lemma new_columns_total reg key :
  Forall (fun cid => 0 ≤ cid < Z.of_nat (component_registry.count reg)) key →
  is_Some (mapM (fun cid => column.new <$> component_registry.get_info reg cid) key).
Proof.
  intros Hall. induction Hall as [| cid key Hc _ [cols IH]]; [by eexists |].
  unfold component_registry.count in Hc.
  destruct (lookup_lt_is_Some_2 (component_registry.type_infos_ reg) (Z.to_nat cid)
              ltac:(lia)) as [info Hinfo].
  exists (column.new info :: cols). rewrite mapM_Some. constructor.
  - unfold component_registry.get_info. by rewrite Hinfo.
  - by apply mapM_Some.
Qed.

Lemma create_table_spec reg st key :
  key_ok key →
  Forall (fun cid => 0 ≤ cid < Z.of_nat (component_registry.count reg)) key →
  Z.of_nat (component_registry.count reg) ≤ 1073741824 →
  ∃ tb,
    world_storage.create_table reg st key =
      Some (world_storage.mk (wrap64 (world_storage.schema_version_ st + 1))
              (match world_storage.key_tables_ st !! key with
               | Some _ => world_storage.key_tables_ st
               | None => <[key := wrap32 (Z.of_nat (length (world_storage.tables_ st)))]>
                           (world_storage.key_tables_ st)
               end)
              (world_storage.tables_ st ++ [tb]),
            wrap32 (Z.of_nat (length (world_storage.tables_ st)))) ∧
    table_ok reg tb ∧ table.key tb = key ∧ table.entities tb = [].
Proof.
  intros Hkey Hreg Hcount.
  pose proof (sorted_length_le key 0 _ Hkey Hreg ltac:(lia)) as Hlen.
  destruct (new_columns_total reg key Hreg) as [cols Hcols].
  destruct (lookup_facts.build_lookup_total key ltac:(lia)) as [[[keys vals] mask] Hb].
  eexists. split.
  - unfold world_storage.create_table. rewrite Hcols. cbn [mbind option_bind].
    unfold table.finalize_schema. cbn [table.key]. rewrite Hb. cbn. done.
  - apply sizes.new_columns in Hcols as [Hnew Hl].
    split; [| done]. constructor; cbn; [done | done | done |].
    eapply Forall_impl; [done |]. cbn. intros c (Hs & Hc & Hd).
    constructor; [done | lia | by rewrite Hd, Hc].
Qed.

Lemma get_table_for_signature_inv w ids :
  world_inv w → within_limits w →
  Forall (fun cid => 0 ≤ cid < Z.of_nat (component_registry.count (world.registry_ w))) ids →
  ∃ w' tn tbn extra,
    world.get_table_for_signature w ids = Some (w', Z.of_nat tn) ∧
    world_inv w' ∧
    world.tables w' = world.tables w ++ extra ∧
    world.tables w' !! tn = Some tbn ∧
    table.key tbn = archetype_key.canonicalise ids ∧
    world.entities_ w' = world.entities_ w ∧
    world.registry_ w' = world.registry_ w ∧
    world.locations_ w' = world.locations_ w ∧
    world.version_ w' = world.version_ w.
Proof.
  destruct w as [m reg [sv kt ts] et locs ver].
  intros [Hem Hlocs Hrc Hri Htc Hts Hk (tn0 & Het & Htn0) Hlay] (_ & Hlim & _) Hids.
  cbn [world.entities_ world.registry_ world.storage_ world.empty_table_
       world.locations_ world.tables world_storage.tables_
       world_storage.key_tables_] in *.
  unfold world_storage.table_count in Hlim. cbn [world_storage.tables_] in Hlim.
  set (k := archetype_key.canonicalise ids).
  pose proof (key.canonicalise_ok ids) as Hkok. fold k in Hkok.
  assert (Hkreg : Forall (fun cid => 0 ≤ cid < Z.of_nat (component_registry.count reg)) k).
  { apply Forall_forall. intros c Hc. unfold k in Hc.
    apply (proj1 (key.elem_of_canonicalise _ _)) in Hc.
    by apply (proj1 (Forall_forall _ _) Hids c). }
  unfold world.get_table_for_signature, world_storage.get_or_create_table.
  cbn [world.registry_ world.storage_ world_storage.key_tables_]. fold k.
  destruct (kt !! k) as [tid' |] eqn:Hfind.
  - apply Hk in Hfind as (tn & -> & Htn).
    apply list_lookup_fmap_Some_1 in Htn as (tbn & Hkey & Htn).
    exists (world.mk m reg (world_storage.mk sv kt ts) et locs ver), tn, tbn, [].
    split; [done |]. split; [by constructor; try done; exists tn0 |].
    world_cbn. by rewrite app_nil_r.
  - destruct (create_table_spec reg (world_storage.mk sv kt ts) k Hkok Hkreg Hrc)
      as (tb & Hcreate & Htb & Hkey & Hents).
    cbn [world_storage.schema_version_ world_storage.key_tables_ world_storage.tables_]
      in Hcreate.
    rewrite Hfind in Hcreate. rewrite Hcreate. cbn [mbind option_bind].
    rewrite (wrap32_small (Z.of_nat (length ts))) by bits_lia.
    exists (world.mk m reg
              (world_storage.mk (wrap64 (sv + 1)) (<[k := Z.of_nat (length ts)]> kt)
                                (ts ++ [tb])) et locs ver),
           (length ts), tb, [tb].
    split; [done |]. split.
    + constructor;
        cbn [world.entities_ world.registry_ world.storage_ world.empty_table_
             world.locations_ world.tables world_storage.tables_
             world_storage.key_tables_]; try done.
      * rewrite length_app. cbn [length]. lia.
      * apply Forall_app. split; [done |]. by constructor.
      * intros k' tid'. rewrite fmap_app. cbn [fmap list_fmap]. rewrite Hkey.
        destruct (decide (k' = k)) as [-> | Hne].
        -- rewrite lookup_insert_eq. split.
           ++ intros [= <-]. exists (length ts). split; [done |].
              by rewrite lookup_app_r, length_fmap, Nat.sub_diag by (rewrite length_fmap; lia).
           ++ intros (tn & -> & Htn).
              apply lookup_app_Some in Htn as [Htn | [Hge Htn]].
              ** assert (kt !! k = Some (Z.of_nat tn)) as Hc
                   by (apply Hk; by exists tn).
                 congruence.
              ** rewrite length_fmap in Hge, Htn.
                 apply lookup_lt_Some in Htn as Hlt. cbn in Hlt.
                 f_equal. lia.
        -- rewrite lookup_insert_ne by done. rewrite Hk. split.
           ++ intros (tn & -> & Htn). exists tn. split; [done |].
              by apply lookup_app_l_Some.
           ++ intros (tn & -> & Htn). exists tn. split; [done |].
              apply lookup_app_Some in Htn as [Htn | [Hge Htn]]; [done |].
              apply list_lookup_singleton_Some in Htn as [_ Heq]. congruence.
      * exists tn0. rewrite length_app. split; [done | lia].
      * rewrite fmap_app. cbn [fmap list_fmap]. rewrite Hents.
        by apply layout_app_empty.
    + world_cbn. split; [done |]. split; [| done].
      by rewrite lookup_app_r, Nat.sub_diag by lia.
Qed.

End signature.

(** ** Moving the components of a row *)

Module moving.

Section fixed.

Context (reg : component_registry.t) (ko kn : list Z) (t_old t_new ro rn : nat).
Hypothesis distinct : t_old ≠ t_new.

Local Abbreviation ready := (ready reg ko kn t_old t_new ro rn).

Lemma ready_cells w w' : cells_only w w' → ready w → ready w'.
Proof.
  intros Hc (ot & nt & Hot & Hnt & Hoko & Hnok & Hko & Hkn & Hro & Hrn).
  destruct (shape.lookup w w' _ _ Hc Hot) as (ot' & Hot' & Hso).
  destruct (shape.lookup w w' _ _ Hc Hnt) as (nt' & Hnt' & Hsn).
  exists ot', nt'. pose proof Hso as (Hk1 & He1 & _). pose proof Hsn as (Hk2 & He2 & _).
  split_and!; try done; try congruence.
  - by eapply shape.tb_ok.
  - by eapply shape.tb_ok.
Qed.

Lemma get_table_nat w (t : nat) :
  world_storage.get_table (world.storage_ w) (Z.of_nat t) = world.tables w !! t.
Proof. unfold world_storage.get_table, world.tables. by rewrite Nat2Z.id. Qed.

Lemma tables_set_table w (t : nat) tb :
  world.tables (world.set_table w (Z.of_nat t) tb) = <[t := tb]> (world.tables w).
Proof. unfold world.set_table, world.tables. cbn. by rewrite Nat2Z.id. Qed.

Lemma cell_at_set_eq w t tb cid r :
  (t < length (world.tables w))%nat →
  cell_at (world.set_table w (Z.of_nat t) tb) t cid r = table.read_cell tb cid r.
Proof.
  intros Hlt. unfold cell_at. rewrite tables_set_table.
  by rewrite list_lookup_insert_eq.
Qed.

Lemma cell_at_set_ne w t t' tb cid r :
  t ≠ t' → cell_at (world.set_table w (Z.of_nat t) tb) t' cid r = cell_at w t' cid r.
Proof.
  intros Hne. unfold cell_at. rewrite tables_set_table.
  by rewrite list_lookup_insert_ne.
Qed.

Local Abbreviation kept := (rows_kept t_old ro t_new rn).

Lemma kept_refl w : kept w w.
Proof. intros t tb Ht. by exists tb. Qed.

Lemma kept_trans w1 w2 w3 : kept w1 w2 → kept w2 w3 → kept w1 w3.
Proof.
  intros H12 H23 t tb Ht. destruct (H12 t tb Ht) as (tb2 & Ht2 & Hk2 & Hc2).
  destruct (H23 t tb2 Ht2) as (tb3 & Ht3 & Hk3 & Hc3).
  exists tb3. split; [done |]. split; [congruence |].
  intros c r Hc Ho Hn. rewrite Hc3 by (rewrite ?Hk2; done). by apply Hc2.
Qed.

(** A write into the row that migrates keeps the other rows. *)
Lemma kept_write w t tb c0 r0 x tb' :
  world.tables w !! t = Some tb → table_ok reg tb → c0 ∈ table.key tb →
  table.write_cell tb c0 r0 x = Some tb' →
  (t = t_old ∧ r0 = ro) ∨ (t = t_new ∧ r0 = rn) →
  kept w (world.set_table w (Z.of_nat t) tb').
Proof.
  intros Ht Hok Hc0 Hw Hrow t1 tb1 Ht1. rewrite tables_set_table.
  destruct (decide (t1 = t)) as [-> | Hne].
  - rewrite Ht in Ht1. injection Ht1 as <-.
    exists tb'. split; [apply list_lookup_insert_eq; by eapply lookup_lt_Some |].
    pose proof (shape.write_cell _ _ _ _ _ Hw) as (Hk & _). split; [done |].
    intros c r Hc Ho Hn.
    rewrite (cells.read_write reg tb c0 r0 x tb' c r) by done.
    rewrite decide_False; [done |]. intros [_ ->].
    destruct Hrow as [[-> ->] | [-> ->]]; [by apply Ho | by apply Hn].
  - exists tb1. by rewrite list_lookup_insert_ne.
Qed.

(** One call of the callback of [intersect_sorted_ids]. *)
Lemma move_spec w cid :
  ready w → cid ∈ ko → cid ∈ kn →
  ∃ w',
    world.move_component (Z.of_nat t_old) (Z.of_nat t_new) ro rn w cid = Some w' ∧
    cells_only w w' ∧
    cell_at w' t_new cid rn = cell_at w t_old cid ro ∧
    (∀ c, c ∈ kn → c ≠ cid → cell_at w' t_new c rn = cell_at w t_new c rn) ∧
    (∀ c, c ∈ ko → c ≠ cid → cell_at w' t_old c ro = cell_at w t_old c ro) ∧
    kept w w'.
Proof.
  intros (ot & nt & Hot & Hnt & Hoko & Hnok & <- & <- & Hro & Hrn) Hco Hcn.
  destruct (cells.read_total reg ot cid ro Hoko Hco Hro) as [src Hsrc].
  destruct (cells.write_total reg nt cid rn src Hnok Hcn Hrn) as [nt' Hnt'].
  destruct (cells.write_total reg ot cid ro None Hoko Hco Hro) as [ot' Hot'].
  pose proof (lookup_lt_Some _ _ _ Hot) as Holt.
  pose proof (lookup_lt_Some _ _ _ Hnt) as Hnlt.
  set (w1 := world.set_table w (Z.of_nat t_new) nt').
  assert (Hot1 : world.tables w1 !! t_old = Some ot).
  { subst w1. rewrite tables_set_table. by rewrite list_lookup_insert_ne. }
  exists (world.set_table w1 (Z.of_nat t_old) ot').
  split.
  { unfold world.move_component. rewrite !get_table_nat, Hot. cbn [mbind option_bind].
    rewrite Hsrc. cbn [mbind option_bind]. rewrite Hnt. cbn [mbind option_bind].
    rewrite Hnt'. cbn [mbind option_bind]. fold w1.
    rewrite get_table_nat, Hot1. cbn [mbind option_bind]. by rewrite Hot'. }
  assert (Hc1 : cells_only w w1).
  { apply (shape.set_table w _ nt); [by rewrite get_table_nat |].
    by eapply shape.write_cell. }
  assert (Hc2 : cells_only w1 (world.set_table w1 (Z.of_nat t_old) ot')).
  { apply (shape.set_table w1 _ ot); [by rewrite get_table_nat |].
    by eapply shape.write_cell. }
  split; [by eapply shape.trans |].
  assert (Hlen1 : length (world.tables w1) = length (world.tables w)).
  { subst w1. by rewrite tables_set_table, length_insert. }
  split; [| split; [| split]]; cycle 3.
  { apply (kept_trans _ w1).
    - apply (kept_write w t_new nt cid rn src nt'); try done. by right.
    - apply (kept_write w1 t_old ot cid ro None ot'); try done. by left. }
  - rewrite cell_at_set_ne by done. subst w1. rewrite cell_at_set_eq by done.
    rewrite (cells.read_write reg nt cid rn src nt' cid rn) by done.
    rewrite decide_True by done. unfold cell_at. by rewrite Hot.
  - intros c Hc Hne. rewrite cell_at_set_ne by done. subst w1.
    rewrite cell_at_set_eq by done.
    rewrite (cells.read_write reg nt cid rn src nt' c rn) by done.
    rewrite decide_False by tauto. unfold cell_at. by rewrite Hnt.
  - intros c Hc Hne. rewrite cell_at_set_eq by lia.
    rewrite (cells.read_write reg ot cid ro None ot' c ro) by done.
    rewrite decide_False by tauto. unfold cell_at. by rewrite Hot.
Qed.

(** The loop of [intersect_sorted_ids] over distinct common ids. *)
Lemma fold_move_spec ids :
  NoDup ids → (∀ c, c ∈ ids → c ∈ ko ∧ c ∈ kn) →
  ∀ w, ready w →
  ∃ w',
    fold_opt (world.move_component (Z.of_nat t_old) (Z.of_nat t_new) ro rn) w ids
      = Some w' ∧
    cells_only w w' ∧
    (∀ c, c ∈ ids → cell_at w' t_new c rn = cell_at w t_old c ro) ∧
    (∀ c, c ∈ kn → c ∉ ids → cell_at w' t_new c rn = cell_at w t_new c rn) ∧
    (∀ c, c ∈ ko → c ∉ ids → cell_at w' t_old c ro = cell_at w t_old c ro) ∧
    kept w w'.
Proof.
  induction ids as [| cid ids IH]; intros Hnd Hin w Hready.
  - exists w. split; [done |]. split; [apply shape.refl |].
    split; [| split; [done | split; [done | apply kept_refl]]].
    intros c Hc. by apply elem_of_nil in Hc.
  - apply NoDup_cons in Hnd as [Hnin Hnd].
    destruct (Hin cid ltac:(left)) as [Hco Hcn].
    destruct (move_spec w cid Hready Hco Hcn)
      as (w1 & Hm & Hc1 & Hr1 & Hn1 & Ho1 & Hk1).
    destruct (IH Hnd (fun c Hc => Hin c ltac:(by right)) w1 (ready_cells _ _ Hc1 Hready))
      as (w' & Hf & Hc' & Hr' & Hn' & Ho' & Hk').
    exists w'. cbn [fold_opt]. rewrite Hm. cbn [mbind option_bind].
    split; [done |]. split; [by eapply shape.trans |].
    split; [| split; [| split; [| by eapply kept_trans]]].
    + intros c Hc. apply elem_of_cons in Hc as [-> | Hc].
      * rewrite Hn' by done. done.
      * rewrite Hr' by done. apply Ho1; [by apply Hin; right |]. by intros ->.
    + intros c Hc Hni. apply not_elem_of_cons in Hni as [Hne Hni].
      rewrite Hn' by done. by apply Hn1.
    + intros c Hc Hni. apply not_elem_of_cons in Hni as [Hne Hni].
      rewrite Ho' by done. by apply Ho1.
Qed.

(** The second loop: the new table is not touched. *)
Lemma drop_spec w cid :
  ready w → cid ∈ ko →
  ∃ w',
    world.drop_component (Z.of_nat t_old) (Z.of_nat t_new) ro w cid = Some w' ∧
    cells_only w w' ∧ world.tables w' !! t_new = world.tables w !! t_new ∧
    kept w w'.
Proof.
  intros (ot & nt & Hot & Hnt & Hoko & Hnok & <- & <- & Hro & Hrn) Hco.
  unfold world.drop_component. rewrite !get_table_nat, Hot, Hnt. cbn [mbind option_bind].
  destruct (table.has nt cid).
  - exists w. split; [done |]. split; [apply shape.refl |]. split; [done | apply kept_refl].
  - destruct (cells.write_total reg ot cid ro None Hoko Hco Hro) as [ot' Hot'].
    rewrite Hot'. cbn [mbind option_bind]. eexists. split; [done |].
    split; [| split].
    + apply (shape.set_table w _ ot); [by rewrite get_table_nat |].
      by eapply shape.write_cell.
    + rewrite tables_set_table. by rewrite list_lookup_insert_ne.
    + apply (kept_write w t_old ot cid ro None ot'); try done. by left.
Qed.

Lemma fold_drop_spec ids :
  (∀ c, c ∈ ids → c ∈ ko) →
  ∀ w, ready w →
  ∃ w',
    fold_opt (world.drop_component (Z.of_nat t_old) (Z.of_nat t_new) ro) w ids = Some w' ∧
    cells_only w w' ∧ world.tables w' !! t_new = world.tables w !! t_new ∧
    kept w w'.
Proof.
  induction ids as [| cid ids IH]; intros Hin w Hready.
  - exists w. split; [done |]. split; [apply shape.refl |]. split; [done | apply kept_refl].
  - destruct (drop_spec w cid Hready (Hin cid ltac:(left))) as (w1 & Hd & Hc1 & Ht1 & Hk1).
    destruct (IH (fun c Hc => Hin c ltac:(by right)) w1 (ready_cells _ _ Hc1 Hready))
      as (w' & Hf & Hc' & Ht' & Hk').
    exists w'. cbn [fold_opt]. rewrite Hd. cbn [mbind option_bind].
    split; [done |]. split; [by eapply shape.trans |].
    split; [congruence | by eapply kept_trans].
Qed.

End fixed.

End moving.

(** ** [migrate_entity_to_table] keeps the invariant *)

Module migration.

Lemma migrate_inv w e t_old ro ot t_new nt :
  world_inv w → live w e →
  world.locations_ w !! Z.to_nat (entity.index e)
    = Some (mk_loc (Z.of_nat t_old) (Z.of_nat ro)) →
  world.tables w !! t_old = Some ot → world.tables w !! t_new = Some nt →
  t_old ≠ t_new →
  ∃ w' nt' ot',
    world.migrate_entity_to_table w e (Z.of_nat t_new)
      = Some (w', Z.of_nat (length (table.entities nt))) ∧
    world_inv w' ∧
    world.entities_ w' = world.entities_ w ∧
    world.registry_ w' = world.registry_ w ∧
    world.locations_ w' !! Z.to_nat (entity.index e)
      = Some (mk_loc (Z.of_nat t_new) (Z.of_nat (length (table.entities nt)))) ∧
    world.tables w' !! t_new = Some nt' ∧
    table.key nt' = table.key nt ∧
    table.entities nt' = table.entities nt ++ [e] ∧
    world.tables w' !! t_old = Some ot' ∧
    table.entities ot' = (table.swap_pop (table.entities ot) ro).1 ∧
    (∀ c, c ∈ table.key ot → c ∈ table.key nt →
          table.read_cell nt' c (length (table.entities nt)) = table.read_cell ot c ro) ∧
    world.locations_ w' =
      <[Z.to_nat (entity.index e) :=
          mk_loc (Z.of_nat t_new) (Z.of_nat (length (table.entities nt)))]>
        (if entity.valid (table.swap_pop (table.entities ot) ro).2
         then <[Z.to_nat (entity.index (table.swap_pop (table.entities ot) ro).2) :=
                  mk_loc (Z.of_nat t_old) (Z.of_nat ro)]> (world.locations_ w)
         else world.locations_ w) ∧
    (∀ t tb, t ≠ t_old → t ≠ t_new → world.tables w !! t = Some tb →
       ∃ tb', world.tables w' !! t = Some tb' ∧ table.key tb' = table.key tb ∧
              ∀ c r, c ∈ table.key tb → table.read_cell tb' c r = table.read_cell tb c r) ∧
    (∀ c r, c ∈ table.key nt → (r < length (table.entities nt))%nat →
       table.read_cell nt' c r = table.read_cell nt c r) ∧
    (∀ c r, c ∈ table.key ot → (r < length (table.entities ot) - 1)%nat →
       table.read_cell ot' c r =
         if decide (r = ro) then table.read_cell ot c (length (table.entities ot) - 1)
         else table.read_cell ot c r) ∧
    world.version_ w' = wrap64 (world.version_ w + 1) ∧
    table.key ot' = table.key ot.
Proof.
  intros Hinv Hlive Hloc Hot Hnt Hne. pose proof Hlive as (He & Ha & Hnin).
  destruct (inv.live_slot w e Hinv Hlive) as (i & g & Hmk & Hu & Hg & Hi).
  destruct (inv.slot_located w i g Hinv Hu Hg) as (tn' & rn' & tb' & Hl & Ht & Hr & Htn & Hrn).
  rewrite Hi in Hloc. rewrite Hl in Hloc.
  apply layout_facts.loc_inj in Hloc as [-> ->].
  rewrite Hot in Ht. injection Ht as <-. rewrite <- Hmk in Hr.
  pose proof (lookup_lt_Some _ _ _ Hr) as Hro.
  pose proof (proj1 (Forall_lookup _ _) (wi_tables w Hinv) t_old ot Hot) as Hoko.
  pose proof (proj1 (Forall_lookup _ _) (wi_tables w Hinv) t_new nt Hnt) as Hnok.
  pose proof (wi_em w Hinv) as Hem.
  pose proof (lookup_lt_Some _ _ _ Hnt) as Hnlt.
  pose proof (lookup_lt_Some _ _ _ Hot) as Holt.
  pose proof (wi_tables_count w Hinv) as Htc.
  (* the new row *)
  set (rn := length (table.entities nt)).
  pose proof (layout_facts.rows_le_slots _ (em.inv_gens _ Hem) (em.inv_cap _ Hem)
                _ _ _ t_new (table.entities nt) (wi_layout w Hinv)
                ltac:(by rewrite list_lookup_fmap, Hnt)) as Hrows.
  pose proof (em.inv_cap _ Hem) as Hcap.
  assert (Hwrap : wrap32 (Z.of_nat rn) = Z.of_nat rn) by (apply wrap32_small; bits_lia).
  set (nt1 := (table.add_row_uninitialized nt e).1).
  pose proof (rows.add_row_uninitialized_ok _ nt e Hnok) as Hnok1. fold nt1 in Hnok1.
  set (w1 := world.set_table w (Z.of_nat t_new) nt1).
  assert (Ht1 : world.tables w1 = <[t_new := nt1]> (world.tables w))
    by apply moving.tables_set_table.
  assert (Hready : ready (world.registry_ w) (table.key ot) (table.key nt)
                         t_old t_new ro rn w1).
  { exists ot, nt1. rewrite Ht1, list_lookup_insert_ne, list_lookup_insert_eq by done.
    split_and!; try done. subst nt1 rn. unfold table.add_row_uninitialized.
    cbn [fst table.with_rows table.entities]. rewrite length_app. cbn. lia. }
  (* the two loops *)
  set (ids := world.intersect_sorted_ids (table.key ot) (table.key nt)).
  destruct (moving.fold_move_spec (world.registry_ w) (table.key ot) (table.key nt)
              t_old t_new ro rn Hne ids) with (w := w1)
    as (w2 & Hf2 & Hc12 & Hmoved & _ & _ & Hk12).
  { apply key.ok_NoDup, key.intersect_ok; [apply Hoko | apply Hnok]. }
  { intros c Hc. apply key.elem_of_intersect in Hc; [done | apply Hoko | apply Hnok]. }
  { done. }
  destruct (moving.fold_drop_spec (world.registry_ w) (table.key ot) (table.key nt)
              t_old t_new ro rn Hne (table.key ot)) with (w := w2)
    as (w3 & Hf3 & Hc23 & Hsame & Hk23).
  { done. }
  { by eapply moving.ready_cells. }
  pose proof (moving.kept_trans _ _ _ _ _ _ _ Hk12 Hk23) as Hk13.
  pose proof (shape.trans _ _ _ Hc12 Hc23) as Hc13.
  (* the old table after the loops *)
  assert (Hot1 : world.tables w1 !! t_old = Some ot)
    by (by rewrite Ht1, list_lookup_insert_ne).
  destruct (shape.lookup w1 w3 _ _ Hc13 Hot1) as (ot3 & Hot3 & Hsh3).
  pose proof (shape.tb_ok _ _ _ Hsh3 Hoko) as Hoko3.
  pose proof Hsh3 as (Hk3 & He3 & _).
  destruct (rows.remove_row_swap_nodestroy_ok _ ot3 ro Hoko3 ltac:(by rewrite He3))
    as (ot4 & Hrem & Hoko4 & Hk4 & He4).
  rewrite He3 in Hrem, He4.
  set (sw := (table.swap_pop (table.entities ot) ro).2) in *.
  destruct Hc13 as (Hm3 & Hreg3 & Het3 & Hlocs3 & Hver3 & Hkt3 & Hts3).
  assert (Hents : (table.entities <$> world.tables w) !! t_old = Some (table.entities ot))
    by (by rewrite list_lookup_fmap, Hot).
  pose proof (layout_facts.swapped_in_range _ (em.inv_gens _ Hem) (em.inv_cap _ Hem)
                _ _ _ t_old ro _ (wi_layout w Hinv) Hents Hro) as Hswr. fold sw in Hswr.
  set (w4 := world.set_table w3 (Z.of_nat t_old) ot4).
  set (locs' := if entity.valid sw
                then <[Z.to_nat (entity.index sw) := mk_loc (Z.of_nat t_old) (Z.of_nat ro)]>
                       (world.locations_ w)
                else world.locations_ w).
  assert (Hlen' : length locs' = length (world.locations_ w)).
  { subst locs'. destruct (entity.valid sw); by rewrite ?length_insert. }
  pose proof (lookup_lt_Some _ _ _ Hl) as Hilt.
  assert (Hlocs4 : world.locations_ w4 = world.locations_ w) by (subst w4; done).
  assert (Hvalid : location_valid (mk_loc (Z.of_nat t_old) (Z.of_nat ro)) = true).
  { unfold location_valid. cbn. apply negb_true_iff, Z.eqb_neq. bits_lia. }
  assert (Hts4 : world.tables w4 = <[t_old := ot4]> (world.tables w3))
    by apply moving.tables_set_table.
  assert (Hlen3 : length (world.tables w3) = length (world.tables w)).
  { apply Forall2_length in Hts3. rewrite <- Hts3, Ht1. by rewrite length_insert. }
  set (w5 := world.with_locations w4 locs').
  set (w' := world.bump_version
               (world.with_locations w5
                  (<[i := mk_loc (Z.of_nat t_new) (Z.of_nat rn)]> locs'))).
  destruct (world.tables w3 !! t_new) as [nt3 |] eqn:Hnt3.
  2:{ apply lookup_ge_None in Hnt3. lia. }
  exists w', nt3, ot4.
  assert (Hrun : world.migrate_entity_to_table w e (Z.of_nat t_new)
                 = Some (w', Z.of_nat rn)).
  { unfold world.migrate_entity_to_table. rewrite Hi, Hl. cbn [mbind option_bind].
    rewrite Hvalid. cbn [negb tid row]. rewrite !moving.get_table_nat, Hot, Hnt.
    cbn [mbind option_bind]. unfold table.add_row_uninitialized at 1.
    fold rn. rewrite Hwrap, !Nat2Z.id.
    change (table.with_rows nt (table.entities nt ++ [e])
              (table.grow_uninitialized <$> table.columns nt)) with nt1.
    fold w1. fold ids. rewrite Hf2. cbn [mbind option_bind]. rewrite Hf3.
    cbn [mbind option_bind]. rewrite moving.get_table_nat, Hot3. cbn [mbind option_bind].
    rewrite Hrem. cbn [mbind option_bind]. fold w4.
    rewrite steps.fixup_location by (rewrite Hlocs4; exact Hswr).
    rewrite Hlocs4. fold locs'. fold w5. cbn [mbind option_bind].
    rewrite steps.set_location_in_range by (subst w5; world_cbn; lia).
    cbn [mbind option_bind]. subst w' w5. world_cbn. by rewrite Hi. }
  split; [done |].
  (* the components of the result *)
  assert (Hm' : world.entities_ w' = world.entities_ w) by (subst w' w5 w4; world_cbn; done).
  assert (Hreg' : world.registry_ w' = world.registry_ w) by (subst w' w5 w4; world_cbn; done).
  assert (Het' : world.empty_table_ w' = world.empty_table_ w)
    by (subst w' w5 w4; world_cbn; done).
  assert (Hlocs' : world.locations_ w'
                   = <[i := mk_loc (Z.of_nat t_new) (Z.of_nat rn)]> locs')
    by (subst w' w5 w4; world_cbn; done).
  assert (Hkt' : world_storage.key_tables_ (world.storage_ w')
                 = world_storage.key_tables_ (world.storage_ w))
    by (subst w' w5 w4; world_cbn; done).
  assert (Hts' : world.tables w' = <[t_old := ot4]> (world.tables w3))
    by (subst w' w5; rewrite <- Hts4; done).
  assert (Hnt3' : nt3 = nt3) by done.
  assert (Hsh_n : tb_shape nt1 nt3).
  { assert (Hn1 : world.tables w1 !! t_new = Some nt1)
      by (by rewrite Ht1, list_lookup_insert_eq).
    destruct (Forall2_lookup_l _ _ _ _ _ Hts3 Hn1) as (nt3' & Hn3 & Hs).
    unfold world.tables in Hnt3, Hn3. rewrite Hnt3 in Hn3. by injection Hn3 as <-. }
  pose proof Hsh_n as (Hkn3 & Hen3 & _).
  assert (Hkeys' : table.key <$> world.tables w' = table.key <$> world.tables w).
  { rewrite Hts', (inv.keys_insert _ t_old ot3 ot4) by (done || congruence).
    rewrite (shape.keys _ _ Hts3), Ht1.
    by apply (inv.keys_insert _ t_new nt nt1). }
  assert (Hents' : table.entities <$> world.tables w'
                   = <[t_new := table.entities nt ++ [entity.make (Z.of_nat i) g]]>
                       (<[t_old := (table.swap_pop (table.entities ot) ro).1]>
                          (table.entities <$> world.tables w))).
  { rewrite Hts', list_fmap_insert, He4, (shape.ents _ _ Hts3), Ht1, list_fmap_insert.
    rewrite list_insert_insert_ne by done. by rewrite <- Hmk. }
  split.
  { destruct Hinv as [_ Hlocs Hrc Hri _ Hts Hk (tn0 & Het & Htn0) Hlay Hfree].
    constructor; rewrite ?Hm', ?Hreg', ?Het', ?Hlocs', ?Hkt', ?Hkeys'; try done.
    - by rewrite length_insert, Hlen'.
    - by rewrite Hts', length_insert, Hlen3.
    - rewrite Hts'. apply Forall_insert; [| done].
      eapply shape.tables_ok; [done |]. rewrite Ht1. by apply Forall_insert.
    - exists tn0. by rewrite Hts', length_insert, Hlen3.
    - rewrite Hents'.
      eapply layout_facts.layout_ext; cycle 1.
      + apply layout_facts.layout_add.
        * apply (layout_facts.layout_remove _ (em.inv_gens _ Hem) (em.inv_cap _ Hem)
                   (in_use (world.entities_ w)) (world.locations_ w) _ i g t_old ro
                   (table.entities ot)); try done.
          by rewrite <- Hmk.
        * intros [_ Hc]. done.
        * done.
        * by rewrite Hlen'.
        * rewrite list_lookup_insert_ne by done. by rewrite list_lookup_fmap, Hnt.
      + intros j. cbn beta. split.
        * intros [[Hj _] | ->]; done.
        * intros Hj. destruct (decide (j = i)); [by right | by left].
    - intros j Hj. destruct Hu as [_ Hui].
      rewrite list_lookup_insert_ne by (by intros <-).
      subst locs'. destruct (entity.valid sw) eqn:Hv; [| by apply Hfree].
      rewrite list_lookup_insert_ne; [by apply Hfree |].
      intros <-.
      pose proof (layout_facts.swapped_placed _ (em.inv_gens _ Hem) (em.inv_cap _ Hem)
                    _ _ _ t_old ro _ Hlay Hents Hro Hv) as [_ Hin].
      by apply Hin. }
  split; [done |]. split; [done |].
  split; [by rewrite Hlocs', Hi, list_lookup_insert_eq by lia |].
  split; [by rewrite Hts', list_lookup_insert_ne |].
  split; [by rewrite Hkn3 |].
  split; [by rewrite Hen3 |].
  split; [by rewrite Hts', list_lookup_insert_eq by lia |].
  split; [done |].
  split.
  { intros c Hco Hcn.
    assert (Hcid : c ∈ ids) by (apply key.elem_of_intersect; [apply Hoko | apply Hnok | done]).
    specialize (Hmoved c Hcid). unfold cell_at in Hmoved.
    rewrite Hot1 in Hmoved. cbn [mbind option_bind] in Hmoved.
    rewrite <- Hsame in Hmoved. exact Hmoved. }
  split; [by rewrite Hlocs', Hi |].
  split.
  { intros t tb Hto Htn' Ht.
    assert (Ht1' : world.tables w1 !! t = Some tb)
      by (by rewrite Ht1, list_lookup_insert_ne).
    destruct (Hk13 t tb Ht1') as (tb3 & Ht3 & Hkt3' & Hcells3).
    exists tb3. split; [by rewrite Hts', list_lookup_insert_ne |].
    split; [done |]. intros c r Hc. apply Hcells3; done. }
  split.
  { intros c r Hc Hrow.
    assert (Hn1 : world.tables w1 !! t_new = Some nt1)
      by (by rewrite Ht1, list_lookup_insert_eq).
    destruct (Hk13 t_new nt1 Hn1) as (tb3 & Ht3 & _ & Hcells3).
    rewrite Hnt3 in Ht3. injection Ht3 as <-.
    rewrite Hcells3; [| done | done | intros _; lia].
    by apply (contents.add_row_uninitialized_read (world.registry_ w)). }
  split.
  { intros c r Hc Hrow.
    rewrite (contents.remove_row_swap_nodestroy_read (world.registry_ w) ot3 ro ot4 _ c r
               Hoko3 Hrem) by (rewrite ?Hk3, ?He3; done).
    rewrite He3.
    destruct (Hk13 t_old ot Hot1) as (tb3 & Ht3 & _ & Hcells3).
    rewrite Hot3 in Ht3. injection Ht3 as <-.
    destruct (decide (r = ro)) as [-> | Hne'].
    - apply Hcells3; [done | intros _; lia | done].
    - apply Hcells3; done. }
  split; [subst w' w5 w4; world_cbn; by rewrite Hver3 |].
  by rewrite Hk4.
Qed.

End migration.

(** ** [add_component] and [remove_component] keep the invariant *)

Module components.

Lemma cells_only_inv w w' : world_inv w → cells_only w w' → world_inv w'.
Proof.
  intros [Hem Hlocs Hrc Hri Htc Hts Hk (tn0 & Het & Htn0) Hlay Hfree]
         (Hm & Hreg & Hem' & Hl & _ & Hkt & Hsh).
  pose proof (Forall2_length _ _ _ Hsh) as Hlen.
  constructor; rewrite ?Hm, ?Hreg, ?Hem', ?Hl, ?Hkt, ?(shape.keys _ _ Hsh),
                 ?(shape.ents _ _ Hsh); try done.
  - by rewrite <- Hlen.
  - by eapply shape.tables_ok.
  - exists tn0. by rewrite <- Hlen.
Qed.

Lemma bump_inv w : world_inv w → world_inv (world.bump_version w).
Proof. intros []. by constructor. Qed.

Lemma live_same w w' e :
  world.entities_ w' = world.entities_ w → live w e → live w' e.
Proof. unfold live, world.alive. by intros ->. Qed.

(** What [get_component] reads. *)
Lemma get_component_Some w T e a :
  world_inv w → world.get_component w T e = Some a →
  ∃ cid tn rn tb,
    component_registry.get_id (world.registry_ w) T = Some cid ∧
    world.locations_ w !! Z.to_nat (entity.index e)
      = Some (mk_loc tn rn) ∧
    location_valid (mk_loc tn rn) = true ∧
    world.tables w !! Z.to_nat tn = Some tb ∧
    table.has tb cid = true ∧
    table.read_cell tb cid (Z.to_nat rn) = Some (Some a).
Proof.
  intros Hinv H. unfold world.get_component in H.
  destruct (negb (world.alive w e)); [done |].
  bind_inv H cid Hcid. bind_inv H loc Hloc. destruct loc as [tn rn].
  destruct (location_valid (mk_loc tn rn)) eqn:Hv; [| done]. cbn [negb] in H.
  bind_inv H tb Htb. destruct (table.has tb cid) eqn:Hhas; [| done]. cbn [negb] in H.
  bind_inv H c Hc. subst c. by exists cid, tn, rn, tb.
Qed.

Lemma get_component_intro w T e a cid (tn rn : nat) tb :
  world.alive w e = true →
  component_registry.get_id (world.registry_ w) T = Some cid →
  world.locations_ w !! Z.to_nat (entity.index e)
    = Some (mk_loc (Z.of_nat tn) (Z.of_nat rn)) →
  Z.of_nat tn < two32 - 1 →
  world.tables w !! tn = Some tb →
  table.has tb cid = true →
  table.read_cell tb cid rn = Some (Some a) →
  world.get_component w T e = Some a.
Proof.
  intros Ha Hcid Hloc Htn Htb Hhas Hread. unfold world.get_component.
  rewrite Ha, Hcid. cbn [negb mbind option_bind]. rewrite Hloc. cbn [mbind option_bind].
  assert (location_valid (mk_loc (Z.of_nat tn) (Z.of_nat rn)) = true) as ->.
  { unfold location_valid. cbn. apply negb_true_iff, Z.eqb_neq. bits_lia. }
  cbn [negb tid row]. rewrite moving.get_table_nat, Htb. cbn [mbind option_bind].
  rewrite Hhas. cbn [negb]. rewrite Nat2Z.id, Hread. done.
Qed.

(** An entity of the store and where it is. *)
Lemma live_at w x :
  world_inv w → live w x →
  ∃ tx rx tbx,
    world.locations_ w !! Z.to_nat (entity.index x)
      = Some (mk_loc (Z.of_nat tx) (Z.of_nat rx)) ∧
    world.tables w !! tx = Some tbx ∧ table.entities tbx !! rx = Some x ∧
    Z.of_nat tx < two32 - 1.
Proof.
  intros Hinv Hlive.
  destruct (inv.live_slot w x Hinv Hlive) as (i & g & Hmk & Hu & Hg & Hi).
  destruct (inv.slot_located w i g Hinv Hu Hg) as (tx & rx & tbx & Hl & Ht & Hr & Htn & _).
  exists tx, rx, tbx. rewrite Hi, Hmk. by split_and!.
Qed.

(** A handle that passes [alive] and has a valid location names an entity. *)
Lemma placed_is_live w x l :
  world_inv w → handle x → world.alive w x = true →
  world.locations_ w !! Z.to_nat (entity.index x) = Some l →
  location_valid l = true → live w x.
Proof.
  intros Hinv Hx Ha Hl Hv. split; [done |]. split; [done |]. intros Hin.
  pose proof (em_facts.index_range x) as Hr.
  rewrite <- (Z2Nat.id (entity.index x)) in Hin by bits_lia.
  rewrite (wi_free w Hinv _ Hin) in Hl. by injection Hl as <-.
Qed.

Lemma holder_live w A x a :
  world_inv w → handle x → world.get_component w A x = Some a → live w x.
Proof.
  intros Hinv Hx HA.
  destruct (get_component_Some w A x a Hinv HA) as (c & tn & rn & tb & _ & Hl & Hv & _).
  apply (placed_is_live w x (mk_loc tn rn) Hinv Hx); [| done | done].
  unfold world.get_component in HA. by destruct (world.alive w x).
Qed.

(** Two entities of one slot are the same entity. *)
Lemma same_slot w x e :
  live w x → live w e →
  Z.to_nat (entity.index x) = Z.to_nat (entity.index e) → x = e.
Proof.
  intros (Hx & Hax & _) (He & Hae & _) Hi.
  apply em_facts.alive_true in Hax as [_ Hgx]. apply em_facts.alive_true in Hae as [_ Hge].
  rewrite Hi, Hge in Hgx. injection Hgx as Hg.
  pose proof (em_facts.index_range x). pose proof (em_facts.index_range e).
  assert (Hidx : entity.index x = entity.index e) by bits_lia.
  rewrite <- (make_index_generation x Hx), <- (make_index_generation e He).
  by rewrite Hidx, Hg.
Qed.

(** Where another entity [x] is after the row of [e] was swap-removed:
    [x] was the entity of the last row and is recorded at the row of [e],
    or its location is what it was. *)
Lemma other_after_swap w e x (t_old ro tx rx : nat) ot tbx l_e :
  world_inv w → live w e → live w x → x ≠ e →
  world.locations_ w !! Z.to_nat (entity.index e)
    = Some (mk_loc (Z.of_nat t_old) (Z.of_nat ro)) →
  world.tables w !! t_old = Some ot →
  world.locations_ w !! Z.to_nat (entity.index x)
    = Some (mk_loc (Z.of_nat tx) (Z.of_nat rx)) →
  world.tables w !! tx = Some tbx → table.entities tbx !! rx = Some x →
  let sw := (table.swap_pop (table.entities ot) ro).2 in
  let locs2 :=
    <[Z.to_nat (entity.index e) := l_e]>
      (if entity.valid sw
       then <[Z.to_nat (entity.index sw) := mk_loc (Z.of_nat t_old) (Z.of_nat ro)]>
              (world.locations_ w)
       else world.locations_ w) in
  (tx = t_old ∧ rx = (length (table.entities ot) - 1)%nat ∧ (ro < rx)%nat ∧
   locs2 !! Z.to_nat (entity.index x) = Some (mk_loc (Z.of_nat t_old) (Z.of_nat ro))) ∨
  (locs2 !! Z.to_nat (entity.index x) = Some (mk_loc (Z.of_nat tx) (Z.of_nat rx)) ∧
   (tx = t_old → (rx < length (table.entities ot) - 1)%nat ∧ rx ≠ ro)).
Proof.
  intros Hinv He Hx Hne Hle Hot Hlx Htx Hrx sw locs2.
  pose proof (wi_em w Hinv) as Hem.
  assert (Hidx : Z.to_nat (entity.index x) ≠ Z.to_nat (entity.index e)).
  { intros Hi. by apply Hne, (same_slot w). }
  destruct (live_at w e Hinv He) as (te & re & tbe & Hle' & Hte & Hre & _).
  rewrite Hle in Hle'. apply layout_facts.loc_inj in Hle' as [<- <-].
  rewrite Hot in Hte. injection Hte as <-.
  pose proof (lookup_lt_Some _ _ _ Hre) as Hro.
  pose proof (lookup_lt_Some _ _ _ Hlx) as Hxl.
  destruct (table_facts.swap_pop_spec (table.entities ot) ro Hro) as (_ & _ & Hsw).
  fold sw in Hsw.
  assert (Hents : (table.entities <$> world.tables w) !! t_old = Some (table.entities ot))
    by (by rewrite list_lookup_fmap, Hot).
  (* the entity moved is the entity of the last row *)
  assert (Hmoved : entity.valid sw = true →
                   ro ≠ (length (table.entities ot) - 1)%nat ∧
                   table.entities ot !! (length (table.entities ot) - 1)%nat = Some sw ∧
                   world.locations_ w !! Z.to_nat (entity.index sw)
                     = Some (mk_loc (Z.of_nat t_old)
                               (Z.of_nat (length (table.entities ot) - 1)))).
  { intros Hv. rewrite Hsw in Hv |- *.
    destruct (decide (ro = (length (table.entities ot) - 1)%nat)) as [| Hnl]; [done |].
    split; [done |].
    destruct (lookup_lt_is_Some_2 (table.entities ot) (length (table.entities ot) - 1)%nat
                ltac:(lia)) as [el Hel].
    rewrite Hel. cbn [default from_option id]. split; [done |].
    destruct (lay_row _ _ _ _ (wi_layout w Hinv) t_old _ _ el Hents Hel)
      as (k & gk & -> & _ & Hgk & Hlk).
    by rewrite (proj2 (layout_facts.slot_valid _ (em.inv_gens _ Hem) (em.inv_cap _ Hem)
                         k gk Hgk)). }
  subst locs2. rewrite list_lookup_insert_ne by done.
  destruct (entity.valid sw) eqn:Hv.
  - destruct (Hmoved eq_refl) as (Hnl & Hlast & Hlsw).
    destruct (decide (Z.to_nat (entity.index sw) = Z.to_nat (entity.index x))) as [Heq | Hd].
    + left. rewrite Heq, Hlx in Hlsw. apply layout_facts.loc_inj in Hlsw as [-> ->].
      rewrite Heq. split; [done |]. split; [done |]. split; [lia |].
      by apply list_lookup_insert_eq.
    + right. rewrite list_lookup_insert_ne by done. split; [done |].
      intros ->. rewrite Hot in Htx. injection Htx as <-.
      pose proof (lookup_lt_Some _ _ _ Hrx) as Hrxl.
      assert (rx ≠ ro).
      { intros ->. rewrite Hre in Hrx. by injection Hrx as ->. }
      split; [| done].
      destruct (decide (rx = (length (table.entities ot) - 1)%nat)) as [-> | ?]; [| lia].
      rewrite Hlast in Hrx. injection Hrx as ->. done.
  - right. split; [done |]. intros ->. rewrite Hot in Htx. injection Htx as <-.
    pose proof (lookup_lt_Some _ _ _ Hrx) as Hrxl.
    assert (rx ≠ ro).
    { intros ->. rewrite Hre in Hrx. by injection Hrx as ->. }
    split; [| done].
    rewrite Hsw in Hv.
    destruct (decide (ro = (length (table.entities ot) - 1)%nat)) as [| Hnl]; [lia |].
    destruct (lookup_lt_is_Some_2 (table.entities ot) (length (table.entities ot) - 1)%nat
                ltac:(lia)) as [el Hel].
    rewrite Hel in Hv. cbn [default from_option id] in Hv.
    destruct (lay_row _ _ _ _ (wi_layout w Hinv) t_old _ _ el Hents Hel)
      as (k & gk & -> & _ & Hgk & _).
    by rewrite (proj1 (layout_facts.slot_valid _ (em.inv_gens _ Hem) (em.inv_cap _ Hem)
                         k gk Hgk)) in Hv.
Qed.

(** [get_component] through a known location. *)
Lemma get_component_at w A x (tx rx : nat) tbx :
  world.alive w x = true →
  world.locations_ w !! Z.to_nat (entity.index x)
    = Some (mk_loc (Z.of_nat tx) (Z.of_nat rx)) →
  Z.of_nat tx < two32 - 1 → world.tables w !! tx = Some tbx →
  world.get_component w A x =
    (cid ← component_registry.get_id (world.registry_ w) A;
     if table.has tbx cid then c ← table.read_cell tbx cid rx; c else None).
Proof.
  intros Ha Hl Htx Ht. unfold world.get_component. rewrite Ha. cbn [negb].
  destruct (component_registry.get_id _ A) as [cid |]; [| done]. cbn [mbind option_bind].
  rewrite Hl. cbn [mbind option_bind].
  assert (location_valid (mk_loc (Z.of_nat tx) (Z.of_nat rx)) = true) as ->.
  { unfold location_valid. cbn. apply negb_true_iff, Z.eqb_neq. bits_lia. }
  cbn [negb tid row]. rewrite moving.get_table_nat, Ht. cbn [mbind option_bind].
  rewrite Nat2Z.id. by destruct (table.has tbx cid).
Qed.

(** An entity that is found with the same cells still has its components. *)
Lemma get_component_moved w w' A x (tx rx tx' rx' : nat) tbx tbx' :
  key_ok (table.key tbx) →
  world.alive w x = true → world.alive w' x = true →
  world.registry_ w' = world.registry_ w →
  world.locations_ w !! Z.to_nat (entity.index x)
    = Some (mk_loc (Z.of_nat tx) (Z.of_nat rx)) →
  Z.of_nat tx < two32 - 1 → world.tables w !! tx = Some tbx →
  world.locations_ w' !! Z.to_nat (entity.index x)
    = Some (mk_loc (Z.of_nat tx') (Z.of_nat rx')) →
  Z.of_nat tx' < two32 - 1 → world.tables w' !! tx' = Some tbx' →
  table.key tbx' = table.key tbx →
  (∀ c, c ∈ table.key tbx → table.read_cell tbx' c rx' = table.read_cell tbx c rx) →
  world.get_component w' A x = world.get_component w A x.
Proof.
  intros Hk Ha Ha' Hreg Hl Htx Ht Hl' Htx' Ht' Hkey Hcells.
  rewrite (get_component_at w A x tx rx tbx), (get_component_at w' A x tx' rx' tbx')
    by done.
  rewrite Hreg. destruct (component_registry.get_id _ A) as [cid |]; [| done].
  cbn [mbind option_bind]. unfold table.has. rewrite Hkey.
  destruct (archetype_key.contains (table.key tbx) cid) eqn:Hc; [| done].
  apply (key.contains_elem _ _ Hk) in Hc. by rewrite Hcells.
Qed.

Lemma try_get_absent w T e cid (t ro : nat) tb :
  world.alive w e = true →
  component_registry.get_id (world.registry_ w) T = Some cid →
  world.locations_ w !! Z.to_nat (entity.index e)
    = Some (mk_loc (Z.of_nat t) (Z.of_nat ro)) →
  Z.of_nat t < two32 - 1 → world.tables w !! t = Some tb →
  table.has tb cid = false →
  world.try_get_component w T e = Some None.
Proof.
  intros Ha Hcid Hl Ht Htb Hhas. unfold world.try_get_component.
  rewrite Ha, Hcid. cbn [negb mbind option_bind]. rewrite Hl.
  assert (location_valid (mk_loc (Z.of_nat t) (Z.of_nat ro)) = true) as ->.
  { unfold location_valid. cbn. apply negb_true_iff, Z.eqb_neq. bits_lia. }
  cbn [negb tid row]. rewrite moving.get_table_nat, Htb. cbn [mbind option_bind].
  by rewrite Hhas.
Qed.

(** [try_get_component] is [nullptr] exactly when the archetype of the
    entity lacks the component. *)
Lemma try_get_has w T e cid (t ro : nat) tb :
  world_inv w → world.alive w e = true →
  component_registry.get_id (world.registry_ w) T = Some cid →
  world.locations_ w !! Z.to_nat (entity.index e)
    = Some (mk_loc (Z.of_nat t) (Z.of_nat ro)) →
  Z.of_nat t < two32 - 1 → world.tables w !! t = Some tb →
  world.try_get_component w T e = Some None ↔ table.has tb cid = false.
Proof.
  intros Hinv Ha Hcid Hl Ht Htb. unfold world.try_get_component.
  rewrite Ha, Hcid. cbn [negb mbind option_bind]. rewrite Hl.
  assert (location_valid (mk_loc (Z.of_nat t) (Z.of_nat ro)) = true) as ->.
  { unfold location_valid. cbn. apply negb_true_iff, Z.eqb_neq. bits_lia. }
  cbn [negb tid row]. rewrite moving.get_table_nat, Htb. cbn [mbind option_bind].
  destruct (table.has tb cid) eqn:Hhas; [| done].
  pose proof (proj1 (Forall_lookup _ _) (wi_tables w Hinv) t tb Htb) as Hok.
  apply (key.contains_elem _ _ (tb_key _ _ Hok)) in Hhas.
  destruct (cells.column_of _ tb cid Hok Hhas) as (c & -> & _). cbn. split; done.
Qed.

(** Another entity after a migration of [e]: it is found, in a table of
    the key it had, with the cells it had. *)
Lemma migrate_other w e x (t_old ro t_new tx rx : nat) ot nt tbx w2 r :
  world_inv w → live w e →
  world.locations_ w !! Z.to_nat (entity.index e)
    = Some (mk_loc (Z.of_nat t_old) (Z.of_nat ro)) →
  world.tables w !! t_old = Some ot → world.tables w !! t_new = Some nt →
  t_old ≠ t_new →
  world.migrate_entity_to_table w e (Z.of_nat t_new) = Some (w2, r) →
  live w x → x ≠ e →
  world.locations_ w !! Z.to_nat (entity.index x)
    = Some (mk_loc (Z.of_nat tx) (Z.of_nat rx)) →
  world.tables w !! tx = Some tbx → table.entities tbx !! rx = Some x →
  ∃ tx' rx' tbx',
    world.locations_ w2 !! Z.to_nat (entity.index x)
      = Some (mk_loc (Z.of_nat tx') (Z.of_nat rx')) ∧
    world.tables w2 !! tx' = Some tbx' ∧ table.key tbx' = table.key tbx ∧
    (tx' = t_new → (rx' < length (table.entities nt))%nat) ∧
    ∀ c, c ∈ table.key tbx → table.read_cell tbx' c rx' = table.read_cell tbx c rx.
Proof.
  intros Hinv He Hle Hot Hnt Hne Hmig Hx Hxe Hlx Htx Hrx.
  destruct (migration.migrate_inv w e t_old ro ot t_new nt Hinv He Hle Hot Hnt Hne)
    as (w2' & nt' & ot' & Hmig' & _ & _ & _ & _ & Hnt' & Hkn' & _ & Hot' & _ & _
        & Hlocs & Hother & Hnrows & Horows & _ & Hko').
  rewrite Hmig in Hmig'. injection Hmig' as <- _.
  rewrite Hlocs.
  destruct (other_after_swap w e x t_old ro tx rx ot tbx
              (mk_loc (Z.of_nat t_new) (Z.of_nat (length (table.entities nt))))
              Hinv He Hx Hxe Hle Hot Hlx Htx Hrx)
    as [(-> & -> & Hlt & Hl2) | (Hl2 & Hrow)].
  - rewrite Hot in Htx. injection Htx as <-.
    exists t_old, ro, ot'. split; [done |]. split; [done |]. split; [done |].
    split; [done |]. intros c Hc. rewrite Horows by (done || lia).
    by rewrite decide_True.
  - destruct (decide (tx = t_old)) as [-> | Hno].
    + rewrite Hot in Htx. injection Htx as <-. destruct (Hrow eq_refl) as [Hlt Hnr].
      exists t_old, rx, ot'. split; [done |]. split; [done |]. split; [done |].
      split; [done |]. intros c Hc. rewrite Horows by done. by rewrite decide_False.
    + destruct (decide (tx = t_new)) as [-> | Hnn].
      * rewrite Hnt in Htx. injection Htx as <-.
        pose proof (lookup_lt_Some _ _ _ Hrx) as Hlt.
        exists t_new, rx, nt'. split; [done |]. split; [done |]. split; [done |].
        split; [done |]. intros c Hc. by apply Hnrows.
      * destruct (Hother tx tbx Hno Hnn Htx) as (tb' & Ht' & Hk' & Hc').
        exists tx, rx, tb'. split; [done |]. split; [done |]. split; [done |].
        split; [done |]. intros c Hc. by apply Hc'.
Qed.

Lemma add_component_spec w T e v cid :
  world_inv w → within_limits w → live w e →
  component_registry.get_id (world.registry_ w) T = Some cid →
  ∃ w',
    world.add_component w T e v = Some w' ∧ world_inv w' ∧
    world.entities_ w' = world.entities_ w ∧
    world.registry_ w' = world.registry_ w ∧
    (∀ A a, world.get_component w A e = Some a → world.get_component w' A e = Some a) ∧
    (∀ tn r tb,
       world.locations_ w !! Z.to_nat (entity.index e)
         = Some (mk_loc (Z.of_nat tn) (Z.of_nat r)) →
       world.tables w !! tn = Some tb → table.has tb cid = false →
       ∃ tb', world.tables w' !! tn = Some tb' ∧
              table.entities tb' = (table.swap_pop (table.entities tb) r).1) ∧
    (world.try_get_component w T e = Some None →
     (∃ c, world.get_component w' T e = Some c ∧ ∀ y, v = Some y → c = y) ∧
     world.version_ w' = wrap64 (wrap64 (world.version_ w + 1) + 1)) ∧
    (world.try_get_component w T e ≠ Some None → w' = w) ∧
    (∀ x A, live w x → x ≠ e →
            world.get_component w' A x = world.get_component w A x) ∧
    (∀ B cB,
       component_registry.get_id (world.registry_ w) B = Some cB → cB ≠ cid →
       world.try_get_component w B e = Some None →
       world.try_get_component w' B e = Some None).
Proof.
  intros Hinv Hlim Hlive Hcid. pose proof Hlive as (He & Ha & Hnin).
  destruct (inv.live_slot w e Hinv Hlive) as (i & g & Hmk & Hu & Hg & Hi).
  destruct (inv.slot_located w i g Hinv Hu Hg)
    as (t_old & ro & ot & Hl & Hot & Hr & Htn & Hrn).
  assert (Hvalid : location_valid (mk_loc (Z.of_nat t_old) (Z.of_nat ro)) = true).
  { unfold location_valid. cbn. apply negb_true_iff, Z.eqb_neq. bits_lia. }
  pose proof (proj1 (Forall_lookup _ _) (wi_tables w Hinv) t_old ot Hot) as Hoko.
  unfold world.add_component. rewrite Ha, Hcid. cbn [negb mbind option_bind].
  rewrite Hi, Hl. cbn [mbind option_bind]. rewrite Hvalid. cbn [negb tid row].
  rewrite moving.get_table_nat, Hot. cbn [mbind option_bind].
  pose proof (try_get_has w T e cid t_old ro ot Hinv Ha Hcid
                ltac:(by rewrite Hi) Htn Hot) as Htry.
  destruct (table.has ot cid) eqn:Hhas.
  { exists w. split_and!; try done.
    - intros tn r tb Hl' Ht' Hh'.
      apply layout_facts.loc_inj in Hl' as [<- <-].
      rewrite Hot in Ht'. injection Ht' as <-. congruence.
    - intros Hnull. by apply Htry in Hnull. }
  apply (key.contains_false _ _ (tb_key _ _ Hoko)) in Hhas.
  (* the table of the larger archetype *)
  assert (Hids : Forall (fun c => 0 ≤ c < Z.of_nat (component_registry.count (world.registry_ w)))
                        (table.key ot ++ [cid])).
  { apply Forall_app. split; [apply Hoko |]. constructor; [| constructor].
    by apply (wi_reg_ids w Hinv (ty_index T)). }
  destruct (signature.get_table_for_signature_inv w _ Hinv Hlim Hids)
    as (w1 & t_new & nt & extra & Hsig & Hinv1 & Hts1 & Hnt & Hkn & Hm1 & Hreg1 & Hl1 & Hv1).
  rewrite Hsig. cbn [mbind option_bind].
  assert (Hot1 : world.tables w1 !! t_old = Some ot)
    by (rewrite Hts1; by apply lookup_app_l_Some).
  assert (Hcn : cid ∈ table.key nt).
  { rewrite Hkn. apply key.elem_of_canonicalise, elem_of_snoc. }
  assert (Hne : t_old ≠ t_new).
  { intros ->. rewrite Hot1 in Hnt. injection Hnt as ->. done. }
  destruct (migration.migrate_inv w1 e t_old ro ot t_new nt Hinv1
              (live_same _ _ _ Hm1 Hlive) ltac:(by rewrite Hl1, Hi) Hot1 Hnt Hne)
    as (w2 & nt' & ot' & Hmig & Hinv2 & Hm2 & Hreg2 & Hl2 & Hnt' & Hkn' & Hen' & Hot' & Heo'
        & Hcells & _ & _ & _ & _ & Hv2 & _).
  pose proof Hmig as Hmig0.
  rewrite Hmig. cbn [mbind option_bind].
  rewrite moving.get_table_nat, Hnt'. cbn [mbind option_bind]. rewrite Nat2Z.id.
  pose proof (proj1 (Forall_lookup _ _) (wi_tables w2 Hinv2) t_new nt' Hnt') as Hnok'.
  set (rn := length (table.entities nt)) in *.
  assert (Hrn' : (rn < length (table.entities nt'))%nat).
  { rewrite Hen', length_app. cbn. lia. }
  assert (Hcn' : cid ∈ table.key nt') by (by rewrite Hkn').
  (* constructing the new component *)
  assert (Hwrite : ∃ y nt'',
             match v with
             | Some v => table.copy_construct_at nt' rn cid v
             | None => table.default_construct_at nt' rn cid
             end = Some nt'' ∧ table.write_cell nt' cid rn (Some y) = Some nt'' ∧
             ∀ z, v = Some z → y = z).
  { destruct v as [v |].
    - destruct (cells.write_total _ nt' cid rn (Some v) Hnok' Hcn' Hrn') as [nt'' Hw].
      exists v, nt''. split; [done |]. split; [done |]. by intros z [= ->].
    - unfold table.default_construct_at.
      destruct (cells.column_of _ nt' cid Hnok' Hcn') as (c & Hci & Hc & _).
      unfold table.get_column. rewrite Hci. cbn [mbind option_bind]. rewrite Hc.
      cbn [mbind option_bind].
      destruct (cells.write_total _ nt' cid rn (Some (info_default (column.info c)))
                  Hnok' Hcn' Hrn') as [nt'' Hw].
      exists (info_default (column.info c)), nt''. by split_and!. }
  destruct Hwrite as (y & nt'' & -> & Hw & Hy). cbn [mbind option_bind].
  set (x := Some y) in *.
  pose proof (shape.write_cell _ _ _ _ _ Hw) as Hsh.
  pose proof (shape.set_table w2 (Z.of_nat t_new) nt' nt''
                ltac:(by rewrite moving.get_table_nat) Hsh) as Hc2.
  eexists. split; [done |].
  split; [by apply bump_inv, (cells_only_inv w2) |].
  split; [by rewrite <- Hm1, <- Hm2 |].
  split; [by rewrite <- Hreg1, <- Hreg2 |].
  pose proof (lookup_lt_Some _ _ _ Hnt') as Hlt.
  pose proof (wi_tables_count w2 Hinv2) as Hcount2.
  assert (Halive' : ∀ z, world.alive
                          (world.bump_version (world.set_table w2 (Z.of_nat t_new) nt'')) z
                        = world.alive w z).
  { intros z. unfold world.alive. world_cbn. by rewrite Hm2, Hm1. }
  assert (Hnew : world.tables (world.bump_version (world.set_table w2 (Z.of_nat t_new) nt''))
                 !! t_new = Some nt'').
  { world_cbn. rewrite Nat2Z.id. fold (world.tables w2). by apply list_lookup_insert_eq. }
  split; cycle 1.
  { split.
    { intros tn r tb Hl' Ht' _.
      apply layout_facts.loc_inj in Hl' as [<- <-].
      rewrite Hot in Ht'. injection Ht' as <-. exists ot'. split; [| done].
      world_cbn. rewrite Nat2Z.id. fold (world.tables w2).
      by rewrite list_lookup_insert_ne. }
    split.
    { (* the component added *)
      intros _. split.
      - exists y. split; [| done].
        apply (get_component_intro _ T e y cid t_new rn nt''); try done.
        + by rewrite Halive'.
        + world_cbn. by rewrite Hreg2, Hreg1.
        + lia.
        + apply (key.contains_elem _ _ (tb_key _ _ (shape.tb_ok _ _ _ Hsh Hnok'))).
          by destruct Hsh as (-> & _).
        + rewrite (cells.read_write _ nt' cid rn x nt'' cid rn Hnok' Hcn') by done.
          by rewrite decide_True.
      - world_cbn. by rewrite Hv2, Hv1. }
    split.
    { intros Hnn. exfalso. by apply Hnn, Htry. }
    split.
    { (* the other entities *)
    intros z A Hz Hze.
    destruct (live_at w z Hinv Hz) as (tz & rz & tbz & Hlz & Htz & Hrz & Htzl).
    pose proof Hz as (_ & Haz & _).
    destruct (migrate_other w1 e z t_old ro t_new tz rz ot nt tbz w2 _ Hinv1
                (live_same _ _ _ Hm1 Hlive) ltac:(by rewrite Hl1, Hi) Hot1 Hnt Hne Hmig0
                (live_same _ _ _ Hm1 Hz) Hze ltac:(by rewrite Hl1)
                ltac:(rewrite Hts1; by apply lookup_app_l_Some) Hrz)
      as (tz' & rz' & tbz' & Hlz' & Htz' & Hkz' & Hnewrow & Hcz').
    pose proof (lookup_lt_Some _ _ _ Htz') as Hltz.
    pose proof (proj1 (Forall_lookup _ _) (wi_tables w Hinv) tz tbz Htz) as Hzok.
    destruct (decide (tz' = t_new)) as [-> | Hnz].
    - rewrite Hnt' in Htz'. injection Htz' as <-. specialize (Hnewrow eq_refl).
      apply (get_component_moved w _ A z tz rz t_new rz' tbz nt''); try done.
      + apply Hzok.
      + by rewrite Halive'.
      + world_cbn. by rewrite Hreg2, Hreg1.
      + lia.
      + destruct Hsh as (-> & _). done.
      + intros c Hc.
        rewrite (cells.read_write _ nt' cid rn x nt'' c rz' Hnok' Hcn') by (done || by rewrite Hkz').
        rewrite decide_False by (intros [_ ?]; lia). by apply Hcz'.
    - apply (get_component_moved w _ A z tz rz tz' rz' tbz tbz'); try done.
      + apply Hzok.
      + by rewrite Halive'.
      + world_cbn. by rewrite Hreg2, Hreg1.
      + lia.
      + world_cbn. rewrite Nat2Z.id. fold (world.tables w2).
        by rewrite list_lookup_insert_ne. }
    (* what was absent is absent *)
    intros B cB HcB HneB HnullB.
    apply (try_get_has w B e cB t_old ro ot Hinv Ha HcB ltac:(by rewrite Hi) Htn Hot)
      in HnullB.
    apply (key.contains_false _ _ (tb_key _ _ Hoko)) in HnullB.
    apply (try_get_absent _ B e cB t_new rn nt''); try done.
    - by rewrite Halive'.
    - world_cbn. by rewrite Hreg2, Hreg1.
    - lia.
    - unfold table.has. destruct Hsh as (-> & _). rewrite Hkn', Hkn.
      apply (key.contains_false _ _ (key.canonicalise_ok _)). intros Hin.
      apply (proj1 (key.elem_of_canonicalise _ _)) in Hin.
      apply elem_of_app in Hin as [Hin | Hin]; [done |].
      by apply list_elem_of_singleton in Hin. }
  (* the components the old archetype had *)
  intros A a HA.
  destruct (get_component_Some w A e a Hinv HA)
    as (cA & tnA & rnA & tbA & HcA & HlA & _ & HtA & HhasA & HreadA).
  rewrite Hi, Hl in HlA. injection HlA as <- <-.
  rewrite !Nat2Z.id in *. rewrite Hot in HtA. injection HtA as <-.
  apply (key.contains_elem _ _ (tb_key _ _ Hoko)) in HhasA.
  assert (HcAn : cA ∈ table.key nt).
  { rewrite Hkn. apply key.elem_of_canonicalise, elem_of_app. by left. }
  assert (HneA : cA ≠ cid) by (by intros ->).
  apply (get_component_intro _ A e a cA t_new rn nt'').
  - unfold world.alive. world_cbn. rewrite Hm2, Hm1. exact Ha.
  - world_cbn. by rewrite Hreg2, Hreg1.
  - world_cbn. exact Hl2.
  - lia.
  - world_cbn. rewrite Nat2Z.id. fold (world.tables w2).
    by apply list_lookup_insert_eq.
  - apply (key.contains_elem _ _ (tb_key _ _ (shape.tb_ok _ _ _ Hsh Hnok'))).
    destruct Hsh as (-> & _). by rewrite Hkn'.
  - rewrite (cells.read_write _ nt' cid rn x nt'' cA rn Hnok' Hcn') by (done || by rewrite Hkn').
    rewrite decide_False by tauto. rewrite Hcells by done. done.
Qed.

Lemma remove_component_spec w T e cid :
  world_inv w → within_limits w → live w e →
  component_registry.get_id (world.registry_ w) T = Some cid →
  ∃ w',
    world.remove_component w T e = Some w' ∧ world_inv w' ∧
    world.entities_ w' = world.entities_ w ∧
    world.registry_ w' = world.registry_ w ∧
    (∀ tn r tb,
       world.locations_ w !! Z.to_nat (entity.index e)
         = Some (mk_loc (Z.of_nat tn) (Z.of_nat r)) →
       world.tables w !! tn = Some tb → table.has tb cid = true →
       ∃ tb', world.tables w' !! tn = Some tb' ∧
              table.entities tb' = (table.swap_pop (table.entities tb) r).1) ∧
    (∀ A cA a,
       component_registry.get_id (world.registry_ w) A = Some cA → cA ≠ cid →
       world.get_component w A e = Some a → world.get_component w' A e = Some a) ∧
    (world.try_get_component w T e ≠ Some None →
     world.try_get_component w' T e = Some None ∧
     world.version_ w' = wrap64 (wrap64 (world.version_ w + 1) + 1)) ∧
    (world.try_get_component w T e = Some None → w' = w) ∧
    (∀ x A, live w x → x ≠ e →
            world.get_component w' A x = world.get_component w A x).
Proof.
  intros Hinv Hlim Hlive Hcid. pose proof Hlive as (He & Ha & Hnin).
  destruct (inv.live_slot w e Hinv Hlive) as (i & g & Hmk & Hu & Hg & Hi).
  destruct (inv.slot_located w i g Hinv Hu Hg)
    as (t_old & ro & ot & Hl & Hot & Hr & Htn & Hrn).
  assert (Hvalid : location_valid (mk_loc (Z.of_nat t_old) (Z.of_nat ro)) = true).
  { unfold location_valid. cbn. apply negb_true_iff, Z.eqb_neq. bits_lia. }
  pose proof (proj1 (Forall_lookup _ _) (wi_tables w Hinv) t_old ot Hot) as Hoko.
  unfold world.remove_component. rewrite Ha, Hcid. cbn [negb mbind option_bind].
  rewrite Hi, Hl. cbn [mbind option_bind]. rewrite Hvalid. cbn [negb tid row].
  rewrite moving.get_table_nat, Hot. cbn [mbind option_bind].
  pose proof (try_get_has w T e cid t_old ro ot Hinv Ha Hcid
                ltac:(by rewrite Hi) Htn Hot) as Htry.
  destruct (table.has ot cid) eqn:Hhas; cbn [negb].
  2:{ exists w. split_and!; try done.
      - intros tn r tb Hl' Ht' Hh'.
        apply layout_facts.loc_inj in Hl' as [<- <-].
        rewrite Hot in Ht'. injection Ht' as <-. congruence.
      - intros Hnn. exfalso. by apply Hnn, Htry. }
  apply (key.contains_elem _ _ (tb_key _ _ Hoko)) in Hhas.
  set (ids := delete (archetype_key.lower_bound (table.key ot) cid) (table.key ot)).
  assert (Hids : Forall (fun c => 0 ≤ c < Z.of_nat (component_registry.count (world.registry_ w)))
                        ids).
  { apply Forall_forall. intros c Hc. apply list_elem_of_delete_inv in Hc.
    by apply (proj1 (Forall_forall _ _) (tb_registered _ _ Hoko) c). }
  destruct (signature.get_table_for_signature_inv w _ Hinv Hlim Hids)
    as (w1 & t_new & nt & extra & Hsig & Hinv1 & Hts1 & Hnt & Hkn & Hm1 & Hreg1 & Hl1 & Hv1).
  rewrite Hsig. cbn [mbind option_bind].
  assert (Hot1 : world.tables w1 !! t_old = Some ot)
    by (rewrite Hts1; by apply lookup_app_l_Some).
  assert (Hcn : cid ∉ table.key nt).
  { intros Hc. rewrite Hkn in Hc. apply (proj1 (key.elem_of_canonicalise _ _)) in Hc.
    apply (proj1 (key.elem_of_delete_lower_bound _ _ _ (tb_key _ _ Hoko) Hhas)) in Hc.
    by destruct Hc. }
  assert (Hne : t_old ≠ t_new).
  { intros ->. rewrite Hot1 in Hnt. injection Hnt as ->. done. }
  destruct (migration.migrate_inv w1 e t_old ro ot t_new nt Hinv1
              (live_same _ _ _ Hm1 Hlive) ltac:(by rewrite Hl1, Hi) Hot1 Hnt Hne)
    as (w2 & nt' & ot' & Hmig & Hinv2 & Hm2 & Hreg2 & Hl2 & Hnt' & Hkn' & Hen' & Hot' & Heo'
        & Hcells & _ & _ & _ & _ & Hv2 & _).
  pose proof Hmig as Hmig0.
  rewrite Hmig. cbn [mbind option_bind].
  set (rn := length (table.entities nt)) in *.
  pose proof (lookup_lt_Some _ _ _ Hnt') as Hlt.
  pose proof (wi_tables_count w2 Hinv2) as Hcount2.
  pose proof (proj1 (Forall_lookup _ _) (wi_tables w2 Hinv2) t_new nt' Hnt') as Hnok'.
  assert (Halive' : ∀ z, world.alive (world.bump_version w2) z = world.alive w z).
  { intros z. unfold world.alive. world_cbn. by rewrite Hm2, Hm1. }
  eexists. split; [done |]. split; [by apply bump_inv |].
  split; [by rewrite <- Hm1, <- Hm2 |]. split; [by rewrite <- Hreg1, <- Hreg2 |].
  split.
  { intros tn r tb Hl' Ht' _.
    apply layout_facts.loc_inj in Hl' as [<- <-].
    rewrite Hot in Ht'. injection Ht' as <-. by exists ot'. }
  split.
  { (* the components the new archetype keeps *)
    intros A cA a HcA HneA HA.
    destruct (get_component_Some w A e a Hinv HA)
      as (cA' & tnA & rnA & tbA & HcA' & HlA & _ & HtA & HhasA & HreadA).
    rewrite HcA in HcA'. injection HcA' as <-.
    rewrite Hi, Hl in HlA. injection HlA as <- <-.
    rewrite !Nat2Z.id in *. rewrite Hot in HtA. injection HtA as <-.
    apply (key.contains_elem _ _ (tb_key _ _ Hoko)) in HhasA.
    assert (HcAn : cA ∈ table.key nt).
    { rewrite Hkn. apply key.elem_of_canonicalise.
      by apply (key.elem_of_delete_lower_bound _ _ _ (tb_key _ _ Hoko) Hhas). }
    apply (get_component_intro _ A e a cA t_new rn nt').
    - by rewrite Halive'.
    - world_cbn. by rewrite Hreg2, Hreg1.
    - world_cbn. exact Hl2.
    - lia.
    - done.
    - apply (key.contains_elem _ _ (tb_key _ _ Hnok')). by rewrite Hkn'.
    - rewrite Hcells by done. done. }
  split.
  { (* the component removed *)
    intros _. split; [| world_cbn; by rewrite Hv2, Hv1].
    apply (try_get_has _ T e cid t_new rn nt').
    - by apply bump_inv.
    - by rewrite Halive'.
    - world_cbn. by rewrite Hreg2, Hreg1.
    - exact Hl2.
    - lia.
    - done.
    - apply (key.contains_false _ _ (tb_key _ _ Hnok')). by rewrite Hkn'. }
  split.
  { intros Hnull. apply Htry in Hnull. done. }
  (* the other entities *)
  intros z A Hz Hze.
  destruct (live_at w z Hinv Hz) as (tz & rz & tbz & Hlz & Htz & Hrz & Htzl).
  pose proof Hz as (_ & Haz & _).
  destruct (migrate_other w1 e z t_old ro t_new tz rz ot nt tbz w2 _ Hinv1
              (live_same _ _ _ Hm1 Hlive) ltac:(by rewrite Hl1, Hi) Hot1 Hnt Hne Hmig0
              (live_same _ _ _ Hm1 Hz) Hze ltac:(by rewrite Hl1)
              ltac:(rewrite Hts1; by apply lookup_app_l_Some) Hrz)
    as (tz' & rz' & tbz' & Hlz' & Htz' & Hkz' & _ & Hcz').
  pose proof (lookup_lt_Some _ _ _ Htz') as Hltz.
  pose proof (proj1 (Forall_lookup _ _) (wi_tables w Hinv) tz tbz Htz) as Hzok.
  apply (get_component_moved w _ A z tz rz tz' rz' tbz tbz'); try done.
  - apply Hzok.
  - by rewrite Halive'.
  - world_cbn. by rewrite Hreg2, Hreg1.
  - lia.
Qed.

Lemma add_component_inv w T e v cid :
  world_inv w → within_limits w → live w e →
  component_registry.get_id (world.registry_ w) T = Some cid →
  ∃ w',
    world.add_component w T e v = Some w' ∧ world_inv w' ∧
    world.entities_ w' = world.entities_ w ∧
    world.registry_ w' = world.registry_ w ∧
    (∀ A a, world.get_component w A e = Some a → world.get_component w' A e = Some a) ∧
    (∀ tn r tb,
       world.locations_ w !! Z.to_nat (entity.index e)
         = Some (mk_loc (Z.of_nat tn) (Z.of_nat r)) →
       world.tables w !! tn = Some tb → table.has tb cid = false →
       ∃ tb', world.tables w' !! tn = Some tb' ∧
              table.entities tb' = (table.swap_pop (table.entities tb) r).1).
Proof.
  intros Hinv Hlim Hlive Hcid.
  destruct (add_component_spec w T e v cid Hinv Hlim Hlive Hcid)
    as (w' & Hadd & Hinv' & Hm & Hreg & Hkeep & Hold & _).
  by exists w'.
Qed.

Lemma remove_component_inv w T e cid :
  world_inv w → within_limits w → live w e →
  component_registry.get_id (world.registry_ w) T = Some cid →
  ∃ w',
    world.remove_component w T e = Some w' ∧ world_inv w' ∧
    world.entities_ w' = world.entities_ w ∧
    world.registry_ w' = world.registry_ w ∧
    (∀ tn r tb,
       world.locations_ w !! Z.to_nat (entity.index e)
         = Some (mk_loc (Z.of_nat tn) (Z.of_nat r)) →
       world.tables w !! tn = Some tb → table.has tb cid = true →
       ∃ tb', world.tables w' !! tn = Some tb' ∧
              table.entities tb' = (table.swap_pop (table.entities tb) r).1).
Proof.
  intros Hinv Hlim Hlive Hcid.
  destruct (remove_component_spec w T e cid Hinv Hlim Hlive Hcid)
    as (w' & Hrem & Hinv' & Hm & Hreg & Hold & _).
  by exists w'.
Qed.

End components.

(** ** Reserving rows *)

Module reserving.

(** The table after every column reserved [n] slots. *)
Local Abbreviation reserved tb n :=
  (table.with_rows tb (table.entities tb)
                   ((fun c => column.reserve c n) <$> table.columns tb)).

(** For fewer than [2^32] rows no byte count wraps and [max_size()] is
    not reached. *)
Lemma table_reserve_small reg tb val :
  table_ok reg tb → 0 ≤ val < two32 →
  table.reserve tb val = Some (reserved tb (Z.to_nat val)).
Proof.
  intros [_ _ _ Hcols] Hval. unfold table.reserve.
  assert ((table.max_size <? val) = false) as ->
      by (apply Z.ltb_ge; unfold table.max_size, two32 in *; lia).
  assert (mapM (fun c => column.reserve_sized c val) (table.columns tb)
          = Some ((fun c => column.reserve c (Z.to_nat val)) <$> table.columns tb)) as ->;
    [| done].
  apply mapM_Some_2, Forall2_fmap_r, Forall_Forall2_diag.
  eapply Forall_impl; [exact Hcols |]. intros c Hc.
  by apply (column_facts.reserve_sized_small _ _ _ Hc).
Qed.

Lemma table_reserve_ok reg tb n : table_ok reg tb → table_ok reg (reserved tb n).
Proof.
  intros [Hkey Hreg Hlen Hcols].
  constructor; cbn [table.with_rows table.key table.entities table.columns]; try done.
  - by rewrite length_fmap.
  - apply Forall_fmap. eapply Forall_impl; [done |]. intros c Hc.
    by apply column_facts.reserve_ok.
Qed.

Lemma reserve_read reg tb n cid r :
  table_ok reg tb → cid ∈ table.key tb → (r < length (table.entities tb))%nat →
  table.read_cell (reserved tb n) cid r = table.read_cell tb cid r.
Proof.
  intros Hok Hc Hr.
  rewrite (contents.read_cell_cols reg tb cid r _ _ Hok Hc),
          (contents.read_cell_self reg tb cid r Hok Hc).
  rewrite list_lookup_fmap.
  destruct (table.columns tb !! _) as [c |] eqn:Hcol; [| done].
  cbn [fmap option_fmap option_map mbind option_bind].
  apply (column_facts.reserve_data (length (table.entities tb))); [| done].
  by apply (proj1 (Forall_lookup _ _) (tb_cols _ _ Hok) _ c Hcol).
Qed.

Lemma reserve_room tb n :
  Forall (fun c => (n ≤ column.capacity c)%nat) (table.columns (reserved tb n)).
Proof.
  cbn [table.with_rows table.columns].
  apply Forall_fmap, Forall_forall. intros c _. apply column_facts.reserve_capacity.
Qed.

(** A table written back with the rows it had. *)
Lemma set_table_inv w (t : nat) tb tb' :
  world_inv w → world.tables w !! t = Some tb →
  table_ok (world.registry_ w) tb' →
  table.key tb' = table.key tb → table.entities tb' = table.entities tb →
  world_inv (world.set_table w (Z.of_nat t) tb').
Proof.
  intros [Hem Hlocs Hrc Hri Htc Hts Hk Hempty Hlay Hfree] Htb Hok Hkey Hents.
  assert (Htabs : world.tables (world.set_table w (Z.of_nat t) tb')
                  = <[t := tb']> (world.tables w)).
  { unfold world.set_table, world.tables. cbn. by rewrite Nat2Z.id. }
  assert (Hkeys : table.key <$> <[t := tb']> (world.tables w)
                  = table.key <$> world.tables w).
  { rewrite list_fmap_insert, Hkey. apply list_insert_id.
    by rewrite list_lookup_fmap, Htb. }
  assert (Hes : table.entities <$> <[t := tb']> (world.tables w)
                = table.entities <$> world.tables w).
  { rewrite list_fmap_insert, Hents. apply list_insert_id.
    by rewrite list_lookup_fmap, Htb. }
  constructor; rewrite ?Htabs, ?Hkeys, ?Hes, ?length_insert; try done.
  by apply Forall_insert.
Qed.

(** The ids of registered types are ids of the registry. *)
Lemma ids_registered w Cs ids :
  world_inv w →
  mapM (component_registry.get_id (world.registry_ w)) Cs = Some ids →
  Forall (fun cid => 0 ≤ cid < Z.of_nat (component_registry.count (world.registry_ w))) ids.
Proof.
  intros Hinv Hids. apply Forall_forall. intros c Hc.
  apply list_elem_of_lookup in Hc as [k Hk].
  destruct (Forall2_lookup_r _ _ _ _ _ (proj1 (mapM_Some _ _ _) Hids) Hk) as (C & _ & Hid).
  by apply (wi_reg_ids w Hinv (ty_index C)).
Qed.

(** [world::reserve] on a well-formed store, for fewer than [2^32] rows
    of registered components: the steps it takes, and what it keeps. *)
Lemma reserve_spec w Cs count ids :
  world_inv w → within_limits w → 0 ≤ count < two32 →
  mapM (component_registry.get_id (world.registry_ w)) Cs = Some ids →
  ∃ w1 t tb extra,
    world.reserve w Cs count
      = Some (world.bump_version
                (world.set_table w1 (Z.of_nat t) (reserved tb (Z.to_nat count)))) ∧
    world.get_table_for_signature w ids = Some (w1, Z.of_nat t) ∧
    world_inv w1 ∧
    world_inv (world.bump_version
                 (world.set_table w1 (Z.of_nat t) (reserved tb (Z.to_nat count)))) ∧
    world.tables w1 = world.tables w ++ extra ∧
    world.tables w1 !! t = Some tb ∧
    table.key tb = archetype_key.make_archetype_key ids ∧
    world.entities_ w1 = world.entities_ w ∧
    world.registry_ w1 = world.registry_ w ∧
    world.locations_ w1 = world.locations_ w ∧
    world.version_ w1 = world.version_ w.
Proof.
  intros Hinv Hlim Hcount Hids.
  destruct (signature.get_table_for_signature_inv w ids Hinv Hlim
              (ids_registered w Cs ids Hinv Hids))
    as (w1 & t & tb & extra & Hsig & Hinv1 & Hts1 & Htb & Hkey & Hm1 & Hreg1 & Hl1 & Hv1).
  pose proof (proj1 (Forall_lookup _ _) (wi_tables w1 Hinv1) t tb Htb) as Hok.
  exists w1, t, tb, extra. split_and!; try done.
  - unfold world.reserve. rewrite Hids. cbn [mbind option_bind].
    unfold world.get_table_for_signature in Hsig.
    unfold archetype_key.make_archetype_key.
    destruct (world_storage.get_or_create_table _ _ _) as [[st tid] |]; [| done].
    cbn [mbind option_bind] in Hsig |- *. injection Hsig as <- ->.
    rewrite moving.get_table_nat, Htb. cbn [mbind option_bind].
    by rewrite (table_reserve_small _ tb count Hok Hcount).
  - apply components.bump_inv. apply (set_table_inv w1 t tb); try done.
    by apply table_reserve_ok.
Qed.

(** The entities of the store and their components after a reserve. *)
Lemma reserve_frame w Cs count w' x A :
  world_inv w → within_limits w → 0 ≤ count < two32 →
  world.reserve w Cs count = Some w' → live w x →
  live w' x ∧ world.get_component w' A x = world.get_component w A x.
Proof.
  intros Hinv Hlim Hcount Hrun Hx.
  destruct (reserve_steps _ _ _ _ Hrun) as (ids & _ & _ & _ & _ & Hids & _).
  destruct (reserve_spec w Cs count ids Hinv Hlim Hcount Hids)
    as (w1 & t & tb & extra & Hrun' & Hsig & Hinv1 & Hinv' & Hts1 & Htb & Hkey & Hm1
        & Hreg1 & Hl1 & Hv1).
  rewrite Hrun in Hrun'. injection Hrun' as ->.
  set (w' := world.bump_version _) in *.
  pose proof (proj1 (Forall_lookup _ _) (wi_tables w1 Hinv1) t tb Htb) as Hok.
  pose proof (lookup_lt_Some _ _ _ Htb) as Hlt.
  assert (Hts' : world.tables w'
                 = <[t := reserved tb (Z.to_nat count)]> (world.tables w1)).
  { subst w'. unfold world.set_table, world.tables. cbn. by rewrite Nat2Z.id. }
  assert (Hx' : live w' x).
  { apply (components.live_same w); [| done]. subst w'. cbn. done. }
  split; [done |].
  destruct (components.live_at w x Hinv Hx) as (tx & rx & tbx & Hlx & Htx & Hrx & Htxl).
  pose proof Hx as (_ & Ha & _). pose proof Hx' as (_ & Ha' & _).
  pose proof (proj1 (Forall_lookup _ _) (wi_tables w Hinv) tx tbx Htx) as Hokx.
  assert (Htx1 : world.tables w1 !! tx = Some tbx)
    by (rewrite Hts1; by apply lookup_app_l_Some).
  destruct (decide (tx = t)) as [-> | Hne].
  - rewrite Htb in Htx1. injection Htx1 as <-.
    apply (components.get_component_moved w w' A x t rx t rx tb
             (reserved tb (Z.to_nat count))); try done.
    + apply Hokx.
    + subst w'. cbn. by rewrite Hl1.
    + rewrite Hts'. by apply list_lookup_insert_eq.
    + intros c Hc. apply (reserve_read _ tb _ c rx Hok Hc).
      by eapply lookup_lt_Some.
  - apply (components.get_component_moved w w' A x tx rx tx rx tbx tbx); try done.
    + apply Hokx.
    + subst w'. cbn. by rewrite Hl1.
    + rewrite Hts'. by rewrite list_lookup_insert_ne.
Qed.

End reserving.

(** ** The invariant holds in every state of an honest run *)

Module store.

Lemma register_inv w T :
  world_inv w → within_limits w → world_inv (world.register_component w T).1.
Proof.
  intros Hinv (_ & _ & Hlim). unfold world.register_component, component_registry.add.
  destruct (component_registry.type_ids_ (world.registry_ w) !! ty_index T) as [id |] eqn:Hid.
  { destruct Hinv. by constructor. }
  destruct Hinv as [Hem Hlocs Hrc Hri Htc Hts Hk Hempty Hlay Hfree].
  unfold component_registry.count in *.
  constructor; unfold component_registry.count;
    cbn [fst world.entities_ world.registry_ world.storage_ world.empty_table_
         world.locations_ world.tables
         component_registry.type_ids_ component_registry.type_infos_];
    try done.
  - rewrite length_app. cbn [length]. lia.
  - intros ty id. rewrite length_app. cbn [length].
    destruct (decide (ty = ty_index T)) as [-> | Hne].
    + rewrite lookup_insert_eq. intros [= <-].
      rewrite wrap32_small by bits_lia. lia.
    + rewrite lookup_insert_ne by done. intros H. apply Hri in H. lia.
  - eapply Forall_impl; [exact Hts |]. intros tb. apply inv.table_ok_mono.
    unfold component_registry.count. cbn [component_registry.type_infos_].
    rewrite length_app. lia.
Qed.

Lemma new_initial : world.new = Some initial_store.
Proof. vm_compute. reflexivity. Qed.

Lemma new_inv w : world.new = Some w → world_inv w.
Proof.
  rewrite new_initial. intros [= <-]. unfold initial_store.
  constructor; cbn [world.entities_ world.registry_ world.storage_ world.empty_table_
                    world.locations_ world.tables world_storage.tables_
                    world_storage.key_tables_ entity_manager.generations_
                    entity_manager.fragment_ entity_manager.empty
                    component_registry.empty component_registry.count
                    component_registry.type_ids_ component_registry.type_infos_].
  - constructor; cbn; try constructor. bits_lia.
  - done.
  - cbn. lia.
  - intros ty id H. by rewrite lookup_empty in H.
  - cbn. bits_lia.
  - constructor; [| constructor]. constructor; cbn; try constructor.
  - intros k tid. cbn [fmap list_fmap table.key]. split.
    + destruct (decide (k = [])) as [-> | Hne].
      * rewrite lookup_insert_eq. intros [= <-]. by exists 0%nat.
      * rewrite lookup_insert_ne by done. by rewrite lookup_empty.
    + intros (tn & -> & H). destruct tn as [| tn]; cbn in H; [| done].
      injection H as <-. by rewrite lookup_insert_eq.
  - exists 0%nat. cbn. split; [done | lia].
  - constructor.
    + intros i [Hi _]. cbn in Hi. lia.
    + intros tn es rn e H1 H2. destruct tn as [| tn]; cbn in H1; [| done].
      injection H1 as <-. done.
  - intros i H. by apply elem_of_nil in H.
Qed.

Lemma step_inv w o w' :
  world_inv w → within_limits w → op_honest w o → run_op w o = Some w' → world_inv w'.
Proof.
  intros Hinv Hlim Hh Hrun.
  destruct o as [T | | e | T e v | T e | Cs count]; cbn in Hrun, Hh.
  - injection Hrun as <-. by apply register_inv.
  - destruct (steps.create_entity_inv w Hinv Hlim) as (w1 & e & Hc & Hinv1 & _).
    rewrite Hc in Hrun. by injection Hrun as <-.
  - destruct Hh as [He Hl]. destruct (world.alive w e) eqn:Ha.
    + destruct (steps.destroy_entity_inv w e Hinv (Hl eq_refl))
        as (w1 & ? & ? & ? & ? & Hd & Hinv1 & _).
      rewrite Hd in Hrun. by injection Hrun as <-.
    + unfold world.destroy_entity in Hrun. unfold world.alive in Ha.
      rewrite Ha in Hrun. by injection Hrun as <-.
  - destruct Hh as [He Hl]. destruct (world.alive w e) eqn:Ha.
    + destruct (component_registry.get_id (world.registry_ w) T) as [cid |] eqn:Hcid.
      * destruct (components.add_component_inv w T e v cid Hinv Hlim (Hl eq_refl) Hcid)
          as (w1 & Hadd & Hinv1 & _).
        rewrite Hadd in Hrun. by injection Hrun as <-.
      * unfold world.add_component in Hrun. by rewrite Ha, Hcid in Hrun.
    + unfold world.add_component in Hrun. rewrite Ha in Hrun. by injection Hrun as <-.
  - destruct Hh as [He Hl]. destruct (world.alive w e) eqn:Ha.
    + destruct (component_registry.get_id (world.registry_ w) T) as [cid |] eqn:Hcid.
      * destruct (components.remove_component_inv w T e cid Hinv Hlim (Hl eq_refl) Hcid)
          as (w1 & Hrem & Hinv1 & _).
        rewrite Hrem in Hrun. by injection Hrun as <-.
      * unfold world.remove_component in Hrun. by rewrite Ha, Hcid in Hrun.
    + unfold world.remove_component in Hrun. rewrite Ha in Hrun. by injection Hrun as <-.
  - destruct (reserve_steps _ _ _ _ Hrun) as (ids & _ & _ & _ & _ & Hids & _).
    destruct (reserving.reserve_spec w Cs count ids Hinv Hlim Hh Hids)
      as (w1 & t & tb & extra & Hrun' & _ & _ & Hinv' & _).
    rewrite Hrun in Hrun'. by injection Hrun' as ->.
Qed.

Lemma reachable_world_inv w : reachable w → world_inv w.
Proof.
  induction 1 as [w Hnew | w o w' _ IH Hlim Hh Hrun]; [by apply new_inv |].
  by eapply step_inv.
Qed.

(** The tests decide the conditions of an honest run. *)
Lemma handleb_spec e : handleb e = true → handle e.
Proof. unfold handleb. intros H. apply andb_true_iff in H as [H1 H2]. bits_lia. Qed.

Lemma liveb_spec w e : liveb w e = true → live w e.
Proof.
  unfold liveb. intros H. apply andb_true_iff in H as [H H3].
  apply andb_true_iff in H as [H1 H2]. split; [by apply handleb_spec |].
  split; [done |]. intros Hin. apply negb_true_iff in H3.
  apply not_true_iff_false in H3. apply H3, existsb_exists.
  exists (entity.index e). split; [by apply list_elem_of_In | apply Z.eqb_refl].
Qed.

Lemma honestb_spec w e : honestb w e = true → honest w e.
Proof.
  unfold honestb. intros H. apply andb_true_iff in H as [H1 H2].
  split; [by apply handleb_spec |]. intros Ha. rewrite Ha in H2. by apply liveb_spec.
Qed.

Lemma within_limitsb_spec w : within_limitsb w = true → within_limits w.
Proof.
  unfold within_limitsb, within_limits. intros H. apply andb_true_iff in H as [H H3].
  apply andb_true_iff in H as [H1 H2]. lia.
Qed.

Lemma op_honestb_spec w o : op_honestb w o = true → op_honest w o.
Proof.
  destruct o; cbn; try done; try apply honestb_spec.
  intros H. apply andb_true_iff in H as [H1 H2]. lia.
Qed.

Lemma run_honest_reachable os : ∀ w w',
  reachable w → run_honest w os = Some w' → reachable w'.
Proof.
  induction os as [| o os IH]; intros w w' Hw Hrun; cbn in Hrun.
  - by injection Hrun as <-.
  - bind_inv Hrun w1 Hw1.
    destruct (within_limitsb w && op_honestb w o) eqn:Hc; [| done].
    apply andb_true_iff in Hc as [Hl Hh].
    apply (IH w1); [| done].
    eapply reachable_step; [done | by apply within_limitsb_spec | by apply op_honestb_spec | done].
Qed.

(** An entity with a valid location is not waiting on the free list. *)
Lemma placed_live w e :
  world_inv w → handle e → world.alive w e = true →
  location_valid (world.get_location w e) = true → live w e.
Proof.
  intros Hinv He Ha Hv. split; [done |]. split; [done |]. intros Hin.
  unfold world.get_location in Hv. unfold world.alive in Ha. rewrite Ha in Hv.
  cbn [negb] in Hv. pose proof (em_facts.index_range (e)) as Hr.
  rewrite <- (Z2Nat.id (entity.index e)) in Hin by bits_lia.
  by rewrite (wi_free w Hinv _ Hin) in Hv.
Qed.

(** The entity of a row is live and located at that row. *)
Lemma row_located w tn tb r x :
  world_inv w → world.tables w !! tn = Some tb → table.entities tb !! r = Some x →
  live w x ∧ world.get_location w x = mk_loc (Z.of_nat tn) (Z.of_nat r).
Proof.
  intros Hinv Ht Hr. pose proof (wi_em w Hinv) as Hem.
  destruct (lay_row _ _ _ _ (wi_layout w Hinv) tn (table.entities tb) r x
              ltac:(by rewrite list_lookup_fmap, Ht) Hr)
    as (i & g & -> & [Hi Hnin] & Hg & Hl).
  destruct (layout_facts.slot_bounds _ (em.inv_gens _ Hem) (em.inv_cap _ Hem) i g Hg)
    as (Hiu & Hgu & Hilt).
  destruct (layout_facts.slot_valid _ (em.inv_gens _ Hem) (em.inv_cap _ Hem) i g Hg)
    as (Hv & Hidx).
  assert (Ha : world.alive w (entity.make (Z.of_nat i) g) = true).
  { apply em_facts.alive_true. rewrite Hv, Hidx, generation_make by done. by split. }
  split.
  - split; [by apply make_handle |]. split; [done |]. by rewrite index_make.
  - unfold world.get_location. unfold world.alive in Ha. rewrite Ha, Hidx, Hl. done.
Qed.

End store.

(** ** Locations and rows *)

Module tracking.

(** After the swap-removal of row [r], the entity of the former last row
    is the entity of row [r], and its location says so. *)
Lemma moved_row w' tn tb' (es : list entity.t) r :
  world_inv w' → world.tables w' !! tn = Some tb' →
  table.entities tb' = (table.swap_pop es r).1 → (r < length es - 1)%nat →
  ∃ x, es !! (length es - 1)%nat = Some x ∧ table.entities tb' !! r = Some x ∧
       world.get_location w' x = mk_loc (Z.of_nat tn) (Z.of_nat r).
Proof.
  intros Hinv Ht He Hr.
  destruct (table_facts.swap_pop_spec es r ltac:(lia)) as (_ & Hrows & _).
  specialize (Hrows r Hr). rewrite decide_True in Hrows by done.
  destruct (lookup_lt_is_Some_2 es (length es - 1)%nat ltac:(lia)) as [x Hx].
  exists x. split; [done |].
  assert (Hrx : table.entities tb' !! r = Some x) by (by rewrite He, Hrows).
  split; [done |]. by apply (store.row_located w' tn tb' r x Hinv Ht Hrx).
Qed.

Lemma location_entry w e (tn r : nat) :
  world_inv w → live w e →
  world.get_location w e = mk_loc (Z.of_nat tn) (Z.of_nat r) →
  world.locations_ w !! Z.to_nat (entity.index e)
    = Some (mk_loc (Z.of_nat tn) (Z.of_nat r)).
Proof.
  intros Hinv Hlive Hloc. pose proof Hlive as (_ & Ha & _).
  destruct (inv.live_slot w e Hinv Hlive) as (i & g & Hmk & Hu & Hg & Hi).
  destruct (inv.slot_located w i g Hinv Hu Hg) as (tn' & rn' & tb & Hl & _).
  unfold world.get_location in Hloc. unfold world.alive in Ha.
  rewrite Ha, Hi, Hl in Hloc. cbn in Hloc. by rewrite Hi, Hl, Hloc.
Qed.

Lemma populated_reachable : reachable examples.populated.
Proof.
  eapply (store.run_honest_reachable examples.setup);
    [apply reachable_new, store.new_initial |].
  vm_compute. reflexivity.
Qed.

Lemma scene_reachable : reachable examples.scene.
Proof.
  eapply (store.run_honest_reachable examples.scene_setup);
    [apply reachable_new, store.new_initial |].
  vm_compute. reflexivity.
Qed.

End tracking.

(** C2, amended.  In every state of a store used through the handles it
    issued, every entity [e] that is alive and whose slot is not waiting on
    the free list has a location that names a table and a row of it holding
    [e], and the entity of every row of every table has that table and row
    as its location.  When such an [e] sits at row [r], not the last row of
    its table, then [destroy_entity e], an [add_component<T>(e)] that
    migrates it and a [remove_component<T>(e)] that migrates it all return,
    leave the entity [x] of the former last row at row [r], and
    [get_location x] reports that table and [row == r].  Every honest
    operation ([register_component], [create_entity], [destroy_entity],
    [add_component], [remove_component], [reserve]) leads to a state where
    the same holds.  A handle that passes [alive] while its slot waits on
    the free list has the default location. *)
Theorem location_tracks_rows (w : world.t) :
  reachable w →
  (∀ e, live w e → located w e) ∧
  (∀ tn tb r x,
     world.tables w !! tn = Some tb → table.entities tb !! r = Some x →
     live w x ∧ world.get_location w x = mk_loc (Z.of_nat tn) (Z.of_nat r)) ∧
  (∀ e (tn r : nat) tb,
     live w e → world.get_location w e = mk_loc (Z.of_nat tn) (Z.of_nat r) →
     world.tables w !! tn = Some tb → (r < length (table.entities tb) - 1)%nat →
     ∃ x,
       table.entities tb !! (length (table.entities tb) - 1)%nat = Some x ∧
       (∃ w' tb',
          world.destroy_entity w e = Some w' ∧
          world.tables w' !! tn = Some tb' ∧ table.entities tb' !! r = Some x ∧
          world.get_location w' x = mk_loc (Z.of_nat tn) (Z.of_nat r)) ∧
       (∀ T cid v,
          within_limits w →
          component_registry.get_id (world.registry_ w) T = Some cid →
          table.has tb cid = false →
          ∃ w' tb',
            world.add_component w T e v = Some w' ∧
            world.tables w' !! tn = Some tb' ∧ table.entities tb' !! r = Some x ∧
            world.get_location w' x = mk_loc (Z.of_nat tn) (Z.of_nat r)) ∧
       (∀ T cid,
          within_limits w →
          component_registry.get_id (world.registry_ w) T = Some cid →
          table.has tb cid = true →
          ∃ w' tb',
            world.remove_component w T e = Some w' ∧
            world.tables w' !! tn = Some tb' ∧ table.entities tb' !! r = Some x ∧
            world.get_location w' x = mk_loc (Z.of_nat tn) (Z.of_nat r))) ∧
  (∀ o w',
     within_limits w → op_honest w o → run_op w o = Some w' →
     ∀ e, live w' e → located w' e) ∧
  (∀ e, handle e → world.alive w e = true →
        entity.index e ∈ entity_manager.fragment_ (world.entities_ w) →
        world.get_location w e = location_default).
Proof.
  intros Hreach. pose proof (store.reachable_world_inv w Hreach) as Hinv.
  split; [intros e; by apply inv.live_located |].
  split; [intros tn tb r x; by apply store.row_located |].
  split.
  - intros e tn r tb Hlive Hloc Ht Hr.
    pose proof (tracking.location_entry w e tn r Hinv Hlive Hloc) as Hl.
    destruct (lookup_lt_is_Some_2 (table.entities tb) (length (table.entities tb) - 1)%nat
                ltac:(lia)) as [x Hx].
    exists x. split; [done |]. split; [| split].
    + destruct (steps.destroy_entity_inv w e Hinv Hlive)
        as (w' & tn' & rn' & tb0 & tb' & Hd & Hinv' & Hl' & Ht0 & _ & Hts' & He' & _).
      rewrite Hl in Hl'. apply layout_facts.loc_inj in Hl' as [<- <-].
      rewrite Ht in Ht0. injection Ht0 as <-.
      assert (Ht' : world.tables w' !! tn = Some tb').
      { rewrite Hts'. apply list_lookup_insert_eq. by eapply lookup_lt_Some. }
      destruct (tracking.moved_row w' tn tb' _ r Hinv' Ht' He' Hr) as (x' & Hx' & Hrx & Hlx).
      rewrite Hx in Hx'. injection Hx' as <-. by exists w', tb'.
    + intros T cid v Hlim Hcid Hhas.
      destruct (components.add_component_inv w T e v cid Hinv Hlim Hlive Hcid)
        as (w' & Hadd & Hinv' & _ & _ & _ & Hold).
      destruct (Hold tn r tb Hl Ht Hhas) as (tb' & Ht' & He').
      destruct (tracking.moved_row w' tn tb' _ r Hinv' Ht' He' Hr) as (x' & Hx' & Hrx & Hlx).
      rewrite Hx in Hx'. injection Hx' as <-. by exists w', tb'.
    + intros T cid Hlim Hcid Hhas.
      destruct (components.remove_component_inv w T e cid Hinv Hlim Hlive Hcid)
        as (w' & Hrem & Hinv' & _ & _ & Hold).
      destruct (Hold tn r tb Hl Ht Hhas) as (tb' & Ht' & He').
      destruct (tracking.moved_row w' tn tb' _ r Hinv' Ht' He' Hr) as (x' & Hx' & Hrx & Hlx).
      rewrite Hx in Hx'. injection Hx' as <-. by exists w', tb'.
  - split.
    + intros o w' Hlim Hh Hrun e. apply inv.live_located.
      by apply (store.step_inv w o w').
    + intros e He Ha Hin. unfold world.get_location. unfold world.alive in Ha.
      rewrite Ha. cbn [negb]. pose proof (em_facts.index_range e) as Hr.
      rewrite <- (Z2Nat.id (entity.index e)) in Hin by bits_lia.
      by rewrite (wi_free w Hinv _ Hin).
Qed.

Lemma location_tracks_rows_witness :
  let w := examples.populated in
  reachable w ∧
  located w examples.e1 ∧
  ∃ w' tb',
    world.destroy_entity w examples.e0 = Some w' ∧
    world.tables w' !! 2%nat = Some tb' ∧
    table.entities tb' !! 0%nat = Some examples.e2 ∧
    world.get_location w' examples.e2 = mk_loc 2 0.
Proof.
  intros w. pose proof tracking.populated_reachable as Hr.
  destruct (location_tracks_rows w Hr) as (H1 & _ & H3 & _).
  split; [exact Hr |]. split.
  - apply H1, store.liveb_spec. vm_compute. reflexivity.
  - destruct (H3 examples.e0 2%nat 0%nat (examples.table_of w 2)) as (x & Hx & Hd & _).
    + apply store.liveb_spec. vm_compute. reflexivity.
    + vm_compute. reflexivity.
    + vm_compute. reflexivity.
    + vm_compute. lia.
    + assert (Hx' : table.entities (examples.table_of w 2) !! 2%nat = Some examples.e2)
        by (vm_compute; reflexivity).
      change (length (table.entities (examples.table_of w 2)) - 1)%nat with 2%nat in Hx.
      rewrite Hx' in Hx. injection Hx as <-. exact Hd.
Defined.

(** C2, as stated, fails: after [create_entity] and [destroy_entity] of the
    entity it returned, the handle of slot 0 with generation 1 passes
    [alive], yet the slot is on the free list and its location names no
    table. *)
Lemma alive_handle_of_free_slot_has_no_location :
  let w := examples.after [op_create; op_destroy examples.e0] in
  let e := entity.make 0 1 in
  reachable w ∧ handle e ∧ world.alive w e = true ∧
  world.get_location w e = location_default ∧ ¬ located w e.
Proof.
  intros w e. split.
  { eapply (store.run_honest_reachable [op_create; op_destroy examples.e0]);
      [apply reachable_new, store.new_initial |].
    vm_compute. reflexivity. }
  split; [apply make_handle; bits_lia |].
  split; [vm_compute; reflexivity |].
  split; [vm_compute; reflexivity |].
  intros (tb & Hv & _). vm_compute in Hv. discriminate.
Qed.

(** C3.  In a state of a store used through the handles it issued
    (reached from [world()] by [register_component], [create_entity],
    [destroy_entity], [add_component], [remove_component] and [reserve]
    calls), inside its limits, if [e] is alive and holds components [A]
    and [B] with values [a] and [b], then [add_component<C>(e)] for a
    registered [C] returns, and afterwards [get_component<A>(e)] is [a]
    and [get_component<B>(e)] is [b]. *)
Theorem add_component_keeps_values (w : world.t) (A B C : ctype) (e : entity.t)
    (a b : value) (v : option value) :
  reachable w → within_limits w → handle e → world.alive w e = true →
  world.get_component w A e = Some a → world.get_component w B e = Some b →
  is_Some (component_registry.get_id (world.registry_ w) C) →
  ∃ w',
    world.add_component w C e v = Some w' ∧
    world.get_component w' A e = Some a ∧ world.get_component w' B e = Some b.
Proof.
  intros Hreach Hlim He Ha HA HB [cid Hcid].
  pose proof (store.reachable_world_inv w Hreach) as Hinv.
  assert (Hlive : live w e).
  { apply store.placed_live; try done.
    destruct (components.get_component_Some w A e a Hinv HA)
      as (cA & tn & rn & tb & _ & Hl & Hv & _).
    unfold world.get_location. unfold world.alive in Ha. by rewrite Ha, Hl. }
  destruct (components.add_component_inv w C e v cid Hinv Hlim Hlive Hcid)
    as (w' & Hadd & _ & _ & _ & Hkeep & _).
  exists w'. split; [done |]. split; by apply Hkeep.
Qed.

Lemma add_component_keeps_values_witness :
  let w := examples.scene in
  ∃ w',
    world.add_component w examples.TC examples.e1 (Some 9) = Some w' ∧
    world.get_component w' examples.TA examples.e1 = Some 15 ∧
    world.get_component w' examples.TB examples.e1 = Some 17.
Proof.
  intros w.
  apply (add_component_keeps_values w examples.TA examples.TB examples.TC examples.e1 15 17).
  - exact tracking.scene_reachable.
  - apply store.within_limitsb_spec. vm_compute. reflexivity.
  - apply make_handle; bits_lia.
  - vm_compute. reflexivity.
  - vm_compute. reflexivity.
  - vm_compute. reflexivity.
  - exists 2. vm_compute. reflexivity.
Defined.

(** * Further properties of the entity store *)

(** ** [next_pow2_u32] *)

Module pow2.

(** The bit smearing fills every position below the top bit of [v - 1]. *)
Lemma next_pow2_log2 v :
  2 ≤ v < two32 →
  next_pow2_u32 v = wrap32 (2 ^ (Z.log2 (v - 1) + 1)).
Proof.
  intros Hv. unfold next_pow2_u32.
  assert ((v <=? 1) = false) as -> by (apply Z.leb_gt; lia).
  rewrite (wrap32_small (v - 1)) by bits_lia.
  set (x := v - 1).
  set (s1 := Z.lor x (Z.shiftr x 1)).
  set (s2 := Z.lor s1 (Z.shiftr s1 2)).
  set (s3 := Z.lor s2 (Z.shiftr s2 4)).
  set (s4 := Z.lor s3 (Z.shiftr s3 8)).
  set (s5 := Z.lor s4 (Z.shiftr s4 16)).
  assert (H5 : smeared x 32 s5).
  { pose proof (lookup_facts.smeared_step x 1 x ltac:(lia) (lookup_facts.smeared_start x)) as H1.
    pose proof (lookup_facts.smeared_step x 2 _ ltac:(lia) H1) as H2.
    pose proof (lookup_facts.smeared_step x 4 _ ltac:(lia) H2) as H3.
    pose proof (lookup_facts.smeared_step x 8 _ ltac:(lia) H3) as H4.
    exact (lookup_facts.smeared_step x 16 _ ltac:(lia) H4). }
  assert (Hx : 0 < x < two32) by (subst x; lia).
  pose proof (Z.log2_nonneg x) as Hp0.
  assert (Hp : Z.log2 x < 32).
  { apply Z.log2_lt_pow2; [lia |]. change (2 ^ 32) with two32. lia. }
  assert (Hs5 : s5 = Z.ones (Z.log2 x + 1)).
  { apply Z.bits_inj'. intros n Hn.
    destruct (Z.lt_ge_cases n (Z.log2 x + 1)) as [Hlt | Hge].
    - rewrite Z.ones_spec_low by lia. apply H5; [done |].
      exists (Z.log2 x - n). split; [lia |].
      replace (n + (Z.log2 x - n)) with (Z.log2 x) by lia.
      apply Z.bit_log2. lia.
    - rewrite Z.ones_spec_high by lia. apply not_true_is_false.
      intros Hb. apply H5 in Hb as (j & Hj & Hb); [| done].
      rewrite Z.bits_above_log2 in Hb by lia. done. }
  rewrite Hs5, Z.ones_equiv. f_equal. lia.
Qed.

End pow2.

(** X1.  [next_pow2_u32(v)] is 1 for [v <= 1]; for [2 <= v <= 2^31] it is
    the least power of two that is not below [v]; above [2^31] the 32-bit
    result wraps to 0. *)
Theorem next_pow2_u32_least (v : Z) :
  u32 v →
  (v ≤ 1 → next_pow2_u32 v = 1) ∧
  (2 ≤ v ≤ 2147483648 →
   ∃ k, 1 ≤ k ≤ 31 ∧ next_pow2_u32 v = 2 ^ k ∧ 2 ^ (k - 1) < v ≤ 2 ^ k) ∧
  (2147483648 < v → next_pow2_u32 v = 0).
Proof.
  intros Hv. split; [| split].
  - intros H1. unfold next_pow2_u32. by rewrite (proj2 (Z.leb_le v 1)).
  - intros H2. rewrite pow2.next_pow2_log2 by bits_lia.
    pose proof (Z.log2_nonneg (v - 1)) as Hp0.
    pose proof (Z.log2_spec (v - 1) ltac:(lia)) as [Hlo Hup].
    rewrite <- Z.add_1_r in Hup.
    assert (Hp : Z.log2 (v - 1) < 31).
    { apply Z.log2_lt_pow2; [lia |]. change (2 ^ 31) with 2147483648. lia. }
    assert (Hpow : 2 ^ (Z.log2 (v - 1) + 1) ≤ 2 ^ 31) by (apply Z.pow_le_mono_r; lia).
    change (2 ^ 31) with 2147483648 in Hpow.
    exists (Z.log2 (v - 1) + 1). split; [lia |].
    split; [apply wrap32_small; bits_lia |].
    replace (Z.log2 (v - 1) + 1 - 1) with (Z.log2 (v - 1)) by lia. lia.
  - intros H3. rewrite pow2.next_pow2_log2 by bits_lia.
    assert (Z.log2 (v - 1) = 31) as ->.
    { apply Z.log2_unique; [lia |]. change (2 ^ 31) with 2147483648.
      change (2 ^ (31 + 1)) with 4294967296. bits_lia. }
    reflexivity.
Qed.

Lemma next_pow2_u32_least_witness :
  (6 ≤ 1 → next_pow2_u32 6 = 1) ∧
  (2 ≤ 6 ≤ 2147483648 →
   ∃ k, 1 ≤ k ≤ 31 ∧ next_pow2_u32 6 = 2 ^ k ∧ 2 ^ (k - 1) < 6 ≤ 2 ^ k) ∧
  (2147483648 < 6 → next_pow2_u32 6 = 0).
Proof. apply (next_pow2_u32_least 6). unfold u32, two32. lia. Defined.

(** ** Archetype keys *)

Module key_more.

(** Two strictly sorted lists with the same elements are equal. *)
Lemma ok_ext a : ∀ b, key.ok a → key.ok b → (∀ c, c ∈ a ↔ c ∈ b) → a = b.
Proof.
  induction a as [| x a IH]; intros b Ha Hb Hab.
  - destruct b as [| y b]; [done |].
    exfalso. eapply not_elem_of_nil, Hab. by left.
  - destruct b as [| y b].
    { exfalso. eapply not_elem_of_nil, Hab. by left. }
    destruct (key.ok_cons_inv _ _ Ha) as [Ha' Hxa].
    destruct (key.ok_cons_inv _ _ Hb) as [Hb' Hyb].
    assert (x = y) as ->.
    { assert (Hx : x ∈ y :: b) by (apply Hab; by left).
      assert (Hy : y ∈ x :: a) by (apply Hab; by left).
      apply elem_of_cons in Hx as [? | Hx]; [done |].
      apply elem_of_cons in Hy as [? | Hy]; [done |].
      specialize (Hxa _ Hy). specialize (Hyb _ Hx). lia. }
    f_equal. apply IH; [done | done |]. intros c. split; intros Hc.
    + assert (Hc' : c ∈ y :: b) by (apply Hab; by right).
      apply elem_of_cons in Hc' as [-> | ?]; [| done].
      specialize (Hxa _ Hc). lia.
    + assert (Hc' : c ∈ y :: a) by (apply Hab; by right).
      apply elem_of_cons in Hc' as [-> | ?]; [| done].
      specialize (Hyb _ Hc). lia.
Qed.

(** [contains_all_sorted] on canonical lists. *)
Lemma contains_all_sorted_spec (haystack needles : list Z) :
  key_ok haystack → key_ok needles →
  render_cache.contains_all_sorted haystack needles = true ↔
  ∀ c, c ∈ needles → c ∈ haystack.
Proof.
  revert needles. induction haystack as [| h hs IH]; intros needles Hh Hn.
  - destruct needles as [| x n]; cbn.
    + split; [intros _ c Hc; by apply elem_of_nil in Hc | done].
    + split; [done |]. intros H. exfalso. eapply not_elem_of_nil, H. by left.
  - destruct needles as [| x n]; cbn.
    { split; [intros _ c Hc; by apply elem_of_nil in Hc | done]. }
    destruct (key.ok_cons_inv _ _ Hh) as [Hh' Hhs].
    destruct (key.ok_cons_inv _ _ Hn) as [Hn' Hxn].
    destruct (h =? x) eqn:Hhx.
    + apply Z.eqb_eq in Hhx as ->. rewrite (IH n Hh' Hn'). split.
      * intros H c Hc. apply elem_of_cons in Hc as [-> | Hc]; [by left |].
        right. by apply H.
      * intros H c Hc. assert (Hc' : c ∈ x :: hs) by (apply H; by right).
        apply elem_of_cons in Hc' as [-> | ?]; [| done].
        specialize (Hxn _ Hc). lia.
    + apply Z.eqb_neq in Hhx. destruct (h <? x) eqn:Hlt.
      * apply Z.ltb_lt in Hlt. rewrite (IH (x :: n) Hh' Hn). split.
        -- intros H c Hc. right. by apply H.
        -- intros H c Hc. assert (Hc' : c ∈ h :: hs) by (by apply H).
           apply elem_of_cons in Hc' as [-> | ?]; [| done].
           apply elem_of_cons in Hc as [-> | Hc]; [lia |].
           specialize (Hxn _ Hc). lia.
      * apply Z.ltb_ge in Hlt. split; [done |]. intros H.
        assert (Hx : x ∈ h :: hs) by (apply H; by left).
        apply elem_of_cons in Hx as [-> | Hx]; [done |].
        specialize (Hhs _ Hx). lia.
Qed.

End key_more.

(** X2.  [make_archetype_key] gives a strictly increasing list with the
    elements of its argument; [contains] (a binary search) is membership;
    lists with the same elements, in any order and with any repetitions,
    give the same key; and a key is its own canonical form. *)
Theorem archetype_key_canonical (ids ids' : list Z) :
  StronglySorted Z.lt (archetype_key.make_archetype_key ids) ∧
  (∀ c, archetype_key.contains (archetype_key.make_archetype_key ids) c = true ↔ c ∈ ids) ∧
  ((∀ c, c ∈ ids ↔ c ∈ ids') →
   archetype_key.make_archetype_key ids = archetype_key.make_archetype_key ids') ∧
  archetype_key.make_archetype_key (archetype_key.make_archetype_key ids)
    = archetype_key.make_archetype_key ids.
Proof.
  unfold archetype_key.make_archetype_key.
  pose proof (key.canonicalise_ok ids) as Hok.
  split; [exact Hok |]. split; [| split].
  - intros c. rewrite (key.contains_elem _ _ Hok). apply key.elem_of_canonicalise.
  - intros Hsame. apply key_more.ok_ext;
      [done | apply key.canonicalise_ok |].
    intros c. rewrite !key.elem_of_canonicalise. apply Hsame.
  - apply key_more.ok_ext; [apply key.canonicalise_ok | done |].
    intros c. apply key.elem_of_canonicalise.
Qed.

(** X3.  On strictly increasing lists, [contains_all_sorted(haystack,
    needles)] says that every needle is in the haystack. *)
Theorem contains_all_sorted_subset (haystack needles : list Z) :
  StronglySorted Z.lt haystack → StronglySorted Z.lt needles →
  render_cache.contains_all_sorted haystack needles = true ↔
  ∀ c, c ∈ needles → c ∈ haystack.
Proof. apply key_more.contains_all_sorted_spec. Qed.

Lemma contains_all_sorted_subset_witness :
  render_cache.contains_all_sorted [1; 3; 4; 9] [3; 9] = true ↔
  ∀ c, c ∈ [3; 9] → c ∈ [1; 3; 4; 9].
Proof.
  apply (contains_all_sorted_subset [1; 3; 4; 9] [3; 9]);
    repeat (constructor; try lia).
Defined.

(** ** The component registry *)

Module registry.

Lemma empty_ok : registry_ok component_registry.empty.
Proof.
  intros ty id H. unfold component_registry.empty in H.
  cbn [component_registry.type_ids_] in H. by rewrite lookup_empty in H.
Qed.

Lemma add_ok r T :
  registry_ok r → Z.of_nat (component_registry.count r) < two32 →
  registry_ok (component_registry.add r T).1.
Proof.
  intros Hok Hlim. unfold component_registry.add.
  destruct (component_registry.type_ids_ r !! ty_index T) as [id |] eqn:Hid; [done |].
  unfold component_registry.count in Hlim.
  intros ty id. unfold component_registry.get_info, component_registry.count.
  cbn [fst component_registry.type_ids_ component_registry.type_infos_].
  rewrite length_app. cbn [length].
  destruct (decide (ty = ty_index T)) as [-> | Hne].
  - rewrite lookup_insert_eq. intros [= <-].
    rewrite wrap32_small by bits_lia. rewrite Nat2Z.id.
    eexists. split; [by apply list_lookup_middle |]. cbn.
    split_and!; try done; lia.
  - rewrite lookup_insert_ne by done. intros H.
    destruct (Hok ty id H) as (info & Hi & ? & ? & ?).
    exists info. unfold component_registry.get_info in Hi.
    split; [by apply lookup_app_l_Some |].
    unfold component_registry.count in *. split_and!; try done; lia.
Qed.

End registry.

(** X4.  [component_registry::add<T>()] on a registry built by [add] with
    fewer than [2^32] types: afterwards [get_id<T>()] is the id returned and
    [get_info] of it records [T]; a second [add<T>()] returns the same id
    and changes nothing; the ids of the other registered types are
    unchanged and differ from the id of [T]. *)
Theorem registry_add_get (r : component_registry.t) (T : ctype) :
  registry_ok r → Z.of_nat (component_registry.count r) < two32 →
  let r' := (component_registry.add r T).1 in
  let id := (component_registry.add r T).2 in
  registry_ok r' ∧
  component_registry.get_id r' T = Some id ∧
  (∃ info, component_registry.get_info r' id = Some info ∧
           info_id info = id ∧ info_type info = ty_index T) ∧
  component_registry.add r' T = (r', id) ∧
  (∀ U uid, ty_index U ≠ ty_index T →
            component_registry.get_id r U = Some uid →
            component_registry.get_id r' U = Some uid ∧ uid ≠ id).
Proof.
  intros Hok Hlim r' id.
  pose proof (registry.add_ok r T Hok Hlim) as Hok'. fold r' in Hok'.
  assert (Hget : component_registry.get_id r' T = Some id).
  { subst r' id. unfold component_registry.add, component_registry.get_id.
    destruct (component_registry.type_ids_ r !! ty_index T) as [i |] eqn:Hi; [done |].
    cbn. by rewrite lookup_insert_eq. }
  split; [done |]. split; [done |]. split; [| split].
  - destruct (Hok' _ _ Hget) as (info & ? & ? & ? & _). by exists info.
  - unfold component_registry.get_id in Hget.
    unfold component_registry.add at 1. rewrite Hget. done.
  - intros U uid HU Hu. unfold component_registry.get_id in *.
    assert (Hu' : component_registry.type_ids_ r' !! ty_index U = Some uid).
    { subst r'. unfold component_registry.add.
      destruct (component_registry.type_ids_ r !! ty_index T); [done |].
      cbn. by rewrite lookup_insert_ne. }
    split; [done |]. intros ->.
    destruct (Hok' _ _ Hu') as (i1 & Hi1 & _ & Ht1 & _).
    destruct (Hok' _ _ Hget) as (i2 & Hi2 & _ & Ht2 & _).
    rewrite Hi1 in Hi2. injection Hi2 as <-. congruence.
Qed.

Lemma registry_add_get_witness :
  let r := (component_registry.add component_registry.empty examples.TA).1 in
  let r' := (component_registry.add r examples.TB).1 in
  let id := (component_registry.add r examples.TB).2 in
  registry_ok r' ∧
  component_registry.get_id r' examples.TB = Some id ∧
  (∃ info, component_registry.get_info r' id = Some info ∧
           info_id info = id ∧ info_type info = ty_index examples.TB) ∧
  component_registry.add r' examples.TB = (r', id) ∧
  (∀ U uid, ty_index U ≠ ty_index examples.TB →
            component_registry.get_id r U = Some uid →
            component_registry.get_id r' U = Some uid ∧ uid ≠ id).
Proof.
  intros r.
  apply (registry_add_get r examples.TB).
  - apply registry.add_ok; [apply registry.empty_ok | vm_compute; reflexivity].
  - vm_compute. reflexivity.
Defined.

(** ** The entity manager: counting and other handles *)

Module em_more.

Import entity_manager.

(** Distinct indices below [n] are at most [n]. *)
Lemma bounded_nodup_length (l : list Z) (n : nat) :
  NoDup l → Forall (fun x => 0 ≤ x < Z.of_nat n) l → (length l ≤ n)%nat.
Proof.
  intros Hnd Hb.
  assert (Hnd' : NoDup (Z.to_nat <$> l)).
  { apply NoDup_alt. intros r1 r2 x H1 H2.
    apply list_lookup_fmap_Some_1 in H1 as (x1 & -> & H1).
    apply list_lookup_fmap_Some_1 in H2 as (x2 & Hx & H2).
    pose proof (proj1 (Forall_lookup _ _) Hb _ _ H1) as B1.
    pose proof (proj1 (Forall_lookup _ _) Hb _ _ H2) as B2.
    cbv beta in B1, B2. assert (x1 = x2) as -> by lia.
    by eapply NoDup_lookup. }
  assert (Hin : ∀ x, x ∈ (Z.to_nat <$> l) → x ∈ seq 0 n).
  { intros x Hx. apply list_elem_of_fmap in Hx as (z & -> & Hz).
    pose proof (proj1 (Forall_forall _ _) Hb _ Hz) as B. cbv beta in B.
    apply elem_of_seq. lia. }
  pose proof (submseteq_length _ _ (NoDup_submseteq _ _ Hnd' Hin)) as Hle.
  by rewrite length_fmap, length_seq in Hle.
Qed.

Lemma free_le m : em.inv m → (length (fragment_ m) ≤ length (generations_ m))%nat.
Proof. intros [_ _ Hnd Hf]. by apply bounded_nodup_length. Qed.

(** A slot in use leaves room on the free list. *)
Lemma free_lt m i :
  em.inv m → 0 ≤ i < Z.of_nat (length (generations_ m)) → i ∉ fragment_ m →
  (length (fragment_ m) < length (generations_ m))%nat.
Proof.
  intros [_ _ Hnd Hf] Hi Hnin.
  pose proof (bounded_nodup_length (i :: fragment_ m) (length (generations_ m))) as H.
  cbn [length] in H. apply H.
  - by apply NoDup_cons.
  - by constructor.
Qed.

Lemma live_index m e :
  em.live m e →
  generations_ m !! Z.to_nat (entity.index e) = Some (entity.generation e) ∧
  0 ≤ entity.index e < Z.of_nat (length (generations_ m)).
Proof.
  intros (_ & Ha & _). apply em_facts.alive_true in Ha as [_ Hg].
  split; [done |]. pose proof (em_facts.index_range e).
  apply lookup_lt_Some in Hg. bits_lia.
Qed.

Lemma count_inv m :
  em.reachable m →
  alive_count_ m = Z.of_nat (length (generations_ m)) - Z.of_nat (length (fragment_ m)).
Proof.
  induction 1 as [| m m' e Hr IH Hlim Hc | m e Hr IH Hh].
  - reflexivity.
  - pose proof (em_facts.reachable_inv m Hr) as Hinv.
    pose proof (free_le m Hinv) as Hle.
    unfold em.within_limits, capacity in Hlim.
    destruct (em_facts.create_spec m Hinv Hlim)
      as (m1 & i & g & Hc' & _ & _ & _ & _ & _ & Hcase).
    rewrite Hc in Hc'. injection Hc' as <- ->.
    unfold create_entity in Hc.
    destruct Hcase as [(Hf & _ & _ & Hg' & Hf') | (Hf & Hg')].
    + rewrite Hf in Hc. cbn [last] in Hc. cbn [mbind option_bind] in Hc.
      destruct (_ !! _); [| done]. cbn in Hc. injection Hc as <- _.
      cbn [alive_count_ generations_ fragment_]. rewrite IH, Hf, length_app. cbn [length].
      rewrite wrap32_small by bits_lia. lia.
    + rewrite Hf, last_snoc in Hc. cbn [mbind option_bind] in Hc.
      destruct (_ !! _); [| done]. cbn in Hc. injection Hc as <- _.
      cbn [alive_count_ generations_ fragment_]. rewrite IH, Hf, removelast_last, length_app.
      cbn [length]. rewrite Hf, length_app in Hle. cbn [length] in Hle.
      rewrite wrap32_small by bits_lia. lia.
  - pose proof (em_facts.reachable_inv m Hr) as Hinv.
    destruct (alive m e) eqn:Ha.
    + destruct Hh as [_ Hl]. specialize (Hl Ha).
      destruct (live_index m e Hl) as [_ Hi]. destruct Hl as (_ & _ & Hnin).
      pose proof (free_lt m _ Hinv Hi Hnin) as Hlt.
      pose proof (em.inv_cap _ Hinv) as Hcap.
      rewrite em_facts.destroy_alive by done.
      cbn [alive_count_ generations_ fragment_].
      rewrite IH, length_alter, length_app. cbn [length].
      rewrite wrap32_small by bits_lia. lia.
    + by rewrite em_facts.destroy_stale.
Qed.

(** Two live handles of one slot are the same handle. *)
Lemma live_same_index m x e :
  em.live m x → em.live m e → entity.index x = entity.index e → x = e.
Proof.
  intros Hx He Hi. destruct (live_index m x Hx) as [Hgx _].
  destruct (live_index m e He) as [Hge _]. rewrite Hi, Hge in Hgx.
  injection Hgx as Hg. destruct Hx as (Hhx & _). destruct He as (Hhe & _).
  rewrite <- (make_index_generation x Hhx), <- (make_index_generation e Hhe).
  by rewrite Hi, Hg.
Qed.

Lemma create_keeps m m' e' x :
  em.inv m → em.within_limits m → create_entity m = Some (m', e') →
  em.live m x → em.live m' x ∧ x ≠ e' ∧ em.live m' e'.
Proof.
  intros Hinv Hlim Hc Hx.
  destruct (em_facts.create_spec m Hinv Hlim)
    as (m1 & i & g & Hc' & Hi & Hg & Hgl & Hnin & Hinv' & Hcase).
  rewrite Hc in Hc'. injection Hc' as <- ->.
  destruct (live_index m x Hx) as [Hgx Hix]. pose proof Hx as (Hhx & Hax & Hnx).
  apply em_facts.alive_true in Hax as [Hvx _].
  assert (Hne : entity.index x ≠ i).
  { destruct Hcase as [(_ & -> & _) | (Hf & _)]; [lia |].
    intros Heq. apply Hnx. rewrite Heq, Hf. apply elem_of_snoc. }
  split; [| split].
  - split; [done |]. split.
    + apply em_facts.alive_true. split; [done |].
      destruct Hcase as [(_ & _ & _ & -> & _) | (_ & ->)]; [| done].
      by apply lookup_app_l_Some.
    + destruct Hcase as [(_ & _ & _ & _ & ->) | (Hf & _)]; [apply not_elem_of_nil |].
      intros Hin. apply Hnx. rewrite Hf. apply elem_of_app. by left.
  - intros ->. by rewrite index_make in Hne.
  - split; [by apply make_handle |]. split; [| by rewrite index_make].
    apply em_facts.alive_true. rewrite index_make, generation_make by done.
    split; [| done]. apply not_false_iff_true. rewrite make_invalid by done.
    pose proof (em.inv_cap _ Hinv'). apply lookup_lt_Some in Hgl. lia.
Qed.

Lemma destroy_keeps m e x :
  em.honest m e → em.live m x → x ≠ e → em.live (destroy_entity m e) x.
Proof.
  intros [_ Hl] Hx Hne. destruct (alive m e) eqn:Ha.
  2:{ by rewrite em_facts.destroy_stale. }
  specialize (Hl eq_refl).
  assert (Hi : entity.index x ≠ entity.index e).
  { intros Hi. by apply Hne, (live_same_index m). }
  destruct (live_index m x Hx) as [Hgx _]. destruct Hx as (Hhx & Hax & Hnx).
  apply em_facts.alive_true in Hax as [Hvx _].
  rewrite em_facts.destroy_alive by done.
  pose proof (em_facts.index_range x). pose proof (em_facts.index_range e).
  split; [done |]. split.
  - apply em_facts.alive_true. split; [done |]. cbn [generations_].
    rewrite list_lookup_alter_ne by bits_lia. done.
  - cbn [fragment_]. intros Hin. apply elem_of_app in Hin as [? | Hin]; [done |].
    by apply list_elem_of_singleton in Hin.
Qed.

End em_more.

(** X5.  In a manager reached through honest calls, the free list is no
    longer than the slot vector and [alive_count()] is [capacity()] minus
    the length of the free list. *)
Theorem alive_count_is_slots_in_use (m : entity_manager.t) :
  em.reachable m →
  (length (entity_manager.fragment_ m) ≤ entity_manager.capacity m)%nat ∧
  entity_manager.alive_count_ m =
    Z.of_nat (entity_manager.capacity m - length (entity_manager.fragment_ m)).
Proof.
  intros Hr. pose proof (em_more.free_le m (em_facts.reachable_inv m Hr)) as Hle.
  unfold entity_manager.capacity. split; [done |].
  rewrite (em_more.count_inv m Hr). lia.
Qed.

Lemma alive_count_is_slots_in_use_witness :
  let m := entity_manager.mk [0; 1; 0] [1] 2 in
  (length (entity_manager.fragment_ m) ≤ entity_manager.capacity m)%nat ∧
  entity_manager.alive_count_ m =
    Z.of_nat (entity_manager.capacity m - length (entity_manager.fragment_ m)).
Proof.
  intros m. apply (alive_count_is_slots_in_use m).
  assert (Hlim : ∀ gs fr a, (length gs < 10)%nat →
                            em.within_limits (entity_manager.mk gs fr a)).
  { intros gs fr a Hlen. unfold em.within_limits, entity_manager.capacity.
    cbn [entity_manager.generations_]. unfold two32. lia. }
  apply (em.reachable_destroy (entity_manager.mk [0; 0; 0] [] 3) (entity.make 1 0)).
  - eapply (em.reachable_create (entity_manager.mk [0; 0] [] 2));
      [| apply Hlim; cbn; lia | reflexivity].
    eapply (em.reachable_create (entity_manager.mk [0] [] 1));
      [| apply Hlim; cbn; lia | reflexivity].
    eapply (em.reachable_create entity_manager.empty);
      [apply em.reachable_empty | apply Hlim; cbn; lia | reflexivity].
  - split; [apply make_handle; bits_lia |]. intros _.
    split; [apply make_handle; bits_lia |].
    split; [reflexivity | apply not_elem_of_nil].
Defined.

(** X6.  In a manager reached from the empty one through honest calls
    ([create_entity] with fewer than [2^32 - 1] slots, [destroy_entity] of
    handles that are stale or name a slot in use), creating or destroying
    an entity leaves every other entity in use: after [create_entity],
    called with fewer than [2^32 - 1] slots, the entities that were in use
    still are, and the new handle names a slot in use and differs from
    all of them; after [destroy_entity(e)] of a handle [e] that is stale
    or names a slot in use, every entity in use other than [e] still is.
    (After a forged handle was destroyed this fails: see C5.) *)
Theorem other_handles_stay_alive (m : entity_manager.t) :
  em.reachable m →
  (∀ m' e' x,
     em.within_limits m → entity_manager.create_entity m = Some (m', e') →
     em.live m x → em.live m' x ∧ x ≠ e' ∧ em.live m' e') ∧
  (∀ e x,
     em.honest m e → em.live m x → x ≠ e →
     em.live (entity_manager.destroy_entity m e) x).
Proof.
  intros Hr. pose proof (em_facts.reachable_inv m Hr) as Hinv. split.
  - intros m' e' x Hlim Hc Hx. by apply (em_more.create_keeps m).
  - intros e x. apply em_more.destroy_keeps.
Qed.

Lemma other_handles_stay_alive_witness :
  let m := entity_manager.mk [0; 0] [] 2 in
  em.live (entity_manager.mk [0; 0; 0] [] 3) (entity.make 1 0) ∧
  em.live (entity_manager.destroy_entity m (entity.make 0 0)) (entity.make 1 0).
Proof.
  intros m.
  assert (Hlim : ∀ gs fr a, (length gs < 10)%nat →
                            em.within_limits (entity_manager.mk gs fr a)).
  { intros gs fr a Hlen. unfold em.within_limits, entity_manager.capacity.
    cbn [entity_manager.generations_]. unfold two32. lia. }
  assert (Hr : em.reachable m).
  { eapply (em.reachable_create (entity_manager.mk [0] [] 1));
      [| apply Hlim; cbn; lia | reflexivity].
    eapply (em.reachable_create entity_manager.empty);
      [apply em.reachable_empty | apply Hlim; cbn; lia | reflexivity]. }
  assert (Hl : ∀ i, (i < 2)%nat → em.live m (entity.make (Z.of_nat i) 0)).
  { intros i Hi. split; [apply make_handle; unfold u32, two32; lia |].
    split; [| apply not_elem_of_nil].
    destruct i as [| [| i]]; [reflexivity | reflexivity | lia]. }
  destruct (other_handles_stay_alive m Hr) as [H1 H2]. split.
  - apply (H1 (entity_manager.mk [0; 0; 0] [] 3) (entity.make 2 0) (entity.make 1 0));
      [apply Hlim; cbn; lia | reflexivity | apply (Hl 1%nat); lia].
  - apply H2.
    + split; [apply make_handle; bits_lia |]. intros _. apply (Hl 0%nat). lia.
    + apply (Hl 1%nat). lia.
    + vm_compute. discriminate.
Defined.

(** ** Scan-line partition of frames of 57 rows and more *)

Module slice_facts.

Import slices.

Lemma cover_count_cons r rs y :
  cover_count (r :: rs) y =
    ((if in_range r y then 1 else 0) + cover_count rs y)%nat.
Proof.
  unfold cover_count. rewrite filter_cons.
  destruct (in_range r y); cbn.
  - by rewrite decide_True.
  - by rewrite decide_False.
Qed.

(** Ranges that follow one another cover the rows between their ends once. *)
Lemma chained_cover rs : ∀ a b,
  chained a rs b = true →
  a ≤ b ∧ ∀ y, cover_count rs y = if (a <=? y) && (y <? b) then 1%nat else 0%nat.
Proof.
  induction rs as [| r rs IH]; intros a b H; cbn in H.
  - apply Z.eqb_eq in H as ->. split; [lia |]. intros y. cbn.
    destruct (b <=? y) eqn:H1; [| done]. apply Z.leb_le in H1.
    by rewrite (proj2 (Z.ltb_ge y b)) by lia.
  - apply andb_true_iff in H as [H H3]. apply andb_true_iff in H as [H1 H2].
    apply Z.eqb_eq in H1. apply Z.leb_le in H2.
    destruct (IH _ _ H3) as [Hle Hc]. split; [lia |]. intros y.
    rewrite cover_count_cons, Hc. unfold in_range. rewrite H1.
    destruct (a <=? y) eqn:E1, (y <=? y1 r) eqn:E2, (y1 r + 1 <=? y) eqn:E3,
             (y <? b) eqn:E4; cbn; try done;
      rewrite ?Z.leb_le, ?Z.ltb_lt, ?Z.leb_gt, ?Z.ltb_ge in *; lia.
Qed.

(** The nominal height of slice [s]. *)
Local Abbreviation slice_h h s := (h / 6 + (if s <? h mod 6 then 1 else 0)).

(** One slice before the last: it starts at [y], does not end before
    [y - 1], and ends on the nominal row or on an aligned row short of the
    last one. *)
Lemma step_spec h s y :
  0 ≤ h → 0 ≤ y → 0 ≤ s < 5 →
  ∃ e,
    slice_step h s y = (mk_range y e, e + 1) ∧ y - 1 ≤ e ∧
    e + 1 ≤ y + slice_h h s + 3 ∧
    (e + 1 ≤ h - 1 ∨ e + 1 = y + slice_h h s).
Proof.
  intros Hh Hy Hs. unfold slice_step, kTotalSlices, kWorkerCount, kRowAlign.
  change (5 + 1) with 6. change (6 - 1) with 5. change (4 - 1) with 3.
  rewrite (Z.quot_div_nonneg h 6), (Z.rem_mod_nonneg h 6) by lia.
  pose proof (Z.div_pos h 6 Hh ltac:(lia)) as Hb.
  assert (Hsh : 0 ≤ slice_h h s) by (destruct (s <? h mod 6); lia).
  set (sh := slice_h h s) in *.
  assert ((s =? 5) = false) as -> by (apply Z.eqb_neq; lia).
  rewrite Z.quot_div_nonneg by lia.
  pose proof (Z.div_mod (y + sh - 1 + 1 + 3) 4 ltac:(lia)) as Hd.
  pose proof (Z.mod_pos_bound (y + sh - 1 + 1 + 3) 4 ltac:(lia)) as Hm.
  destruct (_ <? h - 1) eqn:Ha.
  - apply Z.ltb_lt in Ha. eexists. split; [reflexivity |]. lia.
  - eexists. split; [reflexivity |]. lia.
Qed.

Lemma last_step h y : slice_step h 5 y = (mk_range y (h - 1), h - 1 + 1).
Proof. reflexivity. Qed.

Lemma heights_sum h :
  0 ≤ h →
  slice_h h 0 + slice_h h 1 + slice_h h 2 + slice_h h 3 + slice_h h 4 = h - h / 6.
Proof.
  intros Hh. pose proof (Z.div_mod h 6 ltac:(lia)) as Hd.
  pose proof (Z.mod_pos_bound h 6 ltac:(lia)) as Hm.
  destruct (0 <? h mod 6) eqn:E0, (1 <? h mod 6) eqn:E1, (2 <? h mod 6) eqn:E2,
           (3 <? h mod 6) eqn:E3, (4 <? h mod 6) eqn:E4;
    rewrite ?Z.ltb_lt, ?Z.ltb_ge in *; lia.
Qed.

(** From 72 rows on the five aligned slices leave room for the last. *)
Lemma chained_tall h :
  72 ≤ h → chained 0 (slice_loop h 6 0 0) h = true.
Proof.
  intros Hh. pose proof (heights_sum h ltac:(lia)) as Hsum.
  assert (Hb : 12 ≤ h / 6) by (apply Z.div_le_lower_bound; lia).
  assert (Hnn : ∀ s, 0 ≤ slice_h h s) by (intros s; destruct (s <? h mod 6); lia).
  pose proof (Hnn 0). pose proof (Hnn 1). pose proof (Hnn 2).
  pose proof (Hnn 3). pose proof (Hnn 4).
  destruct (step_spec h 0 0) as (e0 & S0 & L0 & U0 & _); [lia .. |].
  destruct (step_spec h 1 (e0 + 1)) as (e1 & S1 & L1 & U1 & _); [lia .. |].
  destruct (step_spec h 2 (e1 + 1)) as (e2 & S2 & L2 & U2 & _); [lia .. |].
  destruct (step_spec h 3 (e2 + 1)) as (e3 & S3 & L3 & U3 & _); [lia .. |].
  destruct (step_spec h 4 (e3 + 1)) as (e4 & S4 & L4 & U4 & D4); [lia .. |].
  cbn [slice_loop]. change (0 + 1) with 1. change (1 + 1) with 2.
  change (2 + 1) with 3. change (3 + 1) with 4. change (4 + 1) with 5.
  rewrite S0, S1, S2, S3, S4, last_step. cbn [chained y0 y1].
  repeat (apply andb_true_intro; split);
    rewrite ?Z.eqb_eq, ?Z.leb_le; lia.
Qed.

Lemma chained_frames h :
  57 ≤ h → chained 0 (slice_loop h 6 0 0) h = true.
Proof.
  intros Hh. destruct (Z.lt_ge_cases h 72) as [Hlt | Hge]; [| by apply chained_tall].
  assert (Hc : h = 57 ∨ h = 58 ∨ h = 59 ∨ h = 60 ∨ h = 61 ∨ h = 62 ∨ h = 63 ∨ h = 64 ∨
               h = 65 ∨ h = 66 ∨ h = 67 ∨ h = 68 ∨ h = 69 ∨ h = 70 ∨ h = 71) by lia.
  repeat (destruct Hc as [-> | Hc]; [reflexivity |]). subst h. reflexivity.
Qed.

End slice_facts.

(** X7.  For a frame of 57 rows or more (below [2^31]),
    [compute_slice_ranges] partitions the rows: every row of [0, H-1] lies
    in exactly one of the six ranges and no other row lies in any. *)
Theorem slice_ranges_partition_from_57 (H : Z) :
  57 ≤ H < 2147483648 →
  slices.exact_partition H (slices.compute_slice_ranges H).
Proof.
  intros HH. unfold slices.compute_slice_ranges, slices.to_int.
  rewrite (proj2 (Z.ltb_lt H 2147483648)) by lia.
  change (Z.to_nat slices.kTotalSlices) with 6%nat.
  destruct (slice_facts.chained_cover _ _ _ (slice_facts.chained_frames H ltac:(lia)))
    as [_ Hc].
  intros y. apply Hc.
Qed.

Lemma slice_ranges_partition_from_57_witness :
  slices.exact_partition 768 (slices.compute_slice_ranges 768).
Proof. apply (slice_ranges_partition_from_57 768). lia. Defined.

(** ** The column lookup finds what [build_lookup] entered *)

Module probing.

Lemma probes_impl keys mask (P Q : Z → Prop) n a b :
  (∀ s k, keys !! s = Some k → P k → Q k) →
  probes keys mask P n a b → probes keys mask Q n a b.
Proof.
  intros HPQ. induction 1 as [| n a b k Hk HP _ IH]; [constructor |].
  econstructor; [done | by eapply HPQ | done].
Qed.

(** Entering a key into a free slot leaves the probe sequences over used
    slots as they are. *)
Lemma probes_insert keys mask (P : Z → Prop) n a b s0 c :
  (∀ k, P k → k ≠ INVALID_ID) → keys !! s0 = Some INVALID_ID →
  probes keys mask P n a b → probes (<[s0 := c]> keys) mask P n a b.
Proof.
  intros HP Hs0. induction 1 as [| n a b k Hk HPk _ IH]; [constructor |].
  econstructor; [| done | done].
  rewrite list_lookup_insert_ne; [done |]. intros Heq.
  rewrite Heq, Hk in Hs0. injection Hs0 as ->. by apply (HP INVALID_ID).
Qed.

(** What [probe_free] walked over. *)
Lemma probe_free_path keys mask : ∀ fuel a b,
  table.probe_free fuel keys mask a = Some b →
  ∃ n, (n < fuel)%nat ∧ probes keys mask (fun k => k ≠ INVALID_ID) n a b ∧
       keys !! Z.to_nat b = Some INVALID_ID.
Proof.
  induction fuel as [| fuel IH]; intros a b H; cbn [table.probe_free] in H; [done |].
  destruct (keys !! Z.to_nat a) as [k |] eqn:Hk; [| done].
  cbn [mbind option_bind] in H. destruct (k =? INVALID_ID) eqn:Heq.
  - apply Z.eqb_eq in Heq as ->. injection H as <-.
    exists O. split; [lia |]. split; [constructor | done].
  - apply Z.eqb_neq in Heq. destruct (IH _ _ H) as (n & Hn & Hp & Hb).
    exists (S n). split; [lia |]. split; [| done]. by econstructor.
Qed.

(** [probe_find] follows the probe sequence of a key to its slot. *)
Lemma probe_find_found tb cid : ∀ n fuel a b,
  probes (table.lookup_keys_ tb) (table.lookup_mask_ tb)
         (fun k => k ≠ cid ∧ k ≠ INVALID_ID) n a b →
  table.lookup_keys_ tb !! Z.to_nat b = Some cid → (n < fuel)%nat →
  table.probe_find fuel tb cid a = table.lookup_vals_ tb !! Z.to_nat b.
Proof.
  induction n as [| n IH]; intros fuel a b Hp Hb Hf;
    (destruct fuel as [| fuel]; [lia |]); cbn [table.probe_find];
    inversion Hp as [| n' a' b' k0 Hk0 [H1 H2] Hrest]; subst.
  - rewrite Hb. cbn [mbind option_bind]. by rewrite Z.eqb_refl.
  - rewrite Hk0. cbn [mbind option_bind].
    rewrite (proj2 (Z.eqb_neq _ _) H1), (proj2 (Z.eqb_neq _ _) H2).
    apply IH; [done | done | lia].
Qed.

(** ... and stops at a free slot when the key was never entered. *)
Lemma probe_find_free tb cid : ∀ n fuel a b,
  probes (table.lookup_keys_ tb) (table.lookup_mask_ tb)
         (fun k => k ≠ cid ∧ k ≠ INVALID_ID) n a b →
  table.lookup_keys_ tb !! Z.to_nat b = Some INVALID_ID → (n < fuel)%nat →
  table.probe_find fuel tb cid a =
    if cid =? INVALID_ID then table.lookup_vals_ tb !! Z.to_nat b else None.
Proof.
  induction n as [| n IH]; intros fuel a b Hp Hb Hf;
    (destruct fuel as [| fuel]; [lia |]); cbn [table.probe_find];
    inversion Hp as [| n' a' b' k0 Hk0 [H1 H2] Hrest]; subst.
  - rewrite Hb. cbn [mbind option_bind]. rewrite (Z.eqb_sym INVALID_ID cid).
    destruct (cid =? INVALID_ID); [done |]. by rewrite Z.eqb_refl.
  - rewrite Hk0. cbn [mbind option_bind].
    rewrite (proj2 (Z.eqb_neq _ _) H1), (proj2 (Z.eqb_neq _ _) H2).
    apply IH; [done | done | lia].
Qed.

Lemma filter_replicate_invalid m :
  filter (fun x => x ≠ INVALID_ID) (replicate m INVALID_ID) = [].
Proof.
  induction m as [| m IHm]; [done |]. cbn [replicate]. rewrite filter_cons.
  by destruct (decide (INVALID_ID ≠ INVALID_ID)).
Qed.

Section build.

Context (key : list Z) (k : Z).
Hypothesis key_nodup : NoDup key.
Hypothesis key_ids : Forall (fun c => c ≠ INVALID_ID) key.
Hypothesis k_range : 1 ≤ k ≤ 31.
Hypothesis key_fits : Z.of_nat (length key) < 2 ^ k.

Local Abbreviation cap := (2 ^ k).
Local Abbreviation mask := (wrap32 (2 ^ k - 1)).
Local Abbreviation step :=
  (fun '(keys, vals) i =>
     cid ← key !! i;
     slot ← table.probe_free (Z.to_nat cap) keys mask
              (Z.land (table.hash_cid cid) mask);
     Some (<[Z.to_nat slot := cid]> keys, <[Z.to_nat slot := Z.of_nat i]> vals)).

Lemma start_inv :
  lookup_inv key mask (Z.to_nat cap) O
             (replicate (Z.to_nat cap) INVALID_ID) (replicate (Z.to_nat cap) 0).
Proof.
  constructor.
  - apply length_replicate.
  - apply length_replicate.
  - intros s c Hs Hc. apply lookup_replicate in Hs as [-> _]. done.
  - intros s Hs. apply lookup_replicate in Hs as [_ Hs].
    by apply lookup_replicate_2.
  - intros i c Hi. lia.
  - by rewrite filter_replicate_invalid.
Qed.

(** A free slot is reached from every slot while the lookup is not full. *)
Lemma reach_free j keys vals a :
  lookup_inv key mask (Z.to_nat cap) j keys vals → (j ≤ length key)%nat →
  0 ≤ a < cap →
  ∃ n s, (n < Z.to_nat cap)%nat ∧
    table.probe_free (Z.to_nat cap) keys mask a = Some s ∧
    probes keys mask (fun c => c ≠ INVALID_ID) n a s ∧
    0 ≤ s < cap ∧ keys !! Z.to_nat s = Some INVALID_ID.
Proof.
  intros Hinv Hj Ha. pose proof (lookup_facts.cap_range k k_range) as Hcap.
  destruct Hinv as [Hlk _ _ _ _ Hcount].
  destruct (lookup_facts.exists_free keys ltac:(lia)) as [f Hf].
  pose proof (Z.mod_pos_bound (Z.of_nat f - a) cap ltac:(lia)) as Hd.
  assert (Hdz : (Z.of_nat f - a) mod cap
                = Z.of_nat (Z.to_nat ((Z.of_nat f - a) mod cap))) by lia.
  assert (Hfuel : (Z.to_nat ((Z.of_nat f - a) mod cap) < Z.to_nat cap)%nat) by lia.
  destruct (lookup_facts.probe_free_total k k_range keys f ltac:(lia) Hf _
              (Z.to_nat cap) a Ha Hdz Hfuel) as (s & Hs & Hsr & Hsf).
  destruct (probe_free_path _ _ _ _ _ Hs) as (n & Hn & Hp & _).
  by exists n, s.
Qed.

Lemma enter_inv j keys vals :
  lookup_inv key mask (Z.to_nat cap) j keys vals → (j < length key)%nat →
  ∃ keys' vals',
    step (keys, vals) j = Some (keys', vals') ∧
    lookup_inv key mask (Z.to_nat cap) (S j) keys' vals'.
Proof.
  intros Hinv Hj. pose proof (lookup_facts.cap_range k k_range) as Hcap.
  destruct (lookup_lt_is_Some_2 key j Hj) as [cid Hcid].
  pose proof (proj1 (Forall_lookup _ _) key_ids _ _ Hcid) as Hvalid. cbv beta in Hvalid.
  destruct (reach_free j keys vals (Z.land (table.hash_cid cid) mask) Hinv ltac:(lia)
              (lookup_facts.land_mask_range k k_range _))
    as (n & s & Hn & Hs & Hp & Hsr & Hsf).
  rewrite Hcid. cbn [mbind option_bind]. rewrite Hs. cbn [mbind option_bind].
  eexists _, _. split; [done |].
  destruct Hinv as [Hlk Hlv Hslots Hfree Hfound Hcount].
  (* used slots are not the slot entered *)
  assert (Hne : ∀ s' c, keys !! s' = Some c → c ≠ INVALID_ID → s' ≠ Z.to_nat s).
  { intros s' c Hs' Hc ->. rewrite Hsf in Hs'. by injection Hs' as <-. }
  constructor.
  - by rewrite length_insert.
  - by rewrite length_insert.
  - intros s' c Hs' Hc. destruct (decide (s' = Z.to_nat s)) as [-> | Hd].
    + rewrite list_lookup_insert_eq in Hs' by lia. injection Hs' as <-.
      exists j. split; [lia |]. split; [done |].
      by rewrite list_lookup_insert_eq by lia.
    + rewrite list_lookup_insert_ne in Hs' by done.
      destruct (Hslots s' c Hs' Hc) as (i & Hi & Hki & Hvi).
      exists i. split; [lia |]. split; [done |].
      by rewrite list_lookup_insert_ne.
  - intros s' Hs'. destruct (decide (s' = Z.to_nat s)) as [-> | Hd].
    + rewrite list_lookup_insert_eq in Hs' by lia. by injection Hs' as ->.
    + rewrite list_lookup_insert_ne in Hs' by done.
      rewrite list_lookup_insert_ne by done. by apply Hfree.
  - intros i c Hi Hc. destruct (decide (i = j)) as [-> | Hd].
    + rewrite Hcid in Hc. injection Hc as <-.
      exists n, s. split; [done |]. split; [| split].
      * apply probes_insert; [by intros c [_ ?] | done |].
        eapply probes_impl; [| done]. intros s' c Hs' Hc. cbv beta. split; [| done].
        destruct (Hslots s' c Hs' Hc) as (i & Hi' & Hki & _). intros ->.
        pose proof (NoDup_lookup _ _ _ _ key_nodup Hki Hcid). lia.
      * by rewrite list_lookup_insert_eq by lia.
      * by rewrite list_lookup_insert_eq by lia.
    + destruct (Hfound i c ltac:(lia) Hc) as (n' & b & Hn' & Hp' & Hkb & Hvb).
      pose proof (proj1 (Forall_lookup _ _) key_ids _ _ Hc) as Hcv. cbv beta in Hcv.
      exists n', b. split; [done |]. split; [| split].
      * apply probes_insert; [by intros c' [_ ?] | done | done].
      * rewrite list_lookup_insert_ne; [done |]. intros Heq. by apply (Hne _ _ Hkb Hcv).
      * rewrite list_lookup_insert_ne; [done |]. intros Heq. by apply (Hne _ _ Hkb Hcv).
  - pose proof (lookup_facts.filter_insert_le keys (Z.to_nat s) cid). lia.
Qed.

Lemma fold_inv : ∀ n j keys vals,
  (j + n ≤ length key)%nat →
  lookup_inv key mask (Z.to_nat cap) j keys vals →
  ∃ keys' vals',
    fold_opt step (keys, vals) (seq j n) = Some (keys', vals') ∧
    lookup_inv key mask (Z.to_nat cap) (j + n) keys' vals'.
Proof.
  induction n as [| n IH]; intros j keys vals Hj Hinv.
  - exists keys, vals. by rewrite Nat.add_0_r.
  - cbn [seq fold_opt].
    destruct (enter_inv j keys vals Hinv ltac:(lia)) as (keys1 & vals1 & Hs & Hinv1).
    rewrite Hs. cbn [mbind option_bind].
    destruct (IH (S j) keys1 vals1 ltac:(lia) Hinv1) as (keys' & vals' & Hf & Hinv').
    exists keys', vals'. split; [done |].
    by replace (j + S n)%nat with (S j + n)%nat by lia.
Qed.

End build.

(** [build_lookup] of a key of distinct component ids. *)
Lemma build_lookup_inv (key : list Z) :
  NoDup key → Forall (fun c => c ≠ INVALID_ID) key →
  0 < Z.of_nat (length key) ≤ 1073741824 →
  ∃ k keys vals,
    1 ≤ k ≤ 31 ∧ Z.of_nat (length key) < 2 ^ k ∧
    table.build_lookup key = Some (keys, vals, wrap32 (2 ^ k - 1)) ∧
    lookup_inv key (wrap32 (2 ^ k - 1)) (Z.to_nat (2 ^ k)) (length key) keys vals.
Proof.
  intros Hnd Hids Hlen. unfold table.build_lookup.
  rewrite (wrap32_small (Z.of_nat (length key))) by bits_lia.
  assert ((Z.of_nat (length key) =? 0) = false) as -> by (apply Z.eqb_neq; lia).
  rewrite (wrap32_small (Z.of_nat (length key) * 2)) by bits_lia.
  destruct (lookup_facts.next_pow2_spec (Z.of_nat (length key) * 2) ltac:(lia))
    as (k & Hk & Hcap & Hge).
  rewrite Hcap, Nat2Z.id.
  destruct (fold_inv key k Hnd Hids Hk ltac:(lia) (length key) O _ _ ltac:(lia)
              (start_inv key k)) as (keys & vals & Hf & Hinv).
  exists k, keys, vals. split; [done |]. split; [lia |].
  split; [| done]. by rewrite Hf.
Qed.

End probing.

(** X8.  The hashed column lookup agrees with the sorted one.  For a table
    whose key is strictly increasing, holds at most [2^30] component ids and
    none equal to [INVALID_ID], [finalize_schema] returns, and afterwards
    [column_index_fast(cid)] is the position [column_index(cid)] of [cid] in
    the key for every [cid] of the key, and it aborts (the failed [assert])
    for every other component id below [INVALID_ID].  ([INVALID_ID] itself
    is the key of the free slots of the lookup, and is not covered.) *)
Theorem column_index_fast_agrees (tb : table.t) :
  StronglySorted Z.lt (table.key tb) →
  Forall (fun c => 0 ≤ c < INVALID_ID) (table.key tb) →
  Z.of_nat (length (table.key tb)) ≤ 1073741824 →
  ∃ tb',
    table.finalize_schema tb = Some tb' ∧
    table.key tb' = table.key tb ∧ table.columns tb' = table.columns tb ∧
    table.entities tb' = table.entities tb ∧
    (∀ cid, cid ∈ table.key tb →
       ∃ i, table.column_index tb' cid = Some i ∧
            table.column_index_fast tb' cid = Some (Z.of_nat i) ∧
            table.key tb !! i = Some cid) ∧
    (∀ cid, 0 ≤ cid < INVALID_ID → cid ∉ table.key tb →
       table.column_index_fast tb' cid = None).
Proof.
  intros Hok Hids Hlen. unfold table.finalize_schema.
  pose proof (key.ok_NoDup _ Hok) as Hnd.
  assert (Hids' : Forall (fun c => c ≠ INVALID_ID) (table.key tb)).
  { eapply Forall_impl; [done |]. cbv beta. intros. lia. }
  destruct (table.key tb) as [| c0 key'] eqn:Hkey.
  { (* the empty archetype: the sorted search, which finds nothing *)
    eexists. split; [reflexivity |]. cbn. split_and!; try done.
    intros cid Hc. by apply elem_of_nil in Hc. }
  rewrite <- Hkey in *.
  assert (Hpos : 0 < Z.of_nat (length (table.key tb))) by (rewrite Hkey; cbn; lia).
  destruct (probing.build_lookup_inv _ Hnd Hids' ltac:(lia))
    as (k & keys & vals & Hk & Hfit & Hb & Hinv).
  rewrite Hb. cbn [mbind option_bind]. eexists. split; [reflexivity |].
  cbn [table.key table.columns table.entities]. split_and!; try done.
  - intros cid Hcid.
    pose proof (key.lower_bound_elem _ _ Hok Hcid) as Hlb.
    pose proof (lookup_lt_Some _ _ _ Hlb) as Hlt.
    exists (archetype_key.lower_bound (table.key tb) cid). split; [| split; [| done]].
    + unfold table.column_index. cbn [table.key].
      by rewrite (proj2 (Nat.ltb_lt _ _) Hlt).
    + unfold table.column_index_fast. cbn [table.lookup_mask_ table.lookup_keys_].
      pose proof (lookup_facts.cap_range k Hk) as Hcap.
      rewrite (wrap32_small (2 ^ k - 1)) by bits_lia.
      assert ((2 ^ k - 1 =? 0) = false) as -> by (apply Z.eqb_neq; lia).
      destruct (li_found _ _ _ _ _ _ Hinv _ _ Hlt Hlb) as (n & b & Hn & Hp & Hkb & Hvb).
      rewrite (wrap32_small (2 ^ k - 1)) in Hp by bits_lia.
      erewrite probing.probe_find_found; [exact Hvb | exact Hp | exact Hkb |].
      rewrite (li_keys _ _ _ _ _ _ Hinv). lia.
  - intros cid Hcid Hnin.
    unfold table.column_index_fast. cbn [table.lookup_mask_ table.lookup_keys_].
    pose proof (lookup_facts.cap_range k Hk) as Hcap.
    rewrite (wrap32_small (2 ^ k - 1)) by bits_lia.
    assert ((2 ^ k - 1 =? 0) = false) as -> by (apply Z.eqb_neq; lia).
    destruct (probing.reach_free (table.key tb) k Hk Hfit (length (table.key tb)) keys vals
                (Z.land (table.hash_cid cid) (wrap32 (2 ^ k - 1))) Hinv ltac:(lia)
                (lookup_facts.land_mask_range k Hk _))
      as (n & s & Hn & _ & Hp & _ & Hsf).
    rewrite (wrap32_small (2 ^ k - 1)) in Hp by bits_lia.
    erewrite probing.probe_find_free; [| | exact Hsf |].
    + by rewrite (proj2 (Z.eqb_neq cid INVALID_ID)) by lia.
    + eapply probing.probes_impl; [| exact Hp]. intros s' c Hs' Hc. cbv beta.
      split; [| done]. intros ->.
      destruct (li_slots _ _ _ _ _ _ Hinv s' cid Hs' Hc) as (i & _ & Hki & _).
      apply Hnin. by eapply list_elem_of_lookup_2.
    + cbn [table.lookup_keys_]. rewrite (li_keys _ _ _ _ _ _ Hinv). lia.
Qed.

Lemma column_index_fast_agrees_witness :
  let tb := table.mk 3 [0; 2; 5] [] [] [] [] 0 in
  ∃ tb',
    table.finalize_schema tb = Some tb' ∧
    table.key tb' = table.key tb ∧ table.columns tb' = table.columns tb ∧
    table.entities tb' = table.entities tb ∧
    (∀ cid, cid ∈ table.key tb →
       ∃ i, table.column_index tb' cid = Some i ∧
            table.column_index_fast tb' cid = Some (Z.of_nat i) ∧
            table.key tb !! i = Some cid) ∧
    (∀ cid, 0 ≤ cid < INVALID_ID → cid ∉ table.key tb →
       table.column_index_fast tb' cid = None).
Proof.
  intros tb. apply (column_index_fast_agrees tb).
  - cbn. repeat (constructor; try lia).
  - cbn. repeat constructor; unfold INVALID_ID, two32; lia.
  - cbn. lia.
Defined.

(** ** What an operation leaves alone *)

Module frames.

Lemma em_live w x : live w x ↔ em.live (world.entities_ w) x.
Proof. done. Qed.

(** [create_entity] and the entities that are there. *)
Lemma create_frame w w' e x A :
  world_inv w → within_limits w → world.create_entity w = Some (w', e) →
  live w x →
  live w' x ∧ x ≠ e ∧ world.get_component w' A x = world.get_component w A x.
Proof.
  intros Hinv Hlim Hc Hx.
  destruct (steps.create_entity_inv w Hinv Hlim)
    as (w2 & e2 & Hc2 & Hinv' & Hlive' & m' & tn0 & tb0 & Hcm & Hm' & Hreg' & Het & Htb0
        & Hts' & Hle & Hlo & Hv).
  rewrite Hc in Hc2. injection Hc2 as <- <-.
  destruct (components.live_at w x Hinv Hx) as (tx & rx & tbx & Hlx & Htx & Hrx & Htxl).
  destruct (em_more.create_keeps (world.entities_ w) m' e x (wi_em w Hinv) (proj1 Hlim)
              Hcm Hx) as (Hx' & Hxe & _).
  assert (Hxl' : live w' x) by (apply em_live; by rewrite Hm').
  split; [done |]. split; [done |].
  assert (Hidx : Z.to_nat (entity.index x) ≠ Z.to_nat (entity.index e)).
  { intros Heq. by apply Hxe, (components.same_slot w' x e). }
  pose proof (lookup_lt_Some _ _ _ Hlx) as Hlt.
  pose proof (proj1 (Forall_lookup _ _) (wi_tables w Hinv) tx tbx Htx) as Hok.
  pose proof Hx as (_ & Ha & _). pose proof Hxl' as (_ & Ha' & _).
  destruct (decide (tx = tn0)) as [-> | Hne].
  - rewrite Htb0 in Htx. injection Htx as <-.
    apply (components.get_component_moved w w' A x tn0 rx tn0 rx tb0 (table.add_row tb0 e).1);
      try done.
    + apply Hok.
    + by rewrite Hlo.
    + rewrite Hts'. apply list_lookup_insert_eq. by eapply lookup_lt_Some.
    + intros c Hc'. apply (contents.add_row_read _ _ _ _ _ Hok Hc').
      by eapply lookup_lt_Some.
  - apply (components.get_component_moved w w' A x tx rx tx rx tbx tbx); try done.
    + apply Hok.
    + by rewrite Hlo.
    + rewrite Hts'. by rewrite list_lookup_insert_ne.
Qed.

(** [destroy_entity] and the other entities. *)
Lemma destroy_frame w w' e x A :
  world_inv w → live w e → world.destroy_entity w e = Some w' →
  live w x → x ≠ e →
  live w' x ∧ world.get_component w' A x = world.get_component w A x.
Proof.
  intros Hinv He Hd Hx Hxe.
  destruct (steps.destroy_entity_inv w e Hinv He)
    as (w2 & tn & rn & tb & tb' & Hd2 & Hinv' & Hle & Htb & Hre & Hts' & Hents' & Hm'
        & Hrem & Hlocs' & Hreg' & Hv' & Hok').
  rewrite Hd in Hd2. injection Hd2 as <-.
  destruct (components.live_at w x Hinv Hx) as (tx & rx & tbx & Hlx & Htx & Hrx & Htxl).
  assert (Hxl' : live w' x).
  { apply em_live. rewrite Hm'. apply em_more.destroy_keeps; try done.
    split; [apply He | intros _; apply He]. }
  split; [done |].
  pose proof (proj1 (Forall_lookup _ _) (wi_tables w Hinv) tx tbx Htx) as Hok.
  pose proof (proj1 (Forall_lookup _ _) (wi_tables w Hinv) tn tb Htb) as Hokt.
  pose proof Hx as (_ & Ha & _). pose proof Hxl' as (_ & Ha' & _).
  pose proof (lookup_lt_Some _ _ _ Htb) as Htnlt.
  pose proof (lookup_lt_Some _ _ _ Hre) as Hrnlt.
  destruct (rows.remove_row_swap_ok _ tb rn Hokt Hrnlt) as (tb2 & Hrem2 & _ & Hkey' & _).
  rewrite Hrem in Hrem2. injection Hrem2 as <-.
  destruct (components.other_after_swap w e x tn rn tx rx tb tbx (mk_loc INVALID_TABLE 0)
              Hinv He Hx Hxe Hle Htb Hlx Htx Hrx)
    as [(-> & -> & Hlt & Hl2) | (Hl2 & Hrow)].
  - rewrite Htb in Htx. injection Htx as <-.
    apply (components.get_component_moved w w' A x tn (length (table.entities tb) - 1)
             tn rn tb tb'); try done.
    + apply Hok.
    + by rewrite Hlocs'.
    + rewrite Hts'. by apply list_lookup_insert_eq.
    + intros c Hc.
      rewrite (contents.remove_row_swap_read _ tb rn tb' _ c rn Hokt Hrem Hc) by lia.
      by rewrite decide_True.
  - destruct (decide (tx = tn)) as [-> | Hne].
    + rewrite Htb in Htx. injection Htx as <-. destruct (Hrow eq_refl) as [Hlt Hnr].
      apply (components.get_component_moved w w' A x tn rx tn rx tb tb'); try done.
      * apply Hok.
      * by rewrite Hlocs'.
      * rewrite Hts'. by apply list_lookup_insert_eq.
      * intros c Hc.
        rewrite (contents.remove_row_swap_read _ tb rn tb' _ c rx Hokt Hrem Hc) by lia.
        by rewrite decide_False.
    + apply (components.get_component_moved w w' A x tx rx tx rx tbx tbx); try done.
      * apply Hok.
      * by rewrite Hlocs'.
      * rewrite Hts'. by rewrite list_lookup_insert_ne.
Qed.

(** [register_component] and the components that are held. *)
Lemma register_frame w T x A :
  world_inv w →
  world.alive (world.register_component w T).1 x = world.alive w x ∧
  world.get_component (world.register_component w T).1 A x = world.get_component w A x.
Proof.
  intros Hinv. pose proof (wi_tables w Hinv) as Hts.
  pose proof (wi_reg_count w Hinv) as Hcount.
  destruct w as [m reg st et locs ver].
  unfold world.register_component, component_registry.add.
  cbn [world.registry_ world.entities_ world.storage_ world.empty_table_
       world.locations_ world.version_ world.tables] in *.
  destruct (component_registry.type_ids_ reg !! ty_index T) eqn:Hty; [done |].
  cbn [fst]. split; [done |].
  unfold world.get_component, world.alive.
  cbn [world.registry_ world.entities_ world.storage_ world.locations_].
  destruct (negb (entity_manager.alive m x)); [done |].
  unfold component_registry.get_id. cbn [component_registry.type_ids_].
  destruct (decide (ty_index A = ty_index T)) as [Heq | Hne].
  - rewrite Heq, lookup_insert_eq, Hty. cbn [mbind option_bind].
    destruct (locs !! Z.to_nat (entity.index x)) as [loc |]; [| done].
    cbn [mbind option_bind]. destruct (negb (location_valid loc)); [done |].
    destruct (world_storage.get_table st (tid loc)) as [tb |] eqn:Htb; [| done].
    cbn [mbind option_bind].
    pose proof (proj1 (Forall_lookup _ _) Hts _ tb Htb) as Hok.
    assert (table.has tb (wrap32 (Z.of_nat (length (component_registry.type_infos_ reg))))
            = false) as ->; [| done].
    apply (key.contains_false _ _ (tb_key _ _ Hok)). intros Hin.
    pose proof (proj1 (Forall_forall _ _) (tb_registered _ _ Hok) _ Hin) as Hr.
    unfold component_registry.count in *.
    rewrite wrap32_small in Hr by bits_lia. lia.
  - by rewrite lookup_insert_ne.
Qed.

End frames.

(** ** The schemas of the tables *)

Module schemas.

Lemma probe_find_schema tb tb' cid :
  schema tb' = schema tb →
  ∀ fuel a, table.probe_find fuel tb' cid a = table.probe_find fuel tb cid a.
Proof.
  unfold schema. intros [= Hk Hlk Hlv Hm]. induction fuel as [| fuel IH]; intros a; [done |].
  cbn [table.probe_find]. rewrite Hlk, Hlv, Hm.
  destruct (table.lookup_keys_ tb !! Z.to_nat a) as [k |]; [| done].
  cbn [mbind option_bind]. destruct (k =? cid); [done |].
  destruct (k =? INVALID_ID); [done |]. apply IH.
Qed.

Lemma column_index_fast_schema tb tb' cid :
  schema tb' = schema tb →
  table.column_index_fast tb' cid = table.column_index_fast tb cid.
Proof.
  intros Hs. unfold table.column_index_fast. rewrite (probe_find_schema tb tb' cid Hs).
  unfold schema in Hs. injection Hs as Hk Hlk Hlv Hm. by rewrite Hk, Hlk, Hm.
Qed.

Lemma lookup_ok_schema tb tb' : schema tb' = schema tb → lookup_ok tb → lookup_ok tb'.
Proof.
  intros Hs Hok cid i Hi. rewrite (column_index_fast_schema tb tb' cid Hs).
  apply Hok. unfold schema in Hs. injection Hs as Hk _ _ _. by rewrite <- Hk.
Qed.

(** The lookup [finalize_schema] builds. *)
Lemma finalize_lookup_ok tb tb' :
  key_ok (table.key tb) → Forall (fun c => 0 ≤ c < INVALID_ID) (table.key tb) →
  Z.of_nat (length (table.key tb)) ≤ 1073741824 →
  table.finalize_schema tb = Some tb' →
  lookup_ok tb' ∧ table.key tb' = table.key tb.
Proof.
  intros Hok Hids Hlen. unfold table.finalize_schema.
  pose proof (key.ok_NoDup _ Hok) as Hnd.
  assert (Hids' : Forall (fun c => c ≠ INVALID_ID) (table.key tb)).
  { eapply Forall_impl; [done |]. cbv beta. intros. lia. }
  destruct (table.key tb) as [| c0 key'] eqn:Hkey.
  { cbn. intros [= <-]. split; [| done]. intros cid i Hi. cbn in Hi.
    by rewrite lookup_nil in Hi. }
  rewrite <- Hkey in *.
  assert (Hpos : 0 < Z.of_nat (length (table.key tb))) by (rewrite Hkey; cbn; lia).
  destruct (probing.build_lookup_inv _ Hnd Hids' ltac:(lia))
    as (k & keys & vals & Hk & Hfit & Hb & Hinv).
  rewrite Hb. cbn [mbind option_bind]. intros [= <-]. split; [| done].
  intros cid i Hi. cbn [table.key] in Hi.
  pose proof (lookup_lt_Some _ _ _ Hi) as Hlt.
  unfold table.column_index_fast. cbn [table.lookup_mask_ table.lookup_keys_].
  pose proof (lookup_facts.cap_range k Hk) as Hcap.
  rewrite (wrap32_small (2 ^ k - 1)) by bits_lia.
  assert ((2 ^ k - 1 =? 0) = false) as -> by (apply Z.eqb_neq; lia).
  destruct (li_found _ _ _ _ _ _ Hinv _ _ Hlt Hi) as (n & b & Hn & Hp & Hkb & Hvb).
  rewrite (wrap32_small (2 ^ k - 1)) in Hp by bits_lia.
  erewrite probing.probe_find_found; [exact Hvb | exact Hp | exact Hkb |].
  rewrite (li_keys _ _ _ _ _ _ Hinv). lia.
Qed.

(** [grows] is a preorder. *)
Lemma grows_refl w : grows w w.
Proof.
  split; [done |]. split.
  - intros t tb Ht. by exists tb.
  - intros t tb' Ht Hlen. apply lookup_lt_Some in Ht. lia.
Qed.

Lemma grows_length w w' : grows w w' → (length (world.tables w) ≤ length (world.tables w'))%nat.
Proof.
  intros (_ & Hold & _).
  destruct (decide (length (world.tables w) = 0%nat)) as [-> | Hne]; [lia |].
  destruct (lookup_lt_is_Some_2 (world.tables w) (length (world.tables w) - 1)
              ltac:(lia)) as [tb Htb].
  destruct (Hold _ _ Htb) as (tb' & Ht' & _). apply lookup_lt_Some in Ht'. lia.
Qed.

Lemma grows_trans w1 w2 w3 : grows w1 w2 → grows w2 w3 → grows w1 w3.
Proof.
  intros (He1 & Ho1 & Hn1) (He2 & Ho2 & Hn2). split; [congruence |]. split.
  - intros t tb Ht. destruct (Ho1 t tb Ht) as (tb2 & Ht2 & Hs2).
    destruct (Ho2 t tb2 Ht2) as (tb3 & Ht3 & Hs3). exists tb3. split; [done | congruence].
  - intros t tb3 Ht3 Hlen.
    destruct (world.tables w2 !! t) as [tb2 |] eqn:Ht2.
    + destruct (Ho2 t tb2 Ht2) as (tb3' & Ht3' & Hs3).
      rewrite Ht3 in Ht3'. injection Ht3' as <-.
      apply (lookup_ok_schema tb2 tb3 Hs3). by apply (Hn1 t).
    + apply (Hn2 t tb3 Ht3). by apply lookup_ge_None.
Qed.

Lemma grows_same w w' :
  world.tables w' = world.tables w → world.empty_table_ w' = world.empty_table_ w →
  grows w w'.
Proof.
  intros Ht He. split; [done |]. rewrite Ht. split.
  - intros t tb Htb. by exists tb.
  - intros t tb' Htb Hlen. apply lookup_lt_Some in Htb. lia.
Qed.

Lemma grows_set_table w tid tb' :
  (∀ tb, world.tables w !! Z.to_nat tid = Some tb → schema tb' = schema tb) →
  grows w (world.set_table w tid tb').
Proof.
  intros Hs. split; [done |].
  assert (Hts : world.tables (world.set_table w tid tb')
                = <[Z.to_nat tid := tb']> (world.tables w)) by done.
  rewrite Hts. split.
  - intros t tb Ht. destruct (decide (t = Z.to_nat tid)) as [-> | Hne].
    + exists tb'. split; [| by apply Hs].
      apply list_lookup_insert_eq. by eapply lookup_lt_Some.
    + exists tb. by rewrite list_lookup_insert_ne.
  - intros t tb2 Ht Hlen. apply lookup_lt_Some in Ht.
    rewrite length_insert in Ht. lia.
Qed.

Lemma grows_set_location w i l w' : world.set_location w i l = Some w' → grows w w'.
Proof.
  unfold world.set_location. destruct (_ <? _)%nat; [| done]. intros [= <-].
  by apply grows_same.
Qed.

Lemma grows_bump w w' : grows w w' → grows w (world.bump_version w').
Proof. intros H. eapply grows_trans; [exact H |]. by apply grows_same. Qed.

Lemma grows_fold {B} (f : world.t → B → option world.t) l :
  (∀ w x w', f w x = Some w' → grows w w') →
  ∀ w w', fold_opt f w l = Some w' → grows w w'.
Proof.
  intros Hf. induction l as [| x l IH]; intros w w' H; cbn in H.
  - injection H as <-. apply grows_refl.
  - bind_inv H w1 Hw1. eapply grows_trans; [by eapply Hf | by apply IH].
Qed.

(** The row operations of a table leave its schema alone. *)
Lemma write_cell_schema tb cid r x tb' :
  table.write_cell tb cid r x = Some tb' → schema tb' = schema tb.
Proof.
  unfold table.write_cell. intros H. bind_inv H i Hi. bind_inv H c Hc.
  bind_inv H c' Hc'. by injection H as <-.
Qed.

Lemma remove_row_swap_schema tb r tb' sw :
  table.remove_row_swap tb r = Some (tb', sw) → schema tb' = schema tb.
Proof.
  unfold table.remove_row_swap. destruct (_ <? _)%nat; [| done].
  destruct (table.swap_pop _ _) as [es s]. intros H. bind_inv H cs Hcs.
  by injection H as <- _.
Qed.

Lemma remove_row_swap_nodestroy_schema tb r tb' sw :
  table.remove_row_swap_nodestroy tb r = Some (tb', sw) → schema tb' = schema tb.
Proof.
  unfold table.remove_row_swap_nodestroy. destruct (_ <? _)%nat; [| done].
  destruct (table.swap_pop _ _) as [es s]. intros H. bind_inv H cs Hcs.
  by injection H as <- _.
Qed.

Lemma get_table_lookup w tid tb :
  world_storage.get_table (world.storage_ w) tid = Some tb →
  world.tables w !! Z.to_nat tid = Some tb.
Proof. done. Qed.

Lemma move_component_grows ot nt ro rn w cid w' :
  world.move_component ot nt ro rn w cid = Some w' → grows w w'.
Proof.
  unfold world.move_component. intros H.
  bind_inv H old Hold. bind_inv H src Hsrc. bind_inv H new Hnew.
  bind_inv H new' Hnew'. bind_inv H old2 Hold2. bind_inv H old3 Hold3.
  injection H as <-. eapply grows_trans; apply grows_set_table.
  - intros tb Htb. apply get_table_lookup in Hnew. rewrite Hnew in Htb.
    injection Htb as <-. by eapply write_cell_schema.
  - intros tb Htb. apply get_table_lookup in Hold2. rewrite Hold2 in Htb.
    injection Htb as <-. by eapply write_cell_schema.
Qed.

Lemma drop_component_grows ot nt ro w cid w' :
  world.drop_component ot nt ro w cid = Some w' → grows w w'.
Proof.
  unfold world.drop_component. intros H.
  bind_inv H old Hold. bind_inv H new Hnew.
  destruct (table.has new cid).
  - injection H as <-. apply grows_refl.
  - bind_inv H old' Hold'. injection H as <-. apply grows_set_table.
    intros tb Htb. apply get_table_lookup in Hold. rewrite Hold in Htb.
    injection Htb as <-. by eapply write_cell_schema.
Qed.

Lemma migrate_grows w e tid w' r :
  world.migrate_entity_to_table w e tid = Some (w', r) → grows w w'.
Proof.
  unfold world.migrate_entity_to_table. intros H.
  bind_inv H loc Hloc. destruct (negb (location_valid loc)); [done |].
  bind_inv H old Hold. bind_inv H new Hnew.
  destruct (table.add_row_uninitialized new e) as [new' r0] eqn:Hadd.
  bind_inv H w1 Hw1. bind_inv H w2 Hw2. bind_inv H old2 Hold2.
  destruct (table.remove_row_swap_nodestroy old2 _) as [[old3 sw] |] eqn:Hrem;
    [| done]. cbn [mbind option_bind] in H.
  bind_inv H w3 Hw3. bind_inv H w4 Hw4. injection H as <- _.
  apply grows_bump.
  eapply grows_trans; [| by eapply grows_set_location].
  eapply grows_trans; cycle 1.
  { destruct (entity.valid sw); [by eapply grows_set_location |].
    injection Hw3 as <-. apply grows_refl. }
  eapply grows_trans; cycle 1.
  { apply grows_set_table. intros tb Htb. apply get_table_lookup in Hold2.
    rewrite Hold2 in Htb. injection Htb as <-.
    by eapply remove_row_swap_nodestroy_schema. }
  eapply grows_trans; cycle 1.
  { eapply grows_fold; [| exact Hw2]. intros. by eapply drop_component_grows. }
  eapply grows_trans; cycle 1.
  { eapply grows_fold; [| exact Hw1]. intros. by eapply move_component_grows. }
  apply grows_set_table. intros tb Htb. apply get_table_lookup in Hnew.
  rewrite Hnew in Htb. injection Htb as <-.
  unfold table.add_row_uninitialized in Hadd. by injection Hadd as <- _.
Qed.

Lemma signature_grows w ids w' tid :
  world_inv w →
  Forall (fun cid => 0 ≤ cid < Z.of_nat (component_registry.count (world.registry_ w))) ids →
  world.get_table_for_signature w ids = Some (w', tid) → grows w w'.
Proof.
  intros Hinv Hids. unfold world.get_table_for_signature. intros H.
  destruct (world_storage.get_or_create_table _ _ _) as [[st t] |] eqn:Hg; [| done].
  cbn [mbind option_bind] in H. injection H as <- _.
  unfold world_storage.get_or_create_table in Hg.
  destruct (world_storage.key_tables_ _ !! _).
  { injection Hg as <- _. by apply grows_same; destruct w. }
  unfold world_storage.create_table in Hg. bind_inv Hg cols Hcols. bind_inv Hg tb Htb.
  injection Hg as <- _.
  pose proof (key.canonicalise_ok ids) as Hk.
  pose proof (wi_reg_count w Hinv) as Hcount.
  assert (Hreg : Forall (fun cid => 0 ≤ cid
                           < Z.of_nat (component_registry.count (world.registry_ w)))
                        (archetype_key.canonicalise ids)).
  { apply Forall_forall. intros c Hc. apply (proj1 (key.elem_of_canonicalise _ _)) in Hc.
    by apply (proj1 (Forall_forall _ _) Hids). }
  destruct (finalize_lookup_ok
              (table.mk (wrap32 (Z.of_nat (length (world_storage.tables_ (world.storage_ w)))))
                        (archetype_key.canonicalise ids) [] cols [] [] 0) tb)
    as [Hlk _]; [exact Hk | | | exact Htb |].
  { cbn [table.key]. eapply Forall_impl; [exact Hreg |]. cbv beta. intros c Hc. bits_lia. }
  { cbn [table.key].
    pose proof (signature.sorted_length_le _ 0 _ Hk Hreg ltac:(lia)). lia. }
  split; [done |]. unfold world.tables. cbn [world.storage_ world.with_storage
                                               world_storage.tables_]. split.
  - intros n tb0 Ht. exists tb0. split; [| done]. by apply lookup_app_l_Some.
  - intros n tb' Ht Hlen. apply lookup_app_Some in Ht as [Ht | [_ Ht]].
    + apply lookup_lt_Some in Ht. lia.
    + apply list_lookup_singleton_Some in Ht as [_ <-]. done.
Qed.

Lemma create_entity_grows w w' e : world.create_entity w = Some (w', e) → grows w w'.
Proof.
  unfold world.create_entity. intros H.
  destruct (entity_manager.create_entity _) as [[m e0] |]; [| done].
  cbn [mbind option_bind] in H.
  set (w1 := world.ensure_location_capacity (world.with_entities w m) (entity.index e0)) in *.
  assert (H1 : grows w w1).
  { subst w1. unfold world.ensure_location_capacity. destruct (_ <=? _)%nat;
      by apply grows_same. }
  bind_inv H tb Htb. destruct (table.add_row tb e0) as [tb' r] eqn:Hadd.
  bind_inv H w2 Hw2. injection H as <- _. apply grows_bump.
  eapply grows_trans; [exact H1 |].
  eapply grows_trans; [| by eapply grows_set_location].
  apply grows_set_table. intros tb0 Htb0. apply get_table_lookup in Htb.
  rewrite Htb in Htb0. injection Htb0 as <-.
  unfold table.add_row in Hadd. by injection Hadd as <- _.
Qed.

Lemma destroy_entity_grows w e w' : world.destroy_entity w e = Some w' → grows w w'.
Proof.
  unfold world.destroy_entity. destruct (negb _).
  { intros [= <-]. apply grows_refl. }
  intros H. bind_inv H loc Hloc. bind_inv H w1 Hw1. injection H as <-.
  apply grows_bump. apply (grows_trans w w1); [| by apply grows_same].
  destruct (location_valid loc); [| injection Hw1 as <-; apply grows_refl].
  unfold world.remove_row_dense_and_fixup in Hw1.
  bind_inv Hw1 loc' Hloc'. destruct (negb (location_valid loc')); [done |].
  bind_inv Hw1 tb Htb.
  destruct (table.remove_row_swap tb _) as [[tb' sw] |] eqn:Hrem; [| done].
  cbn [mbind option_bind] in Hw1. bind_inv Hw1 w2 Hw2. bind_inv Hw1 w3 Hw3.
  injection Hw1 as <-. apply grows_bump.
  eapply grows_trans; [| by eapply grows_set_location].
  eapply grows_trans; cycle 1.
  { destruct (entity.valid sw); [by eapply grows_set_location |].
    injection Hw2 as <-. apply grows_refl. }
  apply grows_set_table. intros tb0 Htb0. apply get_table_lookup in Htb.
  rewrite Htb in Htb0. injection Htb0 as <-. by eapply remove_row_swap_schema.
Qed.

Lemma key_registered w tb tid :
  world_inv w → world_storage.get_table (world.storage_ w) tid = Some tb →
  Forall (fun cid => 0 ≤ cid < Z.of_nat (component_registry.count (world.registry_ w)))
         (table.key tb).
Proof.
  intros Hinv Htb. apply get_table_lookup in Htb.
  apply (tb_registered _ _ (proj1 (Forall_lookup _ _) (wi_tables w Hinv) _ _ Htb)).
Qed.

Lemma add_component_grows w T e v w' :
  world_inv w → world.add_component w T e v = Some w' → grows w w'.
Proof.
  intros Hinv. unfold world.add_component. destruct (negb _).
  { intros [= <-]. apply grows_refl. }
  intros H. bind_inv H cid Hcid. bind_inv H loc Hloc.
  destruct (negb (location_valid loc)); [done |]. bind_inv H old Hold.
  destruct (table.has old cid). { injection H as <-. apply grows_refl. }
  destruct (world.get_table_for_signature w _) as [[w1 tid] |] eqn:Hsig; [| done].
  cbn [mbind option_bind] in H.
  destruct (world.migrate_entity_to_table w1 e tid) as [[w2 r] |] eqn:Hmig; [| done].
  cbn [mbind option_bind] in H. bind_inv H new Hnew. bind_inv H new' Hnew'.
  injection H as <-. apply grows_bump.
  eapply grows_trans.
  { eapply signature_grows; [exact Hinv | | exact Hsig].
    apply Forall_app. split; [by eapply key_registered |].
    apply Forall_singleton. by apply (wi_reg_ids w Hinv (ty_index T)). }
  eapply grows_trans; [by eapply migrate_grows |].
  apply grows_set_table. intros tb Htb. apply get_table_lookup in Hnew.
  rewrite Hnew in Htb. injection Htb as <-.
  destruct v as [v |].
  - by eapply write_cell_schema.
  - unfold table.default_construct_at in Hnew'. bind_inv Hnew' c Hc.
    by eapply write_cell_schema.
Qed.

Lemma remove_component_grows w T e w' :
  world_inv w → world.remove_component w T e = Some w' → grows w w'.
Proof.
  intros Hinv. unfold world.remove_component. destruct (negb _).
  { intros [= <-]. apply grows_refl. }
  intros H. bind_inv H cid Hcid. bind_inv H loc Hloc.
  destruct (negb (location_valid loc)); [done |]. bind_inv H old Hold.
  destruct (negb (table.has old cid)). { injection H as <-. apply grows_refl. }
  destruct (world.get_table_for_signature w _) as [[w1 tid] |] eqn:Hsig; [| done].
  cbn [mbind option_bind] in H.
  destruct (world.migrate_entity_to_table w1 e tid) as [[w2 r] |] eqn:Hmig; [| done].
  cbn [mbind option_bind] in H. injection H as <-. apply grows_bump.
  eapply grows_trans; [| by eapply migrate_grows].
  eapply signature_grows; [exact Hinv | | exact Hsig].
  apply Forall_forall. intros c Hc. apply list_elem_of_delete_inv in Hc.
  by apply (proj1 (Forall_forall _ _) (key_registered w old _ Hinv Hold)).
Qed.

Lemma table_reserve_schema tb val tb' :
  table.reserve tb val = Some tb' → schema tb' = schema tb.
Proof.
  unfold table.reserve. destruct (_ <? _); [done |]. intros H.
  bind_inv H cs Hcs. by injection H as <-.
Qed.

Lemma reserve_grows w Cs count w' :
  world_inv w → world.reserve w Cs count = Some w' → grows w w'.
Proof.
  intros Hinv H.
  destruct (reserve_steps _ _ _ _ H) as (ids & w1 & tid & tb & tb' & Hids & Hsig & Htb & Hr & ->).
  apply grows_bump. apply (grows_trans w w1).
  - eapply signature_grows; [exact Hinv | | exact Hsig].
    by eapply reserving.ids_registered.
  - apply grows_set_table. intros tb0 Htb0.
    unfold world_storage.get_table in Htb. unfold world.tables in Htb0.
    rewrite Htb in Htb0. injection Htb0 as <-.
    by eapply table_reserve_schema.
Qed.

Lemma run_op_grows w o w' : world_inv w → run_op w o = Some w' → grows w w'.
Proof.
  intros Hinv H. destruct o as [T | | e | T e v | T e | Cs count]; cbn in H.
  - injection H as <-. apply grows_same; unfold world.register_component;
      by destruct (component_registry.add _ _).
  - destruct (world.create_entity w) as [[w1 e] |] eqn:Hc; [| done].
    injection H as <-. by eapply create_entity_grows.
  - by eapply destroy_entity_grows.
  - by eapply add_component_grows.
  - by eapply remove_component_grows.
  - by eapply reserve_grows.
Qed.

Lemma grows_inv w w' : grows w w' → schemas_inv w → schemas_inv w'.
Proof.
  intros (He & Hold & Hnew) [Hl (tb & Htb & Hk)]. constructor.
  - apply Forall_lookup. intros t tb' Ht'.
    destruct (world.tables w !! t) as [tb0 |] eqn:Ht0.
    + destruct (Hold t tb0 Ht0) as (tb2 & Ht2 & Hs). rewrite Ht' in Ht2.
      injection Ht2 as <-. apply (lookup_ok_schema tb0 tb' Hs).
      by apply (proj1 (Forall_lookup _ _) Hl t).
    + apply (Hnew t tb' Ht'). by apply lookup_ge_None.
  - destruct (Hold _ _ Htb) as (tb' & Ht' & Hs). exists tb'. rewrite He.
    split; [done |]. unfold schema in Hs. injection Hs as -> _ _ _. done.
Qed.

Lemma reachable_schemas w : reachable w → schemas_inv w.
Proof.
  induction 1 as [w Hnew | w o w' Hr IH Hlim Hh Hrun].
  - rewrite store.new_initial in Hnew. injection Hnew as <-. constructor.
    + repeat constructor. intros cid i Hi. cbn in Hi. by rewrite lookup_nil in Hi.
    + by eexists.
  - eapply grows_inv; [| exact IH]. eapply run_op_grows; [| exact Hrun].
    by apply store.reachable_world_inv.
Qed.

End schemas.

(** ** Components through the public operations *)

Module usage.

(** What an operation does to the registry. *)
Lemma step_registry w o w' :
  world_inv w → within_limits w → op_honest w o → run_op w o = Some w' →
  world.registry_ w' =
    match o with
    | op_register T => (component_registry.add (world.registry_ w) T).1
    | _ => world.registry_ w
    end.
Proof.
  intros Hinv Hlim Hh Hrun.
  destruct o as [T | | e | T e v | T e | Cs count]; cbn in Hrun, Hh;
    [| | | | | destruct (reserve_steps _ _ _ _ Hrun) as (ids & _ & _ & _ & _ & Hids & _);
             destruct (reserving.reserve_spec w Cs count ids Hinv Hlim Hh Hids)
               as (w1 & t & tb & extra & Hrun' & _ & _ & _ & _ & _ & _ & _ & Hreg & _);
             rewrite Hrun in Hrun'; injection Hrun' as ->; exact Hreg].
  - injection Hrun as <-. unfold world.register_component.
    by destruct (component_registry.add _ _).
  - destruct (steps.create_entity_inv w Hinv Hlim)
      as (w1 & e & Hc & _ & _ & m' & tn0 & tb0 & _ & _ & Hreg & _).
    rewrite Hc in Hrun. by injection Hrun as <-.
  - destruct Hh as [He Hl]. destruct (world.alive w e) eqn:Ha.
    + destruct (steps.destroy_entity_inv w e Hinv (Hl eq_refl))
        as (w1 & ? & ? & ? & ? & Hd & _ & _ & _ & _ & _ & _ & _ & _ & _ & Hreg & _).
      rewrite Hd in Hrun. by injection Hrun as <-.
    + unfold world.destroy_entity in Hrun. unfold world.alive in Ha.
      rewrite Ha in Hrun. by injection Hrun as <-.
  - destruct Hh as [He Hl]. destruct (world.alive w e) eqn:Ha.
    + destruct (component_registry.get_id (world.registry_ w) T) as [cid |] eqn:Hcid.
      * destruct (components.add_component_inv w T e v cid Hinv Hlim (Hl eq_refl) Hcid)
          as (w1 & Hadd & _ & _ & Hreg & _).
        rewrite Hadd in Hrun. by injection Hrun as <-.
      * unfold world.add_component in Hrun. by rewrite Ha, Hcid in Hrun.
    + unfold world.add_component in Hrun. rewrite Ha in Hrun. by injection Hrun as <-.
  - destruct Hh as [He Hl]. destruct (world.alive w e) eqn:Ha.
    + destruct (component_registry.get_id (world.registry_ w) T) as [cid |] eqn:Hcid.
      * destruct (components.remove_component_inv w T e cid Hinv Hlim (Hl eq_refl) Hcid)
          as (w1 & Hrem & _ & _ & Hreg & _).
        rewrite Hrem in Hrun. by injection Hrun as <-.
      * unfold world.remove_component in Hrun. by rewrite Ha, Hcid in Hrun.
    + unfold world.remove_component in Hrun. rewrite Ha in Hrun. by injection Hrun as <-.
Qed.

Lemma reachable_registry w : reachable w → registry_ok (world.registry_ w).
Proof.
  induction 1 as [w Hnew | w o w' Hr IH Hlim Hh Hrun].
  - rewrite store.new_initial in Hnew. injection Hnew as <-. apply registry.empty_ok.
  - rewrite (step_registry w o w' (store.reachable_world_inv w Hr) Hlim Hh Hrun).
    destruct o; try done. apply registry.add_ok; [done |].
    destruct Hlim as (_ & _ & Hc). bits_lia.
Qed.

(** Distinct types have distinct ids. *)
Lemma get_id_inj r A B c :
  registry_ok r → component_registry.get_id r A = Some c →
  component_registry.get_id r B = Some c → ty_index A = ty_index B.
Proof.
  intros Hok HA HB.
  destruct (Hok _ _ HA) as (i1 & Hi1 & _ & Ht1 & _).
  destruct (Hok _ _ HB) as (i2 & Hi2 & _ & Ht2 & _).
  rewrite Hi1 in Hi2. injection Hi2 as <-. congruence.
Qed.



(** A component that is read is held in the sense of [try_get_component]. *)
Lemma held w T e a :
  world_inv w → handle e → world.get_component w T e = Some a →
  live w e ∧ is_Some (component_registry.get_id (world.registry_ w) T) ∧
  world.try_get_component w T e ≠ Some None.
Proof.
  intros Hinv He HA. pose proof (components.holder_live w T e a Hinv He HA) as Hlive.
  split; [done |].
  destruct (components.get_component_Some w T e a Hinv HA)
    as (cid & tn & rn & tb & Hcid & Hl & Hv & Ht & Hhas & _).
  split; [by eexists |].
  destruct (components.live_at w e Hinv Hlive) as (t & r & tb' & Hl' & Ht' & _ & Htl).
  rewrite Hl in Hl'. injection Hl' as -> ->. rewrite Nat2Z.id in Ht.
  rewrite Ht in Ht'. injection Ht' as <-. destruct Hlive as (_ & Ha & _).
  intros Hnull.
  apply (components.try_get_has w T e cid t r tb Hinv Ha Hcid Hl Htl Ht) in Hnull.
  congruence.
Qed.

(** [create_entity] in a state of an honest run. *)
Lemma create_bare w :
  reachable w → within_limits w →
  ∃ w' e,
    world.create_entity w = Some (w', e) ∧ live w' e ∧
    (∀ x, live w x → x ≠ e) ∧
    (∀ T, is_Some (component_registry.get_id (world.registry_ w') T) →
          world.try_get_component w' T e = Some None) ∧
    world.version w' = wrap64 (world.version w + 1) ∧
    world.registry_ w' = world.registry_ w ∧
    length (world.tables w') = length (world.tables w) ∧
    (entity_manager.capacity (world.entities_ w')
     ≤ entity_manager.capacity (world.entities_ w) + 1)%nat.
Proof.
  intros Hr Hlim. pose proof (store.reachable_world_inv w Hr) as Hinv.
  destruct (steps.create_entity_inv w Hinv Hlim)
    as (w' & e & Hc & Hinv' & Hlive' & m' & tn0 & tb0 & Hcm & Hm' & Hreg' & Het & Htb0
        & Hts' & Hle & Hlo & Hv).
  exists w', e. split; [done |]. split; [done |]. split; [| split; [| split_and!; try done]].
  - intros x Hx. by destruct (frames.create_frame w w' e x examples.TA Hinv Hlim Hc Hx)
      as (_ & ? & _).
  - intros T [cid Hcid]. pose proof Hlive' as (_ & Ha' & _).
    pose proof (lookup_lt_Some _ _ _ Htb0) as Hlt.
    pose proof (wi_tables_count w Hinv) as Hcount.
    apply (components.try_get_has w' T e cid tn0 (length (table.entities tb0))
             (table.add_row tb0 e).1 Hinv' Ha' Hcid Hle ltac:(lia)).
    + rewrite Hts'. by apply list_lookup_insert_eq.
    + destruct (schemas.reachable_schemas w Hr) as [_ (tb & Htb & Hk)].
      rewrite Het, Nat2Z.id, Htb0 in Htb. injection Htb as <-.
      unfold table.has, table.add_row. cbn [fst table.with_rows table.key].
      by rewrite Hk.
  - rewrite Hts'. by rewrite length_insert.
  - destruct (em_facts.create_spec (world.entities_ w) (wi_em w Hinv) (proj1 Hlim))
      as (m2 & i & g & Hc2 & _ & _ & _ & _ & _ & Hcase).
    rewrite Hcm in Hc2. injection Hc2 as <- _. rewrite Hm'.
    unfold entity_manager.capacity.
    destruct Hcase as [(_ & _ & _ & -> & _) | (_ & ->)]; [| lia].
    rewrite length_app. cbn. lia.
Qed.

End usage.

(** X9.  In a state of an honest run of the store (reached from [world()]
    by [register_component], [create_entity], [destroy_entity],
    [add_component], [remove_component] and [reserve] calls, every handle
    passed being stale or the handle of an entity in use, every [reserve]
    being for fewer than [2^32] rows, every call made with fewer than
    [2^32 - 1] entity slots and tables and fewer than [2^30] component
    types), itself inside these limits,
    for an entity [e] in use (alive, its slot not on the free list) that
    does not hold the registered component [T] ([try_get_component<T>(e)]
    is [nullptr]), [add_component<T>(e, v)] returns, afterwards
    [get_component<T>(e)] reads a value, the value [v] when one was passed,
    and the version of the store has been incremented twice. *)
Theorem add_component_then_get (w : world.t) (T : ctype) (e : entity.t) (v : option value) :
  reachable w → within_limits w → live w e →
  is_Some (component_registry.get_id (world.registry_ w) T) →
  world.try_get_component w T e = Some None →
  ∃ w' c,
    world.add_component w T e v = Some w' ∧
    world.get_component w' T e = Some c ∧ (∀ a, v = Some a → c = a) ∧
    world.version w' = wrap64 (wrap64 (world.version w + 1) + 1).
Proof.
  intros Hr Hlim Hlive [cid Hcid] Hnull.
  pose proof (store.reachable_world_inv w Hr) as Hinv.
  destruct (components.add_component_spec w T e v cid Hinv Hlim Hlive Hcid)
    as (w' & Hadd & _ & _ & _ & _ & _ & Hnew & _).
  destruct (Hnew Hnull) as ((c & Hc & Hv) & Hver). by exists w', c.
Qed.

Lemma add_component_then_get_witness :
  ∃ w' c,
    world.add_component examples.scene examples.TC examples.e1 (Some 9) = Some w' ∧
    world.get_component w' examples.TC examples.e1 = Some c ∧
    (∀ a, Some 9 = Some a → c = a) ∧
    world.version w' = wrap64 (wrap64 (world.version examples.scene + 1) + 1).
Proof.
  apply (add_component_then_get examples.scene examples.TC examples.e1 (Some 9)).
  - exact tracking.scene_reachable.
  - apply store.within_limitsb_spec. vm_compute. reflexivity.
  - apply store.liveb_spec. vm_compute. reflexivity.
  - exists 2. vm_compute. reflexivity.
  - vm_compute. reflexivity.
Defined.

(** X10.  Calls that ask for what is already the case change nothing, not
    even the version, in any state of the store.  For an alive handle [e]
    whose location is valid: [add_component<T>(e, v)] when
    [try_get_component<T>(e)] is a pointer returns and leaves the store as
    it was (the value held is not overwritten), and so does
    [remove_component<T>(e)] when [try_get_component<T>(e)] is [nullptr]. *)
Theorem redundant_calls_change_nothing (w : world.t) (T : ctype) (e : entity.t) :
  world.alive w e = true → location_valid (world.get_location w e) = true →
  (∀ p v, world.try_get_component w T e = Some (Some p) →
          world.add_component w T e v = Some w) ∧
  (world.try_get_component w T e = Some None →
   world.remove_component w T e = Some w).
Proof.
  intros Ha Hv. unfold world.get_location in Hv. unfold world.alive in Ha.
  rewrite Ha in Hv. cbn [negb] in Hv.
  unfold world.try_get_component, world.add_component, world.remove_component, world.alive.
  rewrite Ha. cbn [negb].
  destruct (component_registry.get_id (world.registry_ w) T) as [cid |];
    cbn [mbind option_bind]; [| done].
  destruct (world.locations_ w !! Z.to_nat (entity.index e)) as [loc |];
    cbn [mbind option_bind default] in Hv |- *; [| done].
  change (location_valid loc = true) in Hv. rewrite Hv. cbn [negb].
  destruct (world_storage.get_table (world.storage_ w) (tid loc)) as [tb |];
    cbn [mbind option_bind]; [| done].
  destruct (table.has tb cid); cbn [negb]; [| done].
  split; [done |]. by destruct (table.column_index tb cid).
Qed.

Lemma redundant_calls_change_nothing_witness :
  (∀ p v, world.try_get_component examples.scene examples.TA examples.e0 = Some (Some p) →
          world.add_component examples.scene examples.TA examples.e0 v
          = Some examples.scene) ∧
  (world.try_get_component examples.scene examples.TA examples.e0 = Some None →
   world.remove_component examples.scene examples.TA examples.e0
     = Some examples.scene).
Proof.
  apply (redundant_calls_change_nothing examples.scene examples.TA examples.e0).
  - vm_compute. reflexivity.
  - vm_compute. reflexivity.
Defined.

(** X11.  In a state of an honest run of the store (reached from [world()]
    by [register_component], [create_entity], [destroy_entity],
    [add_component], [remove_component] and [reserve] calls, every handle
    passed being stale or the handle of an entity in use, every [reserve]
    being for fewer than [2^32] rows, every call made with fewer than
    [2^32 - 1] entity slots and tables and fewer than [2^30] component
    types), itself inside these limits:
    [remove_component<T>(e)] for a component that [e] holds
    ([get_component<T>(e)] reads a value) returns; afterwards
    [try_get_component<T>(e)] is [nullptr], every component of another type
    that [e] held reads the value it had, and the version has been
    incremented twice. *)
Theorem remove_component_removes (w : world.t) (T : ctype) (e : entity.t) (a : value) :
  reachable w → within_limits w → handle e →
  world.get_component w T e = Some a →
  ∃ w',
    world.remove_component w T e = Some w' ∧
    world.try_get_component w' T e = Some None ∧
    (∀ A b, ty_index A ≠ ty_index T →
            world.get_component w A e = Some b → world.get_component w' A e = Some b) ∧
    world.version w' = wrap64 (wrap64 (world.version w + 1) + 1).
Proof.
  intros Hr Hlim He HT.
  pose proof (store.reachable_world_inv w Hr) as Hinv.
  destruct (usage.held w T e a Hinv He HT) as (Hlive & [cid Hcid] & Hheld).
  destruct (components.remove_component_spec w T e cid Hinv Hlim Hlive Hcid)
    as (w' & Hrem & _ & _ & _ & _ & Hkeep & Hgone & _).
  destruct (Hgone Hheld) as [Hnull Hver].
  exists w'. split; [done |]. split; [done |]. split; [| done].
  intros A b Hne HA.
  destruct (components.get_component_Some w A e b Hinv HA) as (cA & _ & _ & _ & HcA & _).
  apply (Hkeep A cA b HcA); [| done]. intros ->.
  apply Hne. by apply (usage.get_id_inj _ A T cid (usage.reachable_registry w Hr)).
Qed.

Lemma remove_component_removes_witness :
  ∃ w',
    world.remove_component examples.scene examples.TA examples.e0 = Some w' ∧
    world.try_get_component w' examples.TA examples.e0 = Some None ∧
    (∀ A b, ty_index A ≠ ty_index examples.TA →
            world.get_component examples.scene A examples.e0 = Some b →
            world.get_component w' A examples.e0 = Some b) ∧
    world.version w' = wrap64 (wrap64 (world.version examples.scene + 1) + 1).
Proof.
  apply (remove_component_removes examples.scene examples.TA examples.e0 5).
  - exact tracking.scene_reachable.
  - apply store.within_limitsb_spec. vm_compute. reflexivity.
  - apply make_handle; bits_lia.
  - vm_compute. reflexivity.
Defined.

(** X12.  No honest operation touches the components of an entity it is
    not called on.  In a state of an honest run of the store (reached from [world()]
    by [register_component], [create_entity], [destroy_entity],
    [add_component], [remove_component] and [reserve] calls, every handle
    passed being stale or the handle of an entity in use, every [reserve]
    being for fewer than [2^32] rows, every call made with fewer than
    [2^32 - 1] entity slots and tables and fewer than [2^30] component
    types), itself inside these limits: after
    [register_component], [create_entity], [reserve] for fewer than [2^32]
    rows, or [destroy_entity], [add_component], [remove_component] on
    another handle that is stale or names an entity in use, an entity [x]
    in use is still in use and [get_component<A>(x)] reads what it read
    before, for every [A] (also when the operation moved the row of [x] to
    fill a hole). *)
Theorem other_entities_keep_components (w w' : world.t) (o : op) (x : entity.t) (A : ctype) :
  reachable w → within_limits w → op_honest w o → run_op w o = Some w' →
  live w x → op_entity o ≠ Some x →
  live w' x ∧ world.get_component w' A x = world.get_component w A x.
Proof.
  intros Hr Hlim Hh Hrun Hx Hne.
  pose proof (store.reachable_world_inv w Hr) as Hinv.
  destruct o as [T | | e | T e v | T e | Cs count]; cbn in Hrun, Hh, Hne;
    [| | | | | by apply (reserving.reserve_frame w Cs count w' x A)].
  - injection Hrun as <-. destruct (frames.register_frame w T x A Hinv) as [Ha Hg].
    split; [| done]. destruct Hx as (? & Hax & Hf). split; [done |].
    split; [by rewrite Ha |].
    unfold world.register_component. by destruct (component_registry.add _ _).
  - destruct (world.create_entity w) as [[w1 e] |] eqn:Hc; [| done].
    injection Hrun as <-.
    destruct (frames.create_frame w w1 e x A Hinv Hlim Hc Hx) as (? & _ & ?). done.
  - assert (Hxe : x ≠ e) by congruence.
    destruct Hh as [He Hl]. destruct (world.alive w e) eqn:Ha.
    + by apply (frames.destroy_frame w w' e x A Hinv (Hl eq_refl) Hrun Hx Hxe).
    + unfold world.destroy_entity in Hrun. unfold world.alive in Ha.
      rewrite Ha in Hrun. by injection Hrun as <-.
  - assert (Hxe : x ≠ e) by congruence.
    destruct Hh as [He Hl]. destruct (world.alive w e) eqn:Ha.
    + destruct (component_registry.get_id (world.registry_ w) T) as [cid |] eqn:Hcid.
      * destruct (components.add_component_spec w T e v cid Hinv Hlim (Hl eq_refl) Hcid)
          as (w1 & Hadd & _ & Hm & _ & _ & _ & _ & _ & Hframe).
        rewrite Hadd in Hrun. injection Hrun as <-.
        split; [by apply (components.live_same w) | by apply Hframe].
      * unfold world.add_component in Hrun. by rewrite Ha, Hcid in Hrun.
    + unfold world.add_component in Hrun. rewrite Ha in Hrun. by injection Hrun as <-.
  - assert (Hxe : x ≠ e) by congruence.
    destruct Hh as [He Hl]. destruct (world.alive w e) eqn:Ha.
    + destruct (component_registry.get_id (world.registry_ w) T) as [cid |] eqn:Hcid.
      * destruct (components.remove_component_spec w T e cid Hinv Hlim (Hl eq_refl) Hcid)
          as (w1 & Hrem & _ & Hm & _ & _ & _ & _ & _ & Hframe).
        rewrite Hrem in Hrun. injection Hrun as <-.
        split; [by apply (components.live_same w) | by apply Hframe].
      * unfold world.remove_component in Hrun. by rewrite Ha, Hcid in Hrun.
    + unfold world.remove_component in Hrun. rewrite Ha in Hrun. by injection Hrun as <-.
Qed.

Lemma other_entities_keep_components_witness :
  ∃ w',
    run_op examples.scene (op_destroy examples.e0) = Some w' ∧
    live w' examples.e1 ∧
    world.get_component w' examples.TB examples.e1
      = world.get_component examples.scene examples.TB examples.e1.
Proof.
  eexists. split; [vm_compute; reflexivity |].
  apply (other_entities_keep_components examples.scene _ (op_destroy examples.e0)
           examples.e1 examples.TB).
  - exact tracking.scene_reachable.
  - apply store.within_limitsb_spec. vm_compute. reflexivity.
  - apply store.op_honestb_spec. vm_compute. reflexivity.
  - vm_compute. reflexivity.
  - apply store.liveb_spec. vm_compute. reflexivity.
  - vm_compute. discriminate.
Defined.

(** X13.  In a state of an honest run of the store (reached from [world()]
    by [register_component], [create_entity], [destroy_entity],
    [add_component], [remove_component] and [reserve] calls, every handle
    passed being stale or the handle of an entity in use, every [reserve]
    being for fewer than [2^32] rows, every call made with fewer than
    [2^32 - 1] entity slots and tables and fewer than [2^30] component
    types), itself inside these limits:
    [create_entity] returns a handle that names an entity in use, differs
    from every entity that was in use, and holds no component:
    [try_get_component<T>] is [nullptr] for every registered [T].  The
    version has been incremented once. *)
Theorem create_entity_is_bare (w : world.t) :
  reachable w → within_limits w →
  ∃ w' e,
    world.create_entity w = Some (w', e) ∧ live w' e ∧
    (∀ x, live w x → x ≠ e) ∧
    (∀ T, is_Some (component_registry.get_id (world.registry_ w') T) →
          world.try_get_component w' T e = Some None) ∧
    world.version w' = wrap64 (world.version w + 1).
Proof.
  intros Hr Hlim.
  destruct (usage.create_bare w Hr Hlim) as (w' & e & Hc & Hl & Hnew & Hbare & Hv & _).
  by exists w', e.
Qed.

Lemma create_entity_is_bare_witness :
  ∃ w' e,
    world.create_entity examples.scene = Some (w', e) ∧ live w' e ∧
    (∀ x, live examples.scene x → x ≠ e) ∧
    (∀ T, is_Some (component_registry.get_id (world.registry_ w') T) →
          world.try_get_component w' T e = Some None) ∧
    world.version w' = wrap64 (world.version examples.scene + 1).
Proof.
  apply (create_entity_is_bare examples.scene).
  - exact tracking.scene_reachable.
  - apply store.within_limitsb_spec. vm_compute. reflexivity.
Defined.



(** ** What a refresh of the render cache collects *)

Module caching.

(** The test of the scan, on canonical lists. *)
Lemma scan_test (key req : list Z) :
  key_ok key → key_ok req →
  (if (length key <? length req)%nat then false
   else render_cache.contains_all_sorted key req) = true ↔
  ∀ c, c ∈ req → c ∈ key.
Proof.
  intros Hk Hr. destruct (length key <? length req)%nat eqn:Hlen.
  - split; [done |]. intros Hsub. apply Nat.ltb_lt in Hlen.
    pose proof (submseteq_length _ _ (NoDup_submseteq _ _ (key.ok_NoDup _ Hr) Hsub)).
    lia.
  - by apply key_more.contains_all_sorted_spec.
Qed.

Section scan.

Variable w : world.t.
Variable rc : render_cache.t.
Hypothesis Hinv : world_inv w.
Hypothesis Hreq : key_ok (render_cache.required_ rc).

Lemma scan_fold : ∀ n a acc k,
  (a + n ≤ length (world.tables w))%nat →
  ∃ found,
    fold_opt (fun '(acc, scanned) i =>
                let tid := wrap32 (Z.of_nat i) in
                tb ← world_storage.get_table (world.storage_ w) tid;
                if (length (table.key tb) <? length (render_cache.required_ rc))%nat
                then Some (acc, S scanned)
                else if render_cache.contains_all_sorted (table.key tb)
                          (render_cache.required_ rc)
                     then Some (acc ++ [tid], S scanned)
                     else Some (acc, S scanned))
             (acc, k) (seq a n) = Some (acc ++ found, (k + n)%nat) ∧
    StronglySorted Z.lt found ∧
    ∀ tid, tid ∈ found ↔
      ∃ t tb, tid = Z.of_nat t ∧ (a ≤ t < a + n)%nat ∧
              world.tables w !! t = Some tb ∧
              ∀ c, c ∈ render_cache.required_ rc → c ∈ table.key tb.
Proof.
  pose proof (wi_tables_count w Hinv) as Hcount.
  match goal with |- context [fold_opt ?f _ _] => set (F := f) end.
  induction n as [| n IH]; intros a acc k Hle.
  - exists []. cbn. rewrite app_nil_r, Nat.add_0_r. split; [done |].
    split; [constructor |]. intros tid. split; [by intros ?%elem_of_nil |].
    intros (t & tb & _ & ? & _). lia.
  - cbn [seq fold_opt].
    destruct (lookup_lt_is_Some_2 (world.tables w) a ltac:(lia)) as [tb Htb].
    assert (Hget : world_storage.get_table (world.storage_ w) (Z.of_nat a) = Some tb).
    { unfold world_storage.get_table. rewrite Nat2Z.id. exact Htb. }
    pose proof (proj1 (Forall_lookup _ _) (wi_tables w Hinv) a tb Htb) as Hok.
    pose proof (scan_test (table.key tb) (render_cache.required_ rc)
                  (tb_key _ _ Hok) Hreq) as Htest.
    assert (HF : F (acc, k) a =
                 Some (if (if (length (table.key tb)
                               <? length (render_cache.required_ rc))%nat
                           then false
                           else render_cache.contains_all_sorted (table.key tb)
                                  (render_cache.required_ rc))
                       then acc ++ [Z.of_nat a] else acc, S k)).
    { subst F. cbv beta iota zeta. rewrite wrap32_small by bits_lia.
      rewrite Hget. cbn [mbind option_bind].
      destruct (_ <? _)%nat; [done |].
      by destruct (render_cache.contains_all_sorted _ _). }
    rewrite HF. cbn [mbind option_bind].
    destruct (if (length (table.key tb) <? length (render_cache.required_ rc))%nat
              then false
              else render_cache.contains_all_sorted (table.key tb)
                     (render_cache.required_ rc)) eqn:Hsel.
    + destruct (IH (S a) (acc ++ [Z.of_nat a]) (S k) ltac:(lia))
        as (found & Hf & Hs & Hin).
      exists (Z.of_nat a :: found). split.
      { rewrite Hf. f_equal. f_equal; [by rewrite <- app_assoc | lia]. }
      split.
      { constructor; [done |]. apply Forall_forall. intros tid Ht.
        apply Hin in Ht as (t & _ & -> & ? & _). lia. }
      intros tid. rewrite elem_of_cons, Hin. split.
      * intros [-> | (t & tb' & -> & ? & ? & ?)].
        -- exists a, tb. split_and!; try done; try lia. by apply Htest.
        -- exists t, tb'. split_and!; try done; lia.
      * intros (t & tb' & -> & Hr & Ht & Hsub).
        destruct (decide (t = a)) as [-> | Hne]; [by left |].
        right. exists t, tb'. split_and!; try done; lia.
    + destruct (IH (S a) acc (S k) ltac:(lia)) as (found & Hf & Hs & Hin).
      exists found. split.
      { rewrite Hf. f_equal. f_equal. lia. }
      split; [done |].
      intros tid. rewrite Hin. split.
      * intros (t & tb' & -> & ? & ? & ?). exists t, tb'. split_and!; try done; lia.
      * intros (t & tb' & -> & Hr & Ht & Hsub).
        destruct (decide (t = a)) as [-> | Hne].
        -- rewrite Htb in Ht. injection Ht as <-.
           apply Htest in Hsub. congruence.
        -- exists t, tb'. split_and!; try done; lia.
Qed.

Lemma build_matching_spec :
  ∃ matching,
    render_cache.build_matching w rc
      = Some (matching, world_storage.table_count (world.storage_ w)) ∧
    StronglySorted Z.lt matching ∧
    ∀ tid, tid ∈ matching ↔
      ∃ t tb, tid = Z.of_nat t ∧ world.tables w !! t = Some tb ∧
              ∀ c, c ∈ render_cache.required_ rc → c ∈ table.key tb.
Proof.
  destruct (scan_fold (length (world.tables w)) 0 [] 0 ltac:(lia))
    as (found & Hf & Hs & Hin).
  exists found. split; [exact Hf |]. split; [done |].
  intros tid. rewrite Hin. split.
  - intros (t & tb & ? & _ & ? & ?). by exists t, tb.
  - intros (t & tb & ? & Ht & ?). exists t, tb. split_and!; try done; [lia |].
    by eapply lookup_lt_Some.
Qed.

End scan.

(** The pointers of one block. *)
Lemma arrays_total w tid tb Cs : ∀ ids,
  mapM (component_registry.get_id (world.registry_ w)) Cs = Some ids →
  lookup_ok tb → length (table.columns tb) = length (table.key tb) →
  (∀ c, c ∈ ids → c ∈ table.key tb) →
  ∃ ptrs,
    mapM (render_cache.get_array w tid tb) Cs = Some ptrs ∧
    Forall2 (fun c p => ∃ i, table.key tb !! i = Some c ∧
                             is_Some (table.columns tb !! i) ∧ p = mk_ptr tid i 0)
            ids ptrs.
Proof.
  intros ids Hids Hlk Hlen. apply mapM_Some in Hids.
  induction Hids as [| C c Cs ids HC _ IH]; intros Hsub.
  { exists []. split; [done | constructor]. }
  destruct IH as (ptrs & Hp & Hall). { intros c' Hc'. apply Hsub. by right. }
  assert (Hc : c ∈ table.key tb) by (apply Hsub; by left).
  apply list_elem_of_lookup in Hc as [i Hi].
  pose proof (lookup_lt_Some _ _ _ Hi) as Hlt.
  destruct (lookup_lt_is_Some_2 (table.columns tb) i ltac:(lia)) as [col Hcol].
  exists (mk_ptr tid i 0 :: ptrs). split.
  - apply mapM_Some. constructor; [| by apply mapM_Some].
    unfold render_cache.get_array. rewrite HC. cbn [mbind option_bind].
    rewrite (Hlk c i Hi). cbn [mbind option_bind]. rewrite Nat2Z.id, Hcol. done.
  - constructor; [| done]. exists i. split; [done |]. split; [by eexists | done].
Qed.

Lemma blocks_fold w Cs ids :
  world_inv w → schemas_inv w →
  mapM (component_registry.get_id (world.registry_ w)) Cs = Some ids →
  ∀ matching acc,
    Forall (fun tid => ∃ t tb, tid = Z.of_nat t ∧ world.tables w !! t = Some tb ∧
                               ∀ c, c ∈ ids → c ∈ table.key tb) matching →
    ∃ bs,
      fold_opt (fun acc tid =>
                  tb ← world_storage.get_table (world.storage_ w) tid;
                  if (table.size tb =? 0)%nat then Some acc
                  else
                    ptrs ← mapM (render_cache.get_array w tid tb) Cs;
                    Some (acc ++ [render_cache.mk_block ptrs (table.size tb)]))
               acc matching = Some (acc ++ bs) ∧
      Forall2 (fun tid b =>
                 ∃ tb, world_storage.get_table (world.storage_ w) tid = Some tb ∧
                       render_cache.n b = table.size tb ∧
                       Forall2 (fun c p => ∃ i, table.key tb !! i = Some c ∧
                                                is_Some (table.columns tb !! i) ∧
                                                p = mk_ptr tid i 0)
                               ids (render_cache.arrays b))
              (List.filter (has_rows w) matching) bs.
Proof.
  intros Hinv [Hlk _] Hids. induction matching as [| tid matching IH]; intros acc Hall.
  { exists []. cbn. rewrite app_nil_r. split; [done | constructor]. }
  apply Forall_cons in Hall as [(t & tb & -> & Htb & Hsub) Hall].
  assert (Hget : world_storage.get_table (world.storage_ w) (Z.of_nat t) = Some tb).
  { unfold world_storage.get_table. rewrite Nat2Z.id. exact Htb. }
  cbn [fold_opt List.filter]. unfold has_rows at 1. rewrite Hget.
  cbn [mbind option_bind].
  destruct (table.size tb =? 0)%nat eqn:Hsz; cbn [negb mbind option_bind].
  - destruct (IH acc Hall) as (bs & Hf & Hb). by exists bs.
  - pose proof (proj1 (Forall_lookup _ _) (wi_tables w Hinv) t tb Htb) as Hok.
    destruct (arrays_total w (Z.of_nat t) tb Cs ids Hids
                (proj1 (Forall_lookup _ _) Hlk t tb Htb) (tb_columns _ _ Hok) Hsub)
      as (ptrs & Hp & Hptrs).
    rewrite Hp. cbn [mbind option_bind].
    destruct (IH (acc ++ [render_cache.mk_block ptrs (table.size tb)]) Hall)
      as (bs & Hf & Hb).
    exists (render_cache.mk_block ptrs (table.size tb) :: bs). split.
    + rewrite Hf. by rewrite <- app_assoc.
    + constructor; [| done]. by exists tb.
Qed.

End caching.

(** X15.  What [render_cache<Cs...>::refresh] collects.  In
    a state of an honest run of the store (reached from [world()]
    by [register_component], [create_entity], [destroy_entity],
    [add_component], [remove_component] and [reserve] calls, every handle
    passed being stale or the handle of an entity in use, every [reserve]
    being for fewer than [2^32] rows, every call made with fewer than
    [2^32 - 1] entity slots and tables and fewer than [2^30] component
    types), for registered components [Cs] with the ids
    [ids], and a cache that is new or was initialised for [Cs] and whose
    version is not the store's: [refresh] returns after reading every
    table once; the cache then has the version of the store; [matching_]
    lists, in increasing order, exactly the ids of the tables whose
    archetype has every component of [Cs]; and [blocks()] has one block for
    each of these tables that has a row, in that order, with the row count
    of the table and, for each component of [Cs] in turn, the start of the
    column of that component in the table. *)
Theorem refresh_collects_matching_tables (Cs : list ctype) (w : world.t)
    (rc : render_cache.t) (ids : list Z) :
  reachable w →
  mapM (component_registry.get_id (world.registry_ w)) Cs = Some ids →
  render_cache.required_ rc =
    (if render_cache.initialized_ rc then archetype_key.canonicalise ids else []) →
  render_cache.version rc ≠ world.version w →
  ∃ rc',
    render_cache.refresh Cs w rc = Some rc' ∧
    render_cache.rescans Cs w rc = Some (world_storage.table_count (world.storage_ w)) ∧
    render_cache.version rc' = world.version w ∧
    render_cache.initialized_ rc' = true ∧
    render_cache.required_ rc' = archetype_key.canonicalise ids ∧
    StronglySorted Z.lt (render_cache.matching_ rc') ∧
    (∀ tid, tid ∈ render_cache.matching_ rc' ↔
       ∃ t tb, tid = Z.of_nat t ∧ world.tables w !! t = Some tb ∧
               ∀ c, c ∈ ids → table.has tb c = true) ∧
    Forall2 (fun tid b =>
               ∃ tb, world_storage.get_table (world.storage_ w) tid = Some tb ∧
                     render_cache.n b = table.size tb ∧
                     Forall2 (fun c p => ∃ i, table.key tb !! i = Some c ∧
                                              is_Some (table.columns tb !! i) ∧
                                              p = mk_ptr tid i 0)
                             ids (render_cache.arrays b))
            (List.filter (has_rows w) (render_cache.matching_ rc'))
            (render_cache.blocks rc').
Proof.
  intros Hr Hids Hreq Hver.
  pose proof (store.reachable_world_inv w Hr) as Hinv.
  pose proof (schemas.reachable_schemas w Hr) as Hsch.
  set (rc1 := render_cache.mk true (archetype_key.canonicalise ids)
                (render_cache.matching_ rc) (render_cache.blocks_ rc)
                (render_cache.cached_version_ rc)).
  assert (Hinit : (if render_cache.initialized_ rc then Some rc
                   else render_cache.init Cs w rc) = Some rc1).
  { destruct rc as [ini req mt bl cv]. cbn in Hreq. subst rc1. cbn.
    destruct ini; [by rewrite Hreq |].
    unfold render_cache.init. rewrite Hids. cbn. by rewrite Hreq. }
  assert (Hkreq : key_ok (render_cache.required_ rc1)) by apply key.canonicalise_ok.
  destruct (caching.build_matching_spec w rc1 Hinv Hkreq) as (matching & Hbm & Hsorted & Hin).
  assert (Hall : Forall (fun tid => ∃ t tb, tid = Z.of_nat t ∧ world.tables w !! t = Some tb ∧
                                            ∀ c, c ∈ ids → c ∈ table.key tb) matching).
  { apply Forall_forall. intros tid Ht. apply Hin in Ht as (t & tb & -> & Htb & Hsub).
    exists t, tb. split_and!; try done. intros c Hc. apply Hsub.
    by apply key.elem_of_canonicalise. }
  destruct (caching.blocks_fold w Cs ids Hinv Hsch Hids matching [] Hall)
    as (bs & Hbs & Hblocks).
  assert (Hrun : render_cache.refresh_counted Cs w rc =
                 Some (render_cache.mk true (archetype_key.canonicalise ids) matching bs
                         (world.version w),
                       world_storage.table_count (world.storage_ w))).
  { unfold render_cache.refresh_counted. rewrite Hinit. cbn [mbind option_bind].
    unfold render_cache.version in Hver.
    assert ((world.version w =? render_cache.cached_version_ rc1) = false) as ->.
    { apply Z.eqb_neq. subst rc1. cbn. congruence. }
    rewrite Hbm. cbn [mbind option_bind]. unfold render_cache.rebuild_blocks.
    rewrite Hbs. done. }
  eexists. unfold render_cache.refresh, render_cache.rescans. rewrite Hrun.
  cbn [fmap option_fmap option_map fst snd].
  split; [reflexivity |]. split; [done |]. split; [done |]. split; [done |].
  split; [done |]. split; [done |]. split; [| exact Hblocks].
  cbn [render_cache.matching_]. intros tid. rewrite Hin. split.
  - intros (t & tb & -> & Htb & Hsub). exists t, tb. split_and!; try done.
    intros c Hc.
    pose proof (proj1 (Forall_lookup _ _) (wi_tables w Hinv) t tb Htb) as Hok.
    apply (key.contains_elem _ _ (tb_key _ _ Hok)), Hsub.
    by apply key.elem_of_canonicalise.
  - intros (t & tb & -> & Htb & Hsub). exists t, tb. split_and!; try done.
    intros c Hc.
    pose proof (proj1 (Forall_lookup _ _) (wi_tables w Hinv) t tb Htb) as Hok.
    apply (key.contains_elem _ _ (tb_key _ _ Hok)), Hsub.
    by apply (proj1 (key.elem_of_canonicalise _ _)).
Qed.


Lemma refresh_collects_matching_tables_witness :
  let Cs := [examples.TA; examples.TB] in
  let w := examples.scene in
  let rc := render_cache.new in
  let ids := [0; 1] in
  ∃ rc',
    render_cache.refresh Cs w rc = Some rc' ∧
    render_cache.rescans Cs w rc = Some (world_storage.table_count (world.storage_ w)) ∧
    render_cache.version rc' = world.version w ∧
    render_cache.initialized_ rc' = true ∧
    render_cache.required_ rc' = archetype_key.canonicalise ids ∧
    StronglySorted Z.lt (render_cache.matching_ rc') ∧
    (∀ tid, tid ∈ render_cache.matching_ rc' ↔
       ∃ t tb, tid = Z.of_nat t ∧ world.tables w !! t = Some tb ∧
               ∀ c, c ∈ ids → table.has tb c = true) ∧
    Forall2 (fun tid b =>
               ∃ tb, world_storage.get_table (world.storage_ w) tid = Some tb ∧
                     render_cache.n b = table.size tb ∧
                     Forall2 (fun c p => ∃ i, table.key tb !! i = Some c ∧
                                              is_Some (table.columns tb !! i) ∧
                                              p = mk_ptr tid i 0)
                             ids (render_cache.arrays b))
            (List.filter (has_rows w) (render_cache.matching_ rc'))
            (render_cache.blocks rc').
Proof.
  intros Cs w rc ids. apply (refresh_collects_matching_tables Cs w rc ids).
  - exact tracking.scene_reachable.
  - vm_compute. reflexivity.
  - vm_compute. reflexivity.
  - vm_compute. discriminate.
Defined.

(** ** Spawning an instance *)

Module spawning.

(** The number of tables through the steps of [add_component]. *)
Lemma len_set_table w t tb :
  length (world.tables (world.set_table w t tb)) = length (world.tables w).
Proof.
  assert (Hts : world.tables (world.set_table w t tb)
                = <[Z.to_nat t := tb]> (world.tables w)) by done.
  by rewrite Hts, length_insert.
Qed.

Lemma len_set_location w i l w' :
  world.set_location w i l = Some w' →
  length (world.tables w') = length (world.tables w).
Proof. unfold world.set_location. destruct (_ <? _)%nat; [| done]. by intros [= <-]. Qed.

Lemma len_fold {B} (f : world.t → B → option world.t) l :
  (∀ w x w', f w x = Some w' → length (world.tables w') = length (world.tables w)) →
  ∀ w w', fold_opt f w l = Some w' → length (world.tables w') = length (world.tables w).
Proof.
  intros Hf. induction l as [| x l IH]; intros w w' H; cbn in H.
  - by injection H as <-.
  - bind_inv H w1 Hw1. rewrite (IH _ _ H). by eapply Hf.
Qed.

Lemma len_move ot nt ro rn w cid w' :
  world.move_component ot nt ro rn w cid = Some w' →
  length (world.tables w') = length (world.tables w).
Proof.
  unfold world.move_component. intros H.
  bind_inv H old Hold. bind_inv H src Hsrc. bind_inv H new Hnew.
  bind_inv H new' Hnew'. bind_inv H old2 Hold2. bind_inv H old3 Hold3.
  injection H as <-. by rewrite !len_set_table.
Qed.

Lemma len_drop ot nt ro w cid w' :
  world.drop_component ot nt ro w cid = Some w' →
  length (world.tables w') = length (world.tables w).
Proof.
  unfold world.drop_component. intros H.
  bind_inv H old Hold. bind_inv H new Hnew.
  destruct (table.has new cid); [by injection H as <- |].
  bind_inv H old' Hold'. injection H as <-. by rewrite len_set_table.
Qed.

Lemma len_migrate w e new_tid w' r :
  world.migrate_entity_to_table w e new_tid = Some (w', r) →
  length (world.tables w') = length (world.tables w).
Proof.
  unfold world.migrate_entity_to_table. intros H.
  bind_inv H loc Hloc. destruct (negb (location_valid loc)); [done |].
  bind_inv H old Hold. bind_inv H new Hnew.
  destruct (table.add_row_uninitialized new e) as [new' r0] eqn:Hadd.
  bind_inv H w1 Hw1. bind_inv H w2 Hw2. bind_inv H old2 Hold2.
  destruct (table.remove_row_swap_nodestroy old2 _) as [[old3 sw] |] eqn:Hrem;
    [| done]. cbn [mbind option_bind] in H.
  bind_inv H w3 Hw3. bind_inv H w4 Hw4. injection H as <- _.
  assert (H3 : length (world.tables w3)
               = length (world.tables (world.set_table w2 (tid loc) old3))).
  { destruct (entity.valid sw); [by eapply len_set_location | by injection Hw3 as <-]. }
  change (length (world.tables (world.bump_version w4)))
    with (length (world.tables w4)).
  rewrite (len_set_location _ _ _ _ Hw4), H3, len_set_table.
  rewrite (len_fold _ _ (fun w x w' => len_drop _ _ _ w x w') _ _ Hw2).
  rewrite (len_fold _ _ (fun w x w' => len_move _ _ _ _ w x w') _ _ Hw1).
  by rewrite len_set_table.
Qed.

Lemma len_signature w ids w' tid :
  world.get_table_for_signature w ids = Some (w', tid) →
  (length (world.tables w') ≤ length (world.tables w) + 1)%nat.
Proof.
  unfold world.get_table_for_signature. intros H.
  destruct (world_storage.get_or_create_table _ _ _) as [[st t] |] eqn:Hg; [| done].
  cbn [mbind option_bind] in H. injection H as <- _.
  unfold world_storage.get_or_create_table in Hg.
  destruct (world_storage.key_tables_ _ !! _).
  { injection Hg as <- _. unfold world.tables. cbn. lia. }
  unfold world_storage.create_table in Hg. bind_inv Hg cols Hcols. bind_inv Hg tb Htb.
  injection Hg as <- _. unfold world.tables. cbn. rewrite length_app. cbn. lia.
Qed.

Lemma len_add w T e v w' :
  world.add_component w T e v = Some w' →
  (length (world.tables w') ≤ length (world.tables w) + 1)%nat.
Proof.
  unfold world.add_component. destruct (negb _). { intros [= <-]. lia. }
  intros H. bind_inv H cid Hcid. bind_inv H loc Hloc.
  destruct (negb (location_valid loc)); [done |]. bind_inv H old Hold.
  destruct (table.has old cid). { injection H as <-. lia. }
  destruct (world.get_table_for_signature w _) as [[w1 tid] |] eqn:Hsig; [| done].
  cbn [mbind option_bind] in H.
  destruct (world.migrate_entity_to_table w1 e tid) as [[w2 r] |] eqn:Hmig; [| done].
  cbn [mbind option_bind] in H. bind_inv H new Hnew. bind_inv H new' Hnew'.
  injection H as <-.
  change (length (world.tables (world.bump_version (world.set_table w2 tid new'))))
    with (length (world.tables (world.set_table w2 tid new'))).
  rewrite len_set_table, (len_migrate _ _ _ _ _ Hmig). by eapply len_signature.
Qed.

Lemma wrap64_add a b : wrap64 (wrap64 a + b) = wrap64 (a + b).
Proof. unfold wrap64. by rewrite Z.add_mod_idemp_l by (unfold two64; lia). Qed.

(** One [add_component] of a component that the entity does not hold. *)
Lemma add_step w T e a cid :
  reachable w → within_limits w → live w e →
  component_registry.get_id (world.registry_ w) T = Some cid →
  world.try_get_component w T e = Some None →
  ∃ w',
    world.add_component w T e (Some a) = Some w' ∧ reachable w' ∧ live w' e ∧
    world.registry_ w' = world.registry_ w ∧
    world.entities_ w' = world.entities_ w ∧
    (length (world.tables w') ≤ length (world.tables w) + 1)%nat ∧
    world.get_component w' T e = Some a ∧
    (∀ A b, world.get_component w A e = Some b → world.get_component w' A e = Some b) ∧
    (∀ B cB, component_registry.get_id (world.registry_ w) B = Some cB → cB ≠ cid →
             world.try_get_component w B e = Some None →
             world.try_get_component w' B e = Some None) ∧
    (∀ x A, live w x → x ≠ e →
            live w' x ∧ world.get_component w' A x = world.get_component w A x) ∧
    world.version w' = wrap64 (world.version w + 2).
Proof.
  intros Hr Hlim Hlive Hcid Hnull.
  pose proof (store.reachable_world_inv w Hr) as Hinv.
  destruct (components.add_component_spec w T e (Some a) cid Hinv Hlim Hlive Hcid)
    as (w' & Hadd & _ & Hm & Hreg & Hkeep & _ & Hnew & _ & Hframe & Habsent).
  destruct (Hnew Hnull) as ((c & Hc & Hv) & Hver).
  exists w'. split; [done |]. split.
  { apply (reachable_step w (op_add T e (Some a)) w'); try done.
    split; [apply Hlive | by intros _]. }
  split; [by apply (components.live_same w) |]. split; [done |]. split; [done |].
  split; [by eapply len_add |]. split; [by rewrite (Hv a eq_refl) in Hc |].
  split; [done |]. split; [done |]. split.
  - intros x A Hx Hxe. split; [by apply (components.live_same w) | by apply Hframe].
  - unfold world.version. rewrite Hver, wrap64_add. f_equal. lia.
Qed.

End spawning.

(** X16.  [spawn_instance] in a state of an honest run of the store (reached from [world()]
    by [register_component], [create_entity], [destroy_entity],
    [add_component], [remove_component] and [reserve] calls, every handle
    passed being stale or the handle of an entity in use, every [reserve]
    being for fewer than [2^32] rows, every call made with fewer than
    [2^32 - 1] entity slots and tables and fewer than [2^30] component
    types),
    with room for one more entity slot and three more tables below
    [2^32 - 1], fewer than [2^30] component types, and the three component
    types registered and distinct: it returns a new entity, for which
    [get_component] reads the mesh reference, the transform and the
    material that were passed; the entities that were there are still
    there and their components read what they read before; the result is
    again a state of an honest run, and the version has moved by seven. *)
Theorem spawn_instance_holds_its_components
    (w : world.t) (MeshRefPN Transform Material : ctype) (r tr mat : value) :
  reachable w →
  Z.of_nat (entity_manager.capacity (world.entities_ w)) + 1 < two32 - 1 →
  Z.of_nat (world_storage.table_count (world.storage_ w)) + 3 < two32 - 1 →
  Z.of_nat (component_registry.count (world.registry_ w)) < 1073741824 →
  is_Some (component_registry.get_id (world.registry_ w) MeshRefPN) →
  is_Some (component_registry.get_id (world.registry_ w) Transform) →
  is_Some (component_registry.get_id (world.registry_ w) Material) →
  ty_index MeshRefPN ≠ ty_index Transform →
  ty_index MeshRefPN ≠ ty_index Material →
  ty_index Transform ≠ ty_index Material →
  ∃ w' e,
    spawn_instance w MeshRefPN Transform Material r tr mat = Some (w', e) ∧
    reachable w' ∧ live w' e ∧ (∀ x, live w x → x ≠ e) ∧
    world.get_component w' MeshRefPN e = Some r ∧
    world.get_component w' Transform e = Some tr ∧
    world.get_component w' Material e = Some mat ∧
    (∀ x A, live w x →
            live w' x ∧ world.get_component w' A x = world.get_component w A x) ∧
    world.version w' = wrap64 (world.version w + 7).
Proof.
  intros Hr Hcap Htc Hrc [cM HcM] [cT HcT] [cA HcA] HMT HMA HTA.
  pose proof (store.reachable_world_inv w Hr) as Hinv.
  pose proof (usage.reachable_registry w Hr) as Hrok.
  assert (HcMT : cT ≠ cM) by (intros ->; by apply HMT, (usage.get_id_inj _ _ _ cM Hrok)).
  assert (HcMA : cA ≠ cM) by (intros ->; by apply HMA, (usage.get_id_inj _ _ _ cM Hrok)).
  assert (HcTA : cA ≠ cT) by (intros ->; by apply HTA, (usage.get_id_inj _ _ _ cT Hrok)).
  assert (Hlim : within_limits w).
  { unfold within_limits. split_and!; lia. }
  unfold world_storage.table_count in Htc. fold (world.tables w) in Htc.
  (* create_entity *)
  destruct (usage.create_bare w Hr Hlim)
    as (w1 & e & Hc & Hl1 & Hfresh & Hbare & Hv1 & Hreg1 & Hlen1 & Hcap1).
  assert (Hr1 : reachable w1).
  { apply (reachable_step w op_create w1); try done. cbn. by rewrite Hc. }
  assert (Hlim1 : within_limits w1).
  { unfold within_limits, world_storage.table_count. fold (world.tables w1).
    rewrite Hreg1, Hlen1. split_and!; lia. }
  assert (Hframe1 : ∀ x A, live w x →
            live w1 x ∧ world.get_component w1 A x = world.get_component w A x).
  { intros x A Hx.
    destruct (frames.create_frame w w1 e x A Hinv Hlim Hc Hx) as (? & _ & ?). done. }
  (* the mesh reference *)
  destruct (spawning.add_step w1 MeshRefPN e r cM Hr1 Hlim1 Hl1 ltac:(by rewrite Hreg1))
    as (w2 & Ha2 & Hr2 & Hl2 & Hreg2 & Hm2 & Hlen2 & Hg2 & Hkeep2 & Habs2 & Hframe2 & Hv2).
  { apply Hbare. rewrite Hreg1. by eexists. }
  assert (Hlim2 : within_limits w2).
  { unfold within_limits, world_storage.table_count. fold (world.tables w2).
    rewrite Hreg2, Hreg1, Hm2. split_and!; lia. }
  (* the transform *)
  destruct (spawning.add_step w2 Transform e tr cT Hr2 Hlim2 Hl2
              ltac:(by rewrite Hreg2, Hreg1))
    as (w3 & Ha3 & Hr3 & Hl3 & Hreg3 & Hm3 & Hlen3 & Hg3 & Hkeep3 & Habs3 & Hframe3 & Hv3).
  { apply (Habs2 Transform cT); [by rewrite Hreg1 | done |].
    apply Hbare. rewrite Hreg1. by eexists. }
  assert (Hlim3 : within_limits w3).
  { unfold within_limits, world_storage.table_count. fold (world.tables w3).
    rewrite Hreg3, Hreg2, Hreg1, Hm3, Hm2. split_and!; lia. }
  (* the material *)
  destruct (spawning.add_step w3 Material e mat cA Hr3 Hlim3 Hl3
              ltac:(by rewrite Hreg3, Hreg2, Hreg1))
    as (w4 & Ha4 & Hr4 & Hl4 & Hreg4 & Hm4 & Hlen4 & Hg4 & Hkeep4 & Habs4 & Hframe4 & Hv4).
  { apply (Habs3 Material cA); [by rewrite Hreg2, Hreg1 | done |].
    apply (Habs2 Material cA); [by rewrite Hreg1 | done |].
    apply Hbare. rewrite Hreg1. by eexists. }
  exists w4, e. split.
  { unfold spawn_instance. rewrite Hc. cbn [mbind option_bind].
    rewrite Ha2. cbn [mbind option_bind]. rewrite Ha3. cbn [mbind option_bind].
    rewrite Ha4. done. }
  split; [done |]. split; [done |]. split; [done |].
  split; [by apply Hkeep4, Hkeep3 |]. split; [by apply Hkeep4 |]. split; [done |].
  split.
  - intros x A Hx. pose proof (Hfresh x Hx) as Hxe.
    destruct (Hframe1 x A Hx) as [Hx1 Hg1'].
    destruct (Hframe2 x A Hx1 Hxe) as [Hx2 Hg2'].
    destruct (Hframe3 x A Hx2 Hxe) as [Hx3 Hg3'].
    destruct (Hframe4 x A Hx3 Hxe) as [Hx4 Hg4'].
    split; [done |]. congruence.
  - rewrite Hv4, Hv3, spawning.wrap64_add, <- Z.add_assoc.
    rewrite Hv2, spawning.wrap64_add, <- Z.add_assoc.
    rewrite Hv1, spawning.wrap64_add, <- Z.add_assoc. done.
Qed.

Lemma spawn_instance_holds_its_components_witness :
  let w := examples.scene in
  ∃ w' e,
    spawn_instance w examples.TA examples.TB examples.TC 11 12 13 = Some (w', e) ∧
    reachable w' ∧ live w' e ∧ (∀ x, live w x → x ≠ e) ∧
    world.get_component w' examples.TA e = Some 11 ∧
    world.get_component w' examples.TB e = Some 12 ∧
    world.get_component w' examples.TC e = Some 13 ∧
    (∀ x A, live w x →
            live w' x ∧ world.get_component w' A x = world.get_component w A x) ∧
    world.version w' = wrap64 (world.version w + 7).
Proof.
  intros w.
  apply (spawn_instance_holds_its_components w examples.TA examples.TB examples.TC 11 12 13).
  - exact tracking.scene_reachable.
  - vm_compute. reflexivity.
  - vm_compute. reflexivity.
  - vm_compute. reflexivity.
  - exists 0. vm_compute. reflexivity.
  - exists 1. vm_compute. reflexivity.
  - exists 2. vm_compute. reflexivity.
  - vm_compute. lia.
  - vm_compute. lia.
  - vm_compute. lia.
Defined.

(** ** What a query visits *)

Module querying.

Lemma contains_all_sorted_same h n :
  query.contains_all_sorted h n = render_cache.contains_all_sorted h n.
Proof.
  revert n. induction h as [| x h IH]; intros [| y n]; cbn; try done.
Qed.

(** The scan of [refresh_if_needed] is the scan of [build_matching]. *)
Lemma scan_same w (q : query.t) (rc : render_cache.t) l :
  render_cache.required_ rc = query.required_ q →
  ∀ acc k,
    fold_opt (fun acc i =>
                let tid := wrap32 (Z.of_nat i) in
                tb ← world_storage.get_table (world.storage_ w) tid;
                if (length (table.key tb) <? length (query.required_ q))%nat
                then Some acc
                else if query.contains_all_sorted (table.key tb) (query.required_ q)
                     then Some (acc ++ [tid])
                     else Some acc)
             acc l
    = fst <$> fold_opt (fun '(acc, scanned) i =>
                let tid := wrap32 (Z.of_nat i) in
                tb ← world_storage.get_table (world.storage_ w) tid;
                if (length (table.key tb) <? length (render_cache.required_ rc))%nat
                then Some (acc, S scanned)
                else if render_cache.contains_all_sorted (table.key tb)
                          (render_cache.required_ rc)
                     then Some (acc ++ [tid], S scanned)
                     else Some (acc, S scanned))
             (acc, k) l.
Proof.
  intros Hreq. destruct rc as [ini req mt bl cv].
  cbn [render_cache.required_] in *. subst req.
  induction l as [| i l IH]; intros acc k; [done |].
  cbn [fold_opt].
  destruct (world_storage.get_table (world.storage_ w) (wrap32 (Z.of_nat i))) as [tb |];
    [| done].
  cbn [mbind option_bind].
  destruct (length (table.key tb) <? length (query.required_ q))%nat;
    cbn [mbind option_bind]; [apply IH |].
  rewrite contains_all_sorted_same.
  destruct (render_cache.contains_all_sorted _ _); cbn [mbind option_bind]; apply IH.
Qed.

(** [refresh_if_needed] of a query whose version is not the store's. *)
Lemma refresh_spec w q :
  world_inv w → key_ok (query.required_ q) →
  query.cached_version_ q ≠ world.version w →
  ∃ matching,
    query.refresh_if_needed w q
      = Some (query.mk (query.required_ q) matching (world.version w)) ∧
    StronglySorted Z.lt matching ∧
    ∀ tid, tid ∈ matching ↔
      ∃ t tb, tid = Z.of_nat t ∧ world.tables w !! t = Some tb ∧
              ∀ c, c ∈ query.required_ q → c ∈ table.key tb.
Proof.
  intros Hinv Hk Hver.
  set (rc := render_cache.mk true (query.required_ q) [] [] 0).
  destruct (caching.build_matching_spec w rc Hinv Hk) as (matching & Hbm & Hs & Hin).
  exists matching. split; [| done].
  unfold query.refresh_if_needed.
  assert ((world.version w =? query.cached_version_ q) = false) as ->
    by (apply Z.eqb_neq; congruence).
  cbv zeta.
  match goal with |- (?m ≫= _) = _ => replace m with (Some matching) end; [done |].
  symmetry. etransitivity; [apply (scan_same w q rc _ eq_refl [] 0%nat) |].
  change (fst <$> render_cache.build_matching w rc = Some matching).
  by rewrite Hbm.
Qed.

(** The rows of one table. *)
Lemma rows_fold (es : list entity.t) (ptrs : list pointer) : ∀ n a s,
  (a + n ≤ length es)%nat →
  fold_opt (fun s i => e ← es !! i; Some (s ++ [(e, query.at_row ptrs i)]))
           s (seq a n)
  = Some (s ++ zip (take n (drop a es)) (query.at_row ptrs <$> seq a n)).
Proof.
  induction n as [| n IH]; intros a s Hle.
  - cbn. by rewrite app_nil_r.
  - cbn [seq fold_opt].
    destruct (lookup_lt_is_Some_2 es a ltac:(lia)) as [e He].
    rewrite He. cbn [mbind option_bind]. rewrite (IH (S a)) by lia.
    rewrite <- app_assoc. do 2 f_equal.
    rewrite (drop_S es e a He). cbn [take fmap list_fmap zip zip_with]. done.
Qed.

Lemma in_rows (es : list entity.t) (ptrs : list pointer) e p :
  (e, p) ∈ zip es (query.at_row ptrs <$> seq 0 (length es)) ↔
  ∃ i, es !! i = Some e ∧ p = query.at_row ptrs i.
Proof.
  rewrite list_elem_of_lookup. split.
  - intros (i & Hi). apply lookup_zip_with_Some in Hi as (x & y & [= -> ->] & Hx & Hy).
    rewrite list_lookup_fmap in Hy. destruct (seq 0 (length es) !! i) as [j |] eqn:Hj;
      [| done].
    apply lookup_seq in Hj as [-> _]. cbn in Hy. injection Hy as <-. by exists i.
  - intros (i & Hi & ->). exists i. apply lookup_zip_with_Some.
    exists e, (query.at_row ptrs i). split; [done |]. split; [done |].
    rewrite list_lookup_fmap, lookup_seq_lt by (by eapply lookup_lt_Some). done.
Qed.

Lemma rows_entities (es : list entity.t) (ptrs : list pointer) :
  (zip es (query.at_row ptrs <$> seq 0 (length es))).*1 = es.
Proof. apply fst_zip. by rewrite length_fmap, length_seq. Qed.

(** The tables of the matching list, one after the other. *)
Lemma visit_fold w Cs ids :
  world_inv w → schemas_inv w →
  mapM (component_registry.get_id (world.registry_ w)) Cs = Some ids →
  ∀ matching s,
    Forall (fun tid => ∃ t tb, tid = Z.of_nat t ∧ world.tables w !! t = Some tb ∧
                               ∀ c, c ∈ ids → c ∈ table.key tb) matching →
    ∃ chunks,
      fold_opt (fun s tid =>
                  tb ← world_storage.get_table (world.storage_ w) tid;
                  if (table.size tb =? 0)%nat then Some s
                  else
                    ptrs ← mapM (render_cache.get_array w tid tb) Cs;
                    fold_opt (fun s i =>
                                e ← table.entities tb !! i;
                                Some (s ++ [(e, query.at_row ptrs i)]))
                             s (seq 0 (table.size tb)))
               s matching = Some (s ++ concat chunks) ∧
      Forall2 (fun tid chunk =>
                 ∃ t tb ptrs,
                   tid = Z.of_nat t ∧ world.tables w !! t = Some tb ∧
                   Forall2 (fun c p => ∃ i, table.key tb !! i = Some c ∧
                                            p = mk_ptr tid i 0) ids ptrs ∧
                   chunk = zip (table.entities tb)
                               (query.at_row ptrs <$> seq 0 (length (table.entities tb))))
              (List.filter (has_rows w) matching) chunks.
Proof.
  intros Hinv [Hlk _] Hids. induction matching as [| tid matching IH]; intros s Hall.
  { exists []. cbn. rewrite app_nil_r. split; [done | constructor]. }
  apply Forall_cons in Hall as [(t & tb & -> & Htb & Hsub) Hall].
  assert (Hget : world_storage.get_table (world.storage_ w) (Z.of_nat t) = Some tb).
  { unfold world_storage.get_table. rewrite Nat2Z.id. exact Htb. }
  cbn [fold_opt List.filter]. unfold has_rows at 1. rewrite Hget.
  cbn [mbind option_bind].
  destruct (table.size tb =? 0)%nat eqn:Hsz; cbn [negb mbind option_bind].
  - destruct (IH s Hall) as (chunks & Hf & Hc). by exists chunks.
  - pose proof (proj1 (Forall_lookup _ _) (wi_tables w Hinv) t tb Htb) as Hok.
    destruct (caching.arrays_total w (Z.of_nat t) tb Cs ids Hids
                (proj1 (Forall_lookup _ _) Hlk t tb Htb) (tb_columns _ _ Hok) Hsub)
      as (ptrs & Hp & Hptrs).
    rewrite Hp. cbn [mbind option_bind].
    rewrite (rows_fold (table.entities tb) ptrs (table.size tb) 0 s)
      by (unfold table.size; lia).
    cbn [mbind option_bind].
    change (table.size tb) with (length (table.entities tb)).
    rewrite drop_0, firstn_all.
    destruct (IH (s ++ zip (table.entities tb)
                           (query.at_row ptrs <$> seq 0 (length (table.entities tb))))
                 Hall) as (chunks & Hf & Hc).
    eexists (_ :: chunks). split.
    + rewrite Hf. cbn [concat]. by rewrite <- app_assoc.
    + constructor; [| done]. exists t, tb, ptrs. split_and!; try done.
      eapply Forall2_impl; [exact Hptrs |]. cbv beta.
      intros c p (i & ? & _ & ?). by exists i.
Qed.

Lemma sorted_filter (f : Z → bool) l :
  StronglySorted Z.lt l → StronglySorted Z.lt (List.filter f l).
Proof.
  induction 1 as [| x l Hs IH Hall]; cbn; [constructor |].
  destruct (f x); [| done]. constructor; [done |].
  apply Forall_forall. intros y Hy. apply list_elem_of_In, filter_In in Hy as [Hy _].
  apply (proj1 (Forall_forall _ _) Hall). by apply list_elem_of_In.
Qed.

(** A table lists an entity once. *)
Lemma entities_nodup w t tb :
  world_inv w → world.tables w !! t = Some tb → NoDup (table.entities tb).
Proof.
  intros Hinv Htb. apply NoDup_alt. intros i j x Hi Hj.
  destruct (store.row_located w t tb i x Hinv Htb Hi) as [_ Hli].
  destruct (store.row_located w t tb j x Hinv Htb Hj) as [_ Hlj].
  rewrite Hli in Hlj. injection Hlj. lia.
Qed.

(** Tables share no entity. *)
Lemma chunks_nodup w :
  world_inv w →
  ∀ l (chunks : list (list (entity.t * list pointer))),
    StronglySorted Z.lt l →
    Forall2 (fun tid chunk =>
               ∃ t tb, tid = Z.of_nat t ∧ world.tables w !! t = Some tb ∧
                       chunk.*1 = table.entities tb) l chunks →
    NoDup (concat chunks).*1 ∧
    ∀ x, x ∈ (concat chunks).*1 →
         ∃ t tb r, Z.of_nat t ∈ l ∧ world.tables w !! t = Some tb ∧
                   table.entities tb !! r = Some x.
Proof.
  intros Hinv l chunks Hs Hc. induction Hc as [| tid chunk l chunks Hh _ IH].
  { cbn. split; [constructor |]. by intros x ?%elem_of_nil. }
  apply StronglySorted_inv in Hs as [Hs Hlt].
  destruct (IH Hs) as [Hnd Hin]. destruct Hh as (t & tb & -> & Htb & Hfst).
  cbn [concat]. rewrite fmap_app, Hfst. split.
  - apply NoDup_app. split; [by eapply entities_nodup |]. split; [| done].
    intros x Hx Hx'. apply list_elem_of_lookup in Hx as [r Hr].
    destruct (Hin x Hx') as (t' & tb' & r' & Ht' & Htb' & Hr').
    destruct (store.row_located w t tb r x Hinv Htb Hr) as [_ Hl1].
    destruct (store.row_located w t' tb' r' x Hinv Htb' Hr') as [_ Hl2].
    rewrite Hl1 in Hl2. injection Hl2 as Ht _.
    pose proof (proj1 (Forall_forall _ _) Hlt _ Ht'). lia.
  - intros x Hx. apply elem_of_app in Hx as [Hx | Hx].
    + apply list_elem_of_lookup in Hx as [r Hr]. exists t, tb, r.
      split; [by left | done].
    + destruct (Hin x Hx) as (t' & tb' & r' & ? & ? & ?). exists t', tb', r'.
      split; [by right | done].
Qed.

(** The pointer [try_get_component] returns for a row. *)
Lemma try_get_pointer w C e c (t r i : nat) tb :
  world_inv w → world.tables w !! t = Some tb → table.entities tb !! r = Some e →
  component_registry.get_id (world.registry_ w) C = Some c →
  table.key tb !! i = Some c →
  world.try_get_component w C e = Some (Some (mk_ptr (Z.of_nat t) i r)).
Proof.
  intros Hinv Htb Hr Hc Hi.
  destruct (store.row_located w t tb r e Hinv Htb Hr) as [Hlive Hloc].
  pose proof (tracking.location_entry w e t r Hinv Hlive Hloc) as Hl.
  pose proof Hlive as (_ & Ha & _).
  pose proof (proj1 (Forall_lookup _ _) (wi_tables w Hinv) t tb Htb) as Hok.
  pose proof (lookup_lt_Some _ _ _ Htb) as Hlt.
  pose proof (wi_tables_count w Hinv) as Hcount.
  assert (Hin : c ∈ table.key tb) by (by eapply list_elem_of_lookup_2).
  pose proof (key.lower_bound_elem _ _ (tb_key _ _ Hok) Hin) as Hlb.
  assert (Hpos : archetype_key.lower_bound (table.key tb) c = i).
  { by apply (NoDup_lookup _ _ _ c (key.ok_NoDup _ (tb_key _ _ Hok))). }
  unfold world.try_get_component. rewrite Ha, Hc. cbn [negb mbind option_bind].
  rewrite Hl.
  assert (location_valid (mk_loc (Z.of_nat t) (Z.of_nat r)) = true) as ->.
  { unfold location_valid. cbn. apply negb_true_iff, Z.eqb_neq. bits_lia. }
  cbn [negb tid row]. rewrite moving.get_table_nat, Htb. cbn [mbind option_bind].
  unfold table.has. rewrite (proj2 (key.contains_elem _ _ (tb_key _ _ Hok)) Hin).
  unfold table.column_index. rewrite Hpos.
  rewrite (proj2 (Nat.ltb_lt _ _) (lookup_lt_Some _ _ _ Hi)).
  cbn [mbind option_bind]. by rewrite Nat2Z.id.
Qed.

Lemma row_pointers w Cs ids (t r : nat) tb ptrs e :
  world_inv w → world.tables w !! t = Some tb → table.entities tb !! r = Some e →
  mapM (component_registry.get_id (world.registry_ w)) Cs = Some ids →
  Forall2 (fun c p => ∃ i, table.key tb !! i = Some c ∧ p = mk_ptr (Z.of_nat t) i 0)
          ids ptrs →
  Forall2 (fun C p => world.try_get_component w C e = Some (Some p))
          Cs (query.at_row ptrs r).
Proof.
  intros Hinv Htb Hr Hids Hptrs. apply mapM_Some in Hids.
  unfold query.at_row. apply Forall2_fmap_r.
  eapply Forall2_trans; [| exact Hids | exact Hptrs]. cbv beta.
  intros C c p HC (i & Hi & ->). cbn.
  by apply (try_get_pointer w C e c t r i tb).
Qed.

Lemma pointers_unique w Cs e : ∀ l1 l2,
  Forall2 (fun C p => world.try_get_component w C e = Some (Some p)) Cs l1 →
  Forall2 (fun C p => world.try_get_component w C e = Some (Some p)) Cs l2 →
  l1 = l2.
Proof.
  induction Cs as [| C Cs IH]; intros l1 l2 H1 H2.
  - apply Forall2_nil_inv_l in H1, H2. congruence.
  - apply Forall2_cons_inv_l in H1 as (p1 & l1' & Hp1 & H1 & ->).
    apply Forall2_cons_inv_l in H2 as (p2 & l2' & Hp2 & H2 & ->).
    rewrite Hp1 in Hp2. injection Hp2 as <-. f_equal. by apply IH.
Qed.

End querying.

(** X17.  What a query visits.  In a state of an honest run of the store (reached from [world()]
    by [register_component], [create_entity], [destroy_entity],
    [add_component], [remove_component] and [reserve] calls, every handle
    passed being stale or the handle of an entity in use, every [reserve]
    being for fewer than [2^32] rows, every call made with fewer than
    [2^32 - 1] entity slots and tables and fewer than [2^30] component
    types),
    whose version is not [2^64 - 1] (the value a new query holds as its
    cached version), for registered components [Cs], a query made by
    [world::query<Cs...>()] and run with [each_entity] returns, having
    called the function once for each entity of the store that holds every
    component of [Cs] and for no other handle, with the pointers that
    [try_get_component] returns for that entity and the components of [Cs]
    in turn. *)
Theorem each_entity_visits_holders (Cs : list ctype) (w : world.t) (ids : list Z) :
  reachable w →
  mapM (component_registry.get_id (world.registry_ w)) Cs = Some ids →
  world.version w ≠ two64 - 1 →
  ∃ q q' visited,
    query.new Cs w = Some q ∧
    query.each_entity Cs w q (fun e ptrs acc => acc ++ [(e, ptrs)]) [] = Some (q', visited) ∧
    query.cached_version_ q' = world.version w ∧
    NoDup visited.*1 ∧
    ∀ e ptrs, (e, ptrs) ∈ visited ↔
      live w e ∧
      Forall2 (fun C p => world.try_get_component w C e = Some (Some p)) Cs ptrs.
Proof.
  intros Hr Hids Hver.
  pose proof (store.reachable_world_inv w Hr) as Hinv.
  pose proof (schemas.reachable_schemas w Hr) as Hsch.
  set (q := query.mk (archetype_key.canonicalise ids) [] (two64 - 1)).
  destruct (querying.refresh_spec w q Hinv (key.canonicalise_ok ids) ltac:(cbn; congruence))
    as (matching & Href & Hsorted & Hin).
  cbn [query.required_ q] in Href, Hin.
  assert (Hall : Forall (fun tid => ∃ t tb, tid = Z.of_nat t ∧ world.tables w !! t = Some tb ∧
                                            ∀ c, c ∈ ids → c ∈ table.key tb) matching).
  { apply Forall_forall. intros tid Ht. apply Hin in Ht as (t & tb & -> & Htb & Hsub).
    exists t, tb. split_and!; try done. intros c Hc. apply Hsub.
    by apply key.elem_of_canonicalise. }
  destruct (querying.visit_fold w Cs ids Hinv Hsch Hids matching [] Hall)
    as (chunks & Hfold & Hchunks).
  exists q, (query.mk (archetype_key.canonicalise ids) matching (world.version w)),
         (concat chunks).
  split; [unfold query.new; by rewrite Hids |]. split.
  { unfold query.each_entity. rewrite Href. cbn [mbind option_bind query.matching_].
    match goal with |- (?m ≫= _) = _ => replace m with (Some (concat chunks)) end; done. }
  split; [done |]. split.
  { eapply (querying.chunks_nodup w Hinv _ chunks (querying.sorted_filter _ _ Hsorted)).
    eapply Forall2_impl; [exact Hchunks |]. cbv beta.
    intros tid chunk (t & tb & ptrs & -> & Htb & _ & ->). exists t, tb.
    split_and!; try done. apply querying.rows_entities. }
  intros e ptrs. split.
  - intros He. apply list_elem_of_In, in_concat in He as (chunk & Hc & He).
    apply list_elem_of_In, list_elem_of_lookup in Hc as [j Hj].
    destruct (Forall2_lookup_r _ _ _ _ _ Hchunks Hj)
      as (tid & _ & t & tb & ptrs0 & -> & Htb & Hptrs & ->).
    apply list_elem_of_In, querying.in_rows in He as (r & Hrow & ->).
    split; [by destruct (store.row_located w t tb r e Hinv Htb Hrow) |].
    by apply (querying.row_pointers w Cs ids t r tb ptrs0 e).
  - intros [Hlive Hptrs].
    destruct (components.live_at w e Hinv Hlive) as (t & r & tb & Hl & Htb & Hrow & Htl).
    pose proof Hlive as (_ & Ha & _).
    assert (Hsub : ∀ c, c ∈ ids → c ∈ table.key tb).
    { intros c Hc. apply list_elem_of_lookup in Hc as [k Hk].
      pose proof (proj1 (mapM_Some _ _ _) Hids) as Hmap.
      destruct (Forall2_lookup_r _ _ _ _ _ Hmap Hk) as (C & HC & Hid).
      destruct (Forall2_lookup_l _ _ _ _ _ Hptrs HC) as (p & _ & Hp).
      pose proof (proj1 (Forall_lookup _ _) (wi_tables w Hinv) t tb Htb) as Hok.
      apply (key.contains_elem _ _ (tb_key _ _ Hok)).
      destruct (table.has tb c) eqn:Hhas; [done |].
      apply (components.try_get_has w C e c t r tb Hinv Ha Hid Hl Htl Htb) in Hhas.
      congruence. }
    assert (Hm : Z.of_nat t ∈ List.filter (has_rows w) matching).
    { apply list_elem_of_In, filter_In. split.
      - apply list_elem_of_In, Hin. exists t, tb. split_and!; try done.
        intros c Hc. apply Hsub. by apply (proj1 (key.elem_of_canonicalise _ _)).
      - unfold has_rows, world_storage.get_table. rewrite Nat2Z.id.
        fold (world.tables w). rewrite Htb. apply negb_true_iff, Nat.eqb_neq.
        unfold table.size. apply lookup_lt_Some in Hrow. lia. }
    apply list_elem_of_lookup in Hm as [j Hj].
    destruct (Forall2_lookup_l _ _ _ _ _ Hchunks Hj)
      as (chunk & Hcj & t' & tb' & ptrs0 & Ht' & Htb' & Hp0 & ->).
    apply Nat2Z.inj in Ht' as <-. rewrite Htb in Htb'. injection Htb' as <-.
    apply list_elem_of_In, in_concat. eexists. split.
    { apply list_elem_of_In. by eapply list_elem_of_lookup_2. }
    apply list_elem_of_In, querying.in_rows. exists r. split; [done |].
    apply (querying.pointers_unique w Cs e); [done |].
    by apply (querying.row_pointers w Cs ids t r tb ptrs0 e).
Qed.

Lemma each_entity_visits_holders_witness :
  let Cs := [examples.TA; examples.TB] in
  let w := examples.scene in
  ∃ q q' visited,
    query.new Cs w = Some q ∧
    query.each_entity Cs w q (fun e ptrs acc => acc ++ [(e, ptrs)]) [] = Some (q', visited) ∧
    query.cached_version_ q' = world.version w ∧
    NoDup visited.*1 ∧
    ∀ e ptrs, (e, ptrs) ∈ visited ↔
      live w e ∧
      Forall2 (fun C p => world.try_get_component w C e = Some (Some p)) Cs ptrs.
Proof.
  intros Cs w. apply (each_entity_visits_holders Cs w [0; 1]).
  - exact tracking.scene_reachable.
  - vm_compute. reflexivity.
  - vm_compute. discriminate.
Defined.

(** ** Reserving rows: the limits of the request *)

Module reserve_limits.

(** Above [max_size()] the call ends the program. *)
Lemma table_reserve_too_long tb val :
  table.max_size < val → table.reserve tb val = None.
Proof.
  intros H. unfold table.reserve. by rewrite (proj2 (Z.ltb_lt _ _) H).
Qed.

Lemma reserve_too_long w Cs count : table.max_size < count → world.reserve w Cs count = None.
Proof.
  intros H. unfold world.reserve.
  destruct (mapM _ Cs) as [ids |]; [| done]. cbn [mbind option_bind].
  destruct (world_storage.get_or_create_table _ _ _) as [[st tid] |]; [| done].
  cbn [mbind option_bind].
  destruct (world_storage.get_table _ _) as [tb |]; [| done]. cbn [mbind option_bind].
  by rewrite table_reserve_too_long.
Qed.

End reserve_limits.

(** X18.  [world::reserve<Cs...>(count)] in a state of a store used
    through the handles it issued (a state reached from [world()] by
    [register_component], [create_entity], [destroy_entity],
    [add_component], [remove_component] and [reserve] calls on honest
    handles and for fewer than [2^32] rows), inside the limits of its
    32-bit ids, for registered components and [0 <= count < 2^32]: it
    returns (the allocator is taken to satisfy the requests); the state
    reached is again such a state and the invariant of the store holds in
    it; the table of the archetype [Cs] exists and each of its columns has
    room for [count] rows; every entity of the store is still one and its
    components read what they read before; the version has been
    incremented once.  For [count] above [max_size()] of the entity vector
    the call does not return. *)
Theorem reserve_makes_room (w : world.t) (Cs : list ctype) (count : Z) (ids : list Z) :
  reachable w → within_limits w → 0 ≤ count < two32 →
  mapM (component_registry.get_id (world.registry_ w)) Cs = Some ids →
  (∃ w' t tb',
     world.reserve w Cs count = Some w' ∧ reachable w' ∧ world_inv w' ∧
     world.tables w' !! t = Some tb' ∧
     table.key tb' = archetype_key.make_archetype_key ids ∧
     Forall (fun c => count ≤ Z.of_nat (column.capacity c)) (table.columns tb') ∧
     (∀ x A, live w x →
             live w' x ∧ world.get_component w' A x = world.get_component w A x) ∧
     world.version w' = wrap64 (world.version w + 1)) ∧
  (∀ n, table.max_size < n → world.reserve w Cs n = None).
Proof.
  intros Hr Hlim Hcount Hids. pose proof (store.reachable_world_inv w Hr) as Hinv.
  split; [| intros n; apply reserve_limits.reserve_too_long].
  destruct (reserving.reserve_spec w Cs count ids Hinv Hlim Hcount Hids)
    as (w1 & t & tb & extra & Hrun & Hsig & Hinv1 & Hinv' & Hts1 & Htb & Hkey & Hm1
        & Hreg1 & Hl1 & Hv1).
  pose proof (lookup_lt_Some _ _ _ Htb) as Hlt.
  eexists _, t, _. split; [exact Hrun |]. split.
  { by apply (reachable_step w (op_reserve Cs count)). }
  split; [done |]. split.
  { unfold world.set_table, world.tables. cbn. rewrite Nat2Z.id.
    by apply list_lookup_insert_eq. }
  split; [done |]. split.
  { eapply Forall_impl; [apply reserving.reserve_room |]. intros c Hc. cbn beta in Hc. lia. }
  split; [| cbn; by rewrite Hv1].
  intros x A Hx. by apply (reserving.reserve_frame w Cs count _ x A).
Qed.

Lemma reserve_makes_room_witness :
  let w := examples.scene in
  let Cs := [examples.TB; examples.TC] in
  (∃ w' t tb',
     world.reserve w Cs 100 = Some w' ∧ reachable w' ∧ world_inv w' ∧
     world.tables w' !! t = Some tb' ∧
     table.key tb' = archetype_key.make_archetype_key [1; 2] ∧
     Forall (fun c => 100 ≤ Z.of_nat (column.capacity c)) (table.columns tb') ∧
     (∀ x A, live w x →
             live w' x ∧ world.get_component w' A x = world.get_component w A x) ∧
     world.version w' = wrap64 (world.version w + 1)) ∧
  (∀ n, table.max_size < n → world.reserve w Cs n = None).
Proof.
  intros w Cs. apply (reserve_makes_room w Cs 100 [1; 2]).
  - exact tracking.scene_reachable.
  - apply store.within_limitsb_spec. vm_compute. reflexivity.
  - unfold two32. lia.
  - vm_compute. reflexivity.
Defined.

(** ** The rows of a table *)

Module row_ops.

(** [remove_swap] ends the object of the last slot. *)
Lemma remove_swap_last n c row c' :
  column_ok n c → column.remove_swap c row = Some c' →
  column.data c' !! (n - 1)%nat = Some None.
Proof.
  intros [Hs Hr Hb] H. unfold column.remove_swap in H.
  destruct (row <? column.size c)%nat eqn:Hrow; [| done].
  apply Nat.ltb_lt in Hrow. injection H as <-. cbn [column.data]. rewrite Hs.
  apply list_lookup_insert_eq.
  destruct (row =? n - 1)%nat; rewrite ?length_insert; lia.
Qed.

Lemma remove_row_swap_last reg tb row tb' sw cid :
  table_ok reg tb → table.remove_row_swap tb row = Some (tb', sw) →
  cid ∈ table.key tb →
  table.read_cell tb' cid (length (table.entities tb) - 1) = Some None.
Proof.
  intros Hok H Hcid. unfold table.remove_row_swap in H.
  destruct (row <? table.size tb)%nat; [| done].
  destruct (table.swap_pop (table.entities tb) row) as [es sw'].
  destruct (mapM _ (table.columns tb)) as [cs |] eqn:Hcs; [| done].
  cbn in H. injection H as <- <-.
  rewrite (contents.read_cell_cols reg) by done.
  destruct (cells.column_of reg tb cid Hok Hcid) as (c & _ & Hc & Hcok).
  destruct (contents.mapM_lookup _ _ _ _ _ Hcs Hc) as (c' & Hc' & Hrem).
  rewrite Hc'. cbn [mbind option_bind].
  by apply (remove_swap_last _ c row c').
Qed.

Lemma swap_pop_last (es : list entity.t) e :
  table.swap_pop (es ++ [e]) (length es) = (es, INVALID_ENTITY).
Proof.
  unfold table.swap_pop. rewrite length_app. cbn [length].
  assert ((length es =? length es + 1 - 1)%nat = true) as ->
    by (apply Nat.eqb_eq; lia).
  by rewrite removelast_last.
Qed.

End row_ops.

(** X19.  [table::remove_row_swap(row)] on a table of the store, for a row
    of the table: it returns the entity that was moved, or [INVALID_ENTITY]
    when [row] was the last row; the table is one row shorter; row [row]
    now holds the entity and the components of the former last row, every
    other row keeps its own, and the objects of the vacated last slots have
    been destroyed. *)
Theorem remove_row_swap_fills_hole (reg : component_registry.t) (tb : table.t) (row : nat) :
  table_ok reg tb → (row < table.size tb)%nat →
  let last := (table.size tb - 1)%nat in
  ∃ tb' sw,
    table.remove_row_swap tb row = Some (tb', sw) ∧
    table_ok reg tb' ∧ table.key tb' = table.key tb ∧ table.size tb' = last ∧
    sw = (if decide (row = last) then INVALID_ENTITY
          else default INVALID_ENTITY (table.entities tb !! last)) ∧
    (∀ r, (r < last)%nat →
       table.entities tb' !! r
         = (if decide (r = row) then table.entities tb !! last
            else table.entities tb !! r) ∧
       ∀ cid, cid ∈ table.key tb →
         table.read_cell tb' cid r
           = if decide (r = row) then table.read_cell tb cid last
             else table.read_cell tb cid r) ∧
    (∀ cid, cid ∈ table.key tb → table.read_cell tb' cid last = Some None).
Proof.
  intros Hok Hrow last. unfold table.size in *.
  destruct (rows.remove_row_swap_ok reg tb row Hok Hrow) as (tb' & Hrem & Hok' & Hkey & Hents).
  destruct (table_facts.swap_pop_spec (table.entities tb) row Hrow) as (Hlen & Hrows & Hsw).
  exists tb', (table.swap_pop (table.entities tb) row).2.
  split; [done |]. split; [done |]. split; [done |].
  split; [by rewrite Hents |]. split; [done |]. split.
  - intros r Hr. split; [rewrite Hents; by apply Hrows |].
    intros cid Hcid. by eapply (contents.remove_row_swap_read reg tb row tb').
  - intros cid Hcid. by eapply (row_ops.remove_row_swap_last reg tb row tb').
Qed.

Lemma remove_row_swap_fills_hole_witness :
  let w := examples.populated in
  let tb := examples.table_of w 2 in
  ∃ tb' sw,
    table.remove_row_swap tb 0 = Some (tb', sw) ∧
    table_ok (world.registry_ w) tb' ∧ table.key tb' = table.key tb ∧
    table.size tb' = 2%nat ∧
    sw = (if decide (0%nat = 2%nat) then INVALID_ENTITY
          else default INVALID_ENTITY (table.entities tb !! 2%nat)) ∧
    (∀ r, (r < 2)%nat →
       table.entities tb' !! r
         = (if decide (r = 0%nat) then table.entities tb !! 2%nat
            else table.entities tb !! r) ∧
       ∀ cid, cid ∈ table.key tb →
         table.read_cell tb' cid r
           = if decide (r = 0%nat) then table.read_cell tb cid 2
             else table.read_cell tb cid r) ∧
    (∀ cid, cid ∈ table.key tb → table.read_cell tb' cid 2 = Some None).
Proof.
  intros w tb.
  apply (remove_row_swap_fills_hole (world.registry_ w) tb 0).
  - apply (proj1 (Forall_lookup _ _)
             (wi_tables w (store.reachable_world_inv w tracking.populated_reachable))
             2%nat).
    vm_compute. reflexivity.
  - vm_compute. lia.
Defined.

(** X20.  [table::add_row(e)] on a table of the store returns the old size
    as the row; the table has [e] as its last entity; in every column the
    new row holds the default-constructed component and the rows that were
    there keep theirs.  Removing that row again with [remove_row_swap]
    moves nothing, and leaves the entities and the components of the rows
    as they were before the [add_row]. *)
Theorem add_row_appends_defaults (reg : component_registry.t) (tb : table.t) (e : entity.t) :
  table_ok reg tb →
  let tb1 := (table.add_row tb e).1 in
  (table.add_row tb e).2 = table.size tb ∧
  table_ok reg tb1 ∧ table.key tb1 = table.key tb ∧
  table.entities tb1 = table.entities tb ++ [e] ∧
  (∀ cid, cid ∈ table.key tb →
     (∃ c, table.get_column tb cid = Some c ∧
           table.read_cell tb1 cid (table.size tb)
             = Some (Some (info_default (column.info c)))) ∧
     ∀ r, (r < table.size tb)%nat →
          table.read_cell tb1 cid r = table.read_cell tb cid r) ∧
  ∃ tb2,
    table.remove_row_swap tb1 (table.size tb) = Some (tb2, INVALID_ENTITY) ∧
    table.entities tb2 = table.entities tb ∧
    ∀ cid r, cid ∈ table.key tb → (r < table.size tb)%nat →
             table.read_cell tb2 cid r = table.read_cell tb cid r.
Proof.
  intros Hok tb1. unfold table.size.
  pose proof (rows.add_row_ok reg tb e Hok) as Hok1. fold tb1 in Hok1.
  assert (Hents1 : table.entities tb1 = table.entities tb ++ [e]) by done.
  assert (Hkey1 : table.key tb1 = table.key tb) by done.
  split; [done |]. split; [done |]. split; [done |]. split; [done |]. split.
  - intros cid Hcid. split.
    + apply (contents.add_row_new reg tb e cid Hok Hcid).
    + intros r Hr. by apply (contents.add_row_read reg).
  - assert (Hlt : (length (table.entities tb) < length (table.entities tb1))%nat).
    { rewrite Hents1, length_app. cbn. lia. }
    destruct (rows.remove_row_swap_ok reg tb1 _ Hok1 Hlt) as (tb2 & Hrem & _ & _ & Hents2).
    rewrite Hents1, row_ops.swap_pop_last in Hrem, Hents2. cbn [fst snd] in Hrem, Hents2.
    exists tb2. split; [done |]. split; [done |].
    intros cid r Hcid Hr.
    rewrite (contents.remove_row_swap_read reg tb1 _ tb2 INVALID_ENTITY cid r Hok1 Hrem)
      by (rewrite ?Hkey1, ?Hents1, ?length_app; cbn; (done || lia)).
    rewrite decide_False by lia. by apply (contents.add_row_read reg).
Qed.

Lemma add_row_appends_defaults_witness :
  let w := examples.populated in
  let tb := examples.table_of w 2 in
  let e := entity.make 7 0 in
  let tb1 := (table.add_row tb e).1 in
  (table.add_row tb e).2 = table.size tb ∧
  table_ok (world.registry_ w) tb1 ∧ table.key tb1 = table.key tb ∧
  table.entities tb1 = table.entities tb ++ [e] ∧
  (∀ cid, cid ∈ table.key tb →
     (∃ c, table.get_column tb cid = Some c ∧
           table.read_cell tb1 cid (table.size tb)
             = Some (Some (info_default (column.info c)))) ∧
     ∀ r, (r < table.size tb)%nat →
          table.read_cell tb1 cid r = table.read_cell tb cid r) ∧
  ∃ tb2,
    table.remove_row_swap tb1 (table.size tb) = Some (tb2, INVALID_ENTITY) ∧
    table.entities tb2 = table.entities tb ∧
    ∀ cid r, cid ∈ table.key tb → (r < table.size tb)%nat →
             table.read_cell tb2 cid r = table.read_cell tb cid r.
Proof.
  intros w tb e.
  apply (add_row_appends_defaults (world.registry_ w) tb e).
  apply (proj1 (Forall_lookup _ _)
           (wi_tables w (store.reachable_world_inv w tracking.populated_reachable))
           2%nat).
  vm_compute. reflexivity.
Defined.

(** ** Pinned blocks and cached blocks *)

Module pinning.

(** The loop of [pin] is the loop of [rebuild_blocks]. *)
Lemma blocks_same w Cs l : ∀ (out : list query.pinned_block) (acc : list render_cache.block),
  (fun b => (query.arrays b, query.n b)) <$> out
    = (fun b => (render_cache.arrays b, render_cache.n b)) <$> acc →
  (fun bs : list query.pinned_block => (fun b => (query.arrays b, query.n b)) <$> bs) <$>
    fold_opt (fun out tid =>
                tb ← world_storage.get_table (world.storage_ w) tid;
                if (table.size tb =? 0)%nat then Some out
                else
                  ptrs ← mapM (render_cache.get_array w tid tb) Cs;
                  Some (out ++ [query.mk_pinned ptrs (table.size tb)]))
             out l
  = (fun bs : list render_cache.block =>
       (fun b => (render_cache.arrays b, render_cache.n b)) <$> bs) <$>
    fold_opt (fun acc tid =>
                tb ← world_storage.get_table (world.storage_ w) tid;
                if (table.size tb =? 0)%nat then Some acc
                else
                  ptrs ← mapM (render_cache.get_array w tid tb) Cs;
                  Some (acc ++ [render_cache.mk_block ptrs (table.size tb)]))
             acc l.
Proof.
  induction l as [| tid l IH]; intros out acc Hsame; cbn [fold_opt].
  - cbn. by rewrite Hsame.
  - destruct (world_storage.get_table (world.storage_ w) tid) as [tb |]; [| done].
    cbn [mbind option_bind].
    destruct (table.size tb =? 0)%nat; cbn [mbind option_bind]; [by apply IH |].
    destruct (mapM (render_cache.get_array w tid tb) Cs) as [ptrs |]; [| done].
    cbn [mbind option_bind]. apply IH. rewrite !fmap_app, Hsame. done.
Qed.

End pinning.

(** X21.  The two ways to enumerate the tables of an archetype agree: for
    every store and components [Cs], [pin] on a query made by
    [world::query<Cs...>()] and [refresh] on a new [render_cache<Cs...>]
    abort together or return together, and then with the same matching
    tables, the same blocks (pointers and row counts) and the same cached
    version. *)
Theorem pin_agrees_with_render_cache (Cs : list ctype) (w : world.t) :
  ((q ← query.new Cs w;
    '(q', out) ← query.pin Cs w q;
    Some (query.matching_ q',
          (fun b : query.pinned_block => (query.arrays b, query.n b))
            <$> (out : list query.pinned_block),
          query.cached_version_ q'))
   : option (list Z * list (list pointer * nat) * Z))
  = (rc ← render_cache.refresh Cs w render_cache.new;
     Some (render_cache.matching_ rc,
           (fun b : render_cache.block => (render_cache.arrays b, render_cache.n b))
             <$> (render_cache.blocks rc : list render_cache.block),
           render_cache.version rc)).
Proof.
  unfold query.new, render_cache.refresh, render_cache.refresh_counted, render_cache.new,
    render_cache.init.
  cbn [render_cache.initialized_ render_cache.required_ app].
  destruct (mapM (component_registry.get_id (world.registry_ w)) Cs) as [ids |]; [| done].
  cbn [mbind option_bind render_cache.cached_version_ render_cache.matching_
       render_cache.blocks_].
  unfold query.pin, query.refresh_if_needed. cbn [query.cached_version_ query.required_].
  cbv zeta.
  destruct (world.version w =? two64 - 1) eqn:Hv.
  { cbn. done. }
  cbn [mbind option_bind].
  set (q := query.mk (archetype_key.unique (archetype_key.sort ids)) [] (two64 - 1)).
  set (rc := render_cache.mk true (archetype_key.unique (archetype_key.sort ids)) [] []
               (two64 - 1)).
  pose proof (querying.scan_same w q rc
                (seq 0 (world_storage.table_count (world.storage_ w))) eq_refl [] 0%nat)
    as Hscan.
  cbn [query.required_ q] in Hscan. cbv zeta in Hscan. rewrite Hscan.
  unfold render_cache.build_matching. cbn [render_cache.required_ rc]. cbv zeta.
  match goal with |- context [fold_opt ?f ([], 0%nat) ?l] =>
    destruct (fold_opt f ([], 0%nat) l) as [[matching scanned] |]; [| done] end.
  cbn [fmap option_fmap option_map mbind option_bind fst query.matching_].
  pose proof (pinning.blocks_same w Cs matching [] [] eq_refl) as Hb.
  unfold render_cache.rebuild_blocks.
  match type of Hb with _ <$> ?m1 = _ <$> ?m2 =>
    destruct m1 as [out |]; destruct m2 as [bs |] end;
  cbn in Hb |- *; try done.
  injection Hb as ->. done.
Qed.

(** ** Scan-line slices of any frame *)

Module slice_any.

Import slices.

(** The six ranges: five that follow one another from row 0, and the
    last from where they end to the last row of the frame. *)
Lemma loop_shape h :
  0 ≤ h →
  ∃ r0 r1 r2 r3 r4 b,
    slice_loop h 6 0 0 = [r0; r1; r2; r3; r4; mk_range b (h - 1)] ∧
    chained 0 [r0; r1; r2; r3; r4] b = true ∧ b ≤ h + 15.
Proof.
  intros Hh. pose proof (slice_facts.heights_sum h Hh) as Hsum.
  pose proof (Z.div_pos h 6 Hh ltac:(lia)) as Hdiv.
  assert (Hnn : ∀ s, 0 ≤ h / 6 + (if s <? h mod 6 then 1 else 0)).
  { intros s. destruct (s <? h mod 6); lia. }
  pose proof (Hnn 0). pose proof (Hnn 1). pose proof (Hnn 2).
  pose proof (Hnn 3). pose proof (Hnn 4).
  destruct (slice_facts.step_spec h 0 0) as (e0 & S0 & L0 & U0 & _); [lia .. |].
  destruct (slice_facts.step_spec h 1 (e0 + 1)) as (e1 & S1 & L1 & U1 & _); [lia .. |].
  destruct (slice_facts.step_spec h 2 (e1 + 1)) as (e2 & S2 & L2 & U2 & _); [lia .. |].
  destruct (slice_facts.step_spec h 3 (e2 + 1)) as (e3 & S3 & L3 & U3 & _); [lia .. |].
  destruct (slice_facts.step_spec h 4 (e3 + 1)) as (e4 & S4 & L4 & U4 & _); [lia .. |].
  eexists _, _, _, _, _, (e4 + 1). split; [| split].
  - cbn [slice_loop]. change (0 + 1) with 1. change (1 + 1) with 2.
    change (2 + 1) with 3. change (3 + 1) with 4. change (4 + 1) with 5.
    rewrite S0, S1, S2, S3, S4, slice_facts.last_step. reflexivity.
  - cbn [chained y0 y1].
    repeat (apply andb_true_intro; split); rewrite ?Z.eqb_eq, ?Z.leb_le; lia.
  - lia.
Qed.

(** Ranges that follow one another lie one above the other. *)
Lemma chained_order rs : ∀ a b,
  chained a rs b = true →
  ∀ i r, rs !! i = Some r →
    a ≤ y0 r ∧ y1 r < b ∧
    ∀ j r', (i < j)%nat → rs !! j = Some r' → y1 r < y0 r'.
Proof.
  induction rs as [| r0 rs IH]; intros a b H i r Hi; [by rewrite lookup_nil in Hi |].
  cbn in H. apply andb_true_iff in H as [H H3]. apply andb_true_iff in H as [H1 H2].
  apply Z.eqb_eq in H1. apply Z.leb_le in H2.
  pose proof (slice_facts.chained_cover _ _ _ H3) as [Hle _].
  destruct i as [| i]; cbn in Hi.
  - injection Hi as <-. split; [lia |]. split; [lia |].
    intros [| j] r' Hj Hr'; [lia |]. cbn in Hr'.
    destruct (IH _ _ H3 j r' Hr') as (? & _). lia.
  - destruct (IH _ _ H3 i r Hi) as (Ha & Hb & Hord). split; [lia |]. split; [done |].
    intros [| j] r' Hj Hr'; [lia |]. cbn in Hr'. apply (Hord j r'); [lia | done].
Qed.

(** The ranges of a frame, two by two. *)
Lemma ranges_apart H (i j : nat) ri rj :
  0 ≤ H < 2147483648 → (i < j)%nat →
  compute_slice_ranges H !! i = Some ri → compute_slice_ranges H !! j = Some rj →
  0 ≤ y0 ri ∧ y1 ri < y0 rj ∧ y1 rj < 2147483648 + 15.
Proof.
  intros HH Hij. unfold compute_slice_ranges, to_int.
  rewrite (proj2 (Z.ltb_lt H 2147483648)) by lia.
  change (Z.to_nat kTotalSlices) with 6%nat.
  destruct (loop_shape H ltac:(lia)) as (r0 & r1 & r2 & r3 & r4 & b & -> & Hch & Hb).
  pose proof (chained_order _ _ _ Hch) as Hord.
  change [r0; r1; r2; r3; r4; mk_range b (H - 1)]
    with ([r0; r1; r2; r3; r4] ++ [mk_range b (H - 1)]).
  intros Hi Hj.
  apply lookup_app_Some in Hi as [Hi | [Hi5 Hi]]; cycle 1.
  { apply lookup_lt_Some in Hj. cbn in Hi5, Hj. lia. }
  destruct (Hord i ri Hi) as (Ha & Hlt & Hnext).
  apply lookup_app_Some in Hj as [Hj | [_ Hj]].
  - destruct (Hord j rj Hj) as (_ & Hltj & _).
    split; [done |]. split; [by apply (Hnext j) | lia].
  - apply list_lookup_singleton_Some in Hj as [_ <-]. cbn [y0 y1]. lia.
Qed.

Lemma cover_count_six r0 r1 r2 r3 r4 r5 y :
  cover_count [r0; r1; r2; r3; r4; r5] y =
    (cover_count [r0; r1; r2; r3; r4] y + (if in_range r5 y then 1 else 0))%nat.
Proof.
  rewrite !slice_facts.cover_count_cons. unfold cover_count at 1 2.
  rewrite filter_nil. cbn [length]. lia.
Qed.

End slice_any.

(** X22.  For every frame height below [2^31], also those at which a range
    reaches past the frame: no row belongs to two of the ranges of
    [compute_slice_ranges], every row of the frame belongs to one, and no
    row before row 0 belongs to any. *)
Theorem slice_ranges_never_overlap (H y : Z) :
  0 ≤ H < 2147483648 →
  (slices.cover_count (slices.compute_slice_ranges H) y ≤ 1)%nat ∧
  (0 ≤ y < H → slices.cover_count (slices.compute_slice_ranges H) y = 1%nat) ∧
  (y < 0 → slices.cover_count (slices.compute_slice_ranges H) y = 0%nat).
Proof.
  intros HH. unfold slices.compute_slice_ranges, slices.to_int.
  rewrite (proj2 (Z.ltb_lt H 2147483648)) by lia.
  change (Z.to_nat slices.kTotalSlices) with 6%nat.
  destruct (slice_any.loop_shape H ltac:(lia))
    as (r0 & r1 & r2 & r3 & r4 & b & -> & Hch & _).
  destruct (slice_facts.chained_cover _ _ _ Hch) as [Hb Hc].
  rewrite slice_any.cover_count_six, Hc. unfold slices.in_range. cbn [slices.y0 slices.y1].
  destruct (0 <=? y) eqn:E1, (y <? b) eqn:E2, (b <=? y) eqn:E3, (y <=? H - 1) eqn:E4;
    cbn; rewrite ?Z.leb_le, ?Z.ltb_lt, ?Z.leb_gt, ?Z.ltb_ge in *;
    split_and!; intros; lia.
Qed.

Lemma slice_ranges_never_overlap_witness :
  (slices.cover_count (slices.compute_slice_ranges 7) 5 ≤ 1)%nat ∧
  (0 ≤ 5 < 7 → slices.cover_count (slices.compute_slice_ranges 7) 5 = 1%nat) ∧
  (5 < 0 → slices.cover_count (slices.compute_slice_ranges 7) 5 = 0%nat).
Proof. apply (slice_ranges_never_overlap 7 5). lia. Defined.

(** ** The pixels of the slices *)

Module raster_facts.

Import raster.

(** A box that is drawn lies inside the frame and inside the slice. *)
Lemma clip_spec W y0 y1 minx maxx miny maxy a b c d :
  0 ≤ W < 2147483648 →
  clip_box W y0 y1 minx maxx miny maxy = Some (a, b, c, d) →
  0 ≤ a ∧ a ≤ b ∧ b < W ∧ y0 ≤ c ∧ c ≤ d ∧ d ≤ y1.
Proof.
  intros HW. unfold clip_box, slices.to_int.
  rewrite (proj2 (Z.ltb_lt W 2147483648)) by lia. cbv zeta.
  destruct (_ || _) eqn:E1; [done |].
  destruct (_ || _) eqn:E2 in |- *; [done |].
  intros [= <- <- <- <-].
  repeat (apply orb_false_iff in E1 as [E1 ?]).
  apply orb_false_iff in E2 as [E2 E3].
  destruct (minx <? 0) eqn:F1, (W <=? maxx) eqn:F2, (miny <? y0) eqn:F3,
           (y1 <? maxy) eqn:F4;
    rewrite ?Z.leb_le, ?Z.ltb_lt, ?Z.leb_gt, ?Z.ltb_ge in *; lia.
Qed.

(** Inside the frame the [size_t] arithmetic does not wrap. *)
Lemma pixel_index_value pitch minx y x :
  0 ≤ y < two32 → 0 ≤ pitch < two32 → 0 ≤ minx < two32 →
  pixel_index pitch minx y x = y * pitch + x.
Proof.
  intros Hy Hp Hm. unfold pixel_index, row_start, wrap64.
  rewrite (Z.mod_small y), (Z.mod_small pitch), (Z.mod_small minx)
    by (unfold two64, two32 in *; lia).
  assert (0 ≤ y * pitch ≤ (two32 - 1) * (two32 - 1)) by (unfold two32 in *; nia).
  rewrite (Z.mod_small (y * pitch)) by (unfold two64, two32 in *; lia).
  rewrite Z.mod_small by (unfold two64, two32 in *; lia). lia.
Qed.

(** The pixels of a box of one slice. *)
Lemma writes_spec W pitch y0 y1 minx maxx miny maxy box p :
  0 ≤ W < 2147483648 → W ≤ pitch < two32 → 0 ≤ y0 → y1 < two32 →
  clip_box W y0 y1 minx maxx miny maxy = Some box → writes pitch box p →
  ∃ x y, 0 ≤ x < W ∧ y0 ≤ y ≤ y1 ∧ p = y * pitch + x.
Proof.
  intros HW Hp Hy0 Hy1 Hclip Hw. destruct box as [[[a b] c] d].
  destruct (clip_spec _ _ _ _ _ _ _ _ _ _ _ HW Hclip) as (Ha & Hab & Hb & Hc & Hcd & Hd).
  destruct Hw as (x & y & Hx & Hy & ->). exists x, y.
  split; [lia |]. split; [lia |].
  apply pixel_index_value; unfold two32 in *; lia.
Qed.

End raster_facts.

(** X23.  The slices of a frame are drawn apart.  For a frame of height [H]
    and width [W] below [2^31] and a pitch of at least [W] pixels, take two
    different ranges of [compute_slice_ranges(H)] and, for each, a triangle
    that [draw_world_slice] does not skip: no pixel that the loops of the
    one may write is a pixel that the loops of the other may write.  And at
    a height at which no range reaches past the frame, every pixel that may
    be written lies in the [pitch * H] pixels of the frame. *)
Theorem slices_write_apart (H W pitch : Z) (i j : nat) (ri rj : slices.worker_range)
    (minx maxx miny maxy minx' maxx' miny' maxy' : Z) (bi bj : Z * Z * Z * Z) (p q : Z) :
  0 ≤ H < 2147483648 → 0 ≤ W < 2147483648 → W ≤ pitch < two32 →
  slices.compute_slice_ranges H !! i = Some ri →
  slices.compute_slice_ranges H !! j = Some rj → i ≠ j →
  raster.clip_box W (slices.y0 ri) (slices.y1 ri) minx maxx miny maxy = Some bi →
  raster.clip_box W (slices.y0 rj) (slices.y1 rj) minx' maxx' miny' maxy' = Some bj →
  raster.writes pitch bi p → raster.writes pitch bj q →
  p ≠ q ∧ (slices.overruns H = false → 0 ≤ p < pitch * H).
Proof.
  intros HH HW Hp Hi Hj Hij Hci Hcj Hwp Hwq.
  assert (Hbounds : 0 ≤ slices.y0 ri ∧ slices.y1 ri < two32 ∧
                    0 ≤ slices.y0 rj ∧ slices.y1 rj < two32 ∧
                    (slices.y1 ri < slices.y0 rj ∨ slices.y1 rj < slices.y0 ri)).
  { destruct (Nat.lt_total i j) as [Hlt | [-> | Hgt]]; [| done |].
    - destruct (slice_any.ranges_apart H i j ri rj HH Hlt Hi Hj) as (H1 & H2 & H3).
      destruct bi as [[[a b] c] d], bj as [[[a' b'] c'] d'].
      destruct (raster_facts.clip_spec _ _ _ _ _ _ _ _ _ _ _ HW Hci) as (_ & _ & _ & ? & ? & ?).
      destruct (raster_facts.clip_spec _ _ _ _ _ _ _ _ _ _ _ HW Hcj) as (_ & _ & _ & ? & ? & ?).
      unfold two32. split_and!; try lia.
    - destruct (slice_any.ranges_apart H j i rj ri HH Hgt Hj Hi) as (H1 & H2 & H3).
      destruct bi as [[[a b] c] d], bj as [[[a' b'] c'] d'].
      destruct (raster_facts.clip_spec _ _ _ _ _ _ _ _ _ _ _ HW Hci) as (_ & _ & _ & ? & ? & ?).
      destruct (raster_facts.clip_spec _ _ _ _ _ _ _ _ _ _ _ HW Hcj) as (_ & _ & _ & ? & ? & ?).
      unfold two32. split_and!; try lia. }
  destruct Hbounds as (Hi0 & Hi1 & Hj0 & Hj1 & Hapart).
  destruct (raster_facts.writes_spec W pitch _ _ _ _ _ _ bi p HW Hp Hi0 Hi1 Hci Hwp)
    as (x & y & Hx & Hy & ->).
  destruct (raster_facts.writes_spec W pitch _ _ _ _ _ _ bj q HW Hp Hj0 Hj1 Hcj Hwq)
    as (x' & y' & Hx' & Hy' & ->).
  split.
  - intros Heq. assert (y = y') by nia. lia.
  - intros Hover. unfold slices.overruns in Hover.
    assert (Hnot : (slices.y0 ri <=? slices.y1 ri) && (H <=? slices.y1 ri) = false).
    { destruct ((slices.y0 ri <=? slices.y1 ri) && (H <=? slices.y1 ri)) eqn:E; [| done].
      assert (Hex : existsb (fun r => (slices.y0 r <=? slices.y1 r) && (H <=? slices.y1 r))
                      (slices.compute_slice_ranges H) = true).
      { apply existsb_exists. exists ri. split; [| done].
        apply list_elem_of_In. by eapply list_elem_of_lookup_2. }
      congruence. }
    apply andb_false_iff in Hnot as [Hnot | Hnot];
      rewrite ?Z.leb_gt in Hnot; nia.
Qed.

Lemma slices_write_apart_witness :
  raster.pixel_index 1024 10 100 12 ≠ raster.pixel_index 1024 0 128 12 ∧
  (slices.overruns 768 = false → 0 ≤ raster.pixel_index 1024 10 100 12 < 1024 * 768).
Proof.
  apply (slices_write_apart 768 1024 1024 0 1 (slices.mk_range 0 127)
           (slices.mk_range 128 255) 10 20 100 300 (-5) 2000 120 130
           (10, 20, 100, 127) (0, 1023, 128, 130)).
  - lia.
  - lia.
  - unfold two32. lia.
  - vm_compute. reflexivity.
  - vm_compute. reflexivity.
  - lia.
  - vm_compute. reflexivity.
  - vm_compute. reflexivity.
  - exists 12, 100. split; [lia |]. split; [lia | reflexivity].
  - exists 12, 128. split; [lia |]. split; [lia | reflexivity].
Defined.

(** ** Archetypes and their tables *)

Module archetypes.

(** The index of a table is the entry of its key in [key_tables_]. *)
Lemma table_of_key w (t : nat) tb :
  world_inv w → world.tables w !! t = Some tb →
  world_storage.key_tables_ (world.storage_ w) !! table.key tb = Some (Z.of_nat t).
Proof.
  intros Hinv Htb. apply (wi_keys w Hinv). exists t. split; [done |].
  by rewrite list_lookup_fmap, Htb.
Qed.

(** A signature whose table exists. *)
Lemma signature_found w ids (t : nat) tb :
  world_inv w → world.tables w !! t = Some tb →
  table.key tb = archetype_key.canonicalise ids →
  world.get_table_for_signature w ids = Some (w, Z.of_nat t).
Proof.
  intros Hinv Htb Hkey. pose proof (table_of_key w t tb Hinv Htb) as Hfind.
  unfold world.get_table_for_signature, world_storage.get_or_create_table.
  rewrite <- Hkey, Hfind. cbn. by destruct w.
Qed.

End archetypes.

(** X24.  [intersect_sorted_ids] on two canonical keys calls the function
    with exactly the ids that are in both, in increasing order and each
    once, whichever key comes first. *)
Theorem intersect_sorted_ids_common (a b : list Z) :
  StronglySorted Z.lt a → StronglySorted Z.lt b →
  StronglySorted Z.lt (world.intersect_sorted_ids a b) ∧
  (∀ c, c ∈ world.intersect_sorted_ids a b ↔ c ∈ a ∧ c ∈ b) ∧
  world.intersect_sorted_ids a b = world.intersect_sorted_ids b a.
Proof.
  intros Ha Hb. split; [by apply key.intersect_ok |]. split.
  - intros c. by apply key.elem_of_intersect.
  - apply key_more.ok_ext; [by apply key.intersect_ok .. |].
    intros c. rewrite !key.elem_of_intersect by done. tauto.
Qed.

Lemma intersect_sorted_ids_common_witness :
  StronglySorted Z.lt (world.intersect_sorted_ids [0; 2; 5; 7] [1; 2; 7; 9]) ∧
  (∀ c, c ∈ world.intersect_sorted_ids [0; 2; 5; 7] [1; 2; 7; 9]
        ↔ c ∈ [0; 2; 5; 7] ∧ c ∈ [1; 2; 7; 9]) ∧
  world.intersect_sorted_ids [0; 2; 5; 7] [1; 2; 7; 9]
    = world.intersect_sorted_ids [1; 2; 7; 9] [0; 2; 5; 7].
Proof.
  apply (intersect_sorted_ids_common [0; 2; 5; 7] [1; 2; 7; 9]);
    repeat (constructor; try lia).
Defined.

(** X25.  One table for each archetype.  In a state of an honest run of the store (reached from [world()]
    by [register_component], [create_entity], [destroy_entity],
    [add_component], [remove_component] and [reserve] calls, every handle
    passed being stale or the handle of an entity in use, every [reserve]
    being for fewer than [2^32] rows, every call made with fewer than
    [2^32 - 1] entity slots and tables and fewer than [2^30] component
    types),
    itself inside these limits, no two tables have the same key, and
    [get_table_for_signature] called with registered ids returns the table
    whose key is the canonical form of the ids; called again with the same
    ids in any order and with any repetitions, it returns the same table and
    changes nothing. *)
Theorem one_table_per_archetype (w : world.t) (ids : list Z) :
  reachable w → within_limits w →
  Forall (fun cid => 0 ≤ cid < Z.of_nat (component_registry.count (world.registry_ w))) ids →
  (∀ t t' tb tb', world.tables w !! t = Some tb → world.tables w !! t' = Some tb' →
                  table.key tb = table.key tb' → t = t') ∧
  ∃ w1 t tb,
    world.get_table_for_signature w ids = Some (w1, Z.of_nat t) ∧
    world.tables w1 !! t = Some tb ∧
    table.key tb = archetype_key.make_archetype_key ids ∧
    ∀ ids', (∀ c, c ∈ ids ↔ c ∈ ids') →
            world.get_table_for_signature w1 ids' = Some (w1, Z.of_nat t).
Proof.
  intros Hr Hlim Hids. pose proof (store.reachable_world_inv w Hr) as Hinv. split.
  - intros t t' tb tb' Ht Ht' Hkey.
    pose proof (archetypes.table_of_key w t tb Hinv Ht) as H1.
    pose proof (archetypes.table_of_key w t' tb' Hinv Ht') as H2.
    rewrite Hkey, H2 in H1. injection H1. lia.
  - destruct (signature.get_table_for_signature_inv w ids Hinv Hlim Hids)
      as (w1 & t & tb & extra & Hsig & Hinv1 & _ & Htb & Hkey & _).
    exists w1, t, tb. split; [done |]. split; [done |]. split; [done |].
    intros ids' Hsame. apply (archetypes.signature_found w1 ids' t tb Hinv1 Htb).
    rewrite Hkey. apply key_more.ok_ext; [apply key.canonicalise_ok .. |].
    intros c. rewrite !key.elem_of_canonicalise. apply Hsame.
Qed.

Lemma one_table_per_archetype_witness :
  let w := examples.scene in
  (∀ t t' tb tb', world.tables w !! t = Some tb → world.tables w !! t' = Some tb' →
                  table.key tb = table.key tb' → t = t') ∧
  ∃ w1 t tb,
    world.get_table_for_signature w [1; 0; 1] = Some (w1, Z.of_nat t) ∧
    world.tables w1 !! t = Some tb ∧
    table.key tb = archetype_key.make_archetype_key [1; 0; 1] ∧
    ∀ ids', (∀ c, c ∈ [1; 0; 1] ↔ c ∈ ids') →
            world.get_table_for_signature w1 ids' = Some (w1, Z.of_nat t).
Proof.
  intros w. apply (one_table_per_archetype w [1; 0; 1]).
  - exact tracking.scene_reachable.
  - apply store.within_limitsb_spec. vm_compute. reflexivity.
  - assert (Hc : component_registry.count (world.registry_ w) = 3%nat)
      by (vm_compute; reflexivity).
    rewrite Hc. repeat (constructor; [lia |]). constructor.
Defined.

(** ** The order of binary32 numbers *)

Module f32_facts.

Lemma compare_cont_Lt m1 m2 : Pos.compare_cont Eq m1 m2 = Lt ↔ (m1 < m2)%positive.
Proof. done. Qed.

Lemma compare_cont_Gt m1 m2 : Pos.compare_cont Eq m1 m2 = Gt ↔ (m2 < m1)%positive.
Proof. apply Pos.gt_lt_iff. Qed.

Lemma below_trans m1 e1 m2 e2 m3 e3 :
  below m1 e1 m2 e2 → below m2 e2 m3 e3 → below m1 e1 m3 e3.
Proof. unfold below. lia. Qed.

Lemma below_asym m1 e1 m2 e2 : below m1 e1 m2 e2 → ¬ below m2 e2 m1 e1.
Proof. unfold below. lia. Qed.

Lemma pos_Lt m1 e1 m2 e2 :
  match e1 ?= e2 with
  | Eq => Pos.compare_cont Eq m1 m2
  | Lt => Lt
  | Gt => Gt
  end = Lt ↔ below m1 e1 m2 e2.
Proof.
  unfold below. destruct (Z.compare_spec e1 e2); rewrite ?compare_cont_Lt; split;
    try done; try lia; intros ?; exfalso; lia.
Qed.

Lemma neg_Lt m1 e1 m2 e2 :
  match e1 ?= e2 with
  | Eq => CompOpp (Pos.compare_cont Eq m1 m2)
  | Lt => Gt
  | Gt => Lt
  end = Lt ↔ below m2 e2 m1 e1.
Proof.
  unfold below. destruct (Z.compare_spec e1 e2).
  - destruct (Pos.compare_cont Eq m1 m2) eqn:E; cbn; (split; [try done | try done]).
    + apply Pos.compare_eq in E. intros ?. exfalso. lia.
    + apply (proj1 (compare_cont_Lt _ _)) in E. intros ?. exfalso. lia.
    + apply (proj1 (compare_cont_Gt _ _)) in E. intros _. lia.
  - split; [done | intros ?; exfalso; lia].
  - split; [lia | done].
Qed.

Lemma lt_pos m1 e1 m2 e2 :
  f32.lt (SpecFloat.S754_finite false m1 e1) (SpecFloat.S754_finite false m2 e2) = true
  ↔ below m1 e1 m2 e2.
Proof.
  rewrite <- pos_Lt. unfold f32.lt, SpecFloat.SFltb, SpecFloat.SFcompare.
  by destruct (e1 ?= e2), (Pos.compare_cont Eq m1 m2).
Qed.

Lemma lt_neg m1 e1 m2 e2 :
  f32.lt (SpecFloat.S754_finite true m1 e1) (SpecFloat.S754_finite true m2 e2) = true
  ↔ below m2 e2 m1 e1.
Proof.
  rewrite <- neg_Lt. unfold f32.lt, SpecFloat.SFltb, SpecFloat.SFcompare.
  by destruct (e1 ?= e2), (Pos.compare_cont Eq m1 m2).
Qed.

(** [a < b] as a relation: what [SFcompare] answers [Lt] to. *)
Lemma lt_spec a b :
  f32.lt a b = true ↔
  match a, b with
  | SpecFloat.S754_nan, _ | _, SpecFloat.S754_nan => False
  | SpecFloat.S754_infinity s1, SpecFloat.S754_infinity s2 => s1 = true ∧ s2 = false
  | SpecFloat.S754_infinity s, _ => s = true
  | _, SpecFloat.S754_infinity s => s = false
  | SpecFloat.S754_finite s _ _, SpecFloat.S754_zero _ => s = true
  | SpecFloat.S754_zero _, SpecFloat.S754_finite s _ _ => s = false
  | SpecFloat.S754_zero _, SpecFloat.S754_zero _ => False
  | SpecFloat.S754_finite s1 m1 e1, SpecFloat.S754_finite s2 m2 e2 =>
      (s1 = true ∧ s2 = false) ∨
      (s1 = false ∧ s2 = false ∧ below m1 e1 m2 e2) ∨
      (s1 = true ∧ s2 = true ∧ below m2 e2 m1 e1)
  end.
Proof.
  destruct a as [[] | [] | | [] m1 e1], b as [[] | [] | | [] m2 e2];
    rewrite ?lt_pos, ?lt_neg;
    try (cbn; split; [intros H; try discriminate H; tauto |
                      intros H; try reflexivity; exfalso; intuition discriminate]).
  - split; [intros H; right; right; done |].
    intros [[? ?] | [(? & _) | (_ & _ & H)]]; done.
  - split; [intros H; right; left; done |].
    intros [[? ?] | [(_ & _ & H) | (? & _)]]; done.
Qed.

(** [>] on [float]s is a strict order, also with zeros of both signs,
    infinities and NaN. *)
Lemma gt_asym a b : f32.gt a b = true → f32.gt b a = false.
Proof.
  unfold f32.gt. change (f32.lt b a = true → f32.lt a b = false).
  intros H. apply not_true_is_false. intros H'.
  apply (proj1 (lt_spec _ _)) in H. apply (proj1 (lt_spec _ _)) in H'.
  destruct a as [[] | [] | | [] m1 e1], b as [[] | [] | | [] m2 e2];
    try done; try (by destruct H); try (by destruct H');
    destruct H as [[? ?] | [(? & ? & H) | (? & ? & H)]],
             H' as [[? ?] | [(? & ? & H') | (? & ? & H')]]; try done;
    by apply below_asym in H.
Qed.

Lemma gt_trans a b c : f32.gt a b = true → f32.gt b c = true → f32.gt a c = true.
Proof.
  unfold f32.gt.
  change (f32.lt b a = true → f32.lt c b = true → f32.lt c a = true).
  rewrite !lt_spec.
  destruct a as [[] | [] | | [] m1 e1], b as [[] | [] | | [] m2 e2],
           c as [[] | [] | | [] m3 e3];
    try done; try tauto; try (intros [? ?]; done); try (intros ? [? ?]; done);
    try (intros [[? ?] | [(? & ? & ?) | (? & ? & ?)]]; done);
    try (intros ? [[? ?] | [(? & ? & ?) | (? & ? & ?)]]; done);
    intros [[? ?] | [(? & ? & H) | (? & ? & H)]]
           [[? ?] | [(? & ? & H') | (? & ? & H')]]; try done; try tauto.
  - right. right. split_and!; try done. by eapply below_trans.
  - right. left. split_and!; try done. by eapply below_trans.
Qed.

End f32_facts.

(** ** The loops of the rasteriser as a list of fragments *)

Module scan_facts.

Import draw.

Lemma fold_opt_app {A B} (f : A → B → option A) l1 l2 a :
  fold_opt f a (l1 ++ l2) = fold_opt f a l1 ≫= (fun a' => fold_opt f a' l2).
Proof.
  revert a. induction l1 as [| x l1 IH]; intros a; cbn; [done |].
  destruct (f a x) as [a1 |]; cbn; [apply IH | done].
Qed.

Lemma record_fold (L l : list fragment) :
  fold_opt (fun l f => Some (l ++ [f])) l L = Some (l ++ L).
Proof.
  revert l. induction L as [| f L IH]; intros l; cbn.
  - by rewrite app_nil_r.
  - rewrite IH. by rewrite <- app_assoc.
Qed.

(** One row: the fragments lie in the row, in increasing columns. *)
Lemma span_list k minx py n : ∀ px c,
  ∃ L,
    (∀ S (emit : fragment → S → option S) s,
       span emit k minx py n px c s = fold_opt (fun s f => emit f s) s L) ∧
    Forall (fun f => fminx f = minx ∧ fy f = py ∧ px ≤ fx f < px + Z.of_nat n) L ∧
    NoDup (coords <$> L).
Proof.
  induction n as [| n IH]; intros px c.
  - exists []. split; [done |]. split; constructor.
  - destruct (IH (px + 1) (step_x k c)) as (L & Hrun & Hgeo & Hnd).
    assert (Hgeo' : Forall (fun f => fminx f = minx ∧ fy f = py ∧
                                     px < fx f < px + Z.of_nat (S n)) L).
    { eapply Forall_impl; [exact Hgeo |]. cbv beta. lia. }
    destruct (inside c) eqn:Hin.
    + exists (mk_fragment minx px py (zc c) :: L). split; [| split].
      * intros S emit s. cbn [span fold_opt]. rewrite Hin.
        destruct (emit _ s) as [s' |]; cbn; [apply Hrun | done].
      * constructor; [cbn; lia |]. eapply Forall_impl; [exact Hgeo' |]. cbv beta. lia.
      * cbn [fmap list_fmap]. constructor; [| done]. intros Hel.
        apply list_elem_of_fmap in Hel as (f & Hc & Hf).
        pose proof (proj1 (Forall_forall _ _) Hgeo' f Hf) as (_ & _ & Hx).
        unfold coords in Hc. cbn in Hc. injection Hc as Hc _. lia.
    + exists L. split; [| split; [| done]].
      * intros S emit s. cbn [span]. rewrite Hin. cbn. apply Hrun.
      * eapply Forall_impl; [exact Hgeo' |]. cbv beta. lia.
Qed.

(** The rows of a box. *)
Lemma rows_list k minx width n : ∀ py c,
  ∃ L,
    (∀ S (emit : fragment → S → option S) s,
       rows emit k minx width n py c s = fold_opt (fun s f => emit f s) s L) ∧
    Forall (fun f => fminx f = minx ∧ py ≤ fy f < py + Z.of_nat n ∧
                     minx ≤ fx f < minx + Z.of_nat width) L ∧
    NoDup (coords <$> L).
Proof.
  induction n as [| n IH]; intros py c.
  - exists []. split; [done |]. split; constructor.
  - destruct (span_list k minx py width minx c) as (L1 & Hrun1 & Hgeo1 & Hnd1).
    destruct (IH (py + 1) (step_y k c)) as (L2 & Hrun2 & Hgeo2 & Hnd2).
    exists (L1 ++ L2). split; [| split].
    + intros S emit s. cbn [rows]. rewrite Hrun1, fold_opt_app.
      destruct (fold_opt _ s L1) as [s' |]; cbn; [apply Hrun2 | done].
    + apply Forall_app. split; (eapply Forall_impl; [done |]); cbv beta; lia.
    + rewrite fmap_app. apply NoDup_app. split; [done |]. split; [| done].
      intros p Hp1 Hp2.
      apply list_elem_of_fmap in Hp1 as (f1 & -> & Hf1).
      apply list_elem_of_fmap in Hp2 as (f2 & Hc & Hf2).
      pose proof (proj1 (Forall_forall _ _) Hgeo1 f1 Hf1) as (_ & Hy1 & _).
      pose proof (proj1 (Forall_forall _ _) Hgeo2 f2 Hf2) as (_ & Hy2 & _).
      unfold coords in Hc. injection Hc as _ Hc. lia.
Qed.

(** A triangle: its casts are undefined, or its fragments lie in the
    frame and in the slice, no pixel twice. *)
Lemma scan_list tg y0 y1 t :
  0 ≤ W tg < 2147483648 →
  (∀ S (emit : fragment → S → option S) s, scan tg y0 y1 t emit s = None) ∨
  ∃ L,
    (∀ S (emit : fragment → S → option S) s,
       scan tg y0 y1 t emit s = fold_opt (fun s f => emit f s) s L) ∧
    Forall (fun f => 0 ≤ fminx f ≤ fx f ∧ fx f < W tg ∧ y0 ≤ fy f ≤ y1) L ∧
    NoDup (coords <$> L).
Proof.
  intros HW.
  assert (Hskip : ∃ L : list fragment,
             (∀ S (emit : fragment → S → option S) (s : S),
                Some s = fold_opt (fun s f => emit f s) s L) ∧
             Forall (fun f => 0 ≤ fminx f ≤ fx f ∧ fx f < W tg ∧ y0 ≤ fy f ≤ y1) L ∧
             NoDup (coords <$> L)).
  { exists []. split; [done |]. split; constructor. }
  unfold scan.
  repeat match goal with
         | |- context [if ?b then Some _ else _] => destruct b; [by right |]
         end.
  set (v0 := make_svtx (hp0 t) (fw tg) (fh tg)).
  set (v1 := make_svtx (hp1 t) (fw tg) (fh tg)).
  set (v2 := make_svtx (hp2 t) (fw tg) (fh tg)).
  destruct (f32.floor (f32.min3 (x v0) (x v1) (x v2)) ≫= f32.to_int) as [minx |];
    [| by left].
  destruct (f32.ceil (f32.max3 (x v0) (x v1) (x v2)) ≫= f32.to_int) as [maxx |];
    [| by left].
  destruct (f32.floor (f32.min3 (y v0) (y v1) (y v2)) ≫= f32.to_int) as [miny |];
    [| by left].
  destruct (f32.ceil (f32.max3 (y v0) (y v1) (y v2)) ≫= f32.to_int) as [maxy |];
    [| by left].
  cbn [mbind option_bind].
  destruct (raster.clip_box (W tg) y0 y1 minx maxx miny maxy)
    as [[[[a b] c] d] |] eqn:Hclip; [| by right].
  destruct (raster_facts.clip_spec _ _ _ _ _ _ _ _ _ _ _ HW Hclip)
    as (Ha & Hab & Hb & Hc & Hcd & Hd).
  right.
  match goal with
  | |- context [rows _ ?k a ?wd ?n c ?cur _] =>
      destruct (rows_list k a wd n c cur) as (L & Hrun & Hgeo & Hnd)
  end.
  exists L. split; [exact Hrun |]. split; [| done].
  eapply Forall_impl; [exact Hgeo |]. cbv beta. intros f (-> & Hy & Hx). lia.
Qed.

(** The recorded fragments are what the loops act on. *)
Lemma fragments_spec tg y0 y1 t L :
  0 ≤ W tg < 2147483648 → fragments tg y0 y1 t = Some L →
  (∀ S (emit : fragment → S → option S) s,
     scan tg y0 y1 t emit s = fold_opt (fun s f => emit f s) s L) ∧
  Forall (fun f => 0 ≤ fminx f ≤ fx f ∧ fx f < W tg ∧ y0 ≤ fy f ≤ y1) L ∧
  NoDup (coords <$> L).
Proof.
  intros HW Hf. unfold fragments in Hf.
  destruct (scan_list tg y0 y1 t HW) as [Hnone | (L' & Hrun & Hgeo & Hnd)].
  - by rewrite Hnone in Hf.
  - rewrite Hrun, record_fold in Hf. cbn in Hf. injection Hf as <-. done.
Qed.

End scan_facts.

(** ** The depth test at a pixel *)

Module plot_facts.

Import draw.

Section target.

Variable tg : target.
Hypothesis HW : 0 ≤ W tg < 2147483648.
Hypothesis Hzp : W tg ≤ zpitch tg < two32.
Hypothesis Hcp : W tg ≤ pitch_pixels tg < two32.

(** A fragment of the frame. *)
Local Abbreviation geo f :=
  (0 ≤ fminx f ≤ fx f ∧ fx f < W tg ∧ 0 ≤ fy f < 2147483648).

(** The elements [zptr] and [cptr] point at. *)
Local Abbreviation zi f := (Z.to_nat (fy f * zpitch tg + fx f)).
Local Abbreviation ci f := (Z.to_nat (fy f * pitch_pixels tg + fx f)).

Lemma plot_unfold rgba f b :
  geo f →
  plot tg rgba f b =
    (zb ← zdata b !! zi f;
     if f32.gt (fz f) zb then
       if (ci f <? length (cdata b))%nat
       then Some (mk_buffers (<[zi f := fz f]> (zdata b)) (<[ci f := rgba]> (cdata b)))
       else None
     else Some b).
Proof.
  intros (Hx & Hw & Hy). unfold plot. cbv zeta.
  by rewrite !raster_facts.pixel_index_value by (unfold two32 in *; lia).
Qed.

Lemma zi_inj f g : geo f → geo g → zi f = zi g → coords f = coords g.
Proof.
  intros (Hx & Hw & Hy) (Hx' & Hw' & Hy') Heq. unfold coords.
  assert (fy f * zpitch tg + fx f = fy g * zpitch tg + fx g) as H by nia.
  assert (fy f = fy g) by nia. f_equal; [nia | done].
Qed.

Lemma ci_inj f g : geo f → geo g → ci f = ci g → coords f = coords g.
Proof.
  intros (Hx & Hw & Hy) (Hx' & Hw' & Hy') Heq. unfold coords.
  assert (fy f * pitch_pixels tg + fx f = fy g * pitch_pixels tg + fx g) as H by nia.
  assert (fy f = fy g) by nia. f_equal; [nia | done].
Qed.

(** What a depth test leaves alone. *)
Lemma plot_frame c g b b' :
  geo g → plot tg c g b = Some b' →
  (∀ i, i ≠ zi g → zdata b' !! i = zdata b !! i) ∧
  (∀ j, j ≠ ci g → cdata b' !! j = cdata b !! j) ∧
  length (zdata b') = length (zdata b) ∧ length (cdata b') = length (cdata b).
Proof.
  intros Hg. rewrite (plot_unfold c g b Hg). intros H.
  destruct (zdata b !! zi g) as [zb |]; cbn [mbind option_bind] in H; [| done].
  destruct (f32.gt (fz g) zb); [| by injection H as <-].
  destruct (ci g <? length (cdata b))%nat; [| done]. injection H as <-.
  cbn [zdata cdata]. rewrite !length_insert. split_and!; try done.
  - intros i Hi. by rewrite list_lookup_insert_ne.
  - intros j Hj. by rewrite list_lookup_insert_ne.
Qed.

(** Two depth tests commute: at two pixels they touch different
    elements, and at one pixel the greater depth stays either way. *)
Lemma plot_comm c1 c2 f g b :
  geo f → geo g →
  (coords f = coords g → f32.gt (fz f) (fz g) = true) →
  plot tg c1 f b ≫= plot tg c2 g = plot tg c2 g b ≫= plot tg c1 f.
Proof.
  intros Hf Hg Hnear.
  destruct (decide (coords f = coords g)) as [Heq | Hne].
  - specialize (Hnear Heq).
    assert (Hz : zi g = zi f).
    { unfold coords in Heq. injection Heq as -> ->. done. }
    assert (Hc : ci g = ci f).
    { unfold coords in Heq. injection Heq as -> ->. done. }
    pose proof (f32_facts.gt_asym _ _ Hnear) as Hasym.
    destruct (zdata b !! zi f) as [zb |] eqn:Hzb.
    2: { by rewrite (plot_unfold c1 f b Hf), (plot_unfold c2 g b Hg), Hz, Hzb. }
    pose proof (lookup_lt_Some _ _ _ Hzb) as Hlt.
    rewrite (plot_unfold c1 f b Hf), (plot_unfold c2 g b Hg), Hz, Hc, Hzb.
    cbn [mbind option_bind].
    destruct (f32.gt (fz f) zb) eqn:Hfz, (f32.gt (fz g) zb) eqn:Hgz;
      destruct (ci f <? length (cdata b))%nat eqn:Hci;
      cbn [mbind option_bind];
      rewrite ?(plot_unfold c1 f _ Hf), ?(plot_unfold c2 g _ Hg), ?Hz, ?Hc;
      cbn [zdata cdata]; rewrite ?length_insert, ?list_lookup_insert_eq by done;
      cbn [mbind option_bind]; rewrite ?Hzb; cbn [mbind option_bind];
      rewrite ?Hasym, ?Hnear, ?Hfz, ?Hgz, ?Hci, ?list_insert_insert_eq; try done.
    by rewrite (f32_facts.gt_trans _ _ _ Hnear Hgz) in Hfz.
  - assert (Hz : zi f ≠ zi g) by (intros H; by apply Hne, zi_inj).
    assert (Hc : ci f ≠ ci g) by (intros H; by apply Hne, ci_inj).
    destruct (zdata b !! zi f) as [zb |] eqn:Hzb.
    2: { rewrite (plot_unfold c1 f b Hf), Hzb. cbn [mbind option_bind].
         destruct (plot tg c2 g b) as [b' |] eqn:Hp; [| done]. cbn [mbind option_bind].
         destruct (plot_frame c2 g b b' Hg Hp) as (Hzs & _).
         by rewrite (plot_unfold c1 f b' Hf), (Hzs _ Hz), Hzb. }
    destruct (zdata b !! zi g) as [zb' |] eqn:Hzb'.
    2: { rewrite (plot_unfold c2 g b Hg), Hzb'. cbn [mbind option_bind].
         destruct (plot tg c1 f b) as [b' |] eqn:Hp; [| done]. cbn [mbind option_bind].
         destruct (plot_frame c1 f b b' Hf Hp) as (Hzs & _).
         by rewrite (plot_unfold c2 g b' Hg), (Hzs _ (not_eq_sym Hz)), Hzb'. }
    rewrite (plot_unfold c1 f b Hf), (plot_unfold c2 g b Hg), Hzb, Hzb'.
    cbn [mbind option_bind].
    destruct (f32.gt (fz f) zb) eqn:Hfz, (f32.gt (fz g) zb') eqn:Hgz;
      destruct (ci f <? length (cdata b))%nat eqn:Hcf;
      destruct (ci g <? length (cdata b))%nat eqn:Hcg;
      cbn [mbind option_bind];
      rewrite ?(plot_unfold c1 f _ Hf), ?(plot_unfold c2 g _ Hg);
      cbn [zdata cdata];
      rewrite ?length_insert, ?list_lookup_insert_ne by done;
      rewrite ?Hzb, ?Hzb'; cbn [mbind option_bind];
      rewrite ?Hfz, ?Hgz, ?Hcf, ?Hcg; try done.
    by rewrite (list_insert_insert_ne _ (zi g) (zi f)),
               (list_insert_insert_ne _ (ci g) (ci f)) by done.
Qed.

(** The depth test at the pixel of the fragment. *)
Lemma plot_at c f b zb cb :
  geo f → pixel tg b (fx f) (fy f) = Some (zb, cb) →
  ∃ b', plot tg c f b = Some b' ∧
        pixel tg b' (fx f) (fy f)
          = Some (if f32.gt (fz f) zb then (fz f, c) else (zb, cb)).
Proof.
  intros Hf Hp. rewrite (plot_unfold c f b Hf). unfold pixel in *.
  destruct (zdata b !! zi f) as [zb0 |] eqn:Hzb; cbn [mbind option_bind] in *; [| done].
  destruct (cdata b !! ci f) as [cb0 |] eqn:Hcb; cbn [mbind option_bind] in *; [| done].
  injection Hp as -> ->.
  pose proof (lookup_lt_Some _ _ _ Hzb) as Hzlt.
  pose proof (lookup_lt_Some _ _ _ Hcb) as Hclt.
  destruct (f32.gt (fz f) zb).
  - rewrite (proj2 (Nat.ltb_lt _ _) Hclt). eexists. split; [done |].
    cbn [zdata cdata]. by rewrite !list_lookup_insert_eq by done.
  - eexists. split; [done |]. by rewrite Hzb, Hcb.
Qed.

(** The depth test and the other pixels of the frame. *)
Lemma plot_other c g b b' px py :
  geo g → plot tg c g b = Some b' →
  0 ≤ px < W tg → 0 ≤ py < 2147483648 → (px, py) ≠ coords g →
  pixel tg b' px py = pixel tg b px py.
Proof.
  intros Hg Hp Hx Hy Hne.
  destruct (plot_frame c g b b' Hg Hp) as (Hzs & Hcs & _).
  set (f := mk_fragment 0 px py f32.zero).
  assert (Hf : geo f) by (cbn; lia).
  unfold pixel. change px with (fx f). change py with (fy f).
  rewrite Hzs, Hcs; [done | |].
  - intros H. by apply Hne, (ci_inj f g Hf Hg).
  - intros H. by apply Hne, (zi_inj f g Hf Hg).
Qed.

End target.

(** Steps that commute one by one commute as loops. *)
Lemma fold_comm_one {A B C} (f : A → B → option A) (g : A → C → option A) x l :
  (∀ a y, y ∈ l → f a x ≫= (fun a' => g a' y) = g a y ≫= (fun a' => f a' x)) →
  ∀ a, f a x ≫= (fun a' => fold_opt g a' l) = fold_opt g a l ≫= (fun a' => f a' x).
Proof.
  induction l as [| y l IH]; intros Hc a; cbn [fold_opt].
  - cbn. by destruct (f a x).
  - transitivity ((f a x ≫= (fun a' => g a' y)) ≫= (fun a' => fold_opt g a' l)).
    { by destruct (f a x). }
    rewrite Hc by apply list_elem_of_here.
    destruct (g a y) as [a1 |]; cbn [mbind option_bind]; [| done].
    apply IH. intros a' y' Hy'. apply Hc. by apply list_elem_of_further.
Qed.

Lemma fold_comm {A B C} (f : A → B → option A) (g : A → C → option A) l1 l2 :
  (∀ a x y, x ∈ l1 → y ∈ l2 →
     f a x ≫= (fun a' => g a' y) = g a y ≫= (fun a' => f a' x)) →
  ∀ a, fold_opt f a l1 ≫= (fun a' => fold_opt g a' l2)
       = fold_opt g a l2 ≫= (fun a' => fold_opt f a' l1).
Proof.
  induction l1 as [| x l1 IH]; intros Hc a; cbn [fold_opt].
  - cbn. by destruct (fold_opt g a l2).
  - transitivity (f a x ≫= (fun a' => fold_opt g a' l2 ≫= (fun a'' => fold_opt f a'' l1))).
    { destruct (f a x) as [a1 |]; cbn [mbind option_bind]; [| done].
      apply IH. intros a' x' y Hx' Hy. apply Hc; [by apply list_elem_of_further | done]. }
    transitivity ((f a x ≫= (fun a' => fold_opt g a' l2))
                  ≫= (fun a'' => fold_opt f a'' l1)).
    { by destruct (f a x). }
    rewrite (fold_comm_one f g x l2)
      by (intros a' y Hy; apply Hc; [apply list_elem_of_here | done]).
    by destruct (fold_opt g a l2).
Qed.

(** One triangle drawn: every fragment had its depth test, and the rest
    of the frame is as it was. *)
Lemma fold_plot tg y0 y1 c L : ∀ b,
  frame_ok tg y0 y1 b →
  Forall (fun f => 0 ≤ fminx f ≤ fx f ∧ fx f < W tg ∧ y0 ≤ fy f ≤ y1) L →
  NoDup (coords <$> L) →
  ∃ b',
    fold_opt (fun s f => plot tg c f s) b L = Some b' ∧ frame_ok tg y0 y1 b' ∧
    (∀ f zb cb, f ∈ L → pixel tg b (fx f) (fy f) = Some (zb, cb) →
       pixel tg b' (fx f) (fy f)
         = Some (if f32.gt (fz f) zb then (fz f, c) else (zb, cb))) ∧
    (∀ px py, 0 ≤ px < W tg → 0 ≤ py < 2147483648 → (px, py) ∉ coords <$> L →
       pixel tg b' px py = pixel tg b px py).
Proof.
  induction L as [| g L IH]; intros b Hok Hgeo Hnd.
  - exists b. split; [done |]. split; [done |]. split; [| done].
    intros f zb cb Hf. by apply elem_of_nil in Hf.
  - apply Forall_cons in Hgeo as [Hg Hgeo]. cbn [fmap list_fmap] in Hnd.
    apply NoDup_cons in Hnd as [Hnin Hnd].
    pose proof Hok as (HW & Hzp & Hcp & Hy0 & Hy1 & Hzl & Hcl).
    assert (Hgg : 0 ≤ fminx g ≤ fx g ∧ fx g < W tg ∧ 0 ≤ fy g < 2147483648) by lia.
    assert (Hpix : ∃ zb cb, pixel tg b (fx g) (fy g) = Some (zb, cb)).
    { unfold pixel.
      destruct (lookup_lt_is_Some_2 (zdata b) (Z.to_nat (fy g * zpitch tg + fx g)))
        as [zb Hzb]; [nia |].
      destruct (lookup_lt_is_Some_2 (cdata b) (Z.to_nat (fy g * pitch_pixels tg + fx g)))
        as [cb Hcb]; [nia |].
      exists zb, cb. by rewrite Hzb, Hcb. }
    destruct Hpix as (zb0 & cb0 & Hpix).
    destruct (plot_at tg HW Hzp Hcp c g b zb0 cb0 Hgg Hpix) as (b1 & Hp1 & Hat1).
    destruct (plot_frame tg HW Hzp Hcp c g b b1 Hgg Hp1) as (_ & _ & Hzlen & Hclen).
    assert (Hok1 : frame_ok tg y0 y1 b1).
    { unfold frame_ok. rewrite Hzlen, Hclen. done. }
    destruct (IH b1 Hok1 Hgeo Hnd) as (b' & Hrun & Hok' & Hin & Hout).
    exists b'. split; [cbn [fold_opt]; rewrite Hp1; exact Hrun |].
    split; [done |]. split.
    + intros f zb cb Hf Hpf. apply elem_of_cons in Hf as [-> | Hf].
      * rewrite Hout; [| lia | lia | done].
        rewrite Hpix in Hpf. injection Hpf as <- <-. done.
      * apply Hin; [done |].
        pose proof (proj1 (Forall_forall _ _) Hgeo f Hf) as Hfg. cbv beta in Hfg.
        rewrite (plot_other tg HW Hzp Hcp c g b b1 (fx f) (fy f) Hgg Hp1);
          [done | lia | lia |].
        intros Heq. apply Hnin. rewrite <- Heq.
        change (fx f, fy f) with (coords f). by apply list_elem_of_fmap_2.
    + intros px py Hx Hy Hnp. apply not_elem_of_cons in Hnp as [Hne Hnp].
      rewrite (Hout px py Hx Hy Hnp).
      by apply (plot_other tg HW Hzp Hcp c g b b1 px py Hgg Hp1).
Qed.

End plot_facts.

(** C8, amended.  Two triangles drawn one after the other by
    [draw_world_slice(y0, y1)] into buffers that hold the rows of the
    slice.  When, at every pixel that the edge functions of both accept,
    the depth the loops compute for the first (the binary32 value [z],
    stepped from [1.0f - ndc.z] of its vertices) is greater than the depth
    they compute for the second, as [float]s, then both submission orders
    return, with the same colour and depth buffers; and at each of these
    pixels the buffers hold the depth and the colour of the first triangle
    when that depth is greater than the depth the buffer held before, and
    what they held before otherwise. *)
Theorem depth_test_order_independent (tg : draw.target) (y0 y1 : Z)
    (t1 t2 : draw.triangle) (b : draw.buffers) (f1 f2 : list draw.fragment) :
  frame_ok tg y0 y1 b →
  draw.fragments tg y0 y1 t1 = Some f1 →
  draw.fragments tg y0 y1 t2 = Some f2 →
  (∀ g1 g2, g1 ∈ f1 → g2 ∈ f2 → coords g1 = coords g2 →
            f32.gt (draw.fz g1) (draw.fz g2) = true) →
  ∃ b',
    draw.draw_world_slice tg y0 y1 [t1; t2] b = Some b' ∧
    draw.draw_world_slice tg y0 y1 [t2; t1] b = Some b' ∧
    ∀ g1 g2, g1 ∈ f1 → g2 ∈ f2 → coords g1 = coords g2 →
      ∃ zb cb,
        draw.pixel tg b (draw.fx g1) (draw.fy g1) = Some (zb, cb) ∧
        draw.pixel tg b' (draw.fx g1) (draw.fy g1)
          = Some (if f32.gt (draw.fz g1) zb then (draw.fz g1, draw.rgba t1)
                  else (zb, cb)).
Proof.
  intros Hok Hf1 Hf2 Hnear.
  pose proof Hok as (HW & Hzp & Hcp & Hy0 & Hy1 & Hzl & Hcl).
  destruct (scan_facts.fragments_spec tg y0 y1 t1 f1 HW Hf1) as (Hrun1 & Hgeo1 & Hnd1).
  destruct (scan_facts.fragments_spec tg y0 y1 t2 f2 HW Hf2) as (Hrun2 & Hgeo2 & Hnd2).
  destruct (plot_facts.fold_plot tg y0 y1 (draw.rgba t2) f2 b Hok Hgeo2 Hnd2)
    as (b2 & Hb2 & Hok2 & Hin2 & Hout2).
  destruct (plot_facts.fold_plot tg y0 y1 (draw.rgba t1) f1 b2 Hok2 Hgeo1 Hnd1)
    as (b' & Hb' & Hok' & Hin1 & Hout1).
  assert (Hgeo : ∀ f l,
             Forall (fun f => 0 ≤ draw.fminx f ≤ draw.fx f ∧ draw.fx f < draw.W tg ∧
                              y0 ≤ draw.fy f ≤ y1) l → f ∈ l →
             0 ≤ draw.fminx f ≤ draw.fx f ∧ draw.fx f < draw.W tg ∧
             0 ≤ draw.fy f < 2147483648).
  { intros f l Hl Hf. pose proof (proj1 (Forall_forall _ _) Hl f Hf) as H.
    cbv beta in H. lia. }
  assert (H21 : draw.draw_world_slice tg y0 y1 [t2; t1] b = Some b').
  { unfold draw.draw_world_slice, draw.draw_triangle. cbn [fold_opt].
    rewrite Hrun2, Hb2. cbn [mbind option_bind]. rewrite Hrun1, Hb'. done. }
  exists b'. split; [| split; [exact H21 |]].
  - rewrite <- H21. unfold draw.draw_world_slice, draw.draw_triangle. cbn [fold_opt].
    rewrite !Hrun1, !Hrun2.
    pose proof (plot_facts.fold_comm
                  (fun s f => draw.plot tg (draw.rgba t1) f s)
                  (fun s f => draw.plot tg (draw.rgba t2) f s) f1 f2) as Hcomm.
    transitivity (fold_opt (fun s f => draw.plot tg (draw.rgba t1) f s) b f1
                  ≫= (fun a' => fold_opt (fun s f => draw.plot tg (draw.rgba t2) f s) a' f2)).
    { destruct (fold_opt _ b f1) as [a1 |]; cbn [mbind option_bind]; [| done].
      rewrite Hrun2. by destruct (fold_opt _ a1 f2). }
    rewrite Hcomm.
    + destruct (fold_opt _ b f2) as [a1 |]; cbn [mbind option_bind]; [| done].
      rewrite Hrun1. by destruct (fold_opt _ a1 f1).
    + intros a g1 g2 Hg1 Hg2.
      apply (plot_facts.plot_comm tg HW Hzp Hcp).
      * by apply (Hgeo g1 f1).
      * by apply (Hgeo g2 f2).
      * by apply Hnear.
  - intros g1 g2 Hg1 Hg2 Hc.
    pose proof (Hgeo g1 f1 Hgeo1 Hg1) as Hgg1.
    pose proof (proj1 (Forall_forall _ _) Hgeo1 g1 Hg1) as Hs1. cbv beta in Hs1.
    assert (Hpix : ∃ zb cb, draw.pixel tg b (draw.fx g1) (draw.fy g1) = Some (zb, cb)).
    { unfold draw.pixel.
      destruct (lookup_lt_is_Some_2 (draw.zdata b)
                  (Z.to_nat (draw.fy g1 * draw.zpitch tg + draw.fx g1))) as [zb Hzb]; [nia |].
      destruct (lookup_lt_is_Some_2 (draw.cdata b)
                  (Z.to_nat (draw.fy g1 * draw.pitch_pixels tg + draw.fx g1)))
        as [cb Hcb]; [nia |].
      exists zb, cb. by rewrite Hzb, Hcb. }
    destruct Hpix as (zb & cb & Hpix). exists zb, cb. split; [done |].
    assert (Hxy : draw.fx g1 = draw.fx g2 ∧ draw.fy g1 = draw.fy g2).
    { unfold coords in Hc. by injection Hc. }
    destruct Hxy as [Hx Hy].
    pose proof (Hin2 g2 zb cb Hg2 ltac:(by rewrite <- Hx, <- Hy)) as Hp2.
    rewrite <- Hx, <- Hy in Hp2.
    specialize (Hnear g1 g2 Hg1 Hg2 Hc).
    destruct (f32.gt (draw.fz g2) zb) eqn:H2.
    + rewrite (Hin1 g1 _ _ Hg1 Hp2).
      by rewrite Hnear, (f32_facts.gt_trans _ _ _ Hnear H2).
    + by rewrite (Hin1 g1 _ _ Hg1 Hp2).
Qed.

Lemma depth_test_order_independent_witness :
  let t1 := examples.facing f32.zero 1 in
  let t2 := examples.facing f32.half 2 in
  let f1 := default [] (draw.fragments examples.frame8 0 7 t1) in
  let f2 := default [] (draw.fragments examples.frame8 0 7 t2) in
  ∃ b',
    draw.draw_world_slice examples.frame8 0 7 [t1; t2] examples.cleared8 = Some b' ∧
    draw.draw_world_slice examples.frame8 0 7 [t2; t1] examples.cleared8 = Some b' ∧
    ∀ g1 g2, g1 ∈ f1 → g2 ∈ f2 → coords g1 = coords g2 →
      ∃ zb cb,
        draw.pixel examples.frame8 examples.cleared8 (draw.fx g1) (draw.fy g1)
          = Some (zb, cb) ∧
        draw.pixel examples.frame8 b' (draw.fx g1) (draw.fy g1)
          = Some (if f32.gt (draw.fz g1) zb then (draw.fz g1, draw.rgba t1)
                  else (zb, cb)).
Proof.
  intros t1 t2 f1 f2.
  assert (H1 : Forall (fun g => draw.fz g = f32.one) f1)
    by (vm_compute; repeat constructor).
  assert (H2 : Forall (fun g => draw.fz g = f32.half) f2)
    by (vm_compute; repeat constructor).
  apply (depth_test_order_independent examples.frame8 0 7 t1 t2 examples.cleared8 f1 f2).
  - unfold frame_ok. vm_compute. intuition discriminate.
  - vm_compute. reflexivity.
  - vm_compute. reflexivity.
  - intros g1 g2 Hg1 Hg2 _.
    rewrite (proj1 (Forall_forall _ _) H1 g1 Hg1), (proj1 (Forall_forall _ _) H2 g2 Hg2).
    vm_compute. reflexivity.
Defined.

(** C8, as stated, fails.  Two triangles with the same outline at the NDC
    depths [0] and [2^-30], the first nearer: [make_svtx] stores
    [1.0f - 0 = 1.0f] for the one and [1.0f - 2^-30], which rounds to
    [1.0f], for the other, so that neither depth passes [z > *zptr]
    against the other and the pixels keep the triangle that was drawn
    first.  Drawn after the farther triangle, the nearer one leaves the
    colour of the farther one at pixel [(3, 3)]. *)
Lemma equal_rounded_depths_keep_first_drawn :
  let near := examples.facing f32.zero 1 in
  let far := examples.facing examples.tiny 2 in
  let svtx t := draw.make_svtx (draw.hp0 t) (draw.fw examples.frame8)
                               (draw.fh examples.frame8) in
  f32.lt f32.zero examples.tiny = true ∧
  draw.z (svtx near) = f32.one ∧ draw.z (svtx far) = f32.one ∧
  (b ← draw.draw_world_slice examples.frame8 0 7 [near; far] examples.cleared8;
   draw.pixel examples.frame8 b 3 3) = Some (f32.one, 1) ∧
  (b ← draw.draw_world_slice examples.frame8 0 7 [far; near] examples.cleared8;
   draw.pixel examples.frame8 b 3 3) = Some (f32.one, 2).
Proof.
  intros near far svtx. split_and!; vm_compute; reflexivity.
Qed.
